(** * FuzzerMutate and TypeVisitorCallbackPipeline

    A shallow embedding of [FuzzerMutate.cpp] (class [MutationDispatcher],
    the mutation engine of the fuzzer) and of
    [TypeVisitorCallbackPipeline.h], and the properties of their
    specification.

    Conventions of the embedding of [MutationDispatcher].
    - [size_t], [uint64_t] and the other unsigned types are [Z] with the
      wrap-around written out ([size_t], [uintN]).
    - A byte buffer ([uint8_t *] with its capacity) is a [list Z]; the
      pointer arguments of the helpers that may alias are values of
      [BufPtr].
    - A member function is a computation in the monad [M]: it threads the
      [State] (the dispatcher object and the caller's buffer) and yields
      [None] where the C++ program stops: a failed [assert], an access out
      of the bounds of a buffer or of a vector, a call through a null
      function pointer. *)

From Stdlib Require Import String.
From Stdlib Require Import ZArith List Bool Lia Permutation.
Import ListNotations.
Local Open Scope Z_scope.

(** * TypeVisitorCallbackPipeline: a pipeline of type visitors

    A shallow embedding of [TypeVisitorCallbackPipeline.h]. The interface
    [TypeVisitorCallbacks], the records and [TypeRecords.def] are declared in
    other files: the section takes them as parameters. A callback receives
    its records by reference and belongs to an object with a state of its
    own, so it is a function of the [World], the memory of the visitors and
    of the records, and yields an [Error] and the [World] it leaves. *)

Section TypeVisitorCallbackPipeline.

Variable World : Type.

(** What an [llvm::Error] carries when it is not [Error::success()]. *)
Variable ErrorInfo : Type.

(** References to a [CVType], which is a [CVRecord<TypeLeafKind>], to a
    [CVMemberRecord] and to a deserialized record. *)
Variable CVType : Type.
Variable CVMemberRecord : Type.
Variable KnownRecord : Type.

(** The names of the [TYPE_RECORD] and of the [MEMBER_RECORD] entries of
    [TypeRecords.def]. *)
Variable TypeRecordName : Type.
Variable MemberRecordName : Type.

(** [llvm::Error]: success, or failure with its information; converted to
    [bool] it is true on failure. *)
Definition Error : Type := option ErrorInfo.

Definition Error_success : Error := None.

(** The interface [TypeVisitorCallbacks], as far as the pipeline overrides
    it. *)
Record TypeVisitorCallbacks : Type := mkTypeVisitorCallbacks {
  visitUnknownType : CVType -> World -> Error * World;
  visitUnknownMember : CVMemberRecord -> World -> Error * World;
  visitTypeBegin : CVType -> World -> Error * World;
  visitTypeEnd : CVType -> World -> Error * World;
  visitMemberBegin : CVMemberRecord -> World -> Error * World;
  visitMemberEnd : CVMemberRecord -> World -> Error * World;
  visitKnownRecord : TypeRecordName -> CVType -> KnownRecord -> World -> Error * World;
  visitKnownMember :
    MemberRecordName -> CVMemberRecord -> KnownRecord -> World -> Error * World
}.

(** The loop every method of the pipeline runs:
    [for (auto Visitor : Pipeline) { if (auto EC = Visitor->visit(...)) return EC; }
     return Error::success();] *)
Fixpoint for_each_Visitor (Pipeline : list TypeVisitorCallbacks)
    (visit : TypeVisitorCallbacks -> World -> Error * World) (w : World) : Error * World :=
  match Pipeline with
  | [] => (Error_success, w)
  | Visitor :: rest =>
      match visit Visitor w with
      | (Some EC, w') => (Some EC, w')
      | (None, w') => for_each_Visitor rest visit w'
      end
  end.

(** The class: an object is its vector [Pipeline], and it is a
    [TypeVisitorCallbacks] itself. *)
Definition TypeVisitorCallbackPipeline (Pipeline : list TypeVisitorCallbacks) :
    TypeVisitorCallbacks :=
  {| visitUnknownType Record :=
       for_each_Visitor Pipeline (fun Visitor => visitUnknownType Visitor Record);
     visitUnknownMember Record :=
       for_each_Visitor Pipeline (fun Visitor => visitUnknownMember Visitor Record);
     visitTypeBegin Record :=
       for_each_Visitor Pipeline (fun Visitor => visitTypeBegin Visitor Record);
     visitTypeEnd Record :=
       for_each_Visitor Pipeline (fun Visitor => visitTypeEnd Visitor Record);
     visitMemberBegin Record :=
       for_each_Visitor Pipeline (fun Visitor => visitMemberBegin Visitor Record);
     visitMemberEnd Record :=
       for_each_Visitor Pipeline (fun Visitor => visitMemberEnd Visitor Record);
     visitKnownRecord Name CVR Record :=
       for_each_Visitor Pipeline (fun Visitor => visitKnownRecord Visitor Name CVR Record);
     visitKnownMember Name CVMR Record :=
       for_each_Visitor Pipeline (fun Visitor => visitKnownMember Visitor Name CVMR Record)
  |}.

(** [addCallbackToPipeline]: [Pipeline.push_back(&Callbacks)]. *)
Definition addCallbackToPipeline (Pipeline : list TypeVisitorCallbacks)
    (Callbacks : TypeVisitorCallbacks) : list TypeVisitorCallbacks :=
  Pipeline ++ [Callbacks].

(** A call of one of the methods of the interface, with its arguments. *)
Inductive Visit : Type :=
| UnknownType (Record : CVType)
| UnknownMember (Record : CVMemberRecord)
| TypeBegin (Record : CVType)
| TypeEnd (Record : CVType)
| MemberBegin (Record : CVMemberRecord)
| MemberEnd (Record : CVMemberRecord)
| KnownRecordOf (Name : TypeRecordName) (CVR : CVType) (Record : KnownRecord)
| KnownMemberOf (Name : MemberRecordName) (CVMR : CVMemberRecord) (Record : KnownRecord).

(** The call [v] on the object [Callbacks]. *)
Definition visited (Callbacks : TypeVisitorCallbacks) (v : Visit) :
    World -> Error * World :=
  match v with
  | UnknownType Record => visitUnknownType Callbacks Record
  | UnknownMember Record => visitUnknownMember Callbacks Record
  | TypeBegin Record => visitTypeBegin Callbacks Record
  | TypeEnd Record => visitTypeEnd Callbacks Record
  | MemberBegin Record => visitMemberBegin Callbacks Record
  | MemberEnd Record => visitMemberEnd Callbacks Record
  | KnownRecordOf Name CVR Record => visitKnownRecord Callbacks Name CVR Record
  | KnownMemberOf Name CVMR Record => visitKnownMember Callbacks Name CVMR Record
  end.

End TypeVisitorCallbackPipeline.

Arguments Error_success {ErrorInfo}.
Arguments for_each_Visitor {World ErrorInfo CVType CVMemberRecord KnownRecord
  TypeRecordName MemberRecordName}.
Arguments TypeVisitorCallbackPipeline {World ErrorInfo CVType CVMemberRecord KnownRecord
  TypeRecordName MemberRecordName}.
Arguments addCallbackToPipeline {World ErrorInfo CVType CVMemberRecord KnownRecord
  TypeRecordName MemberRecordName}.
Arguments visited {World ErrorInfo CVType CVMemberRecord KnownRecord
  TypeRecordName MemberRecordName}.

(** * MutationDispatcher: the definitions *)

(** ** Machine integers *)

Definition SIZE_BITS : Z := 64.
Definition SIZE_MOD : Z := 2 ^ SIZE_BITS.
Definition SIZE_MAX : Z := SIZE_MOD - 1.  (* std::numeric_limits<size_t>::max() *)
Definition PTRDIFF_MAX : Z := 2 ^ 63 - 1.

(** Conversion to [size_t]: the value modulo [2^64]. *)
Definition size_t (z : Z) : Z := z mod SIZE_MOD.

(** Conversion to an unsigned type of [bits] bits. *)
Definition uintN (bits : Z) (z : Z) : Z := z mod 2 ^ bits.
Definition uint8_t : Z -> Z := uintN 8.
Definition uint64_t : Z -> Z := uintN 64.

Definition std_min (a b : Z) : Z := if b <? a then b else a.

(** ** Buffers *)

Definition nat_of (z : Z) : nat := Z.to_nat z.
Definition len {A} (l : list A) : Z := Z.of_nat (length l).

(** [l[off, off + n)], when that range lies within [l]. *)
Definition slice {A} (l : list A) (off n : Z) : option (list A) :=
  if (0 <=? off) && (0 <=? n) && (off + n <=? len l)
  then Some (firstn (nat_of n) (skipn (nat_of off) l))
  else None.

(** [l] with [bs] written at offset [off], when that range lies within [l]. *)
Definition splice {A} (l : list A) (off : Z) (bs : list A) : option (list A) :=
  if (0 <=? off) && (off + len bs <=? len l)
  then Some (firstn (nat_of off) l ++ bs ++ skipn (nat_of off + length bs) l)
  else None.

(** [std::vector<T>::resize(n)]: cut to [n] elements or pad with
    value-initialised ones. *)
Definition vector_resize (v : list Z) (n : Z) : list Z :=
  firstn (nat_of n) v ++ repeat 0 (nat_of n - length v).

(** ** The random source *)

(** Modelled from the spec: class [Random] ([FuzzerRandom.h] is not among the
    sources). A seeded deterministic generator: the seed fixes the stream of
    raw [size_t] values, [cursor] counts the values drawn so far. [Rand()]
    is the next raw value, [Rand(n)] a value in [[0, n)] for [n > 0] and
    [RandBool()] a boolean. The spec leaves [Rand(0)] open; the mutators call
    it (for example [Rand(Size - ShuffleAmount)] with [ShuffleAmount = Size])
    and assert bounds that only [0] meets, so [Rand(0)] is [0]. *)
Record Random : Type := mkRandom {
  stream : nat -> Z;
  cursor : nat
}.

Definition Random_next (R : Random) : Z * Random :=
  (size_t (stream R (cursor R)), {| stream := stream R; cursor := S (cursor R) |}).

Definition Random_upto (R : Random) (n : Z) : Z * Random :=
  if n =? 0 then (0, R)
  else let '(r, R') := Random_next R in (r mod n, R').

Definition Random_bool (R : Random) : bool * Random :=
  let '(r, R') := Random_next R in (negb (r mod 2 =? 0), R').

(** ** Words and dictionaries *)

(** Modelled from the spec: [Word] ([FuzzerDictionary.h] is not among the
    sources): an immutable, comparable byte sequence. *)
Definition Word : Type := list Z.

Definition Word_eqb (a b : Word) : bool :=
  if list_eq_dec Z.eq_dec a b then true else false.

(** Modelled from the spec: [DictionaryEntry] ([FuzzerDictionary.h] is not
    among the sources): a Word plus an optional position hint, a use counter
    and a success counter. *)
Record DictionaryEntry : Type := mkDictionaryEntry {
  GetW : Word;
  PositionHint : option Z;
  GetUseCount : Z;
  GetSuccessCount : Z
}.

Definition HasPositionHint (DE : DictionaryEntry) : bool :=
  match PositionHint DE with Some _ => true | None => false end.

Definition IncUseCount (DE : DictionaryEntry) : DictionaryEntry :=
  {| GetW := GetW DE; PositionHint := PositionHint DE;
     GetUseCount := size_t (GetUseCount DE + 1);
     GetSuccessCount := GetSuccessCount DE |}.

Definition IncSuccessCount (DE : DictionaryEntry) : DictionaryEntry :=
  {| GetW := GetW DE; PositionHint := PositionHint DE;
     GetUseCount := GetUseCount DE;
     GetSuccessCount := size_t (GetSuccessCount DE + 1) |}.

(** Modelled from the spec: [Dictionary] ([FuzzerDictionary.h] is not among
    the sources): a bounded, ordered sequence of entries. The manual
    dictionary is unbounded and the others are capped: [push_back] on a
    dictionary of capacity [cap] appends while the dictionary holds fewer
    than [cap] entries and drops the entry otherwise. [ContainsWord] is a
    linear search for an entry with that Word. *)
Definition Dictionary : Type := list DictionaryEntry.

(** [Dictionary::kMaxDictSize], the capacity of a capped dictionary. The
    sources define the static member and leave its value to the header; it
    is taken to be the bound within which [AddWordToAutoDictionary] keeps
    the temporary dictionary, [1 << 14]. *)
Definition kMaxDictSize : Z := Z.shiftl 1 14.

Definition Dictionary_push_back (cap : option Z) (D : Dictionary) (DE : DictionaryEntry) :
    Dictionary :=
  match cap with
  | Some c => if len D <? c then D ++ [DE] else D
  | None => D ++ [DE]
  end.

Definition ContainsWord (D : Dictionary) (W : Word) : bool :=
  existsb (fun DE => Word_eqb (GetW DE) W) D.

(** The three dictionaries of a dispatcher; a [DictionaryEntry *] is the
    dictionary it points into and the index of the entry there. *)
Inductive DictId : Type := Manual | TempAuto | PersistentAuto.

(** The capacity of each of the three. *)
Definition capacity (D : DictId) : option Z :=
  match D with
  | Manual => None
  | TempAuto | PersistentAuto => Some kMaxDictSize
  end.

Definition DEptr : Type := (DictId * nat)%type.

(** ** The mutator registry *)

(** The member functions a [Mutator] can point to. *)
Inductive MutatorFn : Type :=
| Fn_EraseBytes
| Fn_InsertByte
| Fn_InsertRepeatedBytes
| Fn_ChangeByte
| Fn_ChangeBit
| Fn_ShuffleBytes
| Fn_ChangeASCIIInteger
| Fn_ChangeBinaryInteger
| Fn_CopyPart
| Fn_CrossOver
| Fn_AddWordFromManualDictionary
| Fn_AddWordFromTemporaryAutoDictionary
| Fn_AddWordFromPersistentAutoDictionary
| Fn_Custom
| Fn_CustomCrossOver.

Record Mutator : Type := mkMutator {
  Fn : MutatorFn;
  Name : String.string
}.

(** ** The state *)

Definition Unit : Type := list Z.

(** The fields of a [MutationDispatcher], and [Data]: the memory of the
    caller's buffer, which every entry point receives as [uint8_t *Data]. *)
Record State : Type := mkState {
  Rand_ : Random;
  Mutators : list Mutator;
  DefaultMutators : list Mutator;
  ManualDictionary : Dictionary;
  TempAutoDictionary : Dictionary;
  PersistentAutoDictionary : Dictionary;
  CurrentMutatorSequence : list Mutator;
  CurrentDictionaryEntrySequence : list DEptr;
  Corpus : option (list Unit);
  MutateInPlaceHere : list Z;
  Data : list Z
}.

Definition set_Rand (R : Random) (s : State) : State :=
  mkState R (Mutators s) (DefaultMutators s) (ManualDictionary s)
    (TempAutoDictionary s) (PersistentAutoDictionary s)
    (CurrentMutatorSequence s) (CurrentDictionaryEntrySequence s) (Corpus s)
    (MutateInPlaceHere s) (Data s).

Definition set_Dictionary (D : DictId) (d : Dictionary) (s : State) : State :=
  mkState (Rand_ s) (Mutators s) (DefaultMutators s)
    (match D with Manual => d | _ => ManualDictionary s end)
    (match D with TempAuto => d | _ => TempAutoDictionary s end)
    (match D with PersistentAuto => d | _ => PersistentAutoDictionary s end)
    (CurrentMutatorSequence s) (CurrentDictionaryEntrySequence s) (Corpus s)
    (MutateInPlaceHere s) (Data s).

Definition set_CurrentMutatorSequence (l : list Mutator) (s : State) : State :=
  mkState (Rand_ s) (Mutators s) (DefaultMutators s) (ManualDictionary s)
    (TempAutoDictionary s) (PersistentAutoDictionary s)
    l (CurrentDictionaryEntrySequence s) (Corpus s)
    (MutateInPlaceHere s) (Data s).

Definition set_CurrentDictionaryEntrySequence (l : list DEptr) (s : State) : State :=
  mkState (Rand_ s) (Mutators s) (DefaultMutators s) (ManualDictionary s)
    (TempAutoDictionary s) (PersistentAutoDictionary s)
    (CurrentMutatorSequence s) l (Corpus s)
    (MutateInPlaceHere s) (Data s).

Definition set_Corpus (c : option (list Unit)) (s : State) : State :=
  mkState (Rand_ s) (Mutators s) (DefaultMutators s) (ManualDictionary s)
    (TempAutoDictionary s) (PersistentAutoDictionary s)
    (CurrentMutatorSequence s) (CurrentDictionaryEntrySequence s) c
    (MutateInPlaceHere s) (Data s).

Definition set_MutateInPlaceHere (v : list Z) (s : State) : State :=
  mkState (Rand_ s) (Mutators s) (DefaultMutators s) (ManualDictionary s)
    (TempAutoDictionary s) (PersistentAutoDictionary s)
    (CurrentMutatorSequence s) (CurrentDictionaryEntrySequence s) (Corpus s)
    v (Data s).

Definition set_Data (d : list Z) (s : State) : State :=
  mkState (Rand_ s) (Mutators s) (DefaultMutators s) (ManualDictionary s)
    (TempAutoDictionary s) (PersistentAutoDictionary s)
    (CurrentMutatorSequence s) (CurrentDictionaryEntrySequence s) (Corpus s)
    (MutateInPlaceHere s) d.

Definition get_Dictionary (D : DictId) (s : State) : Dictionary :=
  match D with
  | Manual => ManualDictionary s
  | TempAuto => TempAutoDictionary s
  | PersistentAuto => PersistentAutoDictionary s
  end.

(** ** The monad of member functions *)

Definition M (A : Type) : Type := State -> option (A * State).

Definition ret {A} (a : A) : M A := fun s => Some (a, s).

Definition bind {A B} (m : M A) (f : A -> M B) : M B :=
  fun s => match m s with
           | Some (a, s') => f a s'
           | None => None
           end.

(** The program stops here. *)
Definition abort {A} : M A := fun _ => None.

Declare Scope monad_scope.
Delimit Scope monad_scope with monad.
Notation "x <- m ;; k" := (bind m (fun x => k))
  (at level 61, m at next level, right associativity) : monad_scope.
Notation "m ;; k" := (bind m (fun _ => k))
  (at level 61, right associativity) : monad_scope.
Local Open Scope monad_scope.

Definition assert (b : bool) : M unit := if b then ret tt else abort.

Definition gets {A} (f : State -> A) : M A := fun s => Some (f s, s).

Definition modify (f : State -> State) : M unit := fun s => Some (tt, f s).

(** [Rand.Rand()], [Rand(n)] and [Rand.RandBool()]. *)
Definition RandRaw : M Z :=
  fun s => let '(r, R) := Random_next (Rand_ s) in Some (r, set_Rand R s).

Definition Rand (n : Z) : M Z :=
  fun s => let '(r, R) := Random_upto (Rand_ s) n in Some (r, set_Rand R s).

Definition RandBool : M bool :=
  fun s => let '(r, R) := Random_bool (Rand_ s) in Some (r, set_Rand R s).

(** [v[i]] of a [std::vector]; out of range the program stops. *)
Definition at_ {A} (v : list A) (i : Z) : M A :=
  if 0 <=? i then
    match nth_error v (nat_of i) with
    | Some a => ret a
    | None => abort
    end
  else abort.

(** *** Pointers into the buffers

    [Data_ptr] is the caller's buffer, [Scratch_ptr] is
    [MutateInPlaceHere.data()], [Const_ptr bs] is the storage of a constant
    object (a corpus unit, a word) holding [bs]. *)
Inductive BufPtr : Type :=
| Data_ptr
| Scratch_ptr
| Const_ptr (bs : list Z).

Definition read_buf (p : BufPtr) (s : State) : list Z :=
  match p with
  | Data_ptr => Data s
  | Scratch_ptr => MutateInPlaceHere s
  | Const_ptr bs => bs
  end.

Definition write_buf (p : BufPtr) (l : list Z) : M unit :=
  match p with
  | Data_ptr => modify (set_Data l)
  | Scratch_ptr => modify (set_MutateInPlaceHere l)
  | Const_ptr _ => abort
  end.

(** [To == From] on two such pointers. *)
Definition BufPtr_eqb (p q : BufPtr) : bool :=
  match p, q with
  | Data_ptr, Data_ptr => true
  | Scratch_ptr, Scratch_ptr => true
  | _, _ => false
  end.

Definition lift_option {A} (o : option A) : M A :=
  match o with Some a => ret a | None => abort end.

(** [p[i]] read and written ([uint8_t]). *)
Definition load (p : BufPtr) (i : Z) : M Z :=
  l <- gets (read_buf p) ;; at_ l i.

Definition store (p : BufPtr) (i : Z) (v : Z) : M unit :=
  l <- gets (read_buf p) ;;
  l' <- lift_option (splice l i [uint8_t v]) ;;
  write_buf p l'.

(** [memmove(dst + doff, src + soff, n)]: the source range is read, then
    written to the destination. *)
Definition memmove (dst : BufPtr) (doff : Z) (src : BufPtr) (soff : Z) (n : Z) : M unit :=
  from <- gets (read_buf src) ;;
  bs <- lift_option (slice from soff n) ;;
  to <- gets (read_buf dst) ;;
  to' <- lift_option (splice to doff bs) ;;
  write_buf dst to'.

(** [memcpy]: as [memmove]; at every call the two ranges lie in different
    objects. *)
Definition memcpy : BufPtr -> Z -> BufPtr -> Z -> Z -> M unit := memmove.

(** [for (size_t i = lo; i < hi; i++) body(i)], threading an accumulator. *)
Fixpoint for_loop {A} (n : nat) (i : Z) (body : Z -> A -> M A) (a : A) : M A :=
  match n with
  | O => ret a
  | S n' => a' <- body i a ;; for_loop n' (i + 1) body a'
  end.

Definition For {A} (lo hi : Z) (body : Z -> A -> M A) (a : A) : M A :=
  for_loop (nat_of (hi - lo)) lo body a.

Definition For_ (lo hi : Z) (body : Z -> M unit) : M unit :=
  For lo hi (fun i _ => body i) tt.

(** ** Character classes and the ASCII fold *)

Definition isdigit (c : Z) : bool := (48 <=? c) && (c <=? 57).

(** The printable ASCII range, space to tilde. *)
Definition isprint (c : Z) : bool := (32 <=? c) && (c <=? 126).

(** Modelled from the spec: [ToASCII] (its definition is not among the
    sources): folds the bytes [Data[0, Size)] into the printable ASCII range.
    The high bit is dropped and what is still not printable becomes a space. *)
Definition ToASCII_byte (x : Z) : Z :=
  let y := Z.land x 127 in if isprint y then y else 32.

Definition ToASCII (Size : Z) : M unit :=
  d <- gets Data ;;
  bs <- lift_option (slice d 0 Size) ;;
  d' <- lift_option (splice d 0 (map ToASCII_byte bs)) ;;
  modify (set_Data d').

(** ** Integers in a buffer *)

(** The bytes of a value and the value of some bytes, in the byte order of
    the host (little-endian). *)
Fixpoint encode_bytes (n : nat) (v : Z) : list Z :=
  match n with
  | O => []
  | S n' => v mod 256 :: encode_bytes n' (v / 256)
  end.

Fixpoint decode_bytes (bs : list Z) : Z :=
  match bs with
  | [] => 0
  | b :: bs' => b + 256 * decode_bytes bs'
  end.

(** [Bswap] of a value of [n] bytes ([__builtin_bswapN]; the identity on
    [uint8_t]). *)
Definition Bswap (n : nat) (x : Z) : Z :=
  decode_bytes (rev (encode_bytes n x)).

(** The characters of [Special] in [RandCh], with the terminating zero. *)
Definition Special : list Z :=
  [33; 42; 39; 40; 41; 59; 58; 64; 38; 61; 43; 36; 44; 47; 63; 37; 35; 91;
   93; 48; 49; 50; 65; 122; 45; 96; 126; 46; 255; 0; 0].

(** [sizeof(Special)]: [Special] is a [const char *], so this is the size of
    a pointer, as wide as [size_t]. *)
Definition sizeof_Special : Z := SIZE_BITS / 8.

(** [RandCh]: the byte of the [char] it returns. *)
Definition RandCh : M Z :=
  b <- RandBool ;;
  if b then r <- Rand 256 ;; ret (uint8_t r)
  else i <- Rand (size_t (sizeof_Special - 1)) ;; at_ Special i.

(** [std::swap(p[i], p[j])]. *)
Definition swap_bytes (p : BufPtr) (i j : Z) : M unit :=
  a <- load p i ;;
  b <- load p j ;;
  store p i b ;;
  store p j a.

(** [std::random_shuffle(p + first, p + last, Rand)] of the C++ standard
    library: each element but the first is swapped with a random one at or
    before it. *)
Definition random_shuffle (p : BufPtr) (first last : Z) : M unit :=
  For_ (first + 1) last (fun i =>
    r <- Rand (size_t (i - first + 1)) ;;
    let j := first + r in
    if i =? j then ret tt else swap_bytes p i j).

(** The 13 entries of [DefaultMutators], in the order of the constructor. *)
Definition DefaultMutators_list : list Mutator :=
  [ mkMutator Fn_EraseBytes "EraseBytes"%string;
    mkMutator Fn_InsertByte "InsertByte"%string;
    mkMutator Fn_InsertRepeatedBytes "InsertRepeatedBytes"%string;
    mkMutator Fn_ChangeByte "ChangeByte"%string;
    mkMutator Fn_ChangeBit "ChangeBit"%string;
    mkMutator Fn_ShuffleBytes "ShuffleBytes"%string;
    mkMutator Fn_ChangeASCIIInteger "ChangeASCIIInt"%string;
    mkMutator Fn_ChangeBinaryInteger "ChangeBinInt"%string;
    mkMutator Fn_CopyPart "CopyPart"%string;
    mkMutator Fn_CrossOver "CrossOver"%string;
    mkMutator Fn_AddWordFromManualDictionary "AddFromManualDict"%string;
    mkMutator Fn_AddWordFromTemporaryAutoDictionary "AddFromTempAutoDict"%string;
    mkMutator Fn_AddWordFromPersistentAutoDictionary "AddFromPersAutoDict"%string ].

(** [v[i] = a] on a vector, where [i] is in range. *)
Definition list_set {A} (l : list A) (i : nat) (a : A) : list A :=
  firstn i l ++ a :: skipn (S i) l.

(** [*DE] for a [DictionaryEntry *DE]; a pointer past the end of its
    dictionary is dangling. *)
Definition deref (p : DEptr) : M DictionaryEntry :=
  D <- gets (get_Dictionary (fst p)) ;;
  lift_option (nth_error D (snd p)).

(** An update through a [DictionaryEntry *]. *)
Definition update_through (p : DEptr) (f : DictionaryEntry -> DictionaryEntry) : M unit :=
  DE <- deref p ;;
  D <- gets (get_Dictionary (fst p)) ;;
  modify (set_Dictionary (fst p) (list_set D (snd p) (f DE))).

(** ** Inputs of the concrete runs

    A random source that yields the values of a list, then zeros; a
    constructor that reads the number it is given as the success counter, as
    the spec does; a crossover that makes a unit of the first byte of the
    first input; a dispatcher without custom callbacks, on the caller's
    buffer [buffer]. *)
Definition stream_of (l : list Z) : nat -> Z := fun n => nth n l 0.

Definition Random_of (l : list Z) : Random := mkRandom (stream_of l) 0.

Definition example_make (W : Word) (n : Z) : DictionaryEntry :=
  mkDictionaryEntry W None 0 n.

Definition example_CrossOver (Data1 : list Z) (Size1 : Z) (Data2 : list Z) (Size2 : Z)
    (Out : list Z) (MaxOutSize : Z) (R : Random) : Z * list Z * Random :=
  match Data1, Out with
  | x :: _, _ :: Out' => (1, x :: Out', R)
  | _, _ => (1, Out, R)
  end.

Definition example_state (draws : list Z) (buffer : list Z) : State :=
  mkState (Random_of draws) DefaultMutators_list DefaultMutators_list
    [] [] [] [] [] None [] buffer.

(** ** The dispatcher *)

Section Dispatcher.

(** What the sources leave to other files. *)

(** [Options.OnlyASCII]. *)
Variable OnlyASCII : bool.

(** [DictionaryEntry(W, n)], the constructor of two arguments used by
    [AddWordToManualDictionary] and [RecordSuccessfulMutationSequence]; the
    class is not among the sources, and all that is used of the new entry is
    its Word ([DictionaryEntry_GetW] below). *)
Variable DictionaryEntry_make : Word -> Z -> DictionaryEntry.
Hypothesis DictionaryEntry_GetW :
  forall (W : Word) (n : Z), GetW (DictionaryEntry_make W n) = W.

(** [MutationDispatcher::CrossOver(Data1, Size1, Data2, Size2, Out,
    MaxOutSize)], defined in another file: from the memory of the two inputs
    and of [Out] and the random source, the size it returns, the memory of
    [Out] and the random source afterwards. *)
Variable CrossOver :
  list Z -> Z -> list Z -> Z -> list Z -> Z -> Random -> Z * list Z * Random.

(** [EF->LLVMFuzzerCustomMutator(Data, Size, MaxSize, Seed)], when the host
    supplies it: the size it returns and the memory of [Data] afterwards. *)
Variable LLVMFuzzerCustomMutator :
  option (list Z -> Z -> Z -> Z -> Z * list Z).

(** [EF->LLVMFuzzerCustomCrossOver(Data1, Size1, Data2, Size2, Out,
    MaxOutSize, Seed)], when the host supplies it: the size it returns and
    the memory of [Out] afterwards. *)
Variable LLVMFuzzerCustomCrossOver :
  option (list Z -> Z -> list Z -> Z -> list Z -> Z -> Z -> Z * list Z).

(** The constructor: the registry is the default set, or the custom mutator
    alone, and the custom crossover after either. *)
Definition MutationDispatcher (R : Random) : State :=
  let Mutators0 :=
    match LLVMFuzzerCustomMutator with
    | Some _ => [mkMutator Fn_Custom "Custom"%string]
    | None => DefaultMutators_list
    end in
  let Mutators1 :=
    match LLVMFuzzerCustomCrossOver with
    | Some _ => Mutators0 ++ [mkMutator Fn_CustomCrossOver "CustomCrossOver"%string]
    | None => Mutators0
    end in
  mkState R Mutators1 DefaultMutators_list [] [] [] [] [] None [] [].

Definition Mutate_Custom (Size MaxSize : Z) : M Z :=
  match LLVMFuzzerCustomMutator with
  | None => abort
  | Some f =>
      Seed <- RandRaw ;;
      d <- gets Data ;;
      let '(NewSize, d') := f d Size MaxSize (uintN 32 Seed) in
      modify (set_Data d') ;;
      ret (size_t NewSize)
  end.

Definition Mutate_CustomCrossOver (Size MaxSize : Z) : M Z :=
  c <- gets Corpus ;;
  match c with
  | None => ret 0
  | Some units =>
      if (len units <? 2) || (Size =? 0) then ret 0 else
      Idx <- Rand (len units) ;;
      Other <- at_ units Idx ;;
      if len Other =? 0 then ret 0 else
      modify (fun s => set_MutateInPlaceHere (vector_resize (MutateInPlaceHere s) MaxSize) s) ;;
      U <- gets MutateInPlaceHere ;;
      match LLVMFuzzerCustomCrossOver with
      | None => abort
      | Some f =>
          Seed <- RandRaw ;;
          d <- gets Data ;;
          let '(NewSize, U') := f d Size Other (len Other) U (len U) (uintN 32 Seed) in
          modify (set_MutateInPlaceHere U') ;;
          let NewSize := size_t NewSize in
          if NewSize =? 0 then ret 0 else
          assert (NewSize <=? MaxSize) ;;
          memcpy Data_ptr 0 Scratch_ptr 0 NewSize ;;
          ret NewSize
      end
  end.

Definition Mutate_ShuffleBytes (Size MaxSize : Z) : M Z :=
  assert (negb (Size =? 0)) ;;
  r <- Rand (std_min Size 8) ;;
  let ShuffleAmount := size_t (r + 1) in
  ShuffleStart <- Rand (size_t (Size - ShuffleAmount)) ;;
  assert (size_t (ShuffleStart + ShuffleAmount) <=? Size) ;;
  random_shuffle Data_ptr ShuffleStart (ShuffleStart + ShuffleAmount) ;;
  ret Size.

Definition Mutate_EraseBytes (Size MaxSize : Z) : M Z :=
  assert (negb (Size =? 0)) ;;
  if Size =? 1 then ret 0 else
  r <- Rand (Size / 2) ;;
  let N := size_t (r + 1) in
  assert (N <? Size) ;;
  Idx <- Rand (size_t (size_t (Size - N) + 1)) ;;
  memmove Data_ptr Idx Data_ptr (Idx + N) (size_t (size_t (Size - Idx) - N)) ;;
  ret (size_t (Size - N)).

Definition Mutate_InsertByte (Size MaxSize : Z) : M Z :=
  if Size =? MaxSize then ret 0 else
  Idx <- Rand (size_t (Size + 1)) ;;
  memmove Data_ptr (Idx + 1) Data_ptr Idx (size_t (Size - Idx)) ;;
  c <- RandCh ;;
  store Data_ptr Idx c ;;
  ret (size_t (Size + 1)).

Definition kMinBytesToInsert : Z := 3.

Definition Mutate_InsertRepeatedBytes (Size MaxSize : Z) : M Z :=
  if size_t (Size + kMinBytesToInsert) >=? MaxSize then ret 0 else
  let MaxBytesToInsert := std_min (size_t (MaxSize - Size)) 128 in
  r <- Rand (size_t (size_t (MaxBytesToInsert - kMinBytesToInsert) + 1)) ;;
  let N := size_t (r + kMinBytesToInsert) in
  assert ((size_t (Size + N) <=? MaxSize) && negb (N =? 0)) ;;
  Idx <- Rand (size_t (Size + 1)) ;;
  memmove Data_ptr (Idx + N) Data_ptr Idx (size_t (Size - Idx)) ;;
  b <- RandBool ;;
  Byte <- (if b then r <- Rand 256 ;; ret (uint8_t r)
           else b' <- RandBool ;; ret (if b' then 0 else 255)) ;;
  For_ 0 N (fun i => store Data_ptr (Idx + i) Byte) ;;
  ret (size_t (Size + N)).

Definition Mutate_ChangeByte (Size MaxSize : Z) : M Z :=
  Idx <- Rand Size ;;
  c <- RandCh ;;
  store Data_ptr Idx c ;;
  ret Size.

Definition Mutate_ChangeBit (Size MaxSize : Z) : M Z :=
  Idx <- Rand Size ;;
  r <- Rand 8 ;;
  x <- load Data_ptr Idx ;;
  store Data_ptr Idx (Z.lxor x (Z.shiftl 1 r)) ;;
  ret Size.

Definition AddWordFromDictionary (D : DictId) (Size MaxSize : Z) : M Z :=
  Dv <- gets (get_Dictionary D) ;;
  if len Dv =? 0 then ret 0 else
  i <- Rand (len Dv) ;;
  DE <- at_ Dv i ;;
  let W := GetW DE in
  UsePositionHint <-
    match PositionHint DE with
    | Some h => if size_t (h + len W) <? Size then RandBool else ret false
    | None => ret false
    end ;;
  let hint := match PositionHint DE with Some h => h | None => 0 end in
  let succeed (NewSize : Z) : M Z :=
    update_through (D, nat_of i) IncUseCount ;;
    modify (fun s => set_CurrentDictionaryEntrySequence
                       (CurrentDictionaryEntrySequence s ++ [(D, nat_of i)]) s) ;;
    ret NewSize in
  b <- RandBool ;;
  if b then
    if size_t (Size + len W) >? MaxSize then ret 0 else
    Idx <- (if UsePositionHint : bool then ret hint else Rand (size_t (Size + 1))) ;;
    memmove Data_ptr (Idx + len W) Data_ptr Idx (size_t (Size - Idx)) ;;
    memcpy Data_ptr Idx (Const_ptr W) 0 (len W) ;;
    succeed (size_t (Size + len W))
  else
    if len W >? Size then ret 0 else
    Idx <- (if UsePositionHint : bool then ret hint else Rand (size_t (Size - len W))) ;;
    memcpy Data_ptr Idx (Const_ptr W) 0 (len W) ;;
    succeed Size.

Definition Mutate_AddWordFromManualDictionary (Size MaxSize : Z) : M Z :=
  AddWordFromDictionary Manual Size MaxSize.

Definition Mutate_AddWordFromTemporaryAutoDictionary (Size MaxSize : Z) : M Z :=
  AddWordFromDictionary TempAuto Size MaxSize.

Definition Mutate_AddWordFromPersistentAutoDictionary (Size MaxSize : Z) : M Z :=
  AddWordFromDictionary PersistentAuto Size MaxSize.

(** Overwrites part of [To[0,ToSize)] with a part of [From[0,FromSize)].
    Returns [ToSize]. *)
Definition CopyPartOf (From : BufPtr) (FromSize : Z) (To : BufPtr) (ToSize : Z) : M Z :=
  ToBeg <- Rand ToSize ;;
  r <- Rand (size_t (ToSize - ToBeg)) ;;
  let CopySize := size_t (r + 1) in
  assert (size_t (ToBeg + CopySize) <=? ToSize) ;;
  let CopySize := std_min CopySize FromSize in
  FromBeg <- Rand (size_t (size_t (FromSize - CopySize) + 1)) ;;
  assert (size_t (FromBeg + CopySize) <=? FromSize) ;;
  memmove To ToBeg From FromBeg CopySize ;;
  ret ToSize.

(** Inserts part of [From[0,FromSize)] into [To].
    Returns the new size of [To] on success or 0 on failure. *)
Definition InsertPartOf (From : BufPtr) (FromSize : Z) (To : BufPtr) (ToSize : Z)
    (MaxToSize : Z) : M Z :=
  if ToSize >=? MaxToSize then ret 0 else
  let AvailableSpace := size_t (MaxToSize - ToSize) in
  let MaxCopySize := std_min AvailableSpace FromSize in
  r <- Rand MaxCopySize ;;
  let CopySize := size_t (r + 1) in
  FromBeg <- Rand (size_t (size_t (FromSize - CopySize) + 1)) ;;
  assert (size_t (FromBeg + CopySize) <=? FromSize) ;;
  ToInsertPos <- Rand (size_t (ToSize + 1)) ;;
  assert (size_t (ToInsertPos + CopySize) <=? MaxToSize) ;;
  let TailSize := size_t (ToSize - ToInsertPos) in
  (if BufPtr_eqb To From then
     modify (fun s => set_MutateInPlaceHere (vector_resize (MutateInPlaceHere s) MaxToSize) s) ;;
     memcpy Scratch_ptr 0 From FromBeg CopySize ;;
     memmove To (ToInsertPos + CopySize) To ToInsertPos TailSize ;;
     memmove To ToInsertPos Scratch_ptr 0 CopySize
   else
     memmove To (ToInsertPos + CopySize) To ToInsertPos TailSize ;;
     memmove To ToInsertPos From FromBeg CopySize) ;;
  ret (size_t (ToSize + CopySize)).

Definition Mutate_CopyPart (Size MaxSize : Z) : M Z :=
  b <- RandBool ;;
  if b then CopyPartOf Data_ptr Size Data_ptr Size
  else InsertPartOf Data_ptr Size Data_ptr Size MaxSize.

(** [while (B < Size && p(Data[B])) B++;], the value of [B] after it. The
    loop runs at most [Size - B] times, which [fuel] counts. *)
Fixpoint scan_while (fuel : nat) (p : Z -> bool) (Size B : Z) : M Z :=
  if B <? Size then
    x <- load Data_ptr B ;;
    if p x then
      match fuel with
      | O => abort
      | S fuel' => scan_while fuel' p Size (B + 1)
      end
    else ret B
  else ret B.

Definition Mutate_ChangeASCIIInteger (Size MaxSize : Z) : M Z :=
  B <- Rand Size ;;
  B <- scan_while (nat_of Size) (fun x => negb (isdigit x)) Size B ;;
  if B =? Size then ret 0 else
  E <- scan_while (nat_of Size) isdigit Size B ;;
  assert (B <? E) ;;
  (* now we have digits in [B, E). *)
  x <- load Data_ptr B ;;
  Val <- For (B + 1) E (fun i Val =>
           x <- load Data_ptr i ;; ret (uint64_t (Val * 10 + x - 48)))
         (uint64_t (x - 48)) ;;
  (* Mutate the integer value. *)
  k <- Rand 5 ;;
  Val <- (if k =? 0 then ret (uint64_t (Val + 1))
          else if k =? 1 then ret (uint64_t (Val - 1))
          else if k =? 2 then ret (Val / 2)
          else if k =? 3 then ret (uint64_t (Val * 2))
          else if k =? 4 then Rand (uint64_t (Val * Val))
          else abort) ;;
  (* Just replace the bytes with the new ones, don't bother moving bytes. *)
  For B E (fun i Val =>
    let Idx := size_t (E + B - i - 1) in
    assert ((Idx >=? B) && (Idx <? E)) ;;
    store Data_ptr Idx (Val mod 10 + 48) ;;
    ret (Val / 10)) Val ;;
  ret Size.

(** [ChangeBinaryInteger<T>] for a [T] of [sizeof_T] bytes. *)
Definition ChangeBinaryInteger (sizeof_T : nat) (Size : Z) : M Z :=
  let T := uintN (8 * Z.of_nat sizeof_T) in
  if Size <? Z.of_nat sizeof_T then ret 0 else
  Off <- Rand (size_t (size_t (Size - Z.of_nat sizeof_T) + 1)) ;;
  assert (size_t (Off + Z.of_nat sizeof_T) <=? Size) ;;
  d <- gets Data ;;
  bs <- lift_option (slice d Off (Z.of_nat sizeof_T)) ;;
  let Val := decode_bytes bs in
  r <- Rand 21 ;;
  let Add := T (T r - 10) in
  b <- RandBool ;;
  let Val := if b then Bswap sizeof_T (T (Bswap sizeof_T Val + Add))
             else T (Val + Add) in
  negate <- (if Add =? 0 then ret true else RandBool) ;;
  let Val := if negate : bool then T (- Val) else Val in
  memcpy Data_ptr Off (Const_ptr (encode_bytes sizeof_T Val)) 0 (Z.of_nat sizeof_T) ;;
  ret Size.

Definition Mutate_ChangeBinaryInteger (Size MaxSize : Z) : M Z :=
  k <- Rand 4 ;;
  if k =? 3 then ChangeBinaryInteger 8 Size
  else if k =? 2 then ChangeBinaryInteger 4 Size
  else if k =? 1 then ChangeBinaryInteger 2 Size
  else if k =? 0 then ChangeBinaryInteger 1 Size
  else abort.

Definition Mutate_CrossOver (Size MaxSize : Z) : M Z :=
  c <- gets Corpus ;;
  match c with
  | None => ret 0
  | Some units =>
      if (len units <? 2) || (Size =? 0) then ret 0 else
      Idx <- Rand (len units) ;;
      O <- at_ units Idx ;;
      if len O =? 0 then ret 0 else
      modify (fun s => set_MutateInPlaceHere (vector_resize (MutateInPlaceHere s) MaxSize) s) ;;
      U_size <- gets (fun s => len (MutateInPlaceHere s)) ;;
      k <- Rand 3 ;;
      NewSize <-
        (if k =? 0 then
           fun s =>
             let '(n, U', R') :=
               CrossOver (Data s) Size O (len O) (MutateInPlaceHere s) U_size (Rand_ s) in
             Some (size_t n, set_Rand R' (set_MutateInPlaceHere U' s))
         else if k =? 1 then
           NewSize <- InsertPartOf (Const_ptr O) (len O) Scratch_ptr U_size MaxSize ;;
           if negb (NewSize =? 0) then ret NewSize
           else CopyPartOf (Const_ptr O) (len O) Scratch_ptr U_size
         else if k =? 2 then
           CopyPartOf (Const_ptr O) (len O) Scratch_ptr U_size
         else abort) ;;
      assert (NewSize >? 0) ;;
      assert (NewSize <=? MaxSize) ;;
      memcpy Data_ptr 0 Scratch_ptr 0 NewSize ;;
      ret NewSize
  end.

(** [(this->*Fn)(Data, Size, MaxSize)]. *)
Definition call (f : MutatorFn) (Size MaxSize : Z) : M Z :=
  match f with
  | Fn_EraseBytes => Mutate_EraseBytes Size MaxSize
  | Fn_InsertByte => Mutate_InsertByte Size MaxSize
  | Fn_InsertRepeatedBytes => Mutate_InsertRepeatedBytes Size MaxSize
  | Fn_ChangeByte => Mutate_ChangeByte Size MaxSize
  | Fn_ChangeBit => Mutate_ChangeBit Size MaxSize
  | Fn_ShuffleBytes => Mutate_ShuffleBytes Size MaxSize
  | Fn_ChangeASCIIInteger => Mutate_ChangeASCIIInteger Size MaxSize
  | Fn_ChangeBinaryInteger => Mutate_ChangeBinaryInteger Size MaxSize
  | Fn_CopyPart => Mutate_CopyPart Size MaxSize
  | Fn_CrossOver => Mutate_CrossOver Size MaxSize
  | Fn_AddWordFromManualDictionary => Mutate_AddWordFromManualDictionary Size MaxSize
  | Fn_AddWordFromTemporaryAutoDictionary =>
      Mutate_AddWordFromTemporaryAutoDictionary Size MaxSize
  | Fn_AddWordFromPersistentAutoDictionary =>
      Mutate_AddWordFromPersistentAutoDictionary Size MaxSize
  | Fn_Custom => Mutate_Custom Size MaxSize
  | Fn_CustomCrossOver => Mutate_CustomCrossOver Size MaxSize
  end.

Definition StartMutationSequence : M unit :=
  modify (set_CurrentMutatorSequence []) ;;
  modify (set_CurrentDictionaryEntrySequence []).

(** The body of the loop of [RecordSuccessfulMutationSequence] for one
    [DE] of [CurrentDictionaryEntrySequence]. *)
Definition RecordSuccessfulMutationSequence_body (DE : DEptr) : M unit :=
  update_through DE IncSuccessCount ;;
  E <- deref DE ;;
  P <- gets PersistentAutoDictionary ;;
  if negb (ContainsWord P (GetW E))
  then modify (set_Dictionary PersistentAuto
                 (Dictionary_push_back (capacity PersistentAuto) P
                    (DictionaryEntry_make (GetW E) 1)))
  else ret tt.

Fixpoint for_each {A} (l : list A) (body : A -> M unit) : M unit :=
  match l with
  | [] => ret tt
  | a :: l' => body a ;; for_each l' body
  end.

(** Copy successful dictionary entries to [PersistentAutoDictionary]. *)
Definition RecordSuccessfulMutationSequence : M unit :=
  seq <- gets CurrentDictionaryEntrySequence ;;
  for_each seq RecordSuccessfulMutationSequence_body.

(** [PrintRecommendedDictionary]: the entries [V] that it prints. *)
Definition PrintRecommendedDictionary : M (list DictionaryEntry) :=
  P <- gets PersistentAutoDictionary ;;
  Md <- gets ManualDictionary ;;
  ret (filter (fun DE => negb (ContainsWord Md (GetW DE))) P).

(** [PrintMutationSequence]: the names and the words that it prints. *)
Definition PrintMutationSequence : M (list String.string * list Word) :=
  Ms <- gets CurrentMutatorSequence ;;
  seq <- gets CurrentDictionaryEntrySequence ;;
  Ws <- (fix words (l : list DEptr) : M (list Word) :=
           match l with
           | [] => ret []
           | p :: l' => E <- deref p ;; Ws <- words l' ;; ret (GetW E :: Ws)
           end) seq ;;
  ret (map Name Ms, Ws).

(** The loop of [MutateImpl]: [Iter] more attempts. *)
Fixpoint MutateImpl_loop (Iter : nat) (Size MaxSize : Z) (Mutators : list Mutator) : M Z :=
  match Iter with
  | O => ret Size
  | S Iter' =>
      i <- Rand (len Mutators) ;;
      Mu <- at_ Mutators i ;;
      NewSize <- call (Fn Mu) Size MaxSize ;;
      if negb (NewSize =? 0) then
        (if OnlyASCII then ToASCII NewSize else ret tt) ;;
        modify (fun s => set_CurrentMutatorSequence (CurrentMutatorSequence s ++ [Mu]) s) ;;
        ret NewSize
      else MutateImpl_loop Iter' Size MaxSize Mutators
  end.

(** Mutates [Data] in place, returns new size. *)
Definition MutateImpl (Size MaxSize : Z) (Mutators : list Mutator) : M Z :=
  assert (MaxSize >? 0) ;;
  assert (Size <=? MaxSize) ;;
  if Size =? 0 then
    For_ 0 MaxSize (fun i => c <- RandCh ;; store Data_ptr i c) ;;
    (if OnlyASCII then ToASCII MaxSize else ret tt) ;;
    ret MaxSize
  else
    assert (Size >? 0) ;;
    (* Some mutations may fail (e.g. can't insert more bytes if Size == MaxSize),
       in which case they will return 0.
       Try several times before returning un-mutated data. *)
    MutateImpl_loop 10 Size MaxSize Mutators.

Definition Mutate (Size MaxSize : Z) : M Z :=
  Ms <- gets Mutators ;;
  MutateImpl Size MaxSize Ms.

Definition DefaultMutate (Size MaxSize : Z) : M Z :=
  Ms <- gets DefaultMutators ;;
  MutateImpl Size MaxSize Ms.

Definition AddWordToManualDictionary (W : Word) : M unit :=
  modify (fun s => set_Dictionary Manual
            (Dictionary_push_back (capacity Manual) (ManualDictionary s)
               (DictionaryEntry_make W SIZE_MAX)) s).

Definition kMaxAutoDictSize : Z := Z.shiftl 1 14.

Definition AddWordToAutoDictionary (DE : DictionaryEntry) : M unit :=
  D <- gets TempAutoDictionary ;;
  if len D >=? kMaxAutoDictSize then ret tt
  else modify (set_Dictionary TempAuto (Dictionary_push_back (capacity TempAuto) D DE)).

Definition ClearAutoDictionary : M unit :=
  modify (set_Dictionary TempAuto []).

(** Modelled from the spec: [SetCorpus] (of the class declaration, which is
    not among the sources): the dispatcher holds a reference to the external
    Corpus, an indexable collection of byte buffers. *)
Definition SetCorpus (units : list Unit) : M unit :=
  modify (set_Corpus (Some units)).

(** ** The dispatcher as a machine

    The operations of a dispatcher. One that mutates is called on the
    caller's buffer: its memory and the sizes [Size] and [MaxSize]. *)
Inductive Operation : Type :=
| Op_Mutate (buffer : list Z) (Size MaxSize : Z)
| Op_DefaultMutate (buffer : list Z) (Size MaxSize : Z)
| Op_Mutator (f : MutatorFn) (buffer : list Z) (Size MaxSize : Z)
| Op_StartMutationSequence
| Op_RecordSuccessfulMutationSequence
| Op_PrintRecommendedDictionary
| Op_PrintMutationSequence
| Op_AddWordToManualDictionary (W : Word)
| Op_AddWordToAutoDictionary (DE : DictionaryEntry)
| Op_ClearAutoDictionary
| Op_SetCorpus (units : list Unit).

Definition discard {A} (m : M A) : M unit := m ;; ret tt.

Definition run_operation (op : Operation) : M unit :=
  match op with
  | Op_Mutate buffer Size MaxSize =>
      modify (set_Data buffer) ;; discard (Mutate Size MaxSize)
  | Op_DefaultMutate buffer Size MaxSize =>
      modify (set_Data buffer) ;; discard (DefaultMutate Size MaxSize)
  | Op_Mutator f buffer Size MaxSize =>
      modify (set_Data buffer) ;; discard (call f Size MaxSize)
  | Op_StartMutationSequence => StartMutationSequence
  | Op_RecordSuccessfulMutationSequence => RecordSuccessfulMutationSequence
  | Op_PrintRecommendedDictionary => discard PrintRecommendedDictionary
  | Op_PrintMutationSequence => discard PrintMutationSequence
  | Op_AddWordToManualDictionary W => AddWordToManualDictionary W
  | Op_AddWordToAutoDictionary DE => AddWordToAutoDictionary DE
  | Op_ClearAutoDictionary => ClearAutoDictionary
  | Op_SetCorpus units => SetCorpus units
  end.

(** The states a dispatcher reaches from its construction by operations
    that return. *)
Inductive reachable : State -> Prop :=
| reachable_new (R : Random) : reachable (MutationDispatcher R)
| reachable_step (op : Operation) (s s' : State) :
    reachable s -> run_operation op s = Some (tt, s') -> reachable s'.

(** ** Specifications of computations *)

(** [m] returns from [s], with a value and a state that satisfy [Q]. *)
Definition returns {A} (m : M A) (s : State) (Q : A -> State -> Prop) : Prop :=
  match m s with
  | Some (a, s') => Q a s'
  | None => False
  end.

(** When [m] returns from [s], its value and state satisfy [Q]. *)
Definition ensures {A} (m : M A) (s : State) (Q : A -> State -> Prop) : Prop :=
  forall a s', m s = Some (a, s') -> Q a s'.


(** ** Notions used by the specifications *)

(** The effect of a successful [memmove] on the destination. *)
Definition moved (to : list Z) (doff : Z) (from : list Z) (soff n : Z) : list Z :=
  firstn (nat_of doff) to ++ firstn (nat_of n) (skipn (nat_of soff) from)
    ++ skipn (nat_of (doff + n)) to.

(** [d] with [n] copies of [b] written at offset [off]. *)
Definition filled (d : list Z) (off n : nat) (b : Z) : list Z :=
  firstn off d ++ repeat b n ++ skipn (off + n) d.

(** An entry whose sizes and counter are those of objects that exist: a
    Word and a position hint within the size of an object, a use counter
    that has not reached the largest [size_t]. *)
Definition DictionaryEntry_wf (DE : DictionaryEntry) : Prop :=
  len (GetW DE) <= PTRDIFF_MAX /\
  (forall h, PositionHint DE = Some h -> 0 <= h <= PTRDIFF_MAX) /\
  0 <= GetUseCount DE < SIZE_MAX.


(** The byte [RandCh] returns and the random source it leaves, as a
    function of the random source; the bytes of [n] calls in a row. *)
Definition RandCh_of (R : Random) : Z * Random :=
  let '(b, R1) := Random_bool R in
  if b then let '(r, R2) := Random_upto R1 256 in (uint8_t r, R2)
  else let '(i, R2) := Random_upto R1 (size_t (sizeof_Special - 1)) in
       (nth (nat_of i) Special 0, R2).

Fixpoint RandCh_bytes (n : nat) (R : Random) : list Z * Random :=
  match n with
  | O => ([], R)
  | S n' => let '(c, R1) := RandCh_of R in
            let '(cs, R2) := RandCh_bytes n' R1 in (c :: cs, R2)
  end.


(** One attempt of the loop of [MutateImpl]: the mutator picked and the size
    it returns. *)
Definition attempt (Size MaxSize : Z) (Ms : list Mutator) : M (Mutator * Z) :=
  i <- Rand (len Ms) ;;
  Mu <- at_ Ms i ;;
  NewSize <- call (Fn Mu) Size MaxSize ;;
  ret (Mu, NewSize).

(** What [MutateImpl] does with an attempt that returned [NewSize], not 0:
    the ASCII fold if configured, the mutator appended to
    [CurrentMutatorSequence], and [NewSize] returned. *)
Definition accept (Mu : Mutator) (NewSize : Z) : M Z :=
  (if OnlyASCII then ToASCII NewSize else ret tt) ;;
  modify (fun s => set_CurrentMutatorSequence (CurrentMutatorSequence s ++ [Mu]) s) ;;
  ret NewSize.

(** [k] attempts in a row, each returning 0, lead from [s] to [s']. *)
Inductive failed_attempts (Size MaxSize : Z) (Ms : list Mutator) :
    nat -> State -> State -> Prop :=
| failed_none (s : State) : failed_attempts Size MaxSize Ms 0 s s
| failed_more (k : nat) (s s1 s' : State) (Mu : Mutator) :
    attempt Size MaxSize Ms s = Some ((Mu, 0), s1) ->
    failed_attempts Size MaxSize Ms k s1 s' ->
    failed_attempts Size MaxSize Ms (S k) s s'.


(** Every value [m] returns satisfies [P], whatever the state. *)
Definition result_in {A} (m : M A) (P : A -> Prop) : Prop :=
  forall s, ensures m s (fun a _ => P a).


(** The Words of the three dictionaries, in order. *)
Definition words (s : State) : list Word * list Word * list Word :=
  (map GetW (ManualDictionary s), map GetW (TempAutoDictionary s),
   map GetW (PersistentAutoDictionary s)).

(** [m] leaves the Words of the dictionaries as they are. *)
Definition keeps_words {A} (m : M A) : Prop :=
  forall s, ensures m s (fun _ s' => words s' = words s).


(** A call a dispatcher can really receive: [Size] bytes of input in a
    buffer of at least [MaxSize] bytes, sizes that objects can have, and
    dictionary entries as [DictionaryEntry_wf] has them. *)
Definition valid_call (s : State) (Size MaxSize : Z) : Prop :=
  0 < Size <= MaxSize /\ MaxSize <= len (Data s) /\ MaxSize <= PTRDIFF_MAX /\
  (forall D, Forall DictionaryEntry_wf (get_Dictionary D s)) /\
  (forall units, Corpus s = Some units -> Forall (fun U : Unit => len U <= PTRDIFF_MAX) units).

(** What [Mutate_CrossOver] asserts of [CrossOver]: from two non-empty
    inputs it makes a unit that is non-empty and within [MaxOutSize], in the
    memory of [Out]. *)
Definition CrossOver_contract : Prop :=
  forall Data1 Size1 Data2 Size2 Out MaxOutSize R,
    0 < Size1 -> 0 < Size2 -> 0 < MaxOutSize <= len Out -> MaxOutSize <= PTRDIFF_MAX ->
    1 <= fst (fst (CrossOver Data1 Size1 Data2 Size2 Out MaxOutSize R)) <= MaxOutSize /\
    len (snd (fst (CrossOver Data1 Size1 Data2 Size2 Out MaxOutSize R))) = len Out.


(** From [s] to [s'] only the bytes of the caller's buffer, not their
    number, and the random source changed. *)
Definition data_step (s s' : State) : Prop :=
  exists (d : list Z) (R : Random), s' = set_Data d (set_Rand R s) /\ len d = len (Data s).


(** The buffers that [std::random_shuffle] on [[first, last)] can lead to
    from [d]: a permutation of [d] that has the bytes of [d] before [first]
    and from [last] on. *)
Definition shuffled (d : list Z) (first last : nat) (d' : list Z) : Prop :=
  Permutation d' d /\
  firstn first d' = firstn first d /\ skipn last d' = skipn last d.


(** What [ChangeBinaryInteger<T>], for a [T] of [w] bytes, makes of the
    buffer [d] that holds [Size] bytes of input: the integer [old] at some
    offset [Off], [w] bytes within the input, is replaced by [new]: [old]
    plus [Add], between -10 and 10, in the byte order of the host or in the
    other one ([swap]), and then negated or not, always when [Add] is 0. *)
Definition binary_integer_changed (w : nat) (Size : Z) (d d' : list Z) : Prop :=
  exists (Off Add : Z) (swap negate : bool),
    0 <= Off /\ Off + Z.of_nat w <= Size /\ -10 <= Add <= 10 /\
    (Add = 0 -> negate = true) /\
    let T := uintN (8 * Z.of_nat w) in
    let old := decode_bytes (firstn w (skipn (nat_of Off) d)) in
    let v := if swap then Bswap w (T (Bswap w old + Add)) else T (old + Add) in
    let new := if negate then T (- v) else v in
    d' = firstn (nat_of Off) d ++ encode_bytes w new ++ skipn (nat_of Off + w) d /\
    decode_bytes (firstn w (skipn (nat_of Off) d')) = new.


(** The bookkeeping of a dispatcher: what it holds besides the random
    source, the scratch vector and the caller's buffer. *)
Definition dictionaries (s : State) : Dictionary * Dictionary * Dictionary :=
  (ManualDictionary s, TempAutoDictionary s, PersistentAutoDictionary s).

Definition bookkeeping (s : State) :
    list Mutator * list Mutator * (Dictionary * Dictionary * Dictionary) *
    list Mutator * list DEptr * option (list Unit) :=
  (Mutators s, DefaultMutators s, dictionaries s,
   CurrentMutatorSequence s, CurrentDictionaryEntrySequence s, Corpus s).

(** [m] leaves the part [f] of the state as it is. *)
Definition unchanged {A B} (f : State -> B) (m : M A) : Prop :=
  forall s, ensures m s (fun _ s' => f s' = f s).

(** The dictionary a mutator takes its words from, if it is one of the
    three that do. *)
Definition dictionary_of (f : MutatorFn) : option DictId :=
  match f with
  | Fn_AddWordFromManualDictionary => Some Manual
  | Fn_AddWordFromTemporaryAutoDictionary => Some TempAuto
  | Fn_AddWordFromPersistentAutoDictionary => Some PersistentAuto
  | _ => None
  end.

(** The state after the entry [DE], at index [i] of the dictionary [D], was
    used: its use counter incremented, a pointer to it at the end of
    [CurrentDictionaryEntrySequence]. *)
Definition used (D : DictId) (i : nat) (DE : DictionaryEntry) (s : State) : State :=
  set_CurrentDictionaryEntrySequence (CurrentDictionaryEntrySequence s ++ [(D, i)])
    (set_Dictionary D (list_set (get_Dictionary D s) i (IncUseCount DE)) s).

(** What a call of the mutator [f] that returned [n] has left in the
    bookkeeping: a used entry when [f] took a word from a dictionary,
    nothing otherwise. *)
Definition recorded (f : MutatorFn) (n : Z) (s s' : State) : Prop :=
  match dictionary_of f with
  | Some D =>
      if n =? 0 then bookkeeping s' = bookkeeping s
      else exists (i : nat) (DE : DictionaryEntry),
             nth_error (get_Dictionary D s) i = Some DE /\
             bookkeeping s' = bookkeeping (used D i DE s)
  | None => bookkeeping s' = bookkeeping s
  end.


(** What [MutateImpl] leaves in the bookkeeping when it accepts the result
    [n] of a mutator [Mu] of the registry [Ms]: [Mu] at the end of
    [CurrentMutatorSequence], after what the call of [Mu] recorded. *)
Definition accepted (Ms : list Mutator) (n : Z) (s s' : State) : Prop :=
  exists Mu : Mutator,
    In Mu Ms /\ n <> 0 /\
    match dictionary_of (Fn Mu) with
    | Some D =>
        exists (i : nat) (DE : DictionaryEntry),
          nth_error (get_Dictionary D s) i = Some DE /\
          bookkeeping s' =
          bookkeeping (set_CurrentMutatorSequence (CurrentMutatorSequence s ++ [Mu])
                         (used D i DE s))
    | None =>
        bookkeeping s' =
        bookkeeping (set_CurrentMutatorSequence (CurrentMutatorSequence s ++ [Mu]) s)
    end.


(** The two registries of a dispatcher. *)
Definition registry (s : State) : list Mutator * list Mutator :=
  (Mutators s, DefaultMutators s).

(** [s'] is reached from [s] by operations that return. *)
Inductive reaches (s : State) : State -> Prop :=
| reaches_refl : reaches s s
| reaches_step (op : Operation) (s1 s' : State) :
    reaches s s1 -> run_operation op s1 = Some (tt, s') -> reaches s s'.


(** The value of a run of decimal digits, before the wrap to [uint64_t]: the
    loop [Val = Val * 10 + Data[i] - '0']. *)
Definition decimal (ds : list Z) : Z :=
  fold_left (fun Val c => Val * 10 + c - 48) ds 0.

(** The [n] low decimal digits of [v] as characters, the most significant
    first: what the loop [Data[Idx] = (Val % 10) + '0'; Val /= 10] writes,
    from the right. *)
Fixpoint digits (n : nat) (v : Z) : list Z :=
  match n with
  | O => []
  | S n' => digits n' (v / 10) ++ [v mod 10 + 48]
  end.

(** The values [Mutate_ChangeASCIIInteger] can change the integer [Val]
    to: one more, one less, half, twice, or a number drawn below its
    square, all in [uint64_t]. *)
Definition ASCII_integer_changed (Val NewVal : Z) : Prop :=
  NewVal = uint64_t (Val + 1) \/ NewVal = uint64_t (Val - 1) \/
  NewVal = Val / 2 \/ NewVal = uint64_t (Val * 2) \/
  (0 <= NewVal < uint64_t (Val * Val) \/ (uint64_t (Val * Val) = 0 /\ NewVal = 0)).


(** Two [DictionaryEntry *] compared. *)
Definition DictId_eq_dec (a b : DictId) : {a = b} + {a <> b}.
Proof. decide equality. Defined.

Definition DEptr_eq_dec (p q : DEptr) : {p = q} + {p <> q}.
Proof. decide equality; [apply Nat.eq_dec | apply DictId_eq_dec]. Defined.

(** How many times [CurrentDictionaryEntrySequence] holds the pointer [p]:
    the uses of that entry in the current chain. *)
Definition uses (seq : list DEptr) (p : DEptr) : nat := count_occ DEptr_eq_dec seq p.

(** * Properties *)

(** ** Machine integers *)

Lemma SIZE_MOD_eq : SIZE_MOD = 18446744073709551616.
Proof. reflexivity. Qed.

Lemma size_t_range (z : Z) : 0 <= size_t z < SIZE_MOD.
Proof. unfold size_t. apply Z.mod_pos_bound. rewrite SIZE_MOD_eq. lia. Qed.

Lemma size_t_small (z : Z) : 0 <= z < SIZE_MOD -> size_t z = z.
Proof. intros H. unfold size_t. apply Z.mod_small. exact H. Qed.

Lemma uint8_t_range (z : Z) : 0 <= uint8_t z < 256.
Proof. unfold uint8_t, uintN. apply Z.mod_pos_bound. reflexivity. Qed.

Lemma std_min_spec (a b : Z) : std_min a b = Z.min a b.
Proof. unfold std_min. destruct (Z.ltb_spec b a); lia. Qed.

(** ** The random source *)

Lemma Random_upto_range (R : Random) (n : Z) :
  0 <= n ->
  0 <= fst (Random_upto R n) /\ (0 < n -> fst (Random_upto R n) < n) /\
  (n = 0 -> fst (Random_upto R n) = 0).
Proof.
  intros Hn. unfold Random_upto.
  destruct (Z.eqb_spec n 0) as [->|Hne]; simpl.
  - lia.
  - pose proof (Z.mod_pos_bound (size_t (stream R (cursor R))) n). lia.
Qed.

(** ** Rules for [returns] and [ensures] *)

Lemma returns_ret {A} (a : A) s (Q : A -> State -> Prop) :
  Q a s -> returns (ret a) s Q.
Proof. intros H. exact H. Qed.

Lemma returns_bind {A B} (m : M A) (f : A -> M B) s (Q : B -> State -> Prop) :
  returns m s (fun a s' => returns (f a) s' Q) -> returns (bind m f) s Q.
Proof.
  unfold returns, bind. destruct (m s) as [[a s']|]; intros H; exact H.
Qed.

Lemma returns_weaken {A} (m : M A) s (P Q : A -> State -> Prop) :
  returns m s P -> (forall a s', P a s' -> Q a s') -> returns m s Q.
Proof.
  unfold returns. destruct (m s) as [[a s']|]; intros H HPQ; auto.
Qed.

Lemma returns_inv {A} (m : M A) s (Q : A -> State -> Prop) :
  returns m s Q -> exists a s', m s = Some (a, s') /\ Q a s'.
Proof.
  unfold returns. destruct (m s) as [[a s']|]; intros H; [eauto | contradiction].
Qed.

Lemma returns_intro {A} (m : M A) s a s' (Q : A -> State -> Prop) :
  m s = Some (a, s') -> Q a s' -> returns m s Q.
Proof. unfold returns. intros -> H. exact H. Qed.

Lemma returns_ensures {A} (m : M A) s (Q : A -> State -> Prop) :
  returns m s Q -> ensures m s Q.
Proof.
  unfold returns, ensures. intros H a s' E. rewrite E in H. exact H.
Qed.

Lemma returns_assert (b : bool) s (Q : unit -> State -> Prop) :
  b = true -> Q tt s -> returns (assert b) s Q.
Proof. intros -> H. exact H. Qed.

Lemma returns_gets {A} (f : State -> A) s (Q : A -> State -> Prop) :
  Q (f s) s -> returns (gets f) s Q.
Proof. intros H. exact H. Qed.

Lemma returns_modify (f : State -> State) s (Q : unit -> State -> Prop) :
  Q tt (f s) -> returns (modify f) s Q.
Proof. intros H. exact H. Qed.

Lemma returns_lift_option {A} (o : option A) a s (Q : A -> State -> Prop) :
  o = Some a -> Q a s -> returns (lift_option o) s Q.
Proof. intros -> H. exact H. Qed.

Lemma returns_Rand (n : Z) s (Q : Z -> State -> Prop) :
  0 <= n ->
  (forall r R, 0 <= r -> (0 < n -> r < n) -> (n = 0 -> r = 0) ->
               r = fst (Random_upto (Rand_ s) n) ->
               R = snd (Random_upto (Rand_ s) n) -> Q r (set_Rand R s)) ->
  returns (Rand n) s Q.
Proof.
  intros Hn H. unfold returns, Rand.
  pose proof (Random_upto_range (Rand_ s) n Hn) as (H0 & H1 & H2).
  destruct (Random_upto (Rand_ s) n) as [r R]. simpl in *.
  apply H; auto.
Qed.

Lemma returns_RandBool s (Q : bool -> State -> Prop) :
  (forall b R, b = fst (Random_bool (Rand_ s)) ->
               R = snd (Random_bool (Rand_ s)) -> Q b (set_Rand R s)) ->
  returns RandBool s Q.
Proof.
  intros H. unfold returns, RandBool.
  destruct (Random_bool (Rand_ s)) as [b R]. apply H; reflexivity.
Qed.

Lemma ensures_ret {A} (a : A) s (Q : A -> State -> Prop) :
  Q a s -> ensures (ret a) s Q.
Proof. intros H a' s' E. inversion E; subst. exact H. Qed.

Lemma ensures_abort {A} s (Q : A -> State -> Prop) : ensures abort s Q.
Proof. intros a s' E. discriminate E. Qed.

Lemma ensures_bind {A B} (m : M A) (f : A -> M B) s (Q : B -> State -> Prop) :
  ensures m s (fun a s' => ensures (f a) s' Q) -> ensures (bind m f) s Q.
Proof.
  unfold ensures, bind. intros H b s2 E.
  destruct (m s) as [[a s1]|] eqn:Em; [|discriminate].
  eapply H; eauto.
Qed.

Lemma ensures_weaken {A} (m : M A) s (P Q : A -> State -> Prop) :
  ensures m s P -> (forall a s', P a s' -> Q a s') -> ensures m s Q.
Proof. unfold ensures. intros H HPQ a s' E. auto. Qed.

Lemma ensures_assert (b : bool) s (Q : unit -> State -> Prop) :
  (b = true -> Q tt s) -> ensures (assert b) s Q.
Proof.
  intros H [] s' E. destruct b; [|discriminate].
  inversion E; subst. auto.
Qed.

Lemma ensures_gets {A} (f : State -> A) s (Q : A -> State -> Prop) :
  Q (f s) s -> ensures (gets f) s Q.
Proof. intros H a s' E. inversion E; subst. exact H. Qed.

Lemma ensures_modify (f : State -> State) s (Q : unit -> State -> Prop) :
  Q tt (f s) -> ensures (modify f) s Q.
Proof. intros H [] s' E. inversion E; subst. exact H. Qed.

Lemma ensures_Rand (n : Z) s (Q : Z -> State -> Prop) :
  (forall r R, (0 < n -> 0 <= r < n) -> (n = 0 -> r = 0) -> Q r (set_Rand R s)) ->
  ensures (Rand n) s Q.
Proof.
  intros H r s' E. unfold Rand in E.
  destruct (Random_upto (Rand_ s) n) as [r0 R] eqn:Er. inversion E; subst.
  apply H.
  - intros Hn. pose proof (Random_upto_range (Rand_ s) n ltac:(lia)) as (H0 & H1 & _).
    rewrite Er in *. simpl in *. auto.
  - intros ->. unfold Random_upto in Er. simpl in Er. inversion Er. reflexivity.
Qed.

Lemma ensures_any {A} (m : M A) s (Q : A -> State -> Prop) :
  (forall a s', Q a s') -> ensures m s Q.
Proof. intros H a s' _. apply H. Qed.


(** ** Buffers *)

Lemma len_nonneg {A} (l : list A) : 0 <= len l.
Proof. unfold len. lia. Qed.

Lemma slice_Some {A} (l : list A) (off n : Z) :
  0 <= off -> 0 <= n -> off + n <= len l ->
  slice l off n = Some (firstn (nat_of n) (skipn (nat_of off) l)).
Proof.
  intros H1 H2 H3. unfold slice.
  destruct (Z.leb_spec 0 off); try lia.
  destruct (Z.leb_spec 0 n); try lia.
  destruct (Z.leb_spec (off + n) (len l)); try lia.
  reflexivity.
Qed.

Lemma slice_inv {A} (l : list A) (off n : Z) (bs : list A) :
  slice l off n = Some bs ->
  0 <= off /\ 0 <= n /\ off + n <= len l /\
  bs = firstn (nat_of n) (skipn (nat_of off) l) /\ len bs = n.
Proof.
  unfold slice. intros H.
  destruct (Z.leb_spec 0 off); simpl in H; try discriminate.
  destruct (Z.leb_spec 0 n); simpl in H; try discriminate.
  destruct (Z.leb_spec (off + n) (len l)); simpl in H; try discriminate.
  inversion H; subst. repeat split; try assumption.
  unfold len, nat_of in *. rewrite length_firstn, length_skipn. lia.
Qed.

Lemma splice_Some {A} (l : list A) (off : Z) (bs : list A) :
  0 <= off -> off + len bs <= len l ->
  splice l off bs = Some (firstn (nat_of off) l ++ bs ++ skipn (nat_of off + length bs) l).
Proof.
  intros H1 H2. unfold splice.
  destruct (Z.leb_spec 0 off); try lia.
  destruct (Z.leb_spec (off + len bs) (len l)); try lia.
  reflexivity.
Qed.

Lemma splice_inv {A} (l : list A) (off : Z) (bs l' : list A) :
  splice l off bs = Some l' ->
  0 <= off /\ off + len bs <= len l /\
  l' = firstn (nat_of off) l ++ bs ++ skipn (nat_of off + length bs) l /\
  len l' = len l.
Proof.
  unfold splice. intros H.
  destruct (Z.leb_spec 0 off); simpl in H; try discriminate.
  destruct (Z.leb_spec (off + len bs) (len l)); simpl in H; try discriminate.
  inversion H; subst. repeat split; try assumption.
  unfold len, nat_of in *.
  rewrite !length_app, length_firstn, length_skipn. lia.
Qed.

Lemma len_moved to doff from soff n :
  0 <= doff -> 0 <= soff -> 0 <= n -> soff + n <= len from -> doff + n <= len to ->
  len (moved to doff from soff n) = len to.
Proof.
  intros. unfold moved, len, nat_of in *.
  rewrite !length_app, !length_firstn, !length_skipn. lia.
Qed.

Lemma returns_memmove dst doff src soff n s (Q : unit -> State -> Prop) :
  0 <= soff -> 0 <= n -> soff + n <= len (read_buf src s) ->
  0 <= doff -> doff + n <= len (read_buf dst s) ->
  returns (write_buf dst (moved (read_buf dst s) doff (read_buf src s) soff n)) s Q ->
  returns (memmove dst doff src soff n) s Q.
Proof.
  intros H1 H2 H3 H4 H5 H. unfold memmove.
  apply returns_bind, returns_gets.
  eapply returns_bind, returns_lift_option; [apply slice_Some; assumption|].
  apply returns_bind, returns_gets.
  eapply returns_bind, returns_lift_option.
  - apply splice_Some; [assumption|].
    unfold len, nat_of in *. rewrite length_firstn, length_skipn. lia.
  - replace (firstn (nat_of doff) (read_buf dst s) ++
             firstn (nat_of n) (skipn (nat_of soff) (read_buf src s)) ++
             skipn (nat_of doff + length (firstn (nat_of n) (skipn (nat_of soff) (read_buf src s))))
               (read_buf dst s))
      with (moved (read_buf dst s) doff (read_buf src s) soff n); [exact H|].
    unfold moved. do 3 f_equal.
    unfold len, nat_of in *. rewrite length_firstn, length_skipn. lia.
Qed.

Lemma ensures_memmove dst doff src soff n s (Q : unit -> State -> Prop) :
  (0 <= soff -> 0 <= n -> soff + n <= len (read_buf src s) ->
   0 <= doff -> doff + n <= len (read_buf dst s) ->
   ensures (write_buf dst (moved (read_buf dst s) doff (read_buf src s) soff n)) s Q) ->
  ensures (memmove dst doff src soff n) s Q.
Proof.
  intros H u s' E. unfold memmove, bind, gets in E.
  destruct (slice (read_buf src s) soff n) as [bs|] eqn:Es; simpl in E; [|discriminate].
  destruct (splice (read_buf dst s) doff bs) as [l'|] eqn:Ep; simpl in E; [|discriminate].
  apply slice_inv in Es. destruct Es as (H1 & H2 & H3 & -> & Hl).
  apply splice_inv in Ep. destruct Ep as (H4 & H5 & -> & _).
  rewrite Hl in H5.
  apply (H H1 H2 H3 H4 H5 u s').
  rewrite <- E. f_equal. unfold moved. do 3 f_equal.
  unfold len, nat_of in *. lia.
Qed.


(** ** Mutate_EraseBytes *)

Lemma half_bounds (Size : Z) : 2 <= Size -> 1 <= Size / 2 <= Size - 1.
Proof. intros H. clear - H. Z.div_mod_to_equations. lia. Qed.

(** What is left of [d[0, sz)] when [d[i, i + n)] is moved out of it. *)
Lemma firstn_erased (d rest : list Z) (i n sz : nat) :
  (i + n <= sz)%nat -> (sz <= length d)%nat ->
  firstn (sz - n) (firstn i d ++ firstn (sz - i - n) (skipn (i + n) d) ++ rest) =
  firstn i d ++ skipn (i + n) (firstn sz d).
Proof.
  intros H1 H2.
  rewrite app_assoc, firstn_app.
  rewrite length_app, !length_firstn, length_skipn.
  replace (sz - n - (Nat.min i (length d) + Nat.min (sz - i - n) (length d - (i + n))))%nat
    with 0%nat by lia.
  rewrite firstn_O, app_nil_r.
  rewrite firstn_all2.
  2:{ rewrite length_app, !length_firstn, length_skipn. lia. }
  f_equal. rewrite firstn_skipn_comm. do 2 f_equal. lia.
Qed.

(** C7: [Mutate_EraseBytes] on a buffer of size 1 returns 0 and changes
    nothing; on a buffer of size at least 2 it returns, having removed a run
    of [N] bytes at [Idx], with [1 <= N <= Size / 2] and
    [[Idx, Idx + N)] within [[0, Size)]: the first [Size - N] bytes are the
    bytes before the run followed by those after it (the tail moved left),
    and it returns [Size - N], which is at least 1. *)
Theorem Mutate_EraseBytes_spec (s : State) (Size MaxSize : Z) :
  0 < Size -> Size <= len (Data s) -> Size <= SIZE_MAX ->
  returns (Mutate_EraseBytes Size MaxSize) s (fun NewSize s' =>
    (Size = 1 /\ NewSize = 0 /\ s' = s) \/
    (2 <= Size /\
     exists N Idx : Z,
       1 <= N <= Size / 2 /\ 0 <= Idx /\ Idx + N <= Size /\
       NewSize = Size - N /\ 1 <= NewSize /\
       len (Data s') = len (Data s) /\
       firstn (nat_of NewSize) (Data s') =
         firstn (nat_of Idx) (Data s) ++
         skipn (nat_of (Idx + N)) (firstn (nat_of Size) (Data s)))).
Proof.
  intros H0 Hlen Hmax. unfold SIZE_MAX in Hmax. pose proof SIZE_MOD_eq as HM.
  unfold Mutate_EraseBytes.
  apply returns_bind, returns_assert.
  { destruct (Z.eqb_spec Size 0); [lia|reflexivity]. }
  destruct (Z.eqb_spec Size 1) as [->|Hne].
  { apply returns_ret. left. auto. }
  pose proof (half_bounds Size ltac:(lia)) as Hdiv.
  apply returns_bind, returns_Rand; [lia|]. intros r R Hr0 Hr1 _ _ _.
  rewrite (size_t_small (r + 1)) by lia.
  apply returns_bind, returns_assert. { apply Z.ltb_lt. lia. }
  rewrite (size_t_small (Size - (r + 1))) by lia.
  rewrite (size_t_small (Size - (r + 1) + 1)) by lia.
  apply returns_bind, returns_Rand; [lia|]. intros Idx R' Hi0 Hi1 _ _ _.
  rewrite (size_t_small (Size - Idx)) by lia.
  rewrite (size_t_small (Size - Idx - (r + 1))) by lia.
  apply returns_bind, returns_memmove; simpl; try lia.
  apply returns_modify, returns_ret.
  right. split; [lia|]. exists (r + 1), Idx.
  repeat split; try lia.
  - simpl. apply len_moved; lia.
  - simpl. unfold moved.
    replace (nat_of (Size - (r + 1))) with (nat_of Size - nat_of (r + 1))%nat
      by (unfold nat_of; lia).
    replace (nat_of (Size - Idx - (r + 1)))
      with (nat_of Size - nat_of Idx - nat_of (r + 1))%nat by (unfold nat_of; lia).
    replace (nat_of (Idx + (r + 1))) with (nat_of Idx + nat_of (r + 1))%nat
      by (unfold nat_of; lia).
    apply firstn_erased; unfold len, nat_of in *; lia.
Qed.


(** ** Loops and stores *)

Lemma returns_for_loop {A} (I : Z -> A -> State -> Prop) (body : Z -> A -> M A) :
  forall (n : nat) (i : Z) (a : A) (s : State),
  I i a s ->
  (forall j a s, i <= j < i + Z.of_nat n -> I j a s ->
                 returns (body j a) s (fun a' s' => I (j + 1) a' s')) ->
  returns (for_loop n i body a) s (fun a' s' => I (i + Z.of_nat n) a' s').
Proof.
  induction n as [|n IH]; intros i a s HI Hbody.
  - simpl. apply returns_ret. rewrite Z.add_0_r. exact HI.
  - simpl for_loop. apply returns_bind.
    eapply returns_weaken. { apply (Hbody i a s); [lia | exact HI]. }
    intros a' s' HI'. cbv beta in HI'.
    eapply returns_weaken.
    + apply (IH (i + 1) a' s' HI'). intros j a0 s0 Hj. apply Hbody. lia.
    + intros a2 s2 H2. cbv beta in H2.
      replace (i + Z.of_nat (S n)) with (i + 1 + Z.of_nat n) by lia. exact H2.
Qed.

Lemma ensures_for_loop {A} (I : Z -> A -> State -> Prop) (body : Z -> A -> M A) :
  forall (n : nat) (i : Z) (a : A) (s : State),
  I i a s ->
  (forall j a s, i <= j < i + Z.of_nat n -> I j a s ->
                 ensures (body j a) s (fun a' s' => I (j + 1) a' s')) ->
  ensures (for_loop n i body a) s (fun a' s' => I (i + Z.of_nat n) a' s').
Proof.
  induction n as [|n IH]; intros i a s HI Hbody.
  - simpl. apply ensures_ret. rewrite Z.add_0_r. exact HI.
  - simpl for_loop. apply ensures_bind.
    eapply ensures_weaken. { apply (Hbody i a s); [lia | exact HI]. }
    intros a' s' HI'. cbv beta in HI'.
    eapply ensures_weaken.
    + apply (IH (i + 1) a' s' HI'). intros j a0 s0 Hj. apply Hbody. lia.
    + intros a2 s2 H2. cbv beta in H2.
      replace (i + Z.of_nat (S n)) with (i + 1 + Z.of_nat n) by lia. exact H2.
Qed.

Lemma length_filled d off n b :
  (off + n <= length d)%nat -> length (filled d off n b) = length d.
Proof.
  intros H. unfold filled.
  rewrite !length_app, length_firstn, repeat_length, length_skipn. lia.
Qed.

Lemma firstn_filled d off n b :
  (off <= length d)%nat ->
  firstn (off + n) (filled d off n b) = firstn off d ++ repeat b n.
Proof.
  intros H. unfold filled.
  rewrite (app_assoc (firstn off d)).
  assert (Hl : length (firstn off d ++ repeat b n) = (off + n)%nat).
  { rewrite length_app, length_firstn, repeat_length. lia. }
  rewrite <- Hl at 1. rewrite firstn_app, Nat.sub_diag, firstn_O, app_nil_r.
  apply firstn_all.
Qed.

Lemma skipn_filled d off n k b :
  (off <= length d)%nat ->
  skipn (off + n + k) (filled d off n b) = skipn (off + n + k) d.
Proof.
  intros H. unfold filled.
  rewrite (app_assoc (firstn off d)).
  assert (Hl : length (firstn off d ++ repeat b n) = (off + n)%nat).
  { rewrite length_app, length_firstn, repeat_length. lia. }
  rewrite skipn_app, Hl.
  rewrite (skipn_all2 (firstn off d ++ repeat b n)) by lia.
  replace (off + n + k - (off + n))%nat with k by lia.
  rewrite skipn_skipn. simpl. f_equal. lia.
Qed.

Lemma filled_step d off n b :
  (off + n < length d)%nat ->
  firstn (off + n) (filled d off n b) ++ [b] ++ skipn (off + n + 1) (filled d off n b) =
  filled d off (S n) b.
Proof.
  intros H. rewrite firstn_filled, skipn_filled by lia.
  unfold filled. rewrite <- app_assoc. f_equal.
  change (repeat b (S n)) with (b :: repeat b n). rewrite repeat_cons.
  rewrite <- app_assoc. do 2 f_equal. f_equal. lia.
Qed.

Lemma returns_store (p : BufPtr) (i v : Z) s (Q : unit -> State -> Prop) :
  0 <= i < len (read_buf p s) ->
  returns (write_buf p (firstn (nat_of i) (read_buf p s) ++ [uint8_t v] ++
                        skipn (nat_of i + 1) (read_buf p s))) s Q ->
  returns (store p i v) s Q.
Proof.
  intros Hi H. unfold store.
  apply returns_bind, returns_gets.
  eapply returns_bind, returns_lift_option.
  - apply splice_Some; [lia|]. unfold len in *. simpl. lia.
  - exact H.
Qed.

Lemma ensures_store (p : BufPtr) (i v : Z) s (Q : unit -> State -> Prop) :
  (0 <= i < len (read_buf p s) ->
   ensures (write_buf p (firstn (nat_of i) (read_buf p s) ++ [uint8_t v] ++
                         skipn (nat_of i + 1) (read_buf p s))) s Q) ->
  ensures (store p i v) s Q.
Proof.
  intros H u s' E. unfold store, bind, gets in E.
  destruct (splice (read_buf p s) i [uint8_t v]) as [l'|] eqn:Ep; simpl in E; [|discriminate].
  apply splice_inv in Ep. destruct Ep as (H1 & H2 & -> & _).
  unfold len in H2. simpl in H2.
  apply (H ltac:(unfold len; lia) u s'). exact E.
Qed.

Lemma set_Data_set_Data (l l' : list Z) (s : State) :
  set_Data l (set_Data l' s) = set_Data l s.
Proof. reflexivity. Qed.

(** The loop [for (i = 0; i < N; i++) Data[Idx + i] = Byte]. *)
Lemma returns_fill (Idx Byte : Z) (n : nat) (s : State) :
  0 <= Idx -> Idx + Z.of_nat n <= len (Data s) -> 0 <= Byte < 256 ->
  returns (for_loop n 0 (fun i _ => store Data_ptr (Idx + i) Byte) tt) s
    (fun _ s' => s' = set_Data (filled (Data s) (nat_of Idx) n Byte) s).
Proof.
  intros HI Hn HB.
  pose (I := fun (j : Z) (_ : unit) (s' : State) =>
               s' = set_Data (filled (Data s) (nat_of Idx) (nat_of j) Byte) s).
  eapply returns_weaken.
  - apply (returns_for_loop I) with (i := 0).
    + unfold I. simpl. unfold filled. simpl. rewrite Nat.add_0_r, firstn_skipn.
      destruct s; reflexivity.
    + intros j [] s1 Hj HI1. unfold I in HI1. subst s1.
      apply returns_store.
      * simpl. unfold len in *. rewrite length_filled; unfold nat_of; lia.
      * simpl. apply returns_modify. unfold I.
        rewrite set_Data_set_Data. f_equal.
        replace (nat_of (Idx + j)) with (nat_of Idx + nat_of j)%nat by (unfold nat_of; lia).
        replace (nat_of (j + 1)) with (S (nat_of j)) by (unfold nat_of; lia).
        unfold uint8_t, uintN. rewrite Z.mod_small by (simpl; lia).
        apply filled_step. unfold len, nat_of in *. lia.
  - intros [] s' H. unfold I in H. simpl in H.
    unfold nat_of in H. rewrite Nat2Z.id in H. exact H.
Qed.


(** ** Insertion into a buffer *)

(** The first [sz + n] bytes after the tail [d[i, sz)] was moved right by
    [n] and [bs], of [n] bytes, was written at [i]. *)
Lemma firstn_inserted (d bs : list Z) (i n sz : nat) :
  length bs = n -> (i <= sz)%nat -> (sz + n <= length d)%nat ->
  let X := firstn (i + n) d ++ firstn (sz - i) (skipn i d) ++ skipn (i + n + (sz - i)) d in
  firstn (sz + n) (firstn i X ++ bs ++ skipn (i + n) X) =
  firstn i d ++ bs ++ skipn i (firstn sz d).
Proof.
  intros Hbs Hi Hsz X.
  assert (HX1 : firstn i X = firstn i d).
  { unfold X. rewrite firstn_app, length_firstn.
    replace (i - Nat.min (i + n) (length d))%nat with 0%nat by lia.
    rewrite firstn_O, app_nil_r, firstn_firstn. f_equal. lia. }
  assert (HX2 : skipn (i + n) X = firstn (sz - i) (skipn i d) ++ skipn (i + n + (sz - i)) d).
  { unfold X. rewrite skipn_app, length_firstn.
    rewrite (skipn_all2 (firstn (i + n) d)) by (rewrite length_firstn; lia).
    replace (i + n - Nat.min (i + n) (length d))%nat with 0%nat by lia.
    reflexivity. }
  rewrite HX1, HX2.
  rewrite !app_assoc.
  rewrite firstn_app.
  rewrite !length_app, !length_firstn, length_skipn, Hbs.
  replace (sz + n - (Nat.min i (length d) + n + Nat.min (sz - i) (length d - i)))%nat
    with 0%nat by lia.
  rewrite firstn_O, app_nil_r, firstn_all2.
  2:{ rewrite !length_app, !length_firstn, length_skipn, Hbs. lia. }
  f_equal. rewrite firstn_skipn_comm. do 2 f_equal. lia.
Qed.

(** The bytes past [sz + n] after the tail [d[i, sz)] was moved right by
    [n] and [bs], of [n] bytes, was written at [i]. *)
Lemma skipn_inserted (d bs : list Z) (i n sz : nat) :
  length bs = n -> (i <= sz)%nat -> (sz + n <= length d)%nat ->
  let X := firstn (i + n) d ++ firstn (sz - i) (skipn i d) ++ skipn (i + n + (sz - i)) d in
  skipn (sz + n) (firstn i X ++ bs ++ skipn (i + n) X) = skipn (sz + n) d.
Proof.
  intros Hbs Hi Hsz X.
  assert (HX2 : skipn (i + n) X = firstn (sz - i) (skipn i d) ++ skipn (i + n + (sz - i)) d).
  { unfold X. rewrite skipn_app, length_firstn.
    rewrite (skipn_all2 (firstn (i + n) d)) by (rewrite length_firstn; lia).
    replace (i + n - Nat.min (i + n) (length d))%nat with 0%nat by lia.
    reflexivity. }
  assert (HXl : length X = length d).
  { unfold X. rewrite !length_app, !length_firstn, !length_skipn. lia. }
  rewrite HX2, !app_assoc.
  rewrite skipn_app.
  rewrite skipn_all2.
  2:{ rewrite !length_app, !length_firstn, length_skipn, Hbs, HXl. lia. }
  rewrite !length_app, !length_firstn, length_skipn, Hbs, HXl.
  replace (sz + n - (Nat.min i (length d) + n + Nat.min (sz - i) (length d - i)))%nat
    with 0%nat by lia.
  simpl. f_equal. lia.
Qed.

(** ** Mutate_InsertRepeatedBytes *)

(** C3, as the code has it: [Mutate_InsertRepeatedBytes] returns 0, and
    changes nothing, exactly when at most 3 bytes of headroom remain
    ([Size + 3 >= MaxSize]); with more than 3 it returns, having inserted at
    some [Idx <= Size] a run of [N] copies of one byte, with
    [3 <= N <= min(128, MaxSize - Size)], and returns [Size + N]. *)
Theorem Mutate_InsertRepeatedBytes_spec (s : State) (Size MaxSize : Z) :
  0 <= Size <= MaxSize -> MaxSize <= len (Data s) -> MaxSize <= PTRDIFF_MAX ->
  returns (Mutate_InsertRepeatedBytes Size MaxSize) s (fun NewSize s' =>
    (MaxSize - Size <= 3 /\ NewSize = 0 /\ s' = s) \/
    (3 < MaxSize - Size /\
     exists N Idx Byte : Z,
       3 <= N <= Z.min 128 (MaxSize - Size) /\ 0 <= Idx <= Size /\
       0 <= Byte < 256 /\
       NewSize = Size + N /\ NewSize <> 0 /\
       len (Data s') = len (Data s) /\
       firstn (nat_of NewSize) (Data s') =
         firstn (nat_of Idx) (Data s) ++ repeat Byte (nat_of N) ++
         skipn (nat_of Idx) (firstn (nat_of Size) (Data s)))).
Proof.
  intros HS Hlen Hmax. unfold PTRDIFF_MAX in Hmax. pose proof SIZE_MOD_eq as HM.
  unfold Mutate_InsertRepeatedBytes, kMinBytesToInsert.
  rewrite (size_t_small (Size + 3)) by lia.
  rewrite Z.geb_leb.
  destruct (Z.leb_spec MaxSize (Size + 3)) as [Hfull|Hroom].
  { apply returns_ret. left. split; [lia | split; reflexivity]. }
  rewrite (size_t_small (MaxSize - Size)) by lia.
  rewrite std_min_spec.
  set (Mx := Z.min (MaxSize - Size) 128).
  assert (HMx : 4 <= Mx <= 128 /\ Mx <= MaxSize - Size) by (unfold Mx; lia).
  rewrite (size_t_small (Mx - 3)) by lia.
  rewrite (size_t_small (Mx - 3 + 1)) by lia.
  apply returns_bind, returns_Rand; [lia|]. intros r R Hr0 Hr1 _ _ _.
  rewrite (size_t_small (r + 3)) by lia.
  rewrite (size_t_small (Size + (r + 3))) by lia.
  apply returns_bind, returns_assert.
  { apply andb_true_intro. split; [apply Z.leb_le; lia|].
    destruct (Z.eqb_spec (r + 3) 0); [lia|reflexivity]. }
  rewrite (size_t_small (Size + 1)) by lia.
  apply returns_bind, returns_Rand; [lia|]. intros Idx R' Hi0 Hi1 _ _ _.
  rewrite (size_t_small (Size - Idx)) by lia.
  apply returns_bind, returns_memmove; simpl; try lia.
  apply returns_modify.
  apply returns_bind, returns_RandBool. intros b R2 _ _.
  apply returns_bind.
  apply returns_weaken with
    (P := fun Byte s1 => 0 <= Byte < 256 /\ Data s1 = moved (Data s) (Idx + (r + 3)) (Data s) Idx (Size - Idx)).
  { destruct b.
    - apply returns_bind, returns_Rand; [lia|]. intros x R3 _ _ _ _ _.
      apply returns_ret. split; [apply uint8_t_range | reflexivity].
    - apply returns_bind, returns_RandBool. intros b' R3 _ _.
      apply returns_ret. split; [destruct b'; lia | reflexivity]. }
  intros Byte s1 [HB Hd1]. cbv beta.
  assert (Hl1 : len (Data s1) = len (Data s)).
  { rewrite Hd1. apply len_moved; lia. }
  apply returns_bind. unfold For_, For.
  eapply returns_weaken.
  { apply (returns_fill Idx Byte (nat_of (r + 3 - 0)) s1); unfold nat_of; lia. }
  intros [] s2 ->.
  apply returns_ret. right. split; [lia|].
  exists (r + 3), Idx, Byte.
  repeat split; try lia.
  - simpl. unfold len in *. rewrite length_filled; unfold nat_of; lia.
  - simpl. rewrite Hd1. unfold filled, moved.
    replace (nat_of (r + 3 - 0)) with (nat_of (r + 3)) by (unfold nat_of; lia).
    replace (nat_of (Size + (r + 3))) with (nat_of Size + nat_of (r + 3))%nat
      by (unfold nat_of; lia).
    replace (nat_of (Idx + (r + 3))) with (nat_of Idx + nat_of (r + 3))%nat
      by (unfold nat_of; lia).
    replace (nat_of (Idx + (r + 3) + (Size - Idx)))
      with (nat_of Idx + nat_of (r + 3) + (nat_of Size - nat_of Idx))%nat
      by (unfold nat_of; lia).
    replace (nat_of (Size - Idx)) with (nat_of Size - nat_of Idx)%nat
      by (unfold nat_of; lia).
    apply firstn_inserted.
    + apply repeat_length.
    + unfold nat_of; lia.
    + unfold len, nat_of in *; lia.
Qed.


(** ** Dictionaries in the state *)

Lemma get_Dictionary_set_Rand D R s :
  get_Dictionary D (set_Rand R s) = get_Dictionary D s.
Proof. destruct D; reflexivity. Qed.

Lemma get_Dictionary_set_Data D l s :
  get_Dictionary D (set_Data l s) = get_Dictionary D s.
Proof. destruct D; reflexivity. Qed.

Lemma get_Dictionary_set_MutateInPlaceHere D l s :
  get_Dictionary D (set_MutateInPlaceHere l s) = get_Dictionary D s.
Proof. destruct D; reflexivity. Qed.

Lemma get_Dictionary_set_CurrentDictionaryEntrySequence D l s :
  get_Dictionary D (set_CurrentDictionaryEntrySequence l s) = get_Dictionary D s.
Proof. destruct D; reflexivity. Qed.

Lemma get_Dictionary_set_CurrentMutatorSequence D l s :
  get_Dictionary D (set_CurrentMutatorSequence l s) = get_Dictionary D s.
Proof. destruct D; reflexivity. Qed.

Lemma get_Dictionary_set_Dictionary D d s :
  get_Dictionary D (set_Dictionary D d s) = d.
Proof. destruct D; reflexivity. Qed.

Lemma get_Dictionary_set_Dictionary_other D D' d s :
  D <> D' -> get_Dictionary D (set_Dictionary D' d s) = get_Dictionary D s.
Proof. destruct D, D'; intros H; try reflexivity; contradiction. Qed.

Lemma returns_at {A} (v : list A) (i : Z) (a : A) s (Q : A -> State -> Prop) :
  0 <= i -> nth_error v (nat_of i) = Some a -> Q a s -> returns (at_ v i) s Q.
Proof.
  intros Hi Hn H. unfold at_.
  destruct (Z.leb_spec 0 i); [|lia]. rewrite Hn. exact H.
Qed.

Lemma ensures_at {A} (v : list A) (i : Z) s (Q : A -> State -> Prop) :
  (forall a, 0 <= i -> nth_error v (nat_of i) = Some a -> Q a s) ->
  ensures (at_ v i) s Q.
Proof.
  intros H a s' E. unfold at_ in E.
  destruct (Z.leb_spec 0 i); [|discriminate].
  destruct (nth_error v (nat_of i)) eqn:En; [|discriminate].
  inversion E; subst. auto.
Qed.

Lemma returns_update_through (p : DEptr) f DE s (Q : unit -> State -> Prop) :
  nth_error (get_Dictionary (fst p) s) (snd p) = Some DE ->
  Q tt (set_Dictionary (fst p) (list_set (get_Dictionary (fst p) s) (snd p) (f DE)) s) ->
  returns (update_through p f) s Q.
Proof.
  intros Hn H. unfold update_through, deref.
  apply returns_bind, returns_bind, returns_gets.
  eapply returns_lift_option; [exact Hn|].
  apply returns_bind, returns_gets, returns_modify. exact H.
Qed.

Lemma nth_error_list_set {A} (l : list A) (i : nat) (a : A) :
  (i < length l)%nat -> nth_error (list_set l i a) i = Some a.
Proof.
  intros H. unfold list_set.
  rewrite nth_error_app2 by (rewrite length_firstn; lia).
  rewrite length_firstn. replace (i - Nat.min i (length l))%nat with 0%nat by lia.
  reflexivity.
Qed.

Lemma nth_error_list_set_other {A} (l : list A) (i j : nat) (a : A) :
  (i < length l)%nat -> j <> i -> nth_error (list_set l i a) j = nth_error l j.
Proof.
  intros H Hne. unfold list_set.
  destruct (Nat.lt_ge_cases j i) as [Hlt|Hge].
  - rewrite nth_error_app1 by (rewrite length_firstn; lia).
    rewrite nth_error_firstn.
    destruct (Nat.ltb_spec j i); [reflexivity | lia].
  - rewrite nth_error_app2 by (rewrite length_firstn; lia).
    rewrite length_firstn. replace (Nat.min i (length l)) with i by lia.
    destruct (j - i)%nat as [|k] eqn:Ek; [lia|]. cbn [nth_error].
    rewrite nth_error_skipn. f_equal. lia.
Qed.

Lemma length_list_set {A} (l : list A) (i : nat) (a : A) :
  (i < length l)%nat -> length (list_set l i a) = length l.
Proof.
  intros H. unfold list_set. rewrite length_app, length_firstn. cbn [length].
  rewrite length_skipn. lia.
Qed.

(** Updating an entry by a function that keeps its Word keeps the Words of
    the dictionary. *)
Lemma map_GetW_list_set (D : Dictionary) (i : nat) (DE DE' : DictionaryEntry) :
  nth_error D i = Some DE -> GetW DE' = GetW DE ->
  map GetW (list_set D i DE') = map GetW D.
Proof.
  intros Hn HW. revert i Hn. induction D as [|x D IH]; intros [|i] Hn; try discriminate.
  - simpl in Hn. inversion Hn; subst. unfold list_set. simpl. rewrite HW. reflexivity.
  - simpl in Hn. change (list_set (x :: D) (S i) DE') with (x :: list_set D i DE').
    simpl. f_equal. apply IH. exact Hn.
Qed.


(** ** AddWordFromDictionary *)

(** C9: [AddWordFromDictionary] on a non-empty dictionary picks an entry
    [DE], then the value [insert] of one [RandBool] picks the branch. The
    insert branch returns 0 exactly when [Size + |W| > MaxSize] and
    [Size + |W|] otherwise, the word [W] then standing at some [Idx <= Size]
    with the bytes of the input around it in their order; the overwrite
    branch returns 0 exactly when [|W| > Size] and [Size] otherwise, the
    word then written over the [|W|] bytes at some [Idx] within the input
    and the other bytes as they were. On success the use counter of [DE] is
    one more and [DE] is appended to [CurrentDictionaryEntrySequence]; on
    failure the buffer, the dictionary and that sequence are as before. *)
Theorem AddWordFromDictionary_spec (s : State) (D : DictId) (Size MaxSize : Z) :
  0 < Size <= MaxSize -> MaxSize <= len (Data s) -> MaxSize <= PTRDIFF_MAX ->
  get_Dictionary D s <> [] ->
  Forall DictionaryEntry_wf (get_Dictionary D s) ->
  let Dv := get_Dictionary D s in
  let i := nat_of (fst (Random_upto (Rand_ s) (len Dv))) in
  let R1 := snd (Random_upto (Rand_ s) (len Dv)) in
  exists DE : DictionaryEntry,
    nth_error Dv i = Some DE /\
    let W := GetW DE in
    let fits := match PositionHint DE with
                | Some h => h + len W <? Size
                | None => false
                end in
    let R2 := if fits then snd (Random_bool R1) else R1 in
    let insert := fst (Random_bool R2) in
    returns (AddWordFromDictionary D Size MaxSize) s (fun NewSize s' =>
      NewSize = (if insert
                 then if Size + len W >? MaxSize then 0 else Size + len W
                 else if len W >? Size then 0 else Size) /\
      (NewSize = 0 <-> if insert then Size + len W > MaxSize else len W > Size) /\
      len (Data s') = len (Data s) /\
      (forall D', D' <> D -> get_Dictionary D' s' = get_Dictionary D' s) /\
      if NewSize =? 0
      then get_Dictionary D s' = Dv /\
           CurrentDictionaryEntrySequence s' = CurrentDictionaryEntrySequence s /\
           Data s' = Data s
      else get_Dictionary D s' = list_set Dv i (IncUseCount DE) /\
           GetUseCount (IncUseCount DE) = GetUseCount DE + 1 /\
           CurrentDictionaryEntrySequence s' = CurrentDictionaryEntrySequence s ++ [(D, i)] /\
           exists Idx : Z,
             0 <= Idx /\
             if insert
             then Idx <= Size /\
                  firstn (nat_of NewSize) (Data s') =
                    firstn (nat_of Idx) (Data s) ++ W ++
                    skipn (nat_of Idx) (firstn (nat_of Size) (Data s)) /\
                  skipn (nat_of NewSize) (Data s') = skipn (nat_of NewSize) (Data s)
             else Idx + len W <= Size /\
                  Data s' = firstn (nat_of Idx) (Data s) ++ W ++
                            skipn (nat_of (Idx + len W)) (Data s)).
Proof.
  intros HS Hlen Hmax Hne Hwf Dv i R1.
  unfold PTRDIFF_MAX in Hmax. pose proof SIZE_MOD_eq as HM.
  assert (Hlen0 : 0 < len Dv).
  { unfold Dv, len. destruct (get_Dictionary D s); [congruence | simpl; lia]. }
  pose proof (Random_upto_range (Rand_ s) (len Dv) ltac:(lia)) as (Hi0 & Hi1 & _).
  specialize (Hi1 Hlen0).
  destruct (nth_error Dv i) as [DE|] eqn:Hnth.
  2:{ apply nth_error_None in Hnth. unfold i, len, nat_of in *. lia. }
  exists DE. split; [reflexivity|].
  intros W fits R2 insert.
  pose proof (proj1 (Forall_forall _ _) Hwf DE (nth_error_In _ _ Hnth)) as (HW & Hh & HU).
  unfold PTRDIFF_MAX, SIZE_MAX in *.
  pose proof (len_nonneg W) as HW0. fold W in HW.
  unfold AddWordFromDictionary.
  apply returns_bind, returns_gets. fold Dv.
  destruct (Z.eqb_spec (len Dv) 0) as [E0|_]; [lia|].
  apply returns_bind, returns_Rand; [lia|]. intros r R _ _ _ Hr HR.
  eapply returns_bind, returns_at; [lia | subst r; exact Hnth |].
  fold W. subst r R. fold R1. fold i.
  (* the position hint *)
  apply returns_bind.
  apply returns_weaken with
    (P := fun (u : bool) s1 =>
            s1 = set_Rand R2 s /\
            (u = true -> exists h, PositionHint DE = Some h /\ 0 <= h /\ h + len W < Size)).
  { unfold R2, fits. destruct (PositionHint DE) as [h|] eqn:Eh.
    - specialize (Hh h eq_refl). rewrite (size_t_small (h + len W)) by lia.
      destruct (Z.ltb_spec (h + len W) Size) as [Hfit|Hnofit].
      + apply returns_RandBool. intros b R _ ->. simpl. split; [reflexivity|].
        intros _. exists h. repeat split; lia.
      + apply returns_ret. split; [destruct s; reflexivity | discriminate].
    - apply returns_ret. split; [destruct s; reflexivity | discriminate]. }
  intros UsePositionHint s1 [-> Hhint]. cbv beta.
  apply returns_bind, returns_RandBool. intros b R3 Hb _.
  change (b = insert) in Hb. subst b. cbv beta.
  (* the success path *)
  assert (Hsucceed : forall s2 n,
    get_Dictionary D s2 = Dv ->
    (forall D', D' <> D -> get_Dictionary D' s2 = get_Dictionary D' s) ->
    CurrentDictionaryEntrySequence s2 = CurrentDictionaryEntrySequence s ->
    len (Data s2) = len (Data s) -> n <> 0 ->
    returns (update_through (D, i) IncUseCount;;
             modify (fun s0 => set_CurrentDictionaryEntrySequence
                                 (CurrentDictionaryEntrySequence s0 ++ [(D, i)]) s0);;
             ret n) s2
      (fun NewSize s' =>
         NewSize = n /\ len (Data s') = len (Data s) /\
         (forall D', D' <> D -> get_Dictionary D' s' = get_Dictionary D' s) /\
         get_Dictionary D s' = list_set Dv i (IncUseCount DE) /\
         GetUseCount (IncUseCount DE) = GetUseCount DE + 1 /\
         CurrentDictionaryEntrySequence s' = CurrentDictionaryEntrySequence s ++ [(D, i)] /\
         Data s' = Data s2)).
  { intros s2 n HD Hother Hseq Hl2 Hn.
    eapply returns_bind, returns_update_through.
    { simpl. rewrite HD. exact Hnth. }
    simpl fst. simpl snd. rewrite HD.
    apply returns_bind, returns_modify, returns_ret.
    split; [reflexivity|]. split; [|split; [|split; [|split; [|split]]]].
    - exact Hl2.
    - intros D' HD'.
      rewrite get_Dictionary_set_CurrentDictionaryEntrySequence,
        get_Dictionary_set_Dictionary_other by exact HD'.
      apply Hother, HD'.
    - rewrite get_Dictionary_set_CurrentDictionaryEntrySequence,
        get_Dictionary_set_Dictionary. reflexivity.
    - simpl. apply size_t_small. lia.
    - simpl. rewrite <- Hseq. destruct D; reflexivity.
    - destruct D; reflexivity. }
  clearbody insert. destruct insert; cbv iota.
  - (* Insert W. *)
    rewrite (size_t_small (Size + len W)) by lia.
    rewrite Z.gtb_ltb.
    destruct (Z.ltb_spec MaxSize (Size + len W)) as [Hbig|Hok].
    { apply returns_ret. simpl. repeat split; try lia; try reflexivity.
      all: rewrite !get_Dictionary_set_Rand; reflexivity. }
    apply returns_bind.
    apply returns_weaken with
      (P := fun Idx s1 => 0 <= Idx <= Size /\ exists R, s1 = set_Rand R s).
    { destruct UsePositionHint.
      - destruct (Hhint eq_refl) as (h & -> & Hh0 & Hh1).
        apply returns_ret. split; [lia|]. eexists. simpl. reflexivity.
      - rewrite (size_t_small (Size + 1)) by lia.
        apply returns_Rand; [lia|]. intros Idx R HI0 HI _ _ _ .
        split; [lia|]. eexists. simpl. reflexivity. }
    intros Idx s1 (HIdx & R & ->). cbv beta.
    rewrite (size_t_small (Size - Idx)) by lia.
    apply returns_bind, returns_memmove; simpl; try lia.
    apply returns_modify.
    unfold memcpy.
    apply returns_bind, returns_memmove; simpl; try lia.
    { rewrite len_moved; lia. }
    apply returns_modify.
    eapply returns_weaken.
    { apply Hsucceed with (n := Size + len W).
      - rewrite !get_Dictionary_set_Data, get_Dictionary_set_Rand. reflexivity.
      - intros D' _. rewrite !get_Dictionary_set_Data, get_Dictionary_set_Rand. reflexivity.
      - reflexivity.
      - simpl. rewrite !len_moved; try lia. rewrite len_moved; lia.
      - lia. }
    intros NewSize s' (-> & H1 & H2 & H3 & H4 & H5 & H6). cbv beta.
    destruct (Z.eqb_spec (Size + len W) 0); [lia|].
    split; [reflexivity|]. split; [split; intros; lia|]. split; [exact H1|].
    split; [exact H2|]. split; [exact H3|]. split; [exact H4|]. split; [exact H5|].
    exists Idx. split; [lia|]. split; [lia|].
    rewrite H6. cbn [Data set_Data set_Rand].
    assert (HlW : length W = nat_of (len W)) by (unfold len, nat_of; lia).
    assert (HlD : (nat_of Size + nat_of (len W) <= length (Data s))%nat)
      by (unfold len, nat_of in *; lia).
    assert (HPos : (nat_of Idx <= nat_of Size)%nat) by (unfold nat_of; lia).
    unfold moved. change (nat_of 0) with 0%nat. cbn [skipn].
    rewrite <- HlW, firstn_all.
    replace (nat_of (Size + len W)) with (nat_of Size + length W)%nat
      by (unfold nat_of, len in *; lia).
    replace (nat_of (Idx + len W)) with (nat_of Idx + length W)%nat
      by (unfold nat_of, len in *; lia).
    replace (nat_of (Idx + len W + (Size - Idx)))
      with (nat_of Idx + length W + (nat_of Size - nat_of Idx))%nat
      by (unfold nat_of, len in *; lia).
    replace (nat_of (Size - Idx)) with (nat_of Size - nat_of Idx)%nat
      by (unfold nat_of; lia).
    split; [apply firstn_inserted | apply skipn_inserted];
      try reflexivity; try assumption; lia.
  - (* Overwrite some bytes with W. *)
    rewrite Z.gtb_ltb.
    destruct (Z.ltb_spec Size (len W)) as [Hbig|Hok].
    { apply returns_ret. simpl. repeat split; try lia; try reflexivity.
      all: rewrite !get_Dictionary_set_Rand; reflexivity. }
    apply returns_bind.
    apply returns_weaken with
      (P := fun Idx s1 => 0 <= Idx /\ Idx + len W <= Size /\ exists R, s1 = set_Rand R s).
    { destruct UsePositionHint.
      - destruct (Hhint eq_refl) as (h & -> & Hh0 & Hh1).
        apply returns_ret. split; [lia|]. split; [lia|]. eexists. simpl. reflexivity.
      - rewrite (size_t_small (Size - len W)) by lia.
        apply returns_Rand; [lia|]. intros Idx R HI0 HI HI' _ _ .
        split; [lia|]. split; [lia|]. eexists. simpl. reflexivity. }
    intros Idx s1 (HIdx0 & HIdx & R & ->). cbv beta.
    unfold memcpy.
    apply returns_bind, returns_memmove; simpl; try lia.
    apply returns_modify.
    eapply returns_weaken.
    { apply Hsucceed with (n := Size).
      - rewrite !get_Dictionary_set_Data, get_Dictionary_set_Rand. reflexivity.
      - intros D' _. rewrite !get_Dictionary_set_Data, get_Dictionary_set_Rand. reflexivity.
      - reflexivity.
      - simpl. rewrite len_moved; lia.
      - lia. }
    intros NewSize s' (-> & H1 & H2 & H3 & H4 & H5 & H6). cbv beta.
    destruct (Z.eqb_spec Size 0); [lia|].
    split; [reflexivity|]. split; [split; intros; lia|]. split; [exact H1|].
    split; [exact H2|]. split; [exact H3|]. split; [exact H4|]. split; [exact H5|].
    exists Idx. split; [lia|]. split; [lia|].
    rewrite H6. cbn [Data set_Data set_Rand].
    assert (HlW : length W = nat_of (len W)) by (unfold len, nat_of; lia).
    unfold moved. change (nat_of 0) with 0%nat. cbn [skipn].
    rewrite <- HlW, firstn_all. reflexivity.
Qed.


(** ** Mutate on an empty input *)

Lemma RandCh_eq (s : State) :
  RandCh s = Some (fst (RandCh_of (Rand_ s)), set_Rand (snd (RandCh_of (Rand_ s))) s).
Proof.
  unfold RandCh, RandCh_of, bind, RandBool.
  destruct (Random_bool (Rand_ s)) as [b R1]. destruct b.
  - unfold Rand. cbn [Rand_ set_Rand].
    destruct (Random_upto R1 256) as [r R2]. reflexivity.
  - unfold Rand. cbn [Rand_ set_Rand].
    pose proof (Random_upto_range R1 (size_t (sizeof_Special - 1)) ltac:(vm_compute; discriminate))
      as (H0 & H1 & _).
    specialize (H1 ltac:(reflexivity)).
    destruct (Random_upto R1 (size_t (sizeof_Special - 1))) as [i R2]. cbn [fst snd] in *.
    change (size_t (sizeof_Special - 1)) with 7 in H1.
    unfold at_. destruct (Z.leb_spec 0 i); [|lia].
    destruct (nth_error Special (nat_of i)) as [c|] eqn:En.
    + rewrite (nth_error_nth _ _ 0 En). reflexivity.
    + apply nth_error_None in En. simpl in En. unfold nat_of in En. lia.
Qed.

Lemma Special_bytes : Forall (fun c => 0 <= c < 256) Special.
Proof. repeat constructor; lia. Qed.

Lemma RandCh_of_range (R : Random) : 0 <= fst (RandCh_of R) < 256.
Proof.
  unfold RandCh_of. destruct (Random_bool R) as [b R1]. destruct b.
  - destruct (Random_upto R1 256) as [r R2]. apply uint8_t_range.
  - destruct (Random_upto R1 (size_t (sizeof_Special - 1))) as [i R2]. cbn [fst].
    destruct (nth_in_or_default (nat_of i) Special 0) as [Hin | Hd]; [| rewrite Hd; lia].
    exact (proj1 (Forall_forall _ _) Special_bytes _ Hin).
Qed.

Lemma RandCh_bytes_range (n : nat) (R : Random) :
  Forall (fun c => 0 <= c < 256) (fst (RandCh_bytes n R)) /\
  length (fst (RandCh_bytes n R)) = n.
Proof.
  revert R. induction n as [|n IH]; intros R; simpl.
  - split; [constructor | reflexivity].
  - pose proof (RandCh_of_range R) as Hc.
    destruct (RandCh_of R) as [c R1]. specialize (IH R1).
    destruct (RandCh_bytes n R1) as [cs R2]. simpl in *.
    destruct IH as [IH1 IH2]. split; [constructor; assumption | congruence].
Qed.

Lemma set_Rand_set_Rand R R' s : set_Rand R (set_Rand R' s) = set_Rand R s.
Proof. reflexivity. Qed.

(** The loop [for (i = 0; i < MaxSize; i++) Data[i] = RandCh(Rand)], from
    offset [i] on. *)
Lemma returns_RandCh_loop (n : nat) :
  forall (i : nat) (s : State),
  (i + n <= length (Data s))%nat ->
  returns (for_loop n (Z.of_nat i) (fun i _ => c <- RandCh ;; store Data_ptr i c) tt) s
    (fun _ s' =>
       s' = set_Rand (snd (RandCh_bytes n (Rand_ s)))
              (set_Data (firstn i (Data s) ++ fst (RandCh_bytes n (Rand_ s)) ++
                         skipn (i + n) (Data s)) s)).
Proof.
  induction n as [|n IH]; intros i s Hlen.
  - simpl. apply returns_ret. rewrite Nat.add_0_r, firstn_skipn. destruct s; reflexivity.
  - cbn [for_loop RandCh_bytes].
    apply returns_bind, returns_bind.
    eapply returns_intro; [apply RandCh_eq|].
    pose proof (RandCh_of_range (Rand_ s)) as Hc.
    destruct (RandCh_of (Rand_ s)) as [c R1]. cbn [fst snd] in *.
    apply returns_store.
    { simpl. unfold len. lia. }
    cbn [write_buf read_buf Data set_Rand]. apply returns_modify.
    unfold uint8_t, uintN. rewrite Z.mod_small by (simpl; lia).
    replace (Z.of_nat i + 1) with (Z.of_nat (S i)) by lia.
    set (d1 := firstn (nat_of (Z.of_nat i)) (Data s) ++ [c] ++
               skipn (nat_of (Z.of_nat i) + 1) (Data s)).
    assert (Hd1 : d1 = filled (Data s) i 1 c).
    { unfold d1, filled, nat_of. rewrite Nat2Z.id. reflexivity. }
    eapply returns_weaken.
    { apply (IH (S i)). cbn [Data set_Data set_Rand]. rewrite Hd1, length_filled; lia. }
    intros [] s' ->. cbn [Rand_ Data set_Data set_Rand].
    destruct (RandCh_bytes n R1) as [cs R2]. cbn [fst snd].
    assert (HE : firstn (S i) d1 ++ cs ++ skipn (S i + n) d1 =
                 firstn i (Data s) ++ (c :: cs) ++ skipn (i + S n) (Data s)).
    { rewrite Hd1.
      replace (S i) with (i + 1)%nat by lia.
      rewrite firstn_filled by lia.
      rewrite skipn_filled by lia.
      rewrite <- app_assoc. simpl.
      replace (i + 1 + n)%nat with (i + S n)%nat by lia. reflexivity. }
    rewrite HE. reflexivity.
Qed.


Lemma ToASCII_byte_isprint (x : Z) : isprint (ToASCII_byte x) = true.
Proof.
  unfold ToASCII_byte. destruct (isprint (Z.land x 127)) eqn:E; [exact E | reflexivity].
Qed.

Lemma returns_ToASCII (n : Z) (s : State) (Q : unit -> State -> Prop) :
  0 <= n <= len (Data s) ->
  Q tt (set_Data (map ToASCII_byte (firstn (nat_of n) (Data s)) ++
                  skipn (nat_of n) (Data s)) s) ->
  returns (ToASCII n) s Q.
Proof.
  intros Hn H. unfold ToASCII.
  apply returns_bind, returns_gets.
  eapply returns_bind, returns_lift_option; [apply slice_Some; lia|].
  eapply returns_bind, returns_lift_option.
  - apply splice_Some; [lia|]. unfold len, nat_of in *.
    rewrite length_map, length_firstn, length_skipn. lia.
  - apply returns_modify. simpl.
    rewrite length_map, length_firstn.
    replace (Nat.min (nat_of n) (length (Data s))) with (nat_of n)
      by (unfold len, nat_of in *; lia).
    exact H.
Qed.

(** C6: [Mutate] with [Size == 0] and [MaxSize > 0] returns, and returns
    [MaxSize]; the first [MaxSize] bytes of the buffer are the bytes of
    [MaxSize] calls of [RandCh], whatever was there before, folded by
    [ToASCII] when [OnlyASCII] is set, and then each of them is printable. *)
Theorem Mutate_empty_input (s : State) (MaxSize : Z) :
  0 < MaxSize -> MaxSize <= len (Data s) ->
  returns (Mutate 0 MaxSize) s (fun NewSize s' =>
    NewSize = MaxSize /\
    let fresh := fst (RandCh_bytes (nat_of MaxSize) (Rand_ s)) in
    length fresh = nat_of MaxSize /\
    Data s' = (if OnlyASCII then map ToASCII_byte fresh else fresh) ++
              skipn (nat_of MaxSize) (Data s) /\
    (OnlyASCII = true ->
     Forall (fun b => isprint b = true) (firstn (nat_of NewSize) (Data s')))).
Proof.
  intros HM Hlen. unfold Mutate, MutateImpl.
  apply returns_bind, returns_gets.
  apply returns_bind, returns_assert. { apply Z.gtb_lt. exact HM. }
  apply returns_bind, returns_assert. { apply Z.leb_le. lia. }
  simpl (0 =? 0). cbv iota.
  apply returns_bind. unfold For_, For.
  eapply returns_weaken.
  { apply (returns_RandCh_loop (nat_of (MaxSize - 0)) 0 s).
    unfold len, nat_of in *. lia. }
  intros [] s1 ->. cbv beta.
  replace (nat_of (MaxSize - 0)) with (nat_of MaxSize) by (unfold nat_of; lia).
  pose proof (RandCh_bytes_range (nat_of MaxSize) (Rand_ s)) as [_ Hfresh].
  destruct (RandCh_bytes (nat_of MaxSize) (Rand_ s)) as [fresh R]. cbn [fst snd] in *.
  cbn [firstn app Nat.add].
  assert (Hf : firstn (nat_of MaxSize) (fresh ++ skipn (nat_of MaxSize) (Data s)) = fresh).
  { rewrite <- Hfresh at 1. rewrite firstn_app, Nat.sub_diag, firstn_O, app_nil_r.
    apply firstn_all. }
  assert (Hs : skipn (nat_of MaxSize) (fresh ++ skipn (nat_of MaxSize) (Data s)) =
               skipn (nat_of MaxSize) (Data s)).
  { rewrite <- Hfresh at 1. rewrite skipn_app, Nat.sub_diag, skipn_all. reflexivity. }
  destruct OnlyASCII.
  - apply returns_bind, returns_ToASCII.
    { cbn [Data set_Data set_Rand]. unfold len, nat_of in *.
      rewrite length_app, length_skipn. lia. }
    cbn [Data set_Data set_Rand]. rewrite Hf, Hs.
    apply returns_ret. split; [reflexivity|]. split; [exact Hfresh|].
    split; [reflexivity|]. intros _. cbn [Data set_Data].
    rewrite <- (length_map ToASCII_byte) in Hfresh.
    rewrite <- Hfresh at 1. rewrite firstn_app, Nat.sub_diag, firstn_O, app_nil_r, firstn_all.
    apply Forall_map, Forall_forall. intros x _. apply ToASCII_byte_isprint.
  - apply returns_bind, returns_ret, returns_ret.
    split; [reflexivity|]. split; [exact Hfresh|].
    split; [reflexivity | discriminate].
Qed.


(** ** The retry loop of MutateImpl *)

Lemma MutateImpl_loop_unfold (Iter : nat) (Size MaxSize : Z) (Ms : list Mutator) (s : State) :
  MutateImpl_loop (S Iter) Size MaxSize Ms s =
  match attempt Size MaxSize Ms s with
  | Some ((Mu, NewSize), s1) =>
      if NewSize =? 0 then MutateImpl_loop Iter Size MaxSize Ms s1
      else accept Mu NewSize s1
  | None => None
  end.
Proof.
  cbn [MutateImpl_loop]. unfold attempt, bind.
  destruct (Rand (len Ms) s) as [[i s1]|]; [|reflexivity].
  destruct (at_ Ms i s1) as [[Mu s2]|]; [|reflexivity].
  destruct (call (Fn Mu) Size MaxSize s2) as [[n s3]|]; [|reflexivity].
  unfold ret. destruct (n =? 0); reflexivity.
Qed.

Lemma MutateImpl_loop_success (Size MaxSize : Z) (Ms : list Mutator) :
  forall (k : nat) (s s1 : State),
  failed_attempts Size MaxSize Ms k s s1 ->
  forall (Iter : nat) (Mu : Mutator) (n : Z) (s2 : State),
  (k < Iter)%nat ->
  attempt Size MaxSize Ms s1 = Some ((Mu, n), s2) -> n <> 0 ->
  MutateImpl_loop Iter Size MaxSize Ms s = accept Mu n s2.
Proof.
  induction 1 as [s | k s s1 s' Mu0 Ha Hf IH]; intros Iter Mu n s2 Hk Hatt Hn.
  - destruct Iter as [|Iter]; [lia|].
    rewrite MutateImpl_loop_unfold, Hatt.
    destruct (Z.eqb_spec n 0); [contradiction | reflexivity].
  - destruct Iter as [|Iter]; [lia|].
    rewrite MutateImpl_loop_unfold, Ha. simpl (0 =? 0).
    apply IH; [lia | exact Hatt | exact Hn].
Qed.

Lemma MutateImpl_loop_exhausted (Size MaxSize : Z) (Ms : list Mutator) :
  forall (k : nat) (s s1 : State),
  failed_attempts Size MaxSize Ms k s s1 ->
  MutateImpl_loop k Size MaxSize Ms s = Some (Size, s1).
Proof.
  induction 1 as [s | k s s1 s' Mu0 Ha Hf IH].
  - reflexivity.
  - rewrite MutateImpl_loop_unfold, Ha. simpl (0 =? 0). exact IH.
Qed.

Lemma MutateImpl_loop_inv (Size MaxSize : Z) (Ms : list Mutator) :
  forall (Iter : nat) (s : State) (r : Z) (s' : State),
  MutateImpl_loop Iter Size MaxSize Ms s = Some (r, s') ->
  (exists (k : nat) (s1 : State) (Mu : Mutator) (n : Z) (s2 : State),
     (k < Iter)%nat /\ failed_attempts Size MaxSize Ms k s s1 /\
     attempt Size MaxSize Ms s1 = Some ((Mu, n), s2) /\ n <> 0 /\
     accept Mu n s2 = Some (r, s')) \/
  (r = Size /\ failed_attempts Size MaxSize Ms Iter s s').
Proof.
  induction Iter as [|Iter IH]; intros s r s' H.
  - simpl in H. inversion H; subst. right. split; [reflexivity | constructor].
  - rewrite MutateImpl_loop_unfold in H.
    destruct (attempt Size MaxSize Ms s) as [[[Mu n] s1]|] eqn:Ha; [|discriminate].
    destruct (Z.eqb_spec n 0) as [->|Hn].
    + destruct (IH _ _ _ H) as [(k & s2 & Mu' & n' & s3 & Hk & Hf & Ha' & Hn' & Hacc) | [-> Hf]].
      * left. exists (S k), s2, Mu', n', s3.
        repeat split; try assumption; [lia | econstructor; eassumption].
      * right. split; [reflexivity | econstructor; eassumption].
    + left. exists 0%nat, s, Mu, n, s1.
      repeat split; try assumption; [lia | constructor].
Qed.

Lemma accept_returns (Mu : Mutator) (n : Z) (s : State) :
  0 <= n <= len (Data s) ->
  accept Mu n s =
  Some (n, set_CurrentMutatorSequence (CurrentMutatorSequence s ++ [Mu])
             (if OnlyASCII
              then set_Data (map ToASCII_byte (firstn (nat_of n) (Data s)) ++
                             skipn (nat_of n) (Data s)) s
              else s)).
Proof.
  intros Hn. unfold accept.
  destruct OnlyASCII.
  - pose proof (returns_ToASCII n s
                  (fun _ s' => s' = set_Data (map ToASCII_byte (firstn (nat_of n) (Data s)) ++
                                              skipn (nat_of n) (Data s)) s) Hn eq_refl) as H.
    apply returns_inv in H. destruct H as ([] & s' & E & ->).
    unfold bind. rewrite E. reflexivity.
  - reflexivity.
Qed.

(** C8: for [Size > 0] the loop of [MutateImpl] makes at most 10
    attempts. After [k < 10] attempts that returned 0, an attempt that
    returns [n], not 0, ends the loop and is accepted: on [n] bytes that the
    buffer holds, the ASCII fold is applied if configured, the mutator is
    appended to [CurrentMutatorSequence] and [n] is returned. After 10
    attempts that returned 0, [MutateImpl] returns [Size] without another
    attempt. Every result of [MutateImpl] arises in one of these two ways. *)
Theorem MutateImpl_retries (s : State) (Size MaxSize : Z) (Ms : list Mutator) :
  0 < Size <= MaxSize ->
  (forall (k : nat) (s1 : State) (Mu : Mutator) (n : Z) (s2 : State),
     (k < 10)%nat -> failed_attempts Size MaxSize Ms k s s1 ->
     attempt Size MaxSize Ms s1 = Some ((Mu, n), s2) -> n <> 0 ->
     MutateImpl Size MaxSize Ms s = accept Mu n s2 /\
     (0 <= n <= len (Data s2) ->
      MutateImpl Size MaxSize Ms s =
      Some (n, set_CurrentMutatorSequence (CurrentMutatorSequence s2 ++ [Mu])
                 (if OnlyASCII
                  then set_Data (map ToASCII_byte (firstn (nat_of n) (Data s2)) ++
                                 skipn (nat_of n) (Data s2)) s2
                  else s2)))) /\
  (forall s1 : State,
     failed_attempts Size MaxSize Ms 10 s s1 ->
     MutateImpl Size MaxSize Ms s = Some (Size, s1)) /\
  (forall (r : Z) (s' : State),
     MutateImpl Size MaxSize Ms s = Some (r, s') ->
     (exists (k : nat) (s1 : State) (Mu : Mutator) (n : Z) (s2 : State),
        (k < 10)%nat /\ failed_attempts Size MaxSize Ms k s s1 /\
        attempt Size MaxSize Ms s1 = Some ((Mu, n), s2) /\ n <> 0 /\
        accept Mu n s2 = Some (r, s')) \/
     (r = Size /\ failed_attempts Size MaxSize Ms 10 s s')).
Proof.
  intros HS.
  assert (E : MutateImpl Size MaxSize Ms s = MutateImpl_loop 10 Size MaxSize Ms s).
  { unfold MutateImpl, bind, assert.
    destruct (Z.gtb_spec MaxSize 0); [|lia].
    destruct (Z.leb_spec Size MaxSize); [|lia].
    destruct (Z.eqb_spec Size 0); [lia|].
    destruct (Z.gtb_spec Size 0); [|lia].
    reflexivity. }
  rewrite E. split; [|split].
  - intros k s1 Mu n s2 Hk Hf Ha Hn.
    assert (Hacc : MutateImpl_loop 10 Size MaxSize Ms s = accept Mu n s2).
    { eapply MutateImpl_loop_success; eassumption. }
    split; [exact Hacc|]. intros Hlen. rewrite Hacc. apply accept_returns. exact Hlen.
  - intros s1 Hf. apply MutateImpl_loop_exhausted. exact Hf.
  - intros r s' H. apply MutateImpl_loop_inv. exact H.
Qed.


(** ** The sizes the mutators return *)

Lemma result_ret {A} (a : A) (P : A -> Prop) : P a -> result_in (ret a) P.
Proof. intros H s. apply ensures_ret. exact H. Qed.

Lemma result_abort {A} (P : A -> Prop) : result_in abort P.
Proof. intros s. apply ensures_abort. Qed.

Lemma result_bind {A B} (m : M A) (f : A -> M B) (R : A -> Prop) (P : B -> Prop) :
  result_in m R -> (forall a, R a -> result_in (f a) P) -> result_in (bind m f) P.
Proof.
  intros Hm Hf s. apply ensures_bind.
  eapply ensures_weaken; [apply Hm|]. intros a s' Ha. apply Hf. exact Ha.
Qed.

Lemma result_bind_any {A B} (m : M A) (f : A -> M B) (P : B -> Prop) :
  (forall a, result_in (f a) P) -> result_in (bind m f) P.
Proof.
  intros Hf. apply result_bind with (R := fun _ => True); [|auto].
  intros s. apply ensures_any. auto.
Qed.

Lemma result_Rand (n : Z) :
  result_in (Rand n) (fun r => (0 < n -> 0 <= r < n) /\ (n = 0 -> r = 0)).
Proof. intros s. apply ensures_Rand. intros r R H1 H2. split; assumption. Qed.

Lemma result_assert (b : bool) : result_in (assert b) (fun _ => b = true).
Proof. intros s. apply ensures_assert. auto. Qed.

Lemma result_weaken {A} (m : M A) (P Q : A -> Prop) :
  result_in m P -> (forall a, P a -> Q a) -> result_in m Q.
Proof.
  intros H HPQ s. eapply ensures_weaken; [apply H|].
  intros a s' Ha. apply HPQ. exact Ha.
Qed.

(** The sizes a mutator may return: 0, or a size from 1 to [MaxSize]. *)
Lemma Mutate_EraseBytes_size (Size MaxSize : Z) :
  0 < Size <= MaxSize -> MaxSize <= SIZE_MAX ->
  result_in (Mutate_EraseBytes Size MaxSize) (fun n => n = 0 \/ 1 <= n <= MaxSize).
Proof.
  intros HS HM. unfold SIZE_MAX in HM. pose proof SIZE_MOD_eq.
  unfold Mutate_EraseBytes.
  apply result_bind_any; intros _.
  destruct (Size =? 1); [apply result_ret; auto|].
  apply result_bind_any; intros r.
  eapply result_bind; [apply result_assert|]. intros [] HN. apply Z.ltb_lt in HN.
  apply result_bind_any; intros Idx.
  apply result_bind_any; intros _.
  apply result_ret. right.
  pose proof (size_t_range (r + 1)).
  rewrite size_t_small by lia. lia.
Qed.

Lemma Mutate_InsertByte_size (Size MaxSize : Z) :
  0 < Size <= MaxSize -> MaxSize <= SIZE_MAX ->
  result_in (Mutate_InsertByte Size MaxSize) (fun n => n = 0 \/ 1 <= n <= MaxSize).
Proof.
  intros HS HM. unfold SIZE_MAX in HM. pose proof SIZE_MOD_eq.
  unfold Mutate_InsertByte.
  destruct (Z.eqb_spec Size MaxSize); [apply result_ret; auto|].
  do 4 (apply result_bind_any; intros ?).
  apply result_ret. right. rewrite size_t_small by lia. lia.
Qed.

Lemma Mutate_InsertRepeatedBytes_size (Size MaxSize : Z) :
  0 < Size <= MaxSize -> MaxSize <= SIZE_MAX ->
  result_in (Mutate_InsertRepeatedBytes Size MaxSize) (fun n => n = 0 \/ 1 <= n <= MaxSize).
Proof.
  intros HS HM. unfold Mutate_InsertRepeatedBytes.
  destruct (size_t (Size + kMinBytesToInsert) >=? MaxSize); [apply result_ret; auto|].
  apply result_bind_any; intros r.
  eapply result_bind; [apply result_assert|]. intros [] HN.
  apply andb_prop in HN. destruct HN as [HN _]. apply Z.leb_le in HN.
  do 5 (apply result_bind_any; intros ?).
  apply result_ret.
  pose proof (size_t_range (Size + size_t (r + kMinBytesToInsert))). lia.
Qed.

Lemma Mutate_ChangeByte_size (Size MaxSize : Z) :
  0 < Size <= MaxSize ->
  result_in (Mutate_ChangeByte Size MaxSize) (fun n => n = 0 \/ 1 <= n <= MaxSize).
Proof.
  intros HS. unfold Mutate_ChangeByte.
  do 3 (apply result_bind_any; intros ?). apply result_ret. lia.
Qed.

Lemma Mutate_ChangeBit_size (Size MaxSize : Z) :
  0 < Size <= MaxSize ->
  result_in (Mutate_ChangeBit Size MaxSize) (fun n => n = 0 \/ 1 <= n <= MaxSize).
Proof.
  intros HS. unfold Mutate_ChangeBit.
  do 4 (apply result_bind_any; intros ?). apply result_ret. lia.
Qed.

Lemma Mutate_ShuffleBytes_size (Size MaxSize : Z) :
  0 < Size <= MaxSize ->
  result_in (Mutate_ShuffleBytes Size MaxSize) (fun n => n = 0 \/ 1 <= n <= MaxSize).
Proof.
  intros HS. unfold Mutate_ShuffleBytes.
  do 5 (apply result_bind_any; intros ?). apply result_ret. lia.
Qed.

Lemma Mutate_ChangeASCIIInteger_size (Size MaxSize : Z) :
  0 < Size <= MaxSize ->
  result_in (Mutate_ChangeASCIIInteger Size MaxSize) (fun n => n = 0 \/ 1 <= n <= MaxSize).
Proof.
  intros HS. unfold Mutate_ChangeASCIIInteger.
  do 2 (apply result_bind_any; intros ?).
  destruct (_ =? Size); [apply result_ret; auto|].
  do 7 (apply result_bind_any; intros ?). apply result_ret. lia.
Qed.

Lemma ChangeBinaryInteger_size (sizeof_T : nat) (Size MaxSize : Z) :
  0 < Size <= MaxSize ->
  result_in (ChangeBinaryInteger sizeof_T Size) (fun n => n = 0 \/ 1 <= n <= MaxSize).
Proof.
  intros HS. unfold ChangeBinaryInteger.
  destruct (Size <? Z.of_nat sizeof_T); [apply result_ret; auto|].
  do 8 (apply result_bind_any; intros ?). apply result_ret. lia.
Qed.

Lemma Mutate_ChangeBinaryInteger_size (Size MaxSize : Z) :
  0 < Size <= MaxSize ->
  result_in (Mutate_ChangeBinaryInteger Size MaxSize) (fun n => n = 0 \/ 1 <= n <= MaxSize).
Proof.
  intros HS. unfold Mutate_ChangeBinaryInteger.
  apply result_bind_any; intros k.
  repeat (destruct (k =? _); [apply ChangeBinaryInteger_size; exact HS|]).
  apply result_abort.
Qed.

Lemma CopyPartOf_size (From : BufPtr) (FromSize : Z) (To : BufPtr) (ToSize : Z) :
  result_in (CopyPartOf From FromSize To ToSize) (fun n => n = ToSize).
Proof.
  unfold CopyPartOf.
  do 6 (apply result_bind_any; intros ?). apply result_ret. reflexivity.
Qed.

Lemma InsertPartOf_size (From : BufPtr) (FromSize : Z) (To : BufPtr) (ToSize MaxToSize : Z) :
  0 <= ToSize -> 0 <= FromSize -> MaxToSize <= SIZE_MAX ->
  result_in (InsertPartOf From FromSize To ToSize MaxToSize)
    (fun n => n = 0 \/ (ToSize < n <= MaxToSize /\ ToSize < MaxToSize)).
Proof.
  intros HT HF HM. unfold SIZE_MAX in HM. pose proof SIZE_MOD_eq.
  unfold InsertPartOf. rewrite Z.geb_leb.
  destruct (Z.leb_spec MaxToSize ToSize) as [Hfull|Hroom]; [apply result_ret; auto|].
  rewrite (size_t_small (MaxToSize - ToSize)) by lia.
  rewrite std_min_spec.
  eapply result_bind; [apply result_Rand|]. intros r [Hr1 Hr0].
  assert (Hr : 0 <= r < MaxToSize - ToSize) by lia.
  do 5 (apply result_bind_any; intros ?).
  apply result_ret. right.
  rewrite (size_t_small (r + 1)) by lia. rewrite size_t_small by lia. lia.
Qed.

Lemma Mutate_CopyPart_size (Size MaxSize : Z) :
  0 < Size <= MaxSize -> MaxSize <= SIZE_MAX ->
  result_in (Mutate_CopyPart Size MaxSize) (fun n => n = 0 \/ 1 <= n <= MaxSize).
Proof.
  intros HS HM. unfold Mutate_CopyPart.
  apply result_bind_any; intros b. destruct b.
  - eapply result_weaken; [apply CopyPartOf_size|]. intros n ->. lia.
  - eapply result_weaken; [apply InsertPartOf_size; lia|].
    intros n Hn. cbv beta in Hn. lia.
Qed.

Lemma Mutate_CrossOver_size (Size MaxSize : Z) :
  result_in (Mutate_CrossOver Size MaxSize) (fun n => n = 0 \/ 1 <= n <= MaxSize).
Proof.
  unfold Mutate_CrossOver.
  apply result_bind_any; intros c. destruct c as [units|]; [|apply result_ret; auto].
  destruct (_ || _); [apply result_ret; auto|].
  do 2 (apply result_bind_any; intros ?).
  destruct (_ =? 0); [apply result_ret; auto|].
  do 4 (apply result_bind_any; intros ?).
  eapply result_bind; [apply result_assert|]. intros [] H1. apply Z.gtb_lt in H1.
  eapply result_bind; [apply result_assert|]. intros [] H2. apply Z.leb_le in H2.
  apply result_bind_any; intros _. apply result_ret. lia.
Qed.

Lemma AddWordFromDictionary_size (D : DictId) (Size MaxSize : Z) :
  0 < Size <= MaxSize ->
  result_in (AddWordFromDictionary D Size MaxSize) (fun n => n = 0 \/ 1 <= n <= MaxSize).
Proof.
  intros HS. unfold AddWordFromDictionary.
  apply result_bind_any; intros Dv.
  destruct (len Dv =? 0); [apply result_ret; auto|].
  do 4 (apply result_bind_any; intros ?).
  match goal with |- result_in (if ?b then _ else _) _ => destruct b end.
  - rewrite Z.gtb_ltb.
    match goal with |- context [?x <? ?y] => destruct (Z.ltb_spec x y) as [Hbig|Hok] end;
      [apply result_ret; auto|].
    do 5 (apply result_bind_any; intros ?).
    apply result_ret.
    match goal with |- context [size_t ?z] => pose proof (size_t_range z) end. lia.
  - match goal with |- result_in (if ?b then _ else _) _ => destruct b end;
      [apply result_ret; auto|].
    do 4 (apply result_bind_any; intros ?).
    apply result_ret. lia.
Qed.


(** The sizes the 13 mutators of the default registry return. *)
Lemma DefaultMutators_sizes (Mu : Mutator) (Size MaxSize : Z) :
  In Mu DefaultMutators_list ->
  0 < Size <= MaxSize -> MaxSize <= SIZE_MAX ->
  result_in (call (Fn Mu) Size MaxSize) (fun n => n = 0 \/ 1 <= n <= MaxSize).
Proof.
  intros HIn HS HM.
  unfold DefaultMutators_list in HIn. simpl in HIn.
  repeat (destruct HIn as [<- | HIn]; [cbn [call Fn] | ]); try contradiction.
  - apply Mutate_EraseBytes_size; assumption.
  - apply Mutate_InsertByte_size; assumption.
  - apply Mutate_InsertRepeatedBytes_size; assumption.
  - apply Mutate_ChangeByte_size; assumption.
  - apply Mutate_ChangeBit_size; assumption.
  - apply Mutate_ShuffleBytes_size; assumption.
  - apply Mutate_ChangeASCIIInteger_size; assumption.
  - apply Mutate_ChangeBinaryInteger_size; assumption.
  - apply Mutate_CopyPart_size; assumption.
  - apply Mutate_CrossOver_size.
  - apply AddWordFromDictionary_size; assumption.
  - apply AddWordFromDictionary_size; assumption.
  - apply AddWordFromDictionary_size; assumption.
Qed.

(** ** The Words of the dictionaries *)

Lemma keeps_ret {A} (a : A) : keeps_words (ret a).
Proof. intros s. apply ensures_ret. reflexivity. Qed.

Lemma keeps_abort {A} : keeps_words (@abort A).
Proof. intros s. apply ensures_abort. Qed.

Lemma keeps_bind {A B} (m : M A) (f : A -> M B) :
  keeps_words m -> (forall a, keeps_words (f a)) -> keeps_words (bind m f).
Proof.
  intros Hm Hf s. apply ensures_bind.
  eapply ensures_weaken; [apply Hm|]. intros a s1 H1. cbv beta in H1.
  eapply ensures_weaken; [apply Hf|]. intros b s2 H2. cbv beta in H2. congruence.
Qed.

Lemma keeps_gets {A} (f : State -> A) : keeps_words (gets f).
Proof. intros s. apply ensures_gets. reflexivity. Qed.

Lemma keeps_assert (b : bool) : keeps_words (assert b).
Proof. intros s. apply ensures_assert. reflexivity. Qed.

Lemma keeps_modify (f : State -> State) :
  (forall s, words (f s) = words s) -> keeps_words (modify f).
Proof. intros H s. apply ensures_modify. apply H. Qed.

Lemma keeps_lift_option {A} (o : option A) : keeps_words (lift_option o).
Proof. destruct o; [apply keeps_ret | apply keeps_abort]. Qed.

Lemma keeps_at {A} (v : list A) (i : Z) : keeps_words (at_ v i).
Proof.
  unfold at_. destruct (0 <=? i); [|apply keeps_abort].
  destruct (nth_error v (nat_of i)); [apply keeps_ret | apply keeps_abort].
Qed.

Lemma keeps_RandRaw : keeps_words RandRaw.
Proof.
  intros s r s' E. unfold RandRaw in E.
  destruct (Random_next (Rand_ s)). inversion E; subst. reflexivity.
Qed.

Lemma keeps_Rand (n : Z) : keeps_words (Rand n).
Proof.
  intros s r s' E. unfold Rand in E.
  destruct (Random_upto (Rand_ s) n). inversion E; subst. reflexivity.
Qed.

Lemma keeps_RandBool : keeps_words RandBool.
Proof.
  intros s r s' E. unfold RandBool in E.
  destruct (Random_bool (Rand_ s)). inversion E; subst. reflexivity.
Qed.

Lemma keeps_write_buf (p : BufPtr) (l : list Z) : keeps_words (write_buf p l).
Proof.
  destruct p; simpl; [apply keeps_modify | apply keeps_modify | apply keeps_abort];
    reflexivity.
Qed.

Create HintDb keeps.

#[local] Hint Resolve keeps_ret keeps_abort keeps_gets keeps_assert keeps_lift_option
  keeps_at keeps_RandRaw keeps_Rand keeps_RandBool keeps_write_buf : keeps.

(** One step of a proof that a computation keeps the Words: the rule for
    its head, or a case analysis where it branches. *)
Ltac keeps_step :=
  match goal with
  | |- keeps_words (bind _ _) => apply keeps_bind; [| intros ?]
  | |- keeps_words (modify _) => apply keeps_modify; intros ?; reflexivity
  | |- keeps_words (if ?b then _ else _) => destruct b
  | |- keeps_words (match ?x with _ => _ end) => destruct x
  | |- keeps_words _ => solve [auto with keeps]
  end.

Lemma keeps_load (p : BufPtr) (i : Z) : keeps_words (load p i).
Proof. unfold load. repeat keeps_step. Qed.

Lemma keeps_store (p : BufPtr) (i v : Z) : keeps_words (store p i v).
Proof. unfold store. repeat keeps_step. Qed.

Lemma keeps_memmove dst doff src soff n : keeps_words (memmove dst doff src soff n).
Proof. unfold memmove. repeat keeps_step. Qed.

Lemma keeps_memcpy dst doff src soff n : keeps_words (memcpy dst doff src soff n).
Proof. apply keeps_memmove. Qed.

Lemma keeps_for_loop {A} (body : Z -> A -> M A) :
  (forall i a, keeps_words (body i a)) ->
  forall n i a, keeps_words (for_loop n i body a).
Proof.
  intros Hb. induction n as [|n IH]; intros i a; simpl.
  - apply keeps_ret.
  - apply keeps_bind; [apply Hb | intros a'; apply IH].
Qed.

#[local] Hint Resolve keeps_load keeps_store keeps_memmove keeps_memcpy : keeps.

Lemma keeps_scan_while (p : Z -> bool) (Size : Z) :
  forall fuel B, keeps_words (scan_while fuel p Size B).
Proof.
  induction fuel as [|fuel IH]; intros B; simpl; repeat keeps_step.
Qed.

Lemma keeps_update_through (p : DEptr) (f : DictionaryEntry -> DictionaryEntry) :
  (forall DE, GetW (f DE) = GetW DE) -> keeps_words (update_through p f).
Proof.
  intros Hf s u s' E. unfold update_through, deref, bind, gets, modify in E.
  destruct (nth_error (get_Dictionary (fst p) s) (snd p)) as [DE|] eqn:En;
    simpl in E; [|discriminate].
  inversion E; subst. unfold words.
  pose proof (map_GetW_list_set _ _ _ (f DE) En (Hf DE)) as Hm.
  destruct p as [[| |] i]; simpl in *; rewrite Hm; reflexivity.
Qed.

#[local] Hint Resolve keeps_scan_while : keeps.


Lemma keeps_For {A} (lo hi : Z) (body : Z -> A -> M A) (a : A) :
  (forall i a, keeps_words (body i a)) -> keeps_words (For lo hi body a).
Proof. intros H. unfold For. apply keeps_for_loop. exact H. Qed.

Lemma keeps_For_ (lo hi : Z) (body : Z -> M unit) :
  (forall i, keeps_words (body i)) -> keeps_words (For_ lo hi body).
Proof. intros H. unfold For_. apply keeps_For. intros i _. apply H. Qed.

Lemma keeps_RandCh : keeps_words RandCh.
Proof. unfold RandCh. repeat keeps_step. Qed.

Lemma keeps_ToASCII (n : Z) : keeps_words (ToASCII n).
Proof. unfold ToASCII. repeat keeps_step. Qed.

Lemma keeps_swap_bytes p i j : keeps_words (swap_bytes p i j).
Proof. unfold swap_bytes. repeat keeps_step. Qed.

#[local] Hint Resolve keeps_RandCh keeps_ToASCII keeps_swap_bytes : keeps.

Lemma keeps_random_shuffle p first last : keeps_words (random_shuffle p first last).
Proof.
  unfold random_shuffle. apply keeps_For_. intros i. repeat keeps_step.
Qed.

#[local] Hint Resolve keeps_random_shuffle : keeps.

Lemma keeps_Mutate_Custom Size MaxSize : keeps_words (Mutate_Custom Size MaxSize).
Proof. unfold Mutate_Custom. repeat keeps_step. Qed.

Lemma keeps_Mutate_CustomCrossOver Size MaxSize :
  keeps_words (Mutate_CustomCrossOver Size MaxSize).
Proof. unfold Mutate_CustomCrossOver. repeat keeps_step. Qed.

Lemma keeps_Mutate_ShuffleBytes Size MaxSize : keeps_words (Mutate_ShuffleBytes Size MaxSize).
Proof. unfold Mutate_ShuffleBytes. repeat keeps_step. Qed.

Lemma keeps_Mutate_EraseBytes Size MaxSize : keeps_words (Mutate_EraseBytes Size MaxSize).
Proof. unfold Mutate_EraseBytes. repeat keeps_step. Qed.

Lemma keeps_Mutate_InsertByte Size MaxSize : keeps_words (Mutate_InsertByte Size MaxSize).
Proof. unfold Mutate_InsertByte. repeat keeps_step. Qed.

Lemma keeps_Mutate_InsertRepeatedBytes Size MaxSize :
  keeps_words (Mutate_InsertRepeatedBytes Size MaxSize).
Proof.
  unfold Mutate_InsertRepeatedBytes. repeat keeps_step.
  all: apply keeps_For_; intros; auto with keeps.
Qed.

Lemma keeps_Mutate_ChangeByte Size MaxSize : keeps_words (Mutate_ChangeByte Size MaxSize).
Proof. unfold Mutate_ChangeByte. repeat keeps_step. Qed.

Lemma keeps_Mutate_ChangeBit Size MaxSize : keeps_words (Mutate_ChangeBit Size MaxSize).
Proof. unfold Mutate_ChangeBit. repeat keeps_step. Qed.

Lemma keeps_AddWordFromDictionary D Size MaxSize :
  keeps_words (AddWordFromDictionary D Size MaxSize).
Proof.
  unfold AddWordFromDictionary.
  repeat first [ apply keeps_update_through; intros; reflexivity | keeps_step ].
Qed.

Lemma keeps_CopyPartOf From FromSize To ToSize :
  keeps_words (CopyPartOf From FromSize To ToSize).
Proof. unfold CopyPartOf. repeat keeps_step. Qed.

Lemma keeps_InsertPartOf From FromSize To ToSize MaxToSize :
  keeps_words (InsertPartOf From FromSize To ToSize MaxToSize).
Proof. unfold InsertPartOf. repeat keeps_step. Qed.

#[local] Hint Resolve keeps_CopyPartOf keeps_InsertPartOf : keeps.

Lemma keeps_Mutate_CopyPart Size MaxSize : keeps_words (Mutate_CopyPart Size MaxSize).
Proof. unfold Mutate_CopyPart. repeat keeps_step. Qed.

Lemma keeps_Mutate_ChangeASCIIInteger Size MaxSize :
  keeps_words (Mutate_ChangeASCIIInteger Size MaxSize).
Proof.
  unfold Mutate_ChangeASCIIInteger. repeat keeps_step.
  all: apply keeps_For; intros; repeat keeps_step.
Qed.

Lemma keeps_ChangeBinaryInteger sizeof_T Size :
  keeps_words (ChangeBinaryInteger sizeof_T Size).
Proof. unfold ChangeBinaryInteger. repeat keeps_step. Qed.

#[local] Hint Resolve keeps_ChangeBinaryInteger : keeps.

Lemma keeps_Mutate_ChangeBinaryInteger Size MaxSize :
  keeps_words (Mutate_ChangeBinaryInteger Size MaxSize).
Proof. unfold Mutate_ChangeBinaryInteger. repeat keeps_step. Qed.

Lemma keeps_CrossOver_call (Size : Z) (O : list Z) (U_size : Z) :
  keeps_words (fun s =>
    let '(n, U', R') :=
      CrossOver (Data s) Size O (len O) (MutateInPlaceHere s) U_size (Rand_ s) in
    Some (size_t n, set_Rand R' (set_MutateInPlaceHere U' s))).
Proof.
  intros s n s' E.
  destruct (CrossOver (Data s) Size O (len O) (MutateInPlaceHere s) U_size (Rand_ s))
    as [[n0 U'] R'].
  inversion E; subst. reflexivity.
Qed.

Lemma keeps_Mutate_CrossOver Size MaxSize : keeps_words (Mutate_CrossOver Size MaxSize).
Proof.
  unfold Mutate_CrossOver.
  repeat first [ apply keeps_CrossOver_call | keeps_step ].
Qed.

Lemma keeps_call (f : MutatorFn) Size MaxSize : keeps_words (call f Size MaxSize).
Proof.
  destruct f; cbn [call].
  - apply keeps_Mutate_EraseBytes.
  - apply keeps_Mutate_InsertByte.
  - apply keeps_Mutate_InsertRepeatedBytes.
  - apply keeps_Mutate_ChangeByte.
  - apply keeps_Mutate_ChangeBit.
  - apply keeps_Mutate_ShuffleBytes.
  - apply keeps_Mutate_ChangeASCIIInteger.
  - apply keeps_Mutate_ChangeBinaryInteger.
  - apply keeps_Mutate_CopyPart.
  - apply keeps_Mutate_CrossOver.
  - apply keeps_AddWordFromDictionary.
  - apply keeps_AddWordFromDictionary.
  - apply keeps_AddWordFromDictionary.
  - apply keeps_Mutate_Custom.
  - apply keeps_Mutate_CustomCrossOver.
Qed.

#[local] Hint Resolve keeps_call : keeps.

Lemma keeps_MutateImpl_loop Size MaxSize Ms :
  forall Iter, keeps_words (MutateImpl_loop Iter Size MaxSize Ms).
Proof.
  induction Iter as [|Iter IH]; cbn [MutateImpl_loop]; repeat keeps_step.
Qed.

#[local] Hint Resolve keeps_MutateImpl_loop : keeps.

Lemma keeps_MutateImpl Size MaxSize Ms : keeps_words (MutateImpl Size MaxSize Ms).
Proof.
  unfold MutateImpl. repeat keeps_step.
  all: apply keeps_For_; intros; repeat keeps_step.
Qed.

#[local] Hint Resolve keeps_MutateImpl : keeps.

Lemma keeps_Mutate Size MaxSize : keeps_words (Mutate Size MaxSize).
Proof. unfold Mutate. repeat keeps_step. Qed.

Lemma keeps_DefaultMutate Size MaxSize : keeps_words (DefaultMutate Size MaxSize).
Proof. unfold DefaultMutate. repeat keeps_step. Qed.


(** ** Invariants of the dictionaries *)

Lemma ensures_for_each {A} (I : State -> Prop) (body : A -> M unit) :
  forall (l : list A) (s : State),
  I s ->
  (forall a s, In a l -> I s -> ensures (body a) s (fun _ s' => I s')) ->
  ensures (for_each l body) s (fun _ s' => I s').
Proof.
  induction l as [|a l IH]; intros s HI Hb; simpl.
  - apply ensures_ret. exact HI.
  - apply ensures_bind.
    eapply ensures_weaken; [apply Hb; [left; reflexivity | exact HI]|].
    intros [] s1 H1. apply IH; [exact H1|].
    intros a' s' Hin. apply Hb. right. exact Hin.
Qed.

Lemma ContainsWord_false (D : Dictionary) (W : Word) :
  ContainsWord D W = false -> ~ In W (map GetW D).
Proof.
  unfold ContainsWord. intros H Hin.
  apply in_map_iff in Hin. destruct Hin as (DE & HW & HDE).
  assert (Ht : existsb (fun DE => Word_eqb (GetW DE) W) D = true).
  { apply existsb_exists. exists DE. split; [exact HDE|].
    unfold Word_eqb. destruct (list_eq_dec Z.eq_dec (GetW DE) W); [reflexivity | contradiction]. }
  congruence.
Qed.

Lemma ContainsWord_true (D : Dictionary) (W : Word) :
  ContainsWord D W = true -> In W (map GetW D).
Proof.
  unfold ContainsWord. intros H.
  apply existsb_exists in H. destruct H as (DE & HDE & HW).
  unfold Word_eqb in HW. destruct (list_eq_dec Z.eq_dec (GetW DE) W); [|discriminate].
  subst W. apply in_map. exact HDE.
Qed.

(** [push_back] appends the entry when the dictionary has room and drops it
    when the dictionary is full. *)
Lemma Dictionary_push_back_room (cap : option Z) (D : Dictionary) (DE : DictionaryEntry) :
  (forall c, cap = Some c -> len D < c) ->
  Dictionary_push_back cap D DE = D ++ [DE].
Proof.
  intros H. unfold Dictionary_push_back. destruct cap as [c|]; [|reflexivity].
  specialize (H c eq_refl). destruct (Z.ltb_spec (len D) c); [reflexivity | lia].
Qed.

Lemma Dictionary_push_back_full (c : Z) (D : Dictionary) (DE : DictionaryEntry) :
  c <= len D -> Dictionary_push_back (Some c) D DE = D.
Proof.
  intros H. unfold Dictionary_push_back.
  destruct (Z.ltb_spec (len D) c); [lia | reflexivity].
Qed.

Lemma Dictionary_push_back_cases (cap : option Z) (D : Dictionary) (DE : DictionaryEntry) :
  Dictionary_push_back cap D DE = D \/ Dictionary_push_back cap D DE = D ++ [DE].
Proof.
  unfold Dictionary_push_back. destruct cap as [c|]; [|right; reflexivity].
  destruct (len D <? c); [right | left]; reflexivity.
Qed.

(** One round of the loop of [RecordSuccessfulMutationSequence]: the Words
    of the manual and of the temporary dictionary stay, and the persistent
    dictionary keeps its Words or gains one entry, made from a Word that it
    did not hold. *)
Lemma RecordSuccessfulMutationSequence_body_words (p : DEptr) (s : State) :
  ensures (RecordSuccessfulMutationSequence_body p) s (fun _ s' =>
    map GetW (ManualDictionary s') = map GetW (ManualDictionary s) /\
    map GetW (TempAutoDictionary s') = map GetW (TempAutoDictionary s) /\
    (map GetW (PersistentAutoDictionary s') = map GetW (PersistentAutoDictionary s) \/
     exists W P1, ~ In W (map GetW (PersistentAutoDictionary s)) /\
                  map GetW P1 = map GetW (PersistentAutoDictionary s) /\
                  PersistentAutoDictionary s' = P1 ++ [DictionaryEntry_make W 1])).
Proof.
  unfold RecordSuccessfulMutationSequence_body.
  apply ensures_bind.
  eapply ensures_weaken.
  { apply (keeps_update_through p IncSuccessCount). intros DE. reflexivity. }
  intros [] s1 Hw. cbv beta in Hw. unfold words in Hw.
  injection Hw as HwM HwT HwP.
  apply ensures_bind. intros E s2 HE. unfold deref, bind, gets in HE.
  destruct (nth_error (get_Dictionary (fst p) s1) (snd p)) as [E'|]; simpl in HE; [|discriminate].
  inversion HE; subst E' s2. clear HE.
  apply ensures_bind, ensures_gets.
  destruct (ContainsWord (PersistentAutoDictionary s1) (GetW E)) eqn:EC; simpl negb; cbv iota.
  - apply ensures_ret. rewrite HwM, HwT, HwP. auto.
  - apply ensures_modify.
    cbn [ManualDictionary TempAutoDictionary PersistentAutoDictionary set_Dictionary].
    rewrite HwM, HwT. split; [reflexivity|]. split; [reflexivity|].
    destruct (Dictionary_push_back_cases (capacity PersistentAuto)
                (PersistentAutoDictionary s1) (DictionaryEntry_make (GetW E) 1))
      as [Efull | Eroom]; [rewrite Efull | rewrite Eroom].
    + left. exact HwP.
    + right. exists (GetW E), (PersistentAutoDictionary s1). split; [|split].
      * rewrite <- HwP. apply ContainsWord_false. exact EC.
      * exact HwP.
      * reflexivity.
Qed.

Lemma keeps_deref (p : DEptr) : keeps_words (deref p).
Proof. unfold deref. repeat keeps_step. Qed.

#[local] Hint Resolve keeps_deref : keeps.

Lemma keeps_PrintMutationSequence : keeps_words PrintMutationSequence.
Proof.
  unfold PrintMutationSequence.
  apply keeps_bind; [auto with keeps | intros Ms].
  apply keeps_bind; [auto with keeps | intros l].
  apply keeps_bind; [| intros; auto with keeps].
  induction l as [|p l IH]; repeat keeps_step.
Qed.

Lemma keeps_PrintRecommendedDictionary : keeps_words PrintRecommendedDictionary.
Proof. unfold PrintRecommendedDictionary. repeat keeps_step. Qed.

Lemma keeps_discard {A} (m : M A) : keeps_words m -> keeps_words (discard m).
Proof. intros H. unfold discard. repeat keeps_step. Qed.

(** An operation that keeps the Words keeps what is said of them alone. *)
Lemma run_operation_words (P : list Word * list Word * list Word -> Prop)
    (op : Operation) (s : State) :
  P (words s) ->
  (forall s1, P (words s1) ->
     ensures RecordSuccessfulMutationSequence s1 (fun _ s' => P (words s'))) ->
  (forall W s1, P (words s1) ->
     ensures (AddWordToManualDictionary W) s1 (fun _ s' => P (words s'))) ->
  (forall DE s1, P (words s1) ->
     ensures (AddWordToAutoDictionary DE) s1 (fun _ s' => P (words s'))) ->
  (forall s1, P (words s1) -> ensures ClearAutoDictionary s1 (fun _ s' => P (words s'))) ->
  ensures (run_operation op) s (fun _ s' => P (words s')).
Proof.
  intros HP HRec HMan HAuto HClear.
  assert (Hkeep : forall (m : M unit), keeps_words m ->
            ensures m s (fun _ s' => P (words s'))).
  { intros m Hm.
    eapply ensures_weaken; [apply Hm|]. intros a s1 Hw. cbv beta in Hw.
    rewrite Hw. exact HP. }
  assert (Hset : forall buffer, keeps_words (modify (set_Data buffer))).
  { intros buffer. apply keeps_modify. reflexivity. }
  destruct op; cbn [run_operation].
  - apply Hkeep, keeps_bind; [apply Hset | intros _; apply keeps_discard, keeps_Mutate].
  - apply Hkeep, keeps_bind; [apply Hset | intros _; apply keeps_discard, keeps_DefaultMutate].
  - apply Hkeep, keeps_bind; [apply Hset | intros _; apply keeps_discard, keeps_call].
  - apply Hkeep. unfold StartMutationSequence. repeat keeps_step.
  - apply HRec, HP.
  - apply Hkeep, keeps_discard, keeps_PrintRecommendedDictionary.
  - apply Hkeep, keeps_discard, keeps_PrintMutationSequence.
  - apply HMan, HP.
  - apply HAuto, HP.
  - apply HClear, HP.
  - apply Hkeep. unfold SetCorpus. repeat keeps_step.
Qed.

(** No operation takes the temporary dictionary beyond
    [kMaxAutoDictSize] entries. *)
Lemma run_operation_TempAutoDictionary (op : Operation) (s : State) :
  len (TempAutoDictionary s) <= kMaxAutoDictSize ->
  ensures (run_operation op) s (fun _ s' =>
    len (TempAutoDictionary s') <= kMaxAutoDictSize).
Proof.
  intros HI.
  assert (Hlen : forall s0, len (TempAutoDictionary s0) = len (snd (fst (words s0)))).
  { intros s0. unfold words, len. simpl. rewrite length_map. reflexivity. }
  pose (P := fun w : list Word * list Word * list Word => len (snd (fst w)) <= kMaxAutoDictSize).
  eapply ensures_weaken.
  - apply (run_operation_words P op s).
    + unfold P. rewrite <- Hlen. exact HI.
    + intros s1 H1. unfold RecordSuccessfulMutationSequence.
      apply ensures_bind, ensures_gets.
      apply ensures_for_each; [exact H1|].
      intros p s2 _ H2.
      eapply ensures_weaken; [apply RecordSuccessfulMutationSequence_body_words|].
      intros [] s3 (_ & HT & _). unfold P, words in *. cbn [fst snd] in *.
      rewrite HT. exact H2.
    + intros W s1 H1. unfold AddWordToManualDictionary. apply ensures_modify. exact H1.
    + intros DE s1 H1. unfold AddWordToAutoDictionary. apply ensures_bind, ensures_gets.
      rewrite Z.geb_leb.
      destruct (Z.leb_spec kMaxAutoDictSize (len (TempAutoDictionary s1))) as [Hfull|Hroom].
      * apply ensures_ret. exact H1.
      * apply ensures_modify. unfold P. rewrite <- Hlen.
        cbn [TempAutoDictionary set_Dictionary].
        destruct (Dictionary_push_back_cases (capacity TempAuto)
                    (TempAutoDictionary s1) DE) as [-> | ->]; [lia|].
        unfold len in *. rewrite length_app. simpl. lia.
    + intros s1 H1. unfold ClearAutoDictionary. apply ensures_modify.
      unfold P. rewrite <- Hlen. vm_compute. discriminate.
  - intros [] s' H. unfold P in H. rewrite <- Hlen in H. exact H.
Qed.

(** No operation gives two entries of the persistent dictionary the same
    Word. *)
Lemma run_operation_PersistentAutoDictionary (op : Operation) (s : State) :
  NoDup (map GetW (PersistentAutoDictionary s)) ->
  ensures (run_operation op) s (fun _ s' =>
    NoDup (map GetW (PersistentAutoDictionary s'))).
Proof.
  intros HI.
  pose (P := fun w : list Word * list Word * list Word => NoDup (snd w)).
  apply (run_operation_words P op s); unfold P, words; cbn [fst snd].
  - exact HI.
  - intros s1 H1. unfold RecordSuccessfulMutationSequence.
    apply ensures_bind, ensures_gets.
    apply ensures_for_each; [exact H1|].
    intros p s2 _ H2.
    eapply ensures_weaken; [apply RecordSuccessfulMutationSequence_body_words|].
    intros [] s3 (_ & _ & HP). cbv beta.
    destruct HP as [-> | (W & P1 & HW & HP1 & ->)]; [exact H2|].
    rewrite map_app, HP1. simpl. rewrite DictionaryEntry_GetW.
    apply NoDup_app; [exact H2 | repeat constructor; intros [] |].
    intros x Hx [<-|[]]. contradiction.
  - intros W s1 H1. unfold AddWordToManualDictionary. apply ensures_modify. exact H1.
  - intros DE s1 H1. unfold AddWordToAutoDictionary. apply ensures_bind, ensures_gets.
    destruct (_ >=? _); [apply ensures_ret | apply ensures_modify]; exact H1.
  - intros s1 H1. unfold ClearAutoDictionary. apply ensures_modify. exact H1.
Qed.

(** C10: at every state a dispatcher reaches, the temporary dictionary
    holds at most [1 << 14 = 16384] entries; [AddWordToAutoDictionary]
    appends its entry when it holds fewer and does nothing otherwise; and
    whatever operation comes next, the bound holds after it. *)
Theorem TempAutoDictionary_bounded (s : State) :
  reachable s ->
  len (TempAutoDictionary s) <= 16384 /\
  (forall DE : DictionaryEntry,
     AddWordToAutoDictionary DE s =
     Some (tt, if len (TempAutoDictionary s) <? 16384
               then set_Dictionary TempAuto (TempAutoDictionary s ++ [DE]) s
               else s)) /\
  (forall (op : Operation) (s' : State),
     run_operation op s = Some (tt, s') -> len (TempAutoDictionary s') <= 16384).
Proof.
  intros Hr.
  assert (HI : len (TempAutoDictionary s) <= kMaxAutoDictSize).
  { induction Hr as [R | op s s' Hr IH Hop].
    - vm_compute. discriminate.
    - exact (run_operation_TempAutoDictionary op s IH tt s' Hop). }
  split; [exact HI|]. split.
  - intros DE. unfold AddWordToAutoDictionary, bind, gets.
    rewrite Z.geb_leb. change kMaxAutoDictSize with 16384.
    destruct (Z.leb_spec 16384 (len (TempAutoDictionary s)));
      destruct (Z.ltb_spec (len (TempAutoDictionary s)) 16384); try lia; [reflexivity|].
    rewrite Dictionary_push_back_room; [reflexivity|].
    intros c Hc. injection Hc as <-. change kMaxDictSize with 16384. lia.
  - intros op s' Hop.
    exact (run_operation_TempAutoDictionary op s HI tt s' Hop).
Qed.

(** C5, as the code has it: at every state a dispatcher reaches, no two
    entries of the persistent dictionary have the same Word; its entries are
    checked against the manual dictionary only by
    [PrintRecommendedDictionary], which prints those whose Word the manual
    dictionary does not hold. *)
Theorem PersistentAutoDictionary_deduplicated (s : State) :
  reachable s ->
  NoDup (map GetW (PersistentAutoDictionary s)) /\
  returns PrintRecommendedDictionary s (fun V s' =>
    s' = s /\
    forall DE : DictionaryEntry,
      In DE V <->
      In DE (PersistentAutoDictionary s) /\
      ~ In (GetW DE) (map GetW (ManualDictionary s))).
Proof.
  intros Hr. split.
  - induction Hr as [R | op s s' Hr IH Hop].
    + constructor.
    + exact (run_operation_PersistentAutoDictionary op s IH tt s' Hop).
  - unfold PrintRecommendedDictionary.
    apply returns_bind, returns_gets, returns_bind, returns_gets, returns_ret.
    split; [reflexivity|]. intros DE. rewrite filter_In.
    split; intros [H1 H2]; (split; [exact H1|]).
    + apply ContainsWord_false. apply negb_true_iff. exact H2.
    + apply negb_true_iff.
      destruct (ContainsWord (ManualDictionary s) (GetW DE)) eqn:E; [|reflexivity].
      apply ContainsWord_true in E. contradiction.
Qed.

(** ** RecordSuccessfulMutationSequence *)

Lemma nth_error_push_back {A} (l : list A) (a x : A) (i : nat) :
  nth_error l i = Some x -> nth_error (l ++ [a]) i = Some x.
Proof.
  intros H. rewrite nth_error_app1; [exact H|].
  apply nth_error_Some. congruence.
Qed.

(** One round of the loop on a valid pointer [p] to an entry [E]: it
    returns; the entry behind [p] has its success counter incremented, the
    entries behind other valid pointers are as before; the persistent
    dictionary gains the Word of [E] when it did not hold it and has room,
    and no Word otherwise. *)
Lemma RecordSuccessfulMutationSequence_body_spec (p : DEptr) (E : DictionaryEntry) (s : State) :
  nth_error (get_Dictionary (fst p) s) (snd p) = Some E ->
  returns (RecordSuccessfulMutationSequence_body p) s (fun _ s' =>
    (forall q X, nth_error (get_Dictionary (fst q) s) (snd q) = Some X ->
       (q = p -> nth_error (get_Dictionary (fst q) s') (snd q) = Some (IncSuccessCount X)) /\
       (q <> p -> nth_error (get_Dictionary (fst q) s') (snd q) = Some X)) /\
    (In (GetW E) (map GetW (PersistentAutoDictionary s)) \/
     kMaxDictSize <= len (PersistentAutoDictionary s) ->
       map GetW (PersistentAutoDictionary s') = map GetW (PersistentAutoDictionary s)) /\
    (~ In (GetW E) (map GetW (PersistentAutoDictionary s)) ->
     len (PersistentAutoDictionary s) < kMaxDictSize ->
       map GetW (PersistentAutoDictionary s') =
       map GetW (PersistentAutoDictionary s) ++ [GetW E])).
Proof.
  intros Hp. unfold RecordSuccessfulMutationSequence_body.
  eapply returns_bind, returns_update_through; [exact Hp|].
  set (s1 := set_Dictionary (fst p)
               (list_set (get_Dictionary (fst p) s) (snd p) (IncSuccessCount E)) s).
  assert (Hlt : (snd p < length (get_Dictionary (fst p) s))%nat).
  { apply nth_error_Some. congruence. }
  assert (H1 : forall q X, nth_error (get_Dictionary (fst q) s) (snd q) = Some X ->
             (q = p -> nth_error (get_Dictionary (fst q) s1) (snd q) = Some (IncSuccessCount X)) /\
             (q <> p -> nth_error (get_Dictionary (fst q) s1) (snd q) = Some X)).
  { intros [dq iq] X Hq. destruct p as [dp ip]. cbn [fst snd] in *. unfold s1. split.
    - intros Heq. inversion Heq; subst dq iq.
      rewrite get_Dictionary_set_Dictionary, nth_error_list_set by exact Hlt. congruence.
    - intros Hne.
      assert (Hd : {dq = dp} + {dq <> dp}) by (destruct dq, dp; auto; right; discriminate).
      destruct Hd as [->|Hd].
      + rewrite get_Dictionary_set_Dictionary, nth_error_list_set_other; [exact Hq | exact Hlt |].
        intros ->. apply Hne. reflexivity.
      + rewrite get_Dictionary_set_Dictionary_other by exact Hd. exact Hq. }
  assert (HW1 : map GetW (PersistentAutoDictionary s1) = map GetW (PersistentAutoDictionary s)).
  { pose proof (keeps_update_through p IncSuccessCount (fun DE => eq_refl) s) as Hk.
    assert (Hu : update_through p IncSuccessCount s = Some (tt, s1)).
    { unfold update_through, deref, bind, gets. rewrite Hp. reflexivity. }
    specialize (Hk tt s1 Hu). unfold words in Hk. injection Hk as _ _ Hk. exact Hk. }
  assert (HL1 : len (PersistentAutoDictionary s1) = len (PersistentAutoDictionary s)).
  { unfold len. rewrite <- (length_map GetW (PersistentAutoDictionary s1)), HW1.
    rewrite length_map. reflexivity. }
  apply returns_bind. unfold deref. apply returns_bind, returns_gets.
  eapply returns_lift_option.
  { apply (proj1 (H1 p E Hp)). reflexivity. }
  apply returns_bind, returns_gets.
  change (GetW (IncSuccessCount E)) with (GetW E).
  destruct (ContainsWord (PersistentAutoDictionary s1) (GetW E)) eqn:EC; simpl negb; cbv iota.
  - apply returns_ret. split; [exact H1|]. split.
    + intros _. exact HW1.
    + intros Hn. apply ContainsWord_true in EC. rewrite HW1 in EC. contradiction.
  - apply returns_modify. split; [|split].
    + intros q X Hq. destruct (H1 q X Hq) as [Ha Hb].
      assert (Hpush : forall Y,
                nth_error (get_Dictionary (fst q) s1) (snd q) = Some Y ->
                nth_error (get_Dictionary (fst q)
                   (set_Dictionary PersistentAuto
                      (Dictionary_push_back (capacity PersistentAuto)
                         (PersistentAutoDictionary s1)
                         (DictionaryEntry_make (GetW E) 1)) s1)) (snd q) = Some Y).
      { intros Y HY. destruct q as [[| |] iq]; cbn [fst snd get_Dictionary] in *;
          cbn [ManualDictionary TempAutoDictionary PersistentAutoDictionary set_Dictionary];
          try exact HY.
        destruct (Dictionary_push_back_cases (capacity PersistentAuto)
                    (PersistentAutoDictionary s1) (DictionaryEntry_make (GetW E) 1))
          as [-> | ->]; [exact HY|].
        apply nth_error_push_back. exact HY. }
      split; intros Hc; apply Hpush; auto.
    + intros [Hin | Hfull].
      * apply ContainsWord_false in EC. rewrite HW1 in EC. contradiction.
      * cbn [PersistentAutoDictionary set_Dictionary capacity].
        rewrite Dictionary_push_back_full by lia. exact HW1.
    + intros _ Hroom. cbn [PersistentAutoDictionary set_Dictionary].
      rewrite Dictionary_push_back_room.
      * rewrite map_app, HW1. simpl. rewrite DictionaryEntry_GetW. reflexivity.
      * intros c Hc. injection Hc as <-. lia.
Qed.


Lemma IncSuccessCount_twice (A : DictionaryEntry) :
  0 <= GetSuccessCount A -> GetSuccessCount A + 2 <= SIZE_MAX ->
  GetSuccessCount (IncSuccessCount (IncSuccessCount A)) = GetSuccessCount A + 2.
Proof.
  intros H0 H1. unfold SIZE_MAX in H1. pose proof SIZE_MOD_eq. simpl.
  rewrite (size_t_small (GetSuccessCount A + 1)) by lia.
  rewrite size_t_small by lia. lia.
Qed.

(** The outcome of one round for the Words of the persistent dictionary:
    as before, the Word held or the dictionary full; or the Word at the
    end, not held before and the dictionary with room. *)
Lemma round_outcome (W : Word) (t t' : State) :
  (In W (map GetW (PersistentAutoDictionary t)) \/
   kMaxDictSize <= len (PersistentAutoDictionary t) ->
     map GetW (PersistentAutoDictionary t') = map GetW (PersistentAutoDictionary t)) ->
  (~ In W (map GetW (PersistentAutoDictionary t)) ->
   len (PersistentAutoDictionary t) < kMaxDictSize ->
     map GetW (PersistentAutoDictionary t') =
     map GetW (PersistentAutoDictionary t) ++ [W]) ->
  (map GetW (PersistentAutoDictionary t') = map GetW (PersistentAutoDictionary t) /\
   (In W (map GetW (PersistentAutoDictionary t)) \/
    kMaxDictSize <= len (map GetW (PersistentAutoDictionary t)))) \/
  (map GetW (PersistentAutoDictionary t') = map GetW (PersistentAutoDictionary t) ++ [W] /\
   ~ In W (map GetW (PersistentAutoDictionary t)) /\
   len (map GetW (PersistentAutoDictionary t)) < kMaxDictSize).
Proof.
  intros Hsame Hadd.
  assert (HL : len (map GetW (PersistentAutoDictionary t)) = len (PersistentAutoDictionary t))
    by (unfold len; rewrite length_map; reflexivity).
  rewrite HL.
  destruct (in_dec (list_eq_dec Z.eq_dec) W (map GetW (PersistentAutoDictionary t)))
    as [Hi | Hn].
  - left. split; [apply Hsame | ]; left; exact Hi.
  - destruct (Z_lt_le_dec (len (PersistentAutoDictionary t)) kMaxDictSize) as [Hroom | Hfull].
    + right. split; [apply Hadd; assumption | split; assumption].
    + left. split; [apply Hsame | ]; right; exact Hfull.
Qed.

(** C2, as the code has it: after [RecordSuccessfulMutationSequence] on a
    chain that used the entries [A, B, A], the success counter of [A] was
    incremented twice and that of [B] once (once for each use); the
    persistent dictionary gained at most one entry with the Word of [A] and
    at most one with the Word of [B], none for a Word it held; and
    afterwards it holds each of the two Words, or it is full. *)
Theorem RecordSuccessfulMutationSequence_A_B_A
    (pA pB : DEptr) (A B : DictionaryEntry) (s : State) :
  CurrentDictionaryEntrySequence s = [pA; pB; pA] -> pA <> pB ->
  nth_error (get_Dictionary (fst pA) s) (snd pA) = Some A ->
  nth_error (get_Dictionary (fst pB) s) (snd pB) = Some B ->
  returns RecordSuccessfulMutationSequence s (fun _ s' =>
    nth_error (get_Dictionary (fst pA) s') (snd pA) =
      Some (IncSuccessCount (IncSuccessCount A)) /\
    nth_error (get_Dictionary (fst pB) s') (snd pB) = Some (IncSuccessCount B) /\
    (0 <= GetSuccessCount A -> GetSuccessCount A + 2 <= SIZE_MAX ->
     GetSuccessCount (IncSuccessCount (IncSuccessCount A)) = GetSuccessCount A + 2) /\
    exists new : list Word,
      map GetW (PersistentAutoDictionary s') =
        map GetW (PersistentAutoDictionary s) ++ new /\
      NoDup new /\ incl new [GetW A; GetW B] /\
      (forall W, In W new -> ~ In W (map GetW (PersistentAutoDictionary s))) /\
      (forall W, In W [GetW A; GetW B] ->
         In W (map GetW (PersistentAutoDictionary s')) \/
         kMaxDictSize <= len (PersistentAutoDictionary s'))).
Proof.
  intros Hseq Hne HA HB.
  unfold RecordSuccessfulMutationSequence.
  apply returns_bind, returns_gets. rewrite Hseq. cbn [for_each].
  (* the first use of A *)
  apply returns_bind.
  eapply returns_weaken; [apply (RecordSuccessfulMutationSequence_body_spec pA A s HA)|].
  intros [] s1 (He1 & Hin1 & Hout1). cbv beta.
  destruct (He1 pA A HA) as [HA1 _]. specialize (HA1 eq_refl).
  destruct (He1 pB B HB) as [_ HB1]. specialize (HB1 (not_eq_sym Hne)).
  pose proof (round_outcome (GetW A) s s1 Hin1 Hout1) as R1.
  (* the use of B *)
  apply returns_bind.
  eapply returns_weaken; [apply (RecordSuccessfulMutationSequence_body_spec pB B s1 HB1)|].
  intros [] s2 (He2 & Hin2 & Hout2). cbv beta.
  destruct (He2 pA _ HA1) as [_ HA2]. specialize (HA2 Hne).
  destruct (He2 pB B HB1) as [HB2 _]. specialize (HB2 eq_refl).
  pose proof (round_outcome (GetW B) s1 s2 Hin2 Hout2) as R2.
  (* the second use of A *)
  apply returns_bind.
  eapply returns_weaken; [apply (RecordSuccessfulMutationSequence_body_spec pA _ s2 HA2)|].
  intros [] s3 (He3 & Hin3 & Hout3). cbv beta.
  change (GetW (IncSuccessCount A)) with (GetW A) in *.
  destruct (He3 pA _ HA2) as [HA3 _]. specialize (HA3 eq_refl).
  destruct (He3 pB _ HB2) as [_ HB3]. specialize (HB3 (not_eq_sym Hne)).
  pose proof (round_outcome (GetW A) s2 s3 Hin3 Hout3) as R3.
  apply returns_ret.
  split; [exact HA3|]. split; [exact HB3|]. split; [apply IncSuccessCount_twice|].
  assert (HL : len (PersistentAutoDictionary s3) = len (map GetW (PersistentAutoDictionary s3)))
    by (unfold len; rewrite length_map; reflexivity).
  rewrite HL. clear HL Hin1 Hout1 Hin2 Hout2 Hin3 Hout3 He1 He2 He3.
  set (w0 := map GetW (PersistentAutoDictionary s)) in *.
  set (w1 := map GetW (PersistentAutoDictionary s1)) in *.
  set (w2 := map GetW (PersistentAutoDictionary s2)) in *.
  set (w3 := map GetW (PersistentAutoDictionary s3)) in *.
  set (a := GetW A) in *. set (b := GetW B) in *.
  clearbody w0 w1 w2 w3 a b.
  (* the second use of A adds nothing *)
  assert (E3 : w3 = w2).
  { destruct R3 as [[E _] | (_ & Hn3 & Hr3)]; [exact E | exfalso].
    assert (F1 : In a w1 \/ kMaxDictSize <= len w1).
    { destruct R1 as [[E1 H1] | (E1 & _ & _)]; rewrite E1; [exact H1|].
      left. apply in_or_app. right. left. reflexivity. }
    assert (F2 : In a w2 \/ kMaxDictSize <= len w2).
    { destruct R2 as [[E2 _] | (E2 & _ & _)]; rewrite E2; [exact F1|].
      destruct F1 as [Hh | Hf]; [left; apply in_or_app; left; exact Hh|].
      right. unfold len in *. rewrite length_app. cbn [length]. lia. }
    destruct F2; [contradiction | lia]. }
  subst w3.
  destruct R1 as [[E1 H1] | (E1 & Hn1 & Hr1)];
    destruct R2 as [[E2 H2] | (E2 & Hn2 & Hr2)]; subst w2 w1.
  - exists []. rewrite app_nil_r.
    split; [reflexivity|]. split; [constructor|]. split; [intros x []|]. split; [intros x []|].
    intros W [<-|[<-|[]]]; assumption.
  - exists [b].
    split; [reflexivity|]. split; [repeat constructor; intros []|].
    split; [intros x [<-|[]]; right; left; reflexivity|].
    split; [intros x [<-|[]]; exact Hn2|].
    intros W [<-|[<-|[]]].
    + destruct H1 as [Hh | Hf]; [left; apply in_or_app; left; exact Hh | lia].
    + left. apply in_or_app. right. left. reflexivity.
  - exists [a].
    split; [reflexivity|]. split; [repeat constructor; intros []|].
    split; [intros x [<-|[]]; left; reflexivity|].
    split; [intros x [<-|[]]; exact Hn1|].
    intros W [<-|[<-|[]]].
    + left. apply in_or_app. right. left. reflexivity.
    + exact H2.
  - exists [a; b]. rewrite <- app_assoc.
    split; [reflexivity|]. split.
    { constructor; [|repeat constructor; intros []].
      intros [Heq|[]]. apply Hn2. rewrite <- Heq.
      apply in_or_app. right. left. reflexivity. }
    split; [apply incl_refl|]. split.
    { intros x [<-|[<-|[]]]; [exact Hn1|].
      intros Hc. apply Hn2. apply in_or_app. left. exact Hc. }
    intros W [<-|[<-|[]]]; left; apply in_or_app; right; [left | right; left]; reflexivity.
Qed.

(** ** CopyPartOf, InsertPartOf and Mutate_CrossOver *)

Lemma len_vector_resize (v : list Z) (n : Z) :
  0 <= n -> len (vector_resize v n) = n.
Proof.
  intros H. unfold vector_resize, len, nat_of.
  rewrite length_app, length_firstn, repeat_length. lia.
Qed.

(** [CopyPartOf] on a destination of [ToSize > 0] bytes returns [ToSize],
    having overwritten [To[ToBeg, ToBeg + CopySize)] with
    [From[FromBeg, FromBeg + CopySize)]. *)
Lemma returns_CopyPartOf (From : BufPtr) (FromSize : Z) (To : BufPtr) (ToSize : Z) (s : State) :
  0 < ToSize -> ToSize <= len (read_buf To s) -> ToSize <= PTRDIFF_MAX ->
  0 <= FromSize -> FromSize <= len (read_buf From s) -> FromSize <= PTRDIFF_MAX ->
  (forall bs, To <> Const_ptr bs) ->
  returns (CopyPartOf From FromSize To ToSize) s (fun n s' =>
    n = ToSize /\
    exists (ToBeg CopySize FromBeg : Z) (R : Random),
      0 <= ToBeg /\ 0 <= CopySize /\ ToBeg + CopySize <= ToSize /\
      0 <= FromBeg /\ FromBeg + CopySize <= FromSize /\
      (0 < FromSize -> 1 <= CopySize) /\
      write_buf To (moved (read_buf To s) ToBeg (read_buf From s) FromBeg CopySize)
        (set_Rand R s) = Some (tt, s')).
Proof.
  intros HT0 HT1 HT2 HF0 HF1 HF2 HTo.
  unfold PTRDIFF_MAX in *. pose proof SIZE_MOD_eq as HM.
  unfold CopyPartOf.
  apply returns_bind, returns_Rand; [lia|]. intros ToBeg R1 Hb0 Hb1 _ _ _.
  specialize (Hb1 HT0).
  rewrite (size_t_small (ToSize - ToBeg)) by lia.
  apply returns_bind, returns_Rand; [lia|]. intros r R2 Hr0 Hr1 _ _ _.
  specialize (Hr1 ltac:(lia)).
  rewrite (size_t_small (r + 1)) by lia.
  rewrite (size_t_small (ToBeg + (r + 1))) by lia.
  apply returns_bind, returns_assert. { apply Z.leb_le. lia. }
  rewrite std_min_spec.
  set (CopySize := Z.min (r + 1) FromSize).
  assert (HC : 0 <= CopySize <= r + 1 /\ CopySize <= FromSize) by (unfold CopySize; lia).
  rewrite (size_t_small (FromSize - CopySize)) by lia.
  rewrite (size_t_small (FromSize - CopySize + 1)) by lia.
  apply returns_bind, returns_Rand; [lia|]. intros FromBeg R3 Hf0 Hf1 _ _ _.
  specialize (Hf1 ltac:(lia)).
  rewrite (size_t_small (FromBeg + CopySize)) by lia.
  apply returns_bind, returns_assert. { apply Z.leb_le. lia. }
  assert (HrF : read_buf From (set_Rand R3 (set_Rand R2 (set_Rand R1 s))) = read_buf From s)
    by (destruct From; reflexivity).
  assert (HrT : read_buf To (set_Rand R3 (set_Rand R2 (set_Rand R1 s))) = read_buf To s)
    by (destruct To; reflexivity).
  apply returns_bind, returns_memmove; rewrite ?HrF, ?HrT; try lia.
  destruct To as [| |bs]; [| |exfalso; exact (HTo bs eq_refl)];
    cbn [write_buf]; apply returns_modify, returns_ret;
    (split; [reflexivity|]);
    exists ToBeg, CopySize, FromBeg, R3; repeat split; try lia; unfold CopySize; lia.
Qed.

(** [InsertPartOf] into a destination that is already [MaxToSize] bytes long
    returns 0 and changes nothing. *)
Lemma InsertPartOf_at_capacity (From : BufPtr) (FromSize : Z) (To : BufPtr)
    (MaxToSize : Z) (s : State) :
  InsertPartOf From FromSize To MaxToSize MaxToSize s = Some (0, s).
Proof.
  unfold InsertPartOf. rewrite Z.geb_leb.
  destruct (Z.leb_spec MaxToSize MaxToSize); [reflexivity | lia].
Qed.

(** What the code does for C4: in the strategies (b) and (c) of
    [Mutate_CrossOver] (those of [Rand(3) != 0]) the buffer worked on is the
    scratch vector [MutateInPlaceHere] resized to [MaxSize], and the current
    input is not copied into it. The insertion of (b) never succeeds, the
    vector being [MaxSize] long, so (b) always goes on to (c). The unit
    returned has [MaxSize] bytes, so it is non-empty and within capacity:
    they are the scratch vector with a slice of the corpus entry written
    over part of it, and none of them comes from [Data[0, Size)]. *)
Theorem Mutate_CrossOver_copy_strategies (s : State) (units : list Unit) (O : Unit)
    (Size MaxSize : Z) :
  Corpus s = Some units -> 2 <= len units ->
  0 < Size <= MaxSize -> MaxSize <= len (Data s) -> MaxSize <= PTRDIFF_MAX ->
  let Idx := fst (Random_upto (Rand_ s) (len units)) in
  let R1 := snd (Random_upto (Rand_ s) (len units)) in
  nth_error units (nat_of Idx) = Some O -> O <> [] -> len O <= PTRDIFF_MAX ->
  fst (Random_upto R1 3) <> 0 ->
  returns (Mutate_CrossOver Size MaxSize) s (fun NewSize s' =>
    NewSize = MaxSize /\
    exists ToBeg CopySize FromBeg : Z,
      0 <= ToBeg /\ 1 <= CopySize /\ ToBeg + CopySize <= MaxSize /\
      0 <= FromBeg /\ FromBeg + CopySize <= len O /\
      Data s' =
        moved (vector_resize (MutateInPlaceHere s) MaxSize) ToBeg O FromBeg CopySize ++
        skipn (nat_of MaxSize) (Data s)).
Proof.
  intros HC Hunits HS Hlen Hmax Idx R1 HO HOne HOmax Hk.
  unfold PTRDIFF_MAX in *. pose proof SIZE_MOD_eq as HMOD.
  assert (HlenO : 0 < len O). { unfold len. destruct O; [congruence | simpl; lia]. }
  unfold Mutate_CrossOver.
  apply returns_bind, returns_gets. rewrite HC.
  destruct (Z.ltb_spec (len units) 2); [lia|].
  destruct (Z.eqb_spec Size 0); [lia|]. cbn [orb].
  apply returns_bind, returns_Rand; [lia|]. intros i R Hi0 Hi1 _ Hi HR.
  fold Idx in Hi. fold R1 in HR. subst i R.
  eapply returns_bind, returns_at; [lia | exact HO |].
  destruct (Z.eqb_spec (len O) 0); [lia|].
  apply returns_bind, returns_modify.
  cbn [MutateInPlaceHere set_Rand].
  set (U0 := vector_resize (MutateInPlaceHere s) MaxSize).
  apply returns_bind, returns_gets. cbn [MutateInPlaceHere set_MutateInPlaceHere].
  assert (HU0 : len U0 = MaxSize) by (apply len_vector_resize; lia).
  rewrite HU0.
  apply returns_bind, returns_Rand; [lia|]. intros k R2 Hk0 Hk1 _ Hkeq _.
  cbn [Rand_ set_MutateInPlaceHere set_Rand] in Hkeq. subst k.
  specialize (Hk1 ltac:(lia)).
  set (s1 := set_Rand R2 (set_MutateInPlaceHere U0 (set_Rand R1 s))).
  apply returns_bind.
  apply returns_weaken with (P := fun n s' =>
    n = MaxSize /\
    exists (ToBeg CopySize FromBeg : Z) (R : Random),
      0 <= ToBeg /\ 1 <= CopySize /\ ToBeg + CopySize <= MaxSize /\
      0 <= FromBeg /\ FromBeg + CopySize <= len O /\
      s' = set_MutateInPlaceHere (moved U0 ToBeg O FromBeg CopySize) (set_Rand R s1)).
  { assert (Hcopy : returns (CopyPartOf (Const_ptr O) (len O) Scratch_ptr MaxSize) s1
               (fun n s' =>
                  n = MaxSize /\
                  exists (ToBeg CopySize FromBeg : Z) (R : Random),
                    0 <= ToBeg /\ 1 <= CopySize /\ ToBeg + CopySize <= MaxSize /\
                    0 <= FromBeg /\ FromBeg + CopySize <= len O /\
                    s' = set_MutateInPlaceHere (moved U0 ToBeg O FromBeg CopySize)
                           (set_Rand R s1))).
    { eapply returns_weaken.
      - apply returns_CopyPartOf; cbn [read_buf]; unfold PTRDIFF_MAX; try lia.
        + unfold s1. cbn [MutateInPlaceHere set_MutateInPlaceHere set_Rand]. lia.
        + intros bs. discriminate.
      - intros sz s' (-> & ToBeg & CopySize & FromBeg & R & H1 & H2 & H3 & H4 & H5 & H6 & Hw).
        split; [reflexivity|]. exists ToBeg, CopySize, FromBeg, R.
        repeat split; try lia.
        cbn [write_buf modify read_buf] in Hw. inversion Hw. reflexivity. }
    destruct (Z.eqb_spec (fst (Random_upto R1 3)) 0) as [E0|_]; [contradiction|].
    destruct (Z.eqb_spec (fst (Random_upto R1 3)) 1) as [E1|N1].
    - apply returns_bind.
      eapply returns_intro; [apply InsertPartOf_at_capacity|].
      simpl (negb (0 =? 0)). cbv iota. exact Hcopy.
    - destruct (Z.eqb_spec (fst (Random_upto R1 3)) 2) as [E2|N2]; [exact Hcopy | lia]. }
  intros sz s2 (-> & ToBeg & CopySize & FromBeg & R & H1 & H2 & H3 & H4 & H5 & ->). cbv beta.
  apply returns_bind, returns_assert. { apply Z.gtb_lt. lia. }
  apply returns_bind, returns_assert. { apply Z.leb_le. lia. }
  assert (HlenU : len (moved U0 ToBeg O FromBeg CopySize) = MaxSize).
  { rewrite len_moved; lia. }
  unfold memcpy.
  apply returns_bind, returns_memmove;
    cbn [read_buf Data MutateInPlaceHere set_MutateInPlaceHere set_Rand s1]; try lia.
  cbn [write_buf]. apply returns_modify, returns_ret.
  split; [reflexivity|]. exists ToBeg, CopySize, FromBeg.
  repeat split; try lia.
  cbn [Data set_Data]. unfold moved at 1.
  change (nat_of 0) with 0%nat. cbn [firstn skipn app].
  rewrite Z.add_0_l. f_equal.
  apply firstn_all2. unfold len, nat_of in *. lia.
Qed.

(** ** The default mutators return *)

Lemma returns_load (p : BufPtr) (i : Z) s (Q : Z -> State -> Prop) :
  0 <= i < len (read_buf p s) ->
  (forall x, nth_error (read_buf p s) (nat_of i) = Some x -> Q x s) ->
  returns (load p i) s Q.
Proof.
  intros Hi H. unfold load. apply returns_bind, returns_gets.
  destruct (nth_error (read_buf p s) (nat_of i)) as [x|] eqn:En.
  - eapply returns_at; [lia | exact En | apply H; reflexivity].
  - apply nth_error_None in En. unfold len, nat_of in *. lia.
Qed.

Lemma returns_RandCh (s : State) (Q : Z -> State -> Prop) :
  (forall c R, 0 <= c < 256 -> Q c (set_Rand R s)) -> returns RandCh s Q.
Proof.
  intros H. eapply returns_intro; [apply RandCh_eq|].
  apply H. apply RandCh_of_range.
Qed.

Lemma len_stored (l : list Z) (i v : Z) :
  0 <= i < len l ->
  len (firstn (nat_of i) l ++ [v] ++ skipn (nat_of i + 1) l) = len l.
Proof.
  intros H. unfold len, nat_of in *.
  rewrite !length_app, length_firstn, length_skipn. simpl. lia.
Qed.

Lemma Mutate_InsertByte_returns (s : State) (Size MaxSize : Z) :
  valid_call s Size MaxSize ->
  returns (Mutate_InsertByte Size MaxSize) s (fun n s' =>
    (n = 0 \/ 1 <= n <= MaxSize) /\ len (Data s') = len (Data s)).
Proof.
  intros (HS & Hlen & Hmax & _). unfold PTRDIFF_MAX in Hmax. pose proof SIZE_MOD_eq.
  unfold Mutate_InsertByte.
  destruct (Z.eqb_spec Size MaxSize); [apply returns_ret; auto|].
  rewrite (size_t_small (Size + 1)) by lia.
  apply returns_bind, returns_Rand; [lia|]. intros Idx R Hi0 Hi1 _ _ _.
  rewrite (size_t_small (Size - Idx)) by lia.
  apply returns_bind, returns_memmove; cbn [read_buf Data set_Rand]; try lia.
  cbn [write_buf]. apply returns_modify.
  apply returns_bind, returns_RandCh. intros c R' Hc.
  assert (Hl : len (moved (Data s) (Idx + 1) (Data s) Idx (Size - Idx)) = len (Data s))
    by (apply len_moved; lia).
  apply returns_bind, returns_store; cbn [read_buf Data set_Data set_Rand]; [lia|].
  cbn [write_buf]. apply returns_modify, returns_ret.
  split; [lia|]. cbn [Data set_Data]. rewrite len_stored by lia. exact Hl.
Qed.

Lemma Mutate_ChangeByte_returns (s : State) (Size MaxSize : Z) :
  valid_call s Size MaxSize ->
  returns (Mutate_ChangeByte Size MaxSize) s (fun n s' =>
    (n = 0 \/ 1 <= n <= MaxSize) /\ len (Data s') = len (Data s)).
Proof.
  intros (HS & Hlen & Hmax & _).
  unfold Mutate_ChangeByte.
  apply returns_bind, returns_Rand; [lia|]. intros Idx R Hi0 Hi1 _ _ _.
  apply returns_bind, returns_RandCh. intros c R' Hc.
  apply returns_bind, returns_store; cbn [read_buf Data set_Data set_Rand]; [lia|].
  cbn [write_buf]. apply returns_modify, returns_ret.
  split; [lia|]. cbn [Data set_Data]. apply len_stored. lia.
Qed.

Lemma Mutate_ChangeBit_returns (s : State) (Size MaxSize : Z) :
  valid_call s Size MaxSize ->
  returns (Mutate_ChangeBit Size MaxSize) s (fun n s' =>
    (n = 0 \/ 1 <= n <= MaxSize) /\ len (Data s') = len (Data s)).
Proof.
  intros (HS & Hlen & Hmax & _).
  unfold Mutate_ChangeBit.
  apply returns_bind, returns_Rand; [lia|]. intros Idx R Hi0 Hi1 _ _ _.
  apply returns_bind, returns_Rand; [lia|]. intros r R' _ _ _ _ _.
  apply returns_bind, returns_load; cbn [read_buf Data set_Rand]; [lia|]. intros x _.
  apply returns_bind, returns_store; cbn [read_buf Data set_Data set_Rand]; [lia|].
  cbn [write_buf]. apply returns_modify, returns_ret.
  split; [lia|]. cbn [Data set_Data]. apply len_stored. lia.
Qed.

Lemma data_step_refl (s : State) : data_step s s.
Proof. exists (Data s), (Rand_ s). split; [destruct s; reflexivity | reflexivity]. Qed.

Lemma data_step_trans (s1 s2 s3 : State) :
  data_step s1 s2 -> data_step s2 s3 -> data_step s1 s3.
Proof.
  intros (d & R & -> & H1) (d' & R' & -> & H2).
  exists d', R'. split; [reflexivity|]. cbn [Data set_Data set_Rand] in H2. congruence.
Qed.

Lemma data_step_set_Rand (s : State) (R : Random) : data_step s (set_Rand R s).
Proof. exists (Data s), R. split; [destruct s; reflexivity | reflexivity]. Qed.

Lemma data_step_set_Data (s : State) (d : list Z) :
  len d = len (Data s) -> data_step s (set_Data d s).
Proof. intros H. exists d, (Rand_ s). split; [destruct s; reflexivity | exact H]. Qed.

Lemma data_step_len (s s' : State) : data_step s s' -> len (Data s') = len (Data s).
Proof. intros (d & R & -> & H). exact H. Qed.

Lemma returns_step_store (i v : Z) (s0 s : State) (Q : unit -> State -> Prop) :
  data_step s0 s -> 0 <= i < len (Data s0) ->
  (forall s', data_step s0 s' -> Q tt s') ->
  returns (store Data_ptr i v) s Q.
Proof.
  intros Hs Hi H. pose proof (data_step_len _ _ Hs) as Hl.
  apply returns_store; cbn [read_buf]; [lia|].
  cbn [write_buf]. apply returns_modify. apply H.
  eapply data_step_trans; [exact Hs|]. apply data_step_set_Data.
  apply len_stored. lia.
Qed.

Lemma returns_step_load (i : Z) (s0 s : State) (Q : Z -> State -> Prop) :
  data_step s0 s -> 0 <= i < len (Data s0) ->
  (forall x, nth_error (Data s) (nat_of i) = Some x -> Q x s) ->
  returns (load Data_ptr i) s Q.
Proof.
  intros Hs Hi H. pose proof (data_step_len _ _ Hs) as Hl.
  apply returns_load; cbn [read_buf]; [lia | exact H].
Qed.

Lemma returns_step_Rand (n : Z) (s0 s : State) (Q : Z -> State -> Prop) :
  data_step s0 s -> 0 <= n ->
  (forall r s', 0 <= r -> (0 < n -> r < n) -> (n = 0 -> r = 0) ->
                data_step s0 s' -> Data s' = Data s -> Q r s') ->
  returns (Rand n) s Q.
Proof.
  intros Hs Hn H. apply returns_Rand; [exact Hn|].
  intros r R H0 H1 H2 _ _. apply H; auto.
  eapply data_step_trans; [exact Hs | apply data_step_set_Rand].
Qed.

Lemma returns_swap_bytes (i j : Z) (s0 s : State) (Q : unit -> State -> Prop) :
  data_step s0 s -> 0 <= i < len (Data s0) -> 0 <= j < len (Data s0) ->
  (forall s', data_step s0 s' -> Q tt s') ->
  returns (swap_bytes Data_ptr i j) s Q.
Proof.
  intros Hs Hi Hj H. unfold swap_bytes.
  eapply returns_bind, returns_step_load; [exact Hs | exact Hi |]. intros a _.
  eapply returns_bind, returns_step_load; [exact Hs | exact Hj |]. intros b _.
  eapply returns_bind, returns_step_store; [exact Hs | exact Hi |]. intros s1 H1.
  eapply returns_step_store; [exact H1 | exact Hj | exact H].
Qed.

Lemma returns_random_shuffle (first last : Z) (s0 s : State) (Q : unit -> State -> Prop) :
  data_step s0 s -> 0 <= first -> last <= len (Data s0) -> last <= PTRDIFF_MAX ->
  (forall s', data_step s0 s' -> Q tt s') ->
  returns (random_shuffle Data_ptr first last) s Q.
Proof.
  intros Hs Hf Hl Hmax H. unfold PTRDIFF_MAX in Hmax. pose proof SIZE_MOD_eq.
  unfold random_shuffle, For_, For.
  eapply returns_weaken.
  - apply (returns_for_loop (fun _ _ s' => data_step s0 s')); [exact Hs|].
    intros j [] s1 Hj H1.
    assert (Hjl : j < last) by (unfold nat_of in Hj; lia).
    rewrite (size_t_small (j - first + 1)) by lia.
    eapply returns_bind, returns_step_Rand; [exact H1 | lia |].
    intros r s2 Hr0 Hr1 _ H2 _. specialize (Hr1 ltac:(lia)).
    destruct (j =? first + r).
    + apply returns_ret. exact H2.
    + eapply returns_swap_bytes; [exact H2 | lia | lia | auto].
  - intros [] s' Hs'. apply H. exact Hs'.
Qed.

Lemma Mutate_ShuffleBytes_returns (s : State) (Size MaxSize : Z) :
  valid_call s Size MaxSize ->
  returns (Mutate_ShuffleBytes Size MaxSize) s (fun n s' =>
    (n = 0 \/ 1 <= n <= MaxSize) /\ len (Data s') = len (Data s)).
Proof.
  intros (HS & Hlen & Hmax & _). unfold PTRDIFF_MAX in Hmax. pose proof SIZE_MOD_eq.
  unfold Mutate_ShuffleBytes.
  apply returns_bind, returns_assert.
  { destruct (Z.eqb_spec Size 0); [lia | reflexivity]. }
  rewrite std_min_spec.
  apply returns_bind, returns_Rand; [lia|]. intros r R Hr0 Hr1 _ _ _.
  specialize (Hr1 ltac:(lia)).
  rewrite (size_t_small (r + 1)) by lia.
  rewrite (size_t_small (Size - (r + 1))) by lia.
  apply returns_bind, returns_Rand; [lia|]. intros St R' Hs0 Hs1 Hs2 _ _.
  assert (HSt : St + (r + 1) <= Size) by lia.
  rewrite (size_t_small (St + (r + 1))) by lia.
  apply returns_bind, returns_assert. { apply Z.leb_le. lia. }
  eapply returns_bind, (returns_random_shuffle St (St + (r + 1)) s).
  - eapply data_step_trans; apply data_step_set_Rand.
  - lia.
  - lia.
  - unfold PTRDIFF_MAX. lia.
  - intros s' Hs'. apply returns_ret. split; [lia | apply data_step_len; exact Hs'].
Qed.


(** [scan_while] on bytes that the buffer holds returns, with enough fuel:
    the state is as before, the offset returned is [Size] or that of a byte
    for which [p] fails, and it is past [B] when [p] holds for the byte
    at [B]. *)
Lemma returns_scan_while (p : Z -> bool) (Size : Z) (s : State) :
  Size <= len (Data s) ->
  forall (fuel : nat) (B : Z),
  0 <= B <= Size -> Size - B <= Z.of_nat fuel ->
  returns (scan_while fuel p Size B) s (fun E s' =>
    s' = s /\ B <= E <= Size /\
    (E < Size -> exists x, nth_error (Data s) (nat_of E) = Some x /\ p x = false) /\
    (B < Size -> (forall x, nth_error (Data s) (nat_of B) = Some x -> p x = true) -> B < E)).
Proof.
  intros Hlen. induction fuel as [|fuel IH]; intros B HB Hfuel.
  - assert (B = Size) by lia. subst B.
    cbn [scan_while]. rewrite Z.ltb_irrefl. apply returns_ret.
    repeat split; try lia.
  - cbn [scan_while].
    destruct (Z.ltb_spec B Size) as [Hlt|Hge].
    + apply returns_bind, returns_load; cbn [read_buf]; [lia|]. intros x Hx.
      destruct (p x) eqn:Ep.
      * eapply returns_weaken; [apply (IH (B + 1)); lia|].
        intros E s' (-> & HE & Hstop & _). repeat split; try lia. exact Hstop.
      * apply returns_ret. repeat split; try lia.
        -- intros _. exists x. split; assumption.
        -- intros _ Hall. rewrite (Hall x Hx) in Ep. discriminate.
    + apply returns_ret. repeat split; try lia.
Qed.

Lemma uint64_t_range (z : Z) : 0 <= uint64_t z < SIZE_MOD.
Proof. unfold uint64_t, uintN. apply Z.mod_pos_bound. reflexivity. Qed.

Lemma Mutate_ChangeASCIIInteger_returns (s : State) (Size MaxSize : Z) :
  valid_call s Size MaxSize ->
  returns (Mutate_ChangeASCIIInteger Size MaxSize) s (fun n s' =>
    (n = 0 \/ 1 <= n <= MaxSize) /\ len (Data s') = len (Data s)).
Proof.
  intros (HS & Hlen & Hmax & _). unfold PTRDIFF_MAX in Hmax. pose proof SIZE_MOD_eq as HM.
  unfold Mutate_ChangeASCIIInteger.
  apply returns_bind, returns_Rand; [lia|]. intros B0 R Hb0 Hb1 _ _ _.
  specialize (Hb1 ltac:(lia)).
  set (s1 := set_Rand R s).
  assert (Hlen1 : Size <= len (Data s1)) by (cbn [Data s1 set_Rand]; lia).
  apply returns_bind.
  eapply returns_weaken.
  { apply (returns_scan_while (fun x => negb (isdigit x)) Size s1 Hlen1 (nat_of Size) B0);
      unfold nat_of; lia. }
  intros B s' (-> & HB & HstopB & _). cbv beta.
  destruct (Z.eqb_spec B Size) as [->|HBne].
  { apply returns_ret. split; [auto | reflexivity]. }
  destruct (HstopB ltac:(lia)) as (x & Hx & Hdx).
  apply negb_false_iff in Hdx.
  apply returns_bind.
  eapply returns_weaken.
  { apply (returns_scan_while isdigit Size s1 Hlen1 (nat_of Size) B); unfold nat_of; lia. }
  intros E s' (-> & HE & _ & HBE). cbv beta.
  assert (HBltE : B < E).
  { apply HBE; [lia|]. intros y Hy. rewrite Hx in Hy. inversion Hy; subst. exact Hdx. }
  apply returns_bind, returns_assert. { apply Z.ltb_lt. exact HBltE. }
  apply returns_bind, returns_load; cbn [read_buf]; [lia|]. intros x0 _.
  apply returns_bind. unfold For.
  eapply returns_weaken.
  { apply (returns_for_loop (fun _ (Val : Z) s' => s' = s1 /\ 0 <= Val < SIZE_MOD)).
    - split; [reflexivity | apply uint64_t_range].
    - intros j Val s2 Hj [-> HVal].
      assert (Hjl : j < E) by (unfold nat_of in Hj; lia).
      apply returns_bind, returns_load; cbn [read_buf]; [lia|]. intros y _.
      apply returns_ret. split; [reflexivity | apply uint64_t_range]. }
  intros Val s' [-> HVal]. cbv beta.
  apply returns_bind, returns_Rand; [lia|]. intros k R' Hk0 Hk1 _ _ _.
  specialize (Hk1 ltac:(lia)).
  apply returns_bind.
  apply returns_weaken with (P := fun (_ : Z) s' => data_step s s').
  { assert (Hd : data_step s (set_Rand R' s1))
      by (eapply data_step_trans; apply data_step_set_Rand).
    repeat (match goal with |- returns (if ?b then _ else _) _ _ => destruct b eqn:? end);
      try (apply returns_ret; exact Hd).
    - apply returns_Rand; [apply uint64_t_range|]. intros r R2 _ _ _ _ _.
      eapply data_step_trans; [exact Hd | apply data_step_set_Rand].
    - exfalso.
      repeat match goal with H : (k =? _) = false |- _ => apply Z.eqb_neq in H end. lia. }
  intros Val' s2 H2. cbv beta.
  apply returns_bind. unfold For.
  eapply returns_weaken.
  { apply (returns_for_loop (fun _ (_ : Z) s' => data_step s s')); [exact H2|].
    intros j V s3 Hj H3.
    assert (Hjl : j < E) by (unfold nat_of in Hj; lia).
    rewrite (size_t_small (E + B - j - 1)) by lia.
    apply returns_bind, returns_assert.
    { apply andb_true_intro. split; [apply Z.geb_le | apply Z.ltb_lt]; lia. }
    eapply returns_bind, returns_step_store; [exact H3 | lia |].
    intros s4 H4. apply returns_ret. exact H4. }
  intros V s3 H3. apply returns_ret.
  split; [lia | apply data_step_len; exact H3].
Qed.


Lemma valid_call_set_Rand (s : State) (Size MaxSize : Z) (R : Random) :
  valid_call s Size MaxSize -> valid_call (set_Rand R s) Size MaxSize.
Proof.
  intros (H1 & H2 & H3 & H4 & H5).
  split; [exact H1|]. split; [exact H2|]. split; [exact H3|].
  split; [intros D; rewrite get_Dictionary_set_Rand; apply H4 | exact H5].
Qed.

Lemma length_encode_bytes (n : nat) (v : Z) : length (encode_bytes n v) = n.
Proof. revert v. induction n as [|n IH]; intros v; simpl; [reflexivity | rewrite IH; reflexivity]. Qed.

Lemma ChangeBinaryInteger_returns (sizeof_T : nat) (s : State) (Size MaxSize : Z) :
  valid_call s Size MaxSize ->
  returns (ChangeBinaryInteger sizeof_T Size) s (fun n s' =>
    (n = 0 \/ 1 <= n <= MaxSize) /\ len (Data s') = len (Data s)).
Proof.
  intros (HS & Hlen & Hmax & _). unfold PTRDIFF_MAX in Hmax. pose proof SIZE_MOD_eq as HM.
  unfold ChangeBinaryInteger.
  destruct (Z.ltb_spec Size (Z.of_nat sizeof_T)) as [Hsmall|Hfit].
  { apply returns_ret. split; [auto | reflexivity]. }
  rewrite (size_t_small (Size - Z.of_nat sizeof_T)) by lia.
  rewrite (size_t_small (Size - Z.of_nat sizeof_T + 1)) by lia.
  apply returns_bind, returns_Rand; [lia|]. intros Off R Ho0 Ho1 _ _ _.
  specialize (Ho1 ltac:(lia)).
  rewrite (size_t_small (Off + Z.of_nat sizeof_T)) by lia.
  apply returns_bind, returns_assert. { apply Z.leb_le. lia. }
  apply returns_bind, returns_gets.
  eapply returns_bind, returns_lift_option.
  { apply slice_Some; cbn [Data set_Rand]; lia. }
  apply returns_bind, returns_Rand; [lia|]. intros r R1 _ _ _ _ _.
  apply returns_bind, returns_RandBool. intros b R2 _ _.
  apply returns_bind.
  apply returns_weaken with (P := fun (_ : bool) s' => exists R', s' = set_Rand R' s).
  { destruct (_ =? 0).
    - apply returns_ret. eexists. reflexivity.
    - apply returns_RandBool. intros b' R3 _ _. eexists. reflexivity. }
  intros negate s' [R' ->]. cbv beta.
  unfold memcpy.
  apply returns_bind, returns_memmove; cbn [read_buf Data set_Rand]; try lia.
  { unfold len. rewrite length_encode_bytes. lia. }
  cbn [write_buf]. apply returns_modify, returns_ret.
  split; [lia|]. cbn [Data set_Data]. apply len_moved; try lia.
  unfold len. rewrite length_encode_bytes. lia.
Qed.

Lemma Mutate_ChangeBinaryInteger_returns (s : State) (Size MaxSize : Z) :
  valid_call s Size MaxSize ->
  returns (Mutate_ChangeBinaryInteger Size MaxSize) s (fun n s' =>
    (n = 0 \/ 1 <= n <= MaxSize) /\ len (Data s') = len (Data s)).
Proof.
  intros Hv. unfold Mutate_ChangeBinaryInteger.
  apply returns_bind, returns_Rand; [lia|]. intros k R Hk0 Hk1 _ _ _.
  specialize (Hk1 ltac:(lia)).
  pose proof (valid_call_set_Rand _ _ _ R Hv) as Hv'.
  assert (Hgo : forall sz, returns (ChangeBinaryInteger sz Size) (set_Rand R s) (fun n s' =>
            (n = 0 \/ 1 <= n <= MaxSize) /\ len (Data s') = len (Data s))).
  { intros sz. apply (ChangeBinaryInteger_returns sz _ _ _ Hv'). }
  repeat (match goal with |- returns (if ?b then _ else _) _ _ => destruct b eqn:? end);
    try apply Hgo.
  exfalso. repeat match goal with H : (k =? _) = false |- _ => apply Z.eqb_neq in H end. lia.
Qed.

(** [InsertPartOf] of the buffer into itself, with room to grow. *)
Lemma InsertPartOf_self_returns (s : State) (Size MaxSize : Z) :
  valid_call s Size MaxSize ->
  returns (InsertPartOf Data_ptr Size Data_ptr Size MaxSize) s (fun n s' =>
    (n = 0 \/ 1 <= n <= MaxSize) /\ len (Data s') = len (Data s)).
Proof.
  intros (HS & Hlen & Hmax & _). unfold PTRDIFF_MAX in Hmax. pose proof SIZE_MOD_eq as HM.
  unfold InsertPartOf. rewrite Z.geb_leb.
  destruct (Z.leb_spec MaxSize Size) as [Hfull|Hroom].
  { apply returns_ret. split; [auto | reflexivity]. }
  rewrite (size_t_small (MaxSize - Size)) by lia.
  rewrite std_min_spec.
  apply returns_bind, returns_Rand; [lia|]. intros r R Hr0 Hr1 _ _ _.
  specialize (Hr1 ltac:(lia)).
  rewrite (size_t_small (r + 1)) by lia.
  rewrite (size_t_small (Size - (r + 1))) by lia.
  rewrite (size_t_small (Size - (r + 1) + 1)) by lia.
  apply returns_bind, returns_Rand; [lia|]. intros FromBeg R1 Hf0 Hf1 _ _ _.
  specialize (Hf1 ltac:(lia)).
  rewrite (size_t_small (FromBeg + (r + 1))) by lia.
  apply returns_bind, returns_assert. { apply Z.leb_le. lia. }
  rewrite (size_t_small (Size + 1)) by lia.
  apply returns_bind, returns_Rand; [lia|]. intros Pos R2 Hp0 Hp1 _ _ _.
  specialize (Hp1 ltac:(lia)).
  rewrite (size_t_small (Pos + (r + 1))) by lia.
  apply returns_bind, returns_assert. { apply Z.leb_le. lia. }
  rewrite (size_t_small (Size - Pos)) by lia.
  cbn [BufPtr_eqb]. unfold memcpy.
  apply returns_bind, returns_bind, returns_modify.
  cbn [MutateInPlaceHere set_Rand].
  set (U := vector_resize (MutateInPlaceHere s) MaxSize).
  assert (HU : len U = MaxSize) by (apply len_vector_resize; lia).
  apply returns_bind, returns_memmove;
    cbn [read_buf Data MutateInPlaceHere set_MutateInPlaceHere set_Rand]; try lia.
  cbn [write_buf]. apply returns_modify.
  apply returns_bind, returns_memmove;
    cbn [read_buf Data MutateInPlaceHere set_MutateInPlaceHere set_Rand]; try lia.
  cbn [write_buf]. apply returns_modify.
  assert (Hl1 : len (moved (Data s) (Pos + (r + 1)) (Data s) Pos (Size - Pos)) = len (Data s))
    by (apply len_moved; lia).
  apply returns_memmove;
    cbn [read_buf Data MutateInPlaceHere set_Data set_MutateInPlaceHere set_Rand]; try lia.
  { rewrite len_moved; cbn [read_buf]; lia. }
  cbn [write_buf]. apply returns_modify, returns_ret.
  rewrite (size_t_small (Size + (r + 1))) by lia.
  split; [lia|]. cbn [Data set_Data].
  rewrite len_moved; try lia. rewrite len_moved; lia.
Qed.

Lemma Mutate_CopyPart_returns (s : State) (Size MaxSize : Z) :
  valid_call s Size MaxSize ->
  returns (Mutate_CopyPart Size MaxSize) s (fun n s' =>
    (n = 0 \/ 1 <= n <= MaxSize) /\ len (Data s') = len (Data s)).
Proof.
  intros Hv. unfold Mutate_CopyPart.
  apply returns_bind, returns_RandBool. intros b R _ _.
  pose proof (valid_call_set_Rand _ _ _ R Hv) as Hv'.
  destruct Hv as (HS & Hlen & Hmax & _).
  destruct b.
  - eapply returns_weaken.
    + apply returns_CopyPartOf; cbn [read_buf Data set_Rand]; try lia.
      intros bs. discriminate.
    + intros n s' (-> & ToBeg & CopySize & FromBeg & R' & H1 & H2 & H3 & H4 & H5 & _ & Hw).
      split; [lia|]. cbn [write_buf modify read_buf Data set_Rand] in Hw.
      inversion Hw; subst s'. cbn [Data set_Data]. apply len_moved; lia.
  - apply (InsertPartOf_self_returns _ _ _ Hv').
Qed.


Lemma Mutate_EraseBytes_returns (s : State) (Size MaxSize : Z) :
  valid_call s Size MaxSize ->
  returns (Mutate_EraseBytes Size MaxSize) s (fun n s' =>
    (n = 0 \/ 1 <= n <= MaxSize) /\ len (Data s') = len (Data s)).
Proof.
  intros (HS & Hlen & Hmax & _). unfold PTRDIFF_MAX in Hmax. pose proof SIZE_MOD_eq as HM.
  unfold Mutate_EraseBytes.
  apply returns_bind, returns_assert.
  { destruct (Z.eqb_spec Size 0); [lia|reflexivity]. }
  destruct (Z.eqb_spec Size 1) as [->|Hne].
  { apply returns_ret. split; [auto | reflexivity]. }
  pose proof (half_bounds Size ltac:(lia)) as Hdiv.
  apply returns_bind, returns_Rand; [lia|]. intros r R Hr0 Hr1 _ _ _.
  rewrite (size_t_small (r + 1)) by lia.
  apply returns_bind, returns_assert. { apply Z.ltb_lt. lia. }
  rewrite (size_t_small (Size - (r + 1))) by lia.
  rewrite (size_t_small (Size - (r + 1) + 1)) by lia.
  apply returns_bind, returns_Rand; [lia|]. intros Idx R' Hi0 Hi1 _ _ _.
  rewrite (size_t_small (Size - Idx)) by lia.
  rewrite (size_t_small (Size - Idx - (r + 1))) by lia.
  apply returns_bind, returns_memmove; cbn [read_buf Data set_Rand]; try lia.
  cbn [write_buf]. apply returns_modify, returns_ret.
  split; [lia|]. cbn [Data set_Data]. apply len_moved; lia.
Qed.

Lemma Mutate_InsertRepeatedBytes_returns (s : State) (Size MaxSize : Z) :
  valid_call s Size MaxSize ->
  returns (Mutate_InsertRepeatedBytes Size MaxSize) s (fun n s' =>
    (n = 0 \/ 1 <= n <= MaxSize) /\ len (Data s') = len (Data s)).
Proof.
  intros (HS & Hlen & Hmax & _). unfold PTRDIFF_MAX in Hmax. pose proof SIZE_MOD_eq as HM.
  unfold Mutate_InsertRepeatedBytes, kMinBytesToInsert.
  rewrite (size_t_small (Size + 3)) by lia.
  rewrite Z.geb_leb.
  destruct (Z.leb_spec MaxSize (Size + 3)) as [Hfull|Hroom].
  { apply returns_ret. split; [auto | reflexivity]. }
  rewrite (size_t_small (MaxSize - Size)) by lia.
  rewrite std_min_spec.
  set (Mx := Z.min (MaxSize - Size) 128).
  assert (HMx : 4 <= Mx <= 128 /\ Mx <= MaxSize - Size) by (unfold Mx; lia).
  rewrite (size_t_small (Mx - 3)) by lia.
  rewrite (size_t_small (Mx - 3 + 1)) by lia.
  apply returns_bind, returns_Rand; [lia|]. intros r R Hr0 Hr1 _ _ _.
  rewrite (size_t_small (r + 3)) by lia.
  rewrite (size_t_small (Size + (r + 3))) by lia.
  apply returns_bind, returns_assert.
  { apply andb_true_intro. split; [apply Z.leb_le; lia|].
    destruct (Z.eqb_spec (r + 3) 0); [lia|reflexivity]. }
  rewrite (size_t_small (Size + 1)) by lia.
  apply returns_bind, returns_Rand; [lia|]. intros Idx R' Hi0 Hi1 _ _ _.
  rewrite (size_t_small (Size - Idx)) by lia.
  apply returns_bind, returns_memmove; cbn [read_buf Data set_Rand]; try lia.
  cbn [write_buf]. apply returns_modify.
  apply returns_bind, returns_RandBool. intros b R2 _ _.
  apply returns_bind.
  apply returns_weaken with (P := fun (_ : Z) s1 => data_step s s1).
  { assert (Hd : data_step s
                   (set_Rand R2 (set_Data (moved (Data s) (Idx + (r + 3)) (Data s) Idx (Size - Idx))
                                   (set_Rand R' (set_Rand R s))))).
    { eexists _, R2. split; [reflexivity | apply len_moved; lia]. }
    destruct b.
    - apply returns_bind, returns_Rand; [lia|]. intros x R3 _ _ _ _ _.
      apply returns_ret. eapply data_step_trans; [exact Hd | apply data_step_set_Rand].
    - apply returns_bind, returns_RandBool. intros b' R3 _ _.
      apply returns_ret. eapply data_step_trans; [exact Hd | apply data_step_set_Rand]. }
  intros Byte s1 H1. cbv beta.
  apply returns_bind. unfold For_, For.
  eapply returns_weaken.
  { apply (returns_for_loop (fun _ (_ : unit) s' => data_step s s')); [exact H1|].
    intros j [] s2 Hj H2. unfold nat_of in Hj.
    eapply returns_step_store; [exact H2 | lia | auto]. }
  intros [] s2 H2. apply returns_ret.
  split; [lia | apply data_step_len; exact H2].
Qed.

Lemma AddWordFromDictionary_returns (D : DictId) (s : State) (Size MaxSize : Z) :
  valid_call s Size MaxSize ->
  returns (AddWordFromDictionary D Size MaxSize) s (fun n s' =>
    (n = 0 \/ 1 <= n <= MaxSize) /\ len (Data s') = len (Data s)).
Proof.
  intros (HS & Hlen & Hmax & Hwf & _). specialize (Hwf D).
  unfold PTRDIFF_MAX in Hmax. pose proof SIZE_MOD_eq as HM.
  unfold AddWordFromDictionary.
  apply returns_bind, returns_gets.
  set (Dv := get_Dictionary D s) in *.
  destruct (Z.eqb_spec (len Dv) 0) as [E0|Hne0].
  { apply returns_ret. split; [auto | reflexivity]. }
  pose proof (len_nonneg Dv) as HDv0.
  apply returns_bind, returns_Rand; [lia|]. intros i R Hi0 Hi1 _ _ _.
  specialize (Hi1 ltac:(lia)).
  destruct (nth_error Dv (nat_of i)) as [DE|] eqn:Hnth.
  2:{ apply nth_error_None in Hnth. unfold len, nat_of in *. lia. }
  eapply returns_bind, returns_at; [lia | exact Hnth |].
  pose proof (proj1 (Forall_forall _ _) Hwf DE (nth_error_In _ _ Hnth)) as (HW & Hh & HU).
  unfold PTRDIFF_MAX, SIZE_MAX in *.
  set (W := GetW DE) in *. pose proof (len_nonneg W) as HW0.
  apply returns_bind.
  apply returns_weaken with
    (P := fun (u : bool) s1 =>
            (exists R', s1 = set_Rand R' s) /\
            (u = true -> exists h, PositionHint DE = Some h /\ 0 <= h /\ h + len W < Size)).
  { destruct (PositionHint DE) as [h|] eqn:Eh.
    - specialize (Hh h eq_refl). rewrite (size_t_small (h + len W)) by lia.
      destruct (Z.ltb_spec (h + len W) Size) as [Hfit|Hnofit].
      + apply returns_RandBool. intros b R' _ _. split; [eexists; reflexivity|].
        intros _. exists h. repeat split; lia.
      + apply returns_ret. split; [eexists; reflexivity | discriminate].
    - apply returns_ret. split; [eexists; reflexivity | discriminate]. }
  intros UsePositionHint s1 [[R1 ->] Hhint]. cbv beta.
  apply returns_bind, returns_RandBool. intros b R2 _ _. cbv beta.
  assert (Hsucceed : forall s2 n,
    get_Dictionary D s2 = Dv -> len (Data s2) = len (Data s) -> 1 <= n <= MaxSize ->
    returns (update_through (D, nat_of i) IncUseCount;;
             modify (fun s0 => set_CurrentDictionaryEntrySequence
                                 (CurrentDictionaryEntrySequence s0 ++ [(D, nat_of i)]) s0);;
             ret n) s2
      (fun NewSize s' => (NewSize = 0 \/ 1 <= NewSize <= MaxSize) /\
                         len (Data s') = len (Data s))).
  { intros s2 n HD Hl2 Hn.
    eapply returns_bind, returns_update_through.
    { cbn [fst snd]. rewrite HD. exact Hnth. }
    apply returns_bind, returns_modify, returns_ret.
    split; [lia|]. destruct D; exact Hl2. }
  destruct b.
  - rewrite (size_t_small (Size + len W)) by lia.
    rewrite Z.gtb_ltb.
    destruct (Z.ltb_spec MaxSize (Size + len W)) as [Hbig|Hok].
    { apply returns_ret. split; [auto | reflexivity]. }
    apply returns_bind.
    apply returns_weaken with
      (P := fun Idx s1 => 0 <= Idx <= Size /\ exists R', s1 = set_Rand R' s).
    { destruct UsePositionHint.
      - destruct (Hhint eq_refl) as (h & -> & Hh0 & Hh1).
        apply returns_ret. split; [lia|]. eexists. reflexivity.
      - rewrite (size_t_small (Size + 1)) by lia.
        apply returns_Rand; [lia|]. intros Idx R' HI0 HI _ _ _ .
        split; [lia|]. eexists. reflexivity. }
    intros Idx s1 (HIdx & R' & ->). cbv beta.
    rewrite (size_t_small (Size - Idx)) by lia.
    apply returns_bind, returns_memmove; cbn [read_buf Data set_Rand]; try lia.
    cbn [write_buf]. apply returns_modify.
    unfold memcpy.
    apply returns_bind, returns_memmove; cbn [read_buf Data set_Data set_Rand]; try lia.
    { rewrite len_moved; lia. }
    cbn [write_buf]. apply returns_modify.
    apply Hsucceed.
    + rewrite !get_Dictionary_set_Data, get_Dictionary_set_Rand. reflexivity.
    + cbn [Data set_Data]. rewrite !len_moved; try lia. rewrite len_moved; lia.
    + lia.
  - rewrite Z.gtb_ltb.
    destruct (Z.ltb_spec Size (len W)) as [Hbig|Hok].
    { apply returns_ret. split; [auto | reflexivity]. }
    apply returns_bind.
    apply returns_weaken with
      (P := fun Idx s1 => 0 <= Idx /\ Idx + len W <= Size /\ exists R', s1 = set_Rand R' s).
    { destruct UsePositionHint.
      - destruct (Hhint eq_refl) as (h & -> & Hh0 & Hh1).
        apply returns_ret. split; [lia|]. split; [lia|]. eexists. reflexivity.
      - rewrite (size_t_small (Size - len W)) by lia.
        apply returns_Rand; [lia|]. intros Idx R' HI0 HI HI' _ _ .
        split; [lia|]. split; [lia|]. eexists. reflexivity. }
    intros Idx s1 (HIdx0 & HIdx & R' & ->). cbv beta.
    unfold memcpy.
    apply returns_bind, returns_memmove; cbn [read_buf Data set_Rand]; try lia.
    cbn [write_buf]. apply returns_modify.
    apply Hsucceed.
    + rewrite !get_Dictionary_set_Data, get_Dictionary_set_Rand. reflexivity.
    + cbn [Data set_Data]. rewrite len_moved; lia.
    + lia.
Qed.


(** [CopyPartOf] from a corpus unit into the scratch vector. *)
Lemma returns_CopyPartOf_scratch (O : Unit) (MaxSize : Z) (s1 : State) :
  len (MutateInPlaceHere s1) = MaxSize -> 0 < MaxSize <= PTRDIFF_MAX ->
  0 < len O <= PTRDIFF_MAX ->
  returns (CopyPartOf (Const_ptr O) (len O) Scratch_ptr MaxSize) s1 (fun n s' =>
    n = MaxSize /\
    exists (ToBeg CopySize FromBeg : Z) (R : Random),
      0 <= ToBeg /\ 1 <= CopySize /\ ToBeg + CopySize <= MaxSize /\
      0 <= FromBeg /\ FromBeg + CopySize <= len O /\
      s' = set_MutateInPlaceHere (moved (MutateInPlaceHere s1) ToBeg O FromBeg CopySize)
             (set_Rand R s1)).
Proof.
  intros HU HM HO.
  eapply returns_weaken.
  - apply returns_CopyPartOf; cbn [read_buf]; try lia.
    intros bs. discriminate.
  - intros sz s' (-> & ToBeg & CopySize & FromBeg & R & H1 & H2 & H3 & H4 & H5 & H6 & Hw).
    split; [reflexivity|]. exists ToBeg, CopySize, FromBeg, R.
    repeat split; try lia.
    cbn [write_buf modify read_buf] in Hw. inversion Hw. reflexivity.
Qed.

Lemma Mutate_CrossOver_returns (s : State) (Size MaxSize : Z) :
  CrossOver_contract -> valid_call s Size MaxSize ->
  returns (Mutate_CrossOver Size MaxSize) s (fun n s' =>
    (n = 0 \/ 1 <= n <= MaxSize) /\ len (Data s') = len (Data s)).
Proof.
  intros HX (HS & Hlen & Hmax & _ & Hcorpus).
  pose proof Hmax as Hmax'. unfold PTRDIFF_MAX in Hmax'. pose proof SIZE_MOD_eq as HMOD.
  unfold Mutate_CrossOver.
  apply returns_bind, returns_gets.
  destruct (Corpus s) as [units|] eqn:HC.
  2:{ apply returns_ret. split; [auto | reflexivity]. }
  specialize (Hcorpus units eq_refl).
  destruct (Z.ltb_spec (len units) 2); [apply returns_ret; split; [auto | reflexivity]|].
  destruct (Z.eqb_spec Size 0); [lia|]. cbn [orb].
  apply returns_bind, returns_Rand; [lia|]. intros Idx R Hi0 Hi1 _ _ _.
  specialize (Hi1 ltac:(lia)).
  destruct (nth_error units (nat_of Idx)) as [O|] eqn:HO.
  2:{ apply nth_error_None in HO. unfold len, nat_of in *. lia. }
  eapply returns_bind, returns_at; [lia | exact HO |].
  pose proof (proj1 (Forall_forall _ _) Hcorpus O (nth_error_In _ _ HO)) as HOmax.
  cbv beta in HOmax.
  pose proof (len_nonneg O) as HO0.
  destruct (Z.eqb_spec (len O) 0); [apply returns_ret; split; [auto | reflexivity]|].
  apply returns_bind, returns_modify.
  cbn [MutateInPlaceHere set_Rand].
  set (U0 := vector_resize (MutateInPlaceHere s) MaxSize).
  assert (HU0 : len U0 = MaxSize) by (apply len_vector_resize; lia).
  apply returns_bind, returns_gets. cbn [MutateInPlaceHere set_MutateInPlaceHere].
  rewrite HU0.
  apply returns_bind, returns_Rand; [lia|]. intros k R2 Hk0 Hk1 _ _ _.
  specialize (Hk1 ltac:(lia)).
  set (s1 := set_Rand R2 (set_MutateInPlaceHere U0 (set_Rand R s))).
  apply returns_bind.
  apply returns_weaken with (P := fun n s' =>
    1 <= n <= MaxSize /\ len (MutateInPlaceHere s') = MaxSize /\ Data s' = Data s).
  { assert (Hcopy : returns (CopyPartOf (Const_ptr O) (len O) Scratch_ptr MaxSize) s1
               (fun n s' => 1 <= n <= MaxSize /\ len (MutateInPlaceHere s') = MaxSize /\
                            Data s' = Data s)).
    { eapply returns_weaken.
      - apply returns_CopyPartOf_scratch; [exact HU0 | lia | lia].
      - intros sz s' (-> & ToBeg & CopySize & FromBeg & R' & H1 & H2 & H3 & H4 & H5 & ->).
        split; [lia|]. split; [|reflexivity].
        cbn [MutateInPlaceHere set_MutateInPlaceHere set_Rand s1].
        rewrite len_moved; lia. }
    destruct (Z.eqb_spec k 0) as [E0|N0].
    - unfold returns.
      pose proof (HX (Data s1) Size O (len O) (MutateInPlaceHere s1) MaxSize (Rand_ s1)
                    ltac:(lia) ltac:(lia)
                    ltac:(cbn [MutateInPlaceHere set_MutateInPlaceHere set_Rand s1]; lia)
                    Hmax) as [Hn HU'].
      destruct (CrossOver (Data s1) Size O (len O) (MutateInPlaceHere s1) MaxSize (Rand_ s1))
        as [[sz0 U'] R']. cbn [fst snd] in *.
      rewrite size_t_small by lia.
      split; [lia|]. split; [|reflexivity].
      cbn [MutateInPlaceHere set_MutateInPlaceHere set_Rand s1] in *. lia.
    - destruct (Z.eqb_spec k 1) as [E1|N1].
      + apply returns_bind.
        eapply returns_intro; [apply InsertPartOf_at_capacity|].
        simpl (negb (0 =? 0)). cbv iota. exact Hcopy.
      + destruct (Z.eqb_spec k 2) as [E2|N2]; [exact Hcopy | lia]. }
  intros sz s2 (Hsz & HU2 & HD2). cbv beta.
  apply returns_bind, returns_assert. { apply Z.gtb_lt. lia. }
  apply returns_bind, returns_assert. { apply Z.leb_le. lia. }
  unfold memcpy.
  apply returns_bind, returns_memmove; cbn [read_buf]; rewrite ?HD2; try lia.
  cbn [write_buf]. apply returns_modify, returns_ret.
  split; [lia|]. cbn [Data set_Data]. apply len_moved; lia.
Qed.

(** Each of the 13 mutators of the default registry returns from a call a
    dispatcher can really receive, when [CrossOver] keeps its contract: the
    size it returns is 0 or from 1 to [MaxSize], and the buffer keeps its
    capacity. *)
Lemma DefaultMutators_return (Mu : Mutator) (s : State) (Size MaxSize : Z) :
  In Mu DefaultMutators_list ->
  CrossOver_contract -> valid_call s Size MaxSize ->
  returns (call (Fn Mu) Size MaxSize) s (fun NewSize s' =>
    (NewSize = 0 \/ 1 <= NewSize <= MaxSize) /\ len (Data s') = len (Data s)).
Proof.
  intros HIn HX Hv.
  unfold DefaultMutators_list in HIn. simpl in HIn.
  repeat (destruct HIn as [<- | HIn]; [cbn [call Fn] | ]); try contradiction.
  - apply Mutate_EraseBytes_returns; assumption.
  - apply Mutate_InsertByte_returns; assumption.
  - apply Mutate_InsertRepeatedBytes_returns; assumption.
  - apply Mutate_ChangeByte_returns; assumption.
  - apply Mutate_ChangeBit_returns; assumption.
  - apply Mutate_ShuffleBytes_returns; assumption.
  - apply Mutate_ChangeASCIIInteger_returns; assumption.
  - apply Mutate_ChangeBinaryInteger_returns; assumption.
  - apply Mutate_CopyPart_returns; assumption.
  - apply Mutate_CrossOver_returns; assumption.
  - apply AddWordFromDictionary_returns; assumption.
  - apply AddWordFromDictionary_returns; assumption.
  - apply AddWordFromDictionary_returns; assumption.
Qed.

(** C1: each of the 13 mutators of the default registry, called with
    [0 < Size <= MaxSize], returns only 0 or a size from 1 to [MaxSize],
    whatever the state; and it does return, from a call a dispatcher can
    really receive and with a [CrossOver] that keeps its contract. *)
Theorem DefaultMutators_size_in_range (Mu : Mutator) (s : State) (Size MaxSize : Z) :
  In Mu DefaultMutators_list ->
  0 < Size <= MaxSize -> MaxSize <= SIZE_MAX ->
  ensures (call (Fn Mu) Size MaxSize) s
    (fun NewSize _ => NewSize <> 0 -> 1 <= NewSize <= MaxSize) /\
  (CrossOver_contract -> valid_call s Size MaxSize ->
   returns (call (Fn Mu) Size MaxSize) s
     (fun NewSize s' => (NewSize = 0 \/ 1 <= NewSize <= MaxSize) /\
                        len (Data s') = len (Data s))).
Proof.
  intros HIn HS HM. split.
  - eapply ensures_weaken; [apply (DefaultMutators_sizes Mu Size MaxSize HIn HS HM)|].
    intros n s' Hn Hne. cbv beta in Hn. lia.
  - intros HX Hv. apply DefaultMutators_return; assumption.
Qed.


(** * Further properties of the mutators *)

(** ** Mutate_InsertByte *)

(** [Mutate_InsertByte] on a full buffer ([Size = MaxSize]) returns 0 and
    changes nothing, not even the random source. With room it returns
    [Size + 1]: the byte [c] that [RandCh] draws is at [Idx <= Size], the
    [Size] bytes of the input are around it in their order, and the bytes past
    [Size + 1] are as they were. *)
Theorem Mutate_InsertByte_spec (s : State) (Size MaxSize : Z) :
  0 <= Size <= MaxSize -> MaxSize <= len (Data s) -> MaxSize <= PTRDIFF_MAX ->
  let Idx := fst (Random_upto (Rand_ s) (Size + 1)) in
  let R1 := snd (Random_upto (Rand_ s) (Size + 1)) in
  let c := fst (RandCh_of R1) in
  returns (Mutate_InsertByte Size MaxSize) s (fun NewSize s' =>
    if Size =? MaxSize then NewSize = 0 /\ s' = s
    else NewSize = Size + 1 /\ 0 <= Idx <= Size /\ 0 <= c < 256 /\
         s' = set_Data (firstn (nat_of Idx) (Data s) ++ [c] ++
                        skipn (nat_of Idx) (firstn (nat_of Size) (Data s)) ++
                        skipn (nat_of (Size + 1)) (Data s))
                (set_Rand (snd (RandCh_of R1)) s)).
Proof.
  intros HS Hlen Hmax Idx R1 c. unfold PTRDIFF_MAX in Hmax. pose proof SIZE_MOD_eq as HM.
  unfold Mutate_InsertByte.
  destruct (Z.eqb_spec Size MaxSize) as [Hfull|Hroom].
  { apply returns_ret. split; reflexivity. }
  rewrite (size_t_small (Size + 1)) by lia.
  apply returns_bind, returns_Rand; [lia|]. intros i R Hi0 Hi1 _ Hi HR.
  fold Idx in Hi. fold R1 in HR. subst i R.
  specialize (Hi1 ltac:(lia)).
  rewrite (size_t_small (Size - Idx)) by lia.
  apply returns_bind, returns_memmove; simpl; try lia.
  apply returns_modify.
  apply returns_bind. unfold returns at 1. rewrite RandCh_eq. simpl Rand_.
  fold c. pose proof (RandCh_of_range R1) as Hc. fold c in Hc.
  apply returns_bind, returns_store.
  { simpl. rewrite len_moved; lia. }
  simpl. apply returns_modify, returns_ret.
  split; [reflexivity|]. split; [lia|]. split; [exact Hc|].
  unfold set_Data, set_Rand. simpl. f_equal.
  unfold uint8_t, uintN. rewrite Z.mod_small by (simpl; lia).
  unfold moved.
  assert (HI : (nat_of Idx <= nat_of Size)%nat) by (unfold nat_of; lia).
  assert (HL : (nat_of Size + 1 <= length (Data s))%nat) by (unfold len, nat_of in *; lia).
  replace (nat_of (Idx + 1)) with (nat_of Idx + 1)%nat by (unfold nat_of; lia).
  replace (nat_of (Idx + 1 + (Size - Idx))) with (nat_of Size + 1)%nat by (unfold nat_of; lia).
  replace (nat_of (Size - Idx)) with (nat_of Size - nat_of Idx)%nat by (unfold nat_of; lia).
  replace (nat_of (Size + 1)) with (nat_of Size + 1)%nat by (unfold nat_of; lia).
  generalize (nat_of Idx) (nat_of Size) HI HL. clear. intros i sz HI HL.
  set (d := Data s) in *.
  rewrite firstn_app, firstn_firstn, length_firstn.
  replace (Nat.min i (i + 1)) with i by lia.
  replace (i - Nat.min (i + 1) (length d))%nat with 0%nat by lia.
  rewrite firstn_O, app_nil_r. f_equal. f_equal.
  rewrite skipn_app, length_firstn.
  rewrite (skipn_all2 (firstn (i + 1) d)) by (rewrite length_firstn; lia).
  replace (i + 1 - Nat.min (i + 1) (length d))%nat with 0%nat by lia.
  simpl. f_equal. rewrite firstn_skipn_comm. do 2 f_equal. lia.
Qed.


(** ** Mutate_ChangeByte and Mutate_ChangeBit *)

Lemma stored_list_set (l : list Z) (i : nat) (v : Z) :
  firstn i l ++ [v] ++ skipn (i + 1) l = list_set l i v.
Proof. unfold list_set. replace (i + 1)%nat with (S i) by lia. reflexivity. Qed.

Lemma list_set_same {A} (l : list A) (i : nat) (a x : A) :
  nth_error l i = Some x -> (list_set l i a = l <-> a = x).
Proof.
  intros Hx.
  assert (Hi : (i < length l)%nat) by (apply nth_error_Some; congruence).
  split.
  - intros E. pose proof (nth_error_list_set l i a Hi) as Hn.
    rewrite E in Hn. congruence.
  - intros ->. unfold list_set.
    destruct (nth_error_split l i Hx) as (l1 & l2 & E & Hl). subst l i.
    rewrite firstn_app, Nat.sub_diag, firstn_all, firstn_O, app_nil_r.
    rewrite skipn_app, skipn_all2 by lia.
    replace (S (length l1) - length l1)%nat with 1%nat by lia.
    reflexivity.
Qed.

Lemma nth_error_in_range {A} (l : list A) (i : Z) :
  0 <= i < len l -> exists x, nth_error l (nat_of i) = Some x.
Proof.
  intros Hi. destruct (nth_error l (nat_of i)) as [x|] eqn:E; [eauto|].
  apply nth_error_None in E. unfold len, nat_of in *. lia.
Qed.

(** [Mutate_ChangeByte] writes the byte [c] that [RandCh] draws at one
    position [Idx] of the input, [Idx < Size], and returns [Size]; nothing
    else of the buffer changes. The input is left as it was exactly when
    [c] is the byte that was there. *)
Theorem Mutate_ChangeByte_spec (s : State) (Size MaxSize : Z) :
  0 < Size <= len (Data s) ->
  let Idx := fst (Random_upto (Rand_ s) Size) in
  let R1 := snd (Random_upto (Rand_ s) Size) in
  let c := fst (RandCh_of R1) in
  exists x : Z,
    nth_error (Data s) (nat_of Idx) = Some x /\
    returns (Mutate_ChangeByte Size MaxSize) s (fun NewSize s' =>
      NewSize = Size /\ 0 <= Idx < Size /\ 0 <= c < 256 /\
      s' = set_Data (list_set (Data s) (nat_of Idx) c) (set_Rand (snd (RandCh_of R1)) s) /\
      (Data s' = Data s <-> c = x)).
Proof.
  intros HS Idx R1 c.
  pose proof (Random_upto_range (Rand_ s) Size ltac:(lia)) as (Hi0 & Hi1 & _).
  fold Idx in Hi0, Hi1. specialize (Hi1 ltac:(lia)).
  destruct (nth_error_in_range (Data s) Idx ltac:(lia)) as [x Hx].
  exists x. split; [exact Hx|].
  unfold Mutate_ChangeByte.
  apply returns_bind, returns_Rand; [lia|]. intros i R _ _ _ Hi HR.
  fold Idx in Hi. fold R1 in HR. subst i R.
  apply returns_bind. unfold returns at 1. rewrite RandCh_eq. simpl Rand_.
  fold c. pose proof (RandCh_of_range R1) as Hc. fold c in Hc.
  apply returns_bind, returns_store; [simpl; lia|].
  simpl. apply returns_modify, returns_ret.
  unfold uint8_t, uintN. rewrite Z.mod_small by (simpl; lia).
  change (firstn (nat_of Idx) (Data s) ++ c :: skipn (nat_of Idx + 1) (Data s))
    with (firstn (nat_of Idx) (Data s) ++ [c] ++ skipn (nat_of Idx + 1) (Data s)).
  rewrite stored_list_set.
  split; [reflexivity|]. split; [lia|]. split; [exact Hc|]. split; [reflexivity|].
  simpl. apply list_set_same. exact Hx.
Qed.

Lemma lxor_bound (a b n : Z) :
  0 <= n -> 0 <= a < 2 ^ n -> 0 <= b < 2 ^ n -> 0 <= Z.lxor a b < 2 ^ n.
Proof.
  intros Hn Ha Hb.
  assert (H0 : 0 <= Z.lxor a b) by (apply Z.lxor_nonneg; lia).
  split; [exact H0|].
  destruct (Z.eq_dec (Z.lxor a b) 0) as [E|E].
  { rewrite E. apply Z.pow_pos_nonneg; lia. }
  apply Z.log2_lt_pow2; [lia|].
  pose proof (Z.log2_lxor a b ltac:(lia) ltac:(lia)) as Hl.
  assert (Hla : Z.log2 a < n \/ a = 0).
  { destruct (Z.eq_dec a 0); [right; assumption | left; apply Z.log2_lt_pow2; lia]. }
  assert (Hlb : Z.log2 b < n \/ b = 0).
  { destruct (Z.eq_dec b 0); [right; assumption | left; apply Z.log2_lt_pow2; lia]. }
  assert (Hn0 : 0 < n).
  { destruct (Z.eq_dec n 0) as [->|]; [|lia].
    assert (a = 0) by (simpl in *; lia). assert (b = 0) by (simpl in *; lia).
    subst. simpl in E. contradiction. }
  destruct Hla as [Hla | Ea], Hlb as [Hlb | Eb]; subst; simpl in *; lia.
Qed.

(** [Mutate_ChangeBit] inverts one bit, bit [k < 8], of one byte of the
    input, at [Idx < Size], and returns [Size]: every other bit of that byte
    and every other byte are as they were, so the buffer always differs from
    the input. *)
Theorem Mutate_ChangeBit_flips_one_bit (s : State) (Size MaxSize : Z) :
  0 < Size <= len (Data s) ->
  Forall (fun b => 0 <= b < 256) (Data s) ->
  let Idx := fst (Random_upto (Rand_ s) Size) in
  let R1 := snd (Random_upto (Rand_ s) Size) in
  let k := fst (Random_upto R1 8) in
  exists x : Z,
    nth_error (Data s) (nat_of Idx) = Some x /\
    returns (Mutate_ChangeBit Size MaxSize) s (fun NewSize s' =>
      NewSize = Size /\ 0 <= Idx < Size /\ 0 <= k < 8 /\
      s' = set_Data (list_set (Data s) (nat_of Idx) (Z.lxor x (2 ^ k)))
             (set_Rand (snd (Random_upto R1 8)) s) /\
      0 <= Z.lxor x (2 ^ k) < 256 /\
      (forall j : Z, Z.testbit (Z.lxor x (2 ^ k)) j =
                     if j =? k then negb (Z.testbit x j) else Z.testbit x j) /\
      Data s' <> Data s).
Proof.
  intros HS Hbytes Idx R1 k.
  pose proof (Random_upto_range (Rand_ s) Size ltac:(lia)) as (Hi0 & Hi1 & _).
  fold Idx in Hi0, Hi1. specialize (Hi1 ltac:(lia)).
  pose proof (Random_upto_range R1 8 ltac:(lia)) as (Hk0 & Hk1 & _).
  fold k in Hk0, Hk1. specialize (Hk1 ltac:(lia)).
  destruct (nth_error_in_range (Data s) Idx ltac:(lia)) as [x Hx].
  assert (Hxr : 0 <= x < 256).
  { rewrite Forall_forall in Hbytes. apply Hbytes. eapply nth_error_In. exact Hx. }
  assert (Hbits : forall j : Z, Z.testbit (Z.lxor x (2 ^ k)) j =
                                if j =? k then negb (Z.testbit x j) else Z.testbit x j).
  { intros j. rewrite Z.lxor_spec.
    destruct (Z.eqb_spec j k) as [->|Hj].
    - rewrite Z.pow2_bits_true by lia. apply xorb_true_r.
    - rewrite Z.pow2_bits_false by lia. apply xorb_false_r. }
  assert (Hy : 0 <= Z.lxor x (2 ^ k) < 256).
  { change 256 with (2 ^ 8). apply lxor_bound; [lia | simpl; lia |].
    split; [apply Z.pow_nonneg; lia | apply Z.pow_lt_mono_r; lia]. }
  assert (Hne : Z.lxor x (2 ^ k) <> x).
  { intros E. specialize (Hbits k). rewrite E, Z.eqb_refl in Hbits.
    destruct (Z.testbit x k); discriminate. }
  exists x. split; [exact Hx|].
  unfold Mutate_ChangeBit.
  apply returns_bind, returns_Rand; [lia|]. intros i R _ _ _ Hi HR.
  fold Idx in Hi. fold R1 in HR. subst i R.
  apply returns_bind, returns_Rand; [lia|]. intros r R _ _ _ Hr HR.
  simpl Rand_ in Hr, HR. fold k in Hr. subst r R.
  apply returns_bind, returns_load; [simpl; lia|]. intros x' Hx'.
  simpl in Hx'. rewrite Hx in Hx'. injection Hx' as <-.
  apply returns_bind, returns_store; [simpl; lia|].
  simpl. apply returns_modify, returns_ret.
  rewrite Z.shiftl_1_l.
  unfold uint8_t, uintN. rewrite Z.mod_small by (simpl; lia).
  change (firstn (nat_of Idx) (Data s) ++ Z.lxor x (2 ^ k) :: skipn (nat_of Idx + 1) (Data s))
    with (firstn (nat_of Idx) (Data s) ++ [Z.lxor x (2 ^ k)] ++ skipn (nat_of Idx + 1) (Data s)).
  rewrite stored_list_set.
  split; [reflexivity|]. split; [lia|]. split; [lia|]. split; [reflexivity|].
  split; [exact Hy|]. split; [exact Hbits|].
  simpl. intros E. apply (list_set_same _ _ _ _ Hx) in E. contradiction.
Qed.


(** ** Mutate_ShuffleBytes *)

Lemma list_set_at {A} (l1 l2 : list A) (a b : A) :
  list_set (l1 ++ a :: l2) (length l1) b = l1 ++ b :: l2.
Proof.
  unfold list_set.
  rewrite firstn_app, Nat.sub_diag, firstn_all, firstn_O, app_nil_r.
  rewrite skipn_app, skipn_all2 by lia.
  replace (S (length l1) - length l1)%nat with 1%nat by lia.
  reflexivity.
Qed.

Lemma firstn_list_set {A} (l : list A) (i n : nat) (a : A) :
  (n <= i)%nat -> (i < length l)%nat -> firstn n (list_set l i a) = firstn n l.
Proof.
  intros Hn Hi. unfold list_set.
  rewrite firstn_app, firstn_firstn, length_firstn.
  replace (Nat.min n i) with n by lia.
  replace (n - Nat.min i (length l))%nat with 0%nat by lia.
  rewrite firstn_O. apply app_nil_r.
Qed.

Lemma skipn_list_set {A} (l : list A) (i n : nat) (a : A) :
  (i < n)%nat -> (i < length l)%nat -> skipn n (list_set l i a) = skipn n l.
Proof.
  intros Hn Hi. unfold list_set.
  rewrite skipn_app, length_firstn.
  rewrite (skipn_all2 (firstn i l)) by (rewrite length_firstn; lia).
  replace (n - Nat.min i (length l))%nat with (S (n - S i)) by lia.
  rewrite app_nil_l, skipn_cons, skipn_skipn. f_equal. lia.
Qed.

Lemma Permutation_exchange {A} (l1 l2 l3 : list A) (x y : A) :
  Permutation (l1 ++ y :: l2 ++ x :: l3) (l1 ++ x :: l2 ++ y :: l3).
Proof.
  apply Permutation_app_head.
  transitivity (y :: x :: l2 ++ l3).
  - apply perm_skip. symmetry. apply Permutation_middle.
  - transitivity (x :: y :: l2 ++ l3); [apply perm_swap|].
    apply perm_skip. apply Permutation_middle.
Qed.

(** Two elements of a list exchanged: a permutation of the list. *)
Lemma Permutation_swapped {A} (d : list A) (i j : nat) (x y : A) :
  nth_error d i = Some x -> nth_error d j = Some y ->
  Permutation (list_set (list_set d i y) j x) d.
Proof.
  intros Hx Hy.
  destruct (Nat.lt_trichotomy i j) as [Hij | [Hij | Hij]].
  - destruct (nth_error_split d i Hx) as (l1 & r & E & Hl). subst d i.
    rewrite nth_error_app2 in Hy by lia.
    replace (j - length l1)%nat with (S (j - length l1 - 1)) in Hy by lia.
    simpl in Hy.
    destruct (nth_error_split r _ Hy) as (l2 & l3 & E & Hl2). subst r.
    rewrite list_set_at.
    replace j with (length (l1 ++ y :: l2)) by (rewrite length_app; simpl; lia).
    replace (l1 ++ y :: l2 ++ y :: l3) with ((l1 ++ y :: l2) ++ y :: l3)
      by (rewrite <- app_assoc; reflexivity).
    rewrite list_set_at. rewrite <- app_assoc. simpl.
    apply Permutation_exchange.
  - subst j. rewrite Hx in Hy. injection Hy as <-.
    assert (E : list_set d i x = d) by (apply (list_set_same d i x x Hx); reflexivity).
    rewrite !E. apply Permutation_refl.
  - destruct (nth_error_split d j Hy) as (l1 & r & E & Hl). subst d j.
    rewrite nth_error_app2 in Hx by lia.
    replace (i - length l1)%nat with (S (i - length l1 - 1)) in Hx by lia.
    simpl in Hx.
    destruct (nth_error_split r _ Hx) as (l2 & l3 & E & Hl2). subst r.
    replace i with (length (l1 ++ y :: l2)) by (rewrite length_app; simpl; lia).
    replace (l1 ++ y :: l2 ++ x :: l3) with ((l1 ++ y :: l2) ++ x :: l3) at 1
      by (rewrite <- app_assoc; reflexivity).
    rewrite list_set_at. rewrite <- app_assoc. simpl.
    rewrite list_set_at.
    apply Permutation_exchange.
Qed.

Lemma shuffled_swap (d d' : list Z) (first last i j : nat) (x y : Z) :
  shuffled d first last d' ->
  (first <= i < last)%nat -> (first <= j < last)%nat ->
  nth_error d' i = Some x -> nth_error d' j = Some y ->
  shuffled d first last (list_set (list_set d' i y) j x).
Proof.
  intros (HP & Hf & Hl) Hi Hj Hx Hy.
  assert (Hil : (i < length d')%nat) by (apply nth_error_Some; congruence).
  assert (Hjl : (j < length d')%nat) by (apply nth_error_Some; congruence).
  assert (Hjl' : (j < length (list_set d' i y))%nat) by (rewrite length_list_set; lia).
  split; [|split].
  - transitivity d'; [|exact HP]. apply Permutation_swapped; assumption.
  - rewrite firstn_list_set by lia. rewrite firstn_list_set by lia. exact Hf.
  - rewrite skipn_list_set by lia. rewrite skipn_list_set by lia. exact Hl.
Qed.

Lemma returns_swap_bytes_bytes (i j x y : Z) (s : State) (Q : unit -> State -> Prop) :
  0 <= i -> 0 <= j ->
  nth_error (Data s) (nat_of i) = Some x -> nth_error (Data s) (nat_of j) = Some y ->
  0 <= x < 256 -> 0 <= y < 256 ->
  Q tt (set_Data (list_set (list_set (Data s) (nat_of i) y) (nat_of j) x) s) ->
  returns (swap_bytes Data_ptr i j) s Q.
Proof.
  intros Hi Hj Hx Hy Hxr Hyr H.
  assert (Hil : i < len (Data s)).
  { assert (nat_of i < length (Data s))%nat by (apply nth_error_Some; congruence).
    unfold len, nat_of in *. lia. }
  assert (Hjl : j < len (Data s)).
  { assert (nat_of j < length (Data s))%nat by (apply nth_error_Some; congruence).
    unfold len, nat_of in *. lia. }
  unfold swap_bytes.
  apply returns_bind, returns_load; [simpl; lia|]. intros a Ha.
  simpl in Ha. rewrite Hx in Ha. injection Ha as <-.
  apply returns_bind, returns_load; [simpl; lia|]. intros b Hb.
  simpl in Hb. rewrite Hy in Hb. injection Hb as <-.
  apply returns_bind, returns_store; [simpl; lia|].
  simpl. apply returns_modify.
  apply returns_store.
  { simpl. unfold len in *. rewrite !length_app, length_firstn. simpl.
    rewrite length_skipn. unfold nat_of in *. lia. }
  simpl. apply returns_modify.
  unfold uint8_t, uintN. rewrite !Z.mod_small by (simpl; lia).
  change (firstn (nat_of i) (Data s) ++ y :: skipn (nat_of i + 1) (Data s))
    with (firstn (nat_of i) (Data s) ++ [y] ++ skipn (nat_of i + 1) (Data s)).
  rewrite stored_list_set.
  change (firstn (nat_of j) (list_set (Data s) (nat_of i) y) ++
          x :: skipn (nat_of j + 1) (list_set (Data s) (nat_of i) y))
    with (firstn (nat_of j) (list_set (Data s) (nat_of i) y) ++
          [x] ++ skipn (nat_of j + 1) (list_set (Data s) (nat_of i) y)).
  rewrite stored_list_set.
  exact H.
Qed.

Lemma returns_random_shuffle_shuffled (first last : Z) (s : State)
    (Q : unit -> State -> Prop) :
  0 <= first -> last <= len (Data s) -> last <= PTRDIFF_MAX ->
  Forall (fun b => 0 <= b < 256) (Data s) ->
  (forall d R, shuffled (Data s) (nat_of first) (nat_of last) d ->
               Q tt (set_Data d (set_Rand R s))) ->
  returns (random_shuffle Data_ptr first last) s Q.
Proof.
  intros Hf Hl Hmax Hbytes H. unfold PTRDIFF_MAX in Hmax. pose proof SIZE_MOD_eq.
  unfold random_shuffle, For_, For.
  eapply returns_weaken.
  - apply (returns_for_loop (fun _ _ s' =>
             exists d R, s' = set_Data d (set_Rand R s) /\
                         shuffled (Data s) (nat_of first) (nat_of last) d)).
    + exists (Data s), (Rand_ s). split; [destruct s; reflexivity|].
      split; [apply Permutation_refl | split; reflexivity].
    + intros j [] s1 Hj (d & R & -> & Hd).
      assert (Hjl : j < last) by (unfold nat_of in Hj; lia).
      assert (Hlen : length d = length (Data s)).
      { apply Permutation_length. apply Hd. }
      assert (Hb : Forall (fun b => 0 <= b < 256) d).
      { eapply Permutation_Forall; [symmetry; apply Hd | exact Hbytes]. }
      rewrite (size_t_small (j - first + 1)) by lia.
      apply returns_bind, returns_Rand; [lia|]. intros r R' Hr0 Hr1 _ _ _.
      specialize (Hr1 ltac:(lia)).
      destruct (j =? first + r).
      * apply returns_ret. exists d, R'. split; [reflexivity | exact Hd].
      * destruct (nth_error_in_range d j) as [x Hx]; [unfold len in *; lia|].
        destruct (nth_error_in_range d (first + r)) as [y Hy]; [unfold len in *; lia|].
        rewrite Forall_forall in Hb.
        apply (returns_swap_bytes_bytes j (first + r) x y); simpl; try lia; try assumption.
        { apply Hb. eapply nth_error_In. exact Hx. }
        { apply Hb. eapply nth_error_In. exact Hy. }
        eexists _, R'. split; [reflexivity|].
        apply shuffled_swap; try assumption; unfold nat_of; lia.
  - intros [] s' (d & R & -> & Hd). apply H. exact Hd.
Qed.

Lemma shuffled_window (d d' : list Z) (first n : nat) :
  (first + n <= length d)%nat ->
  shuffled d first (first + n) d' ->
  exists w : list Z,
    d' = firstn first d ++ w ++ skipn (first + n) d /\
    Permutation w (firstn n (skipn first d)).
Proof.
  intros Hl (HP & Hf & Hs).
  assert (Hl' : length d' = length d) by (apply Permutation_length; exact HP).
  exists (firstn n (skipn first d')).
  assert (E : forall l : list Z,
            l = firstn first l ++ firstn n (skipn first l) ++ skipn (first + n) l).
  { intros l. rewrite <- (firstn_skipn first l) at 1. f_equal.
    rewrite <- (firstn_skipn n (skipn first l)) at 1. f_equal.
    rewrite skipn_skipn. f_equal. lia. }
  assert (E' : d' = firstn first d ++ firstn n (skipn first d') ++ skipn (first + n) d).
  { rewrite <- Hf, <- Hs. apply E. }
  split; [exact E'|].
  rewrite E' in HP. rewrite (E d) in HP at 3.
  apply Permutation_app_inv_l in HP. apply Permutation_app_inv_r in HP. exact HP.
Qed.

(** [Mutate_ShuffleBytes] returns [Size] and permutes a window of the
    input: [Amount] bytes at [Start], with [1 <= Amount <= 8] and the window
    within the input; the bytes before and after the window are as they
    were. [Start] is drawn below [Size - Amount], so the window reaches the
    last byte of the input only when it is the whole input. *)
Theorem Mutate_ShuffleBytes_permutes (s : State) (Size MaxSize : Z) :
  0 < Size <= len (Data s) -> Size <= PTRDIFF_MAX ->
  Forall (fun b => 0 <= b < 256) (Data s) ->
  returns (Mutate_ShuffleBytes Size MaxSize) s (fun NewSize s' =>
    NewSize = Size /\
    exists (Start Amount : Z) (w : list Z),
      1 <= Amount <= 8 /\ 0 <= Start /\
      (Start + Amount < Size \/ (Start = 0 /\ Amount = Size)) /\
      Data s' = firstn (nat_of Start) (Data s) ++ w ++
                skipn (nat_of (Start + Amount)) (Data s) /\
      Permutation w (firstn (nat_of Amount) (skipn (nat_of Start) (Data s)))).
Proof.
  intros HS Hmax Hbytes. unfold PTRDIFF_MAX in Hmax. pose proof SIZE_MOD_eq.
  unfold Mutate_ShuffleBytes.
  apply returns_bind, returns_assert.
  { destruct (Z.eqb_spec Size 0); [lia | reflexivity]. }
  rewrite std_min_spec.
  apply returns_bind, returns_Rand; [lia|]. intros r R Hr0 Hr1 _ _ _.
  specialize (Hr1 ltac:(lia)).
  rewrite (size_t_small (r + 1)) by lia.
  rewrite (size_t_small (Size - (r + 1))) by lia.
  apply returns_bind, returns_Rand; [lia|]. intros St R' Hs0 Hs1 Hs2 _ _.
  assert (HSt : St + (r + 1) < Size \/ (St = 0 /\ r + 1 = Size)) by lia.
  rewrite (size_t_small (St + (r + 1))) by lia.
  apply returns_bind, returns_assert. { apply Z.leb_le. lia. }
  apply returns_bind, returns_random_shuffle_shuffled; simpl; try lia; try assumption.
  { unfold PTRDIFF_MAX. lia. }
  intros d R2 Hd. apply returns_ret. split; [reflexivity|].
  replace (nat_of (St + (r + 1))) with (nat_of St + nat_of (r + 1))%nat in Hd
    by (unfold nat_of; lia).
  apply shuffled_window in Hd; [|unfold len, nat_of in *; lia].
  destruct Hd as (w & Ed & Hw).
  exists St, (r + 1), w.
  split; [lia|]. split; [lia|]. split; [exact HSt|].
  simpl. split; [|exact Hw].
  rewrite Ed. do 3 f_equal. unfold nat_of. lia.
Qed.


(** ** CopyPartOf, InsertPartOf and Mutate_CopyPart *)


(** [InsertPartOf] into the caller's buffer, from that same buffer or from
    a constant object, with room in the buffer: it returns, and what it has
    inserted at [Pos] are the [CopySize] bytes that [From] held at [FromBeg]
    at the call. *)
Lemma returns_InsertPartOf (From : BufPtr) (FromSize ToSize MaxToSize : Z) (s : State) :
  (From = Data_ptr \/ exists O : list Z, From = Const_ptr O) ->
  0 < FromSize <= len (read_buf From s) -> FromSize <= PTRDIFF_MAX ->
  0 <= ToSize < MaxToSize -> MaxToSize <= len (Data s) -> MaxToSize <= PTRDIFF_MAX ->
  returns (InsertPartOf From FromSize Data_ptr ToSize MaxToSize) s (fun n s' =>
    exists Pos CopySize FromBeg : Z,
      1 <= CopySize <= Z.min (MaxToSize - ToSize) FromSize /\ 0 <= Pos <= ToSize /\
      0 <= FromBeg /\ FromBeg + CopySize <= FromSize /\
      n = ToSize + CopySize /\
      len (Data s') = len (Data s) /\
      firstn (nat_of n) (Data s') =
        firstn (nat_of Pos) (Data s) ++
        firstn (nat_of CopySize) (skipn (nat_of FromBeg) (read_buf From s)) ++
        skipn (nat_of Pos) (firstn (nat_of ToSize) (Data s)) /\
      skipn (nat_of n) (Data s') = skipn (nat_of n) (Data s)).
Proof.
  intros HFrom HF HFmax HT Hlen Hmax.
  unfold PTRDIFF_MAX in *. pose proof SIZE_MOD_eq as HM.
  unfold InsertPartOf. rewrite Z.geb_leb.
  destruct (Z.leb_spec MaxToSize ToSize) as [Hfull|_]; [lia|].
  rewrite (size_t_small (MaxToSize - ToSize)) by lia.
  rewrite std_min_spec.
  apply returns_bind, returns_Rand; [lia|]. intros r R Hr0 Hr1 _ _ _.
  specialize (Hr1 ltac:(lia)).
  rewrite (size_t_small (r + 1)) by lia.
  rewrite (size_t_small (FromSize - (r + 1))) by lia.
  rewrite (size_t_small (FromSize - (r + 1) + 1)) by lia.
  apply returns_bind, returns_Rand; [lia|]. intros FromBeg R1 Hf0 Hf1 _ _ _.
  specialize (Hf1 ltac:(lia)).
  rewrite (size_t_small (FromBeg + (r + 1))) by lia.
  apply returns_bind, returns_assert. { apply Z.leb_le. lia. }
  rewrite (size_t_small (ToSize + 1)) by lia.
  apply returns_bind, returns_Rand; [lia|]. intros Pos R2 Hp0 Hp1 _ _ _.
  specialize (Hp1 ltac:(lia)).
  rewrite (size_t_small (Pos + (r + 1))) by lia.
  apply returns_bind, returns_assert. { apply Z.leb_le. lia. }
  rewrite (size_t_small (ToSize - Pos)) by lia.
  rewrite (size_t_small (ToSize + (r + 1))) by lia.
  set (C := r + 1) in *.
  set (D1 := moved (Data s) (Pos + C) (Data s) Pos (ToSize - Pos)).
  assert (Hl1 : len D1 = len (Data s)) by (apply len_moved; lia).
  set (bs := firstn (nat_of C) (skipn (nat_of FromBeg) (read_buf From s))).
  assert (Hbs : length bs = nat_of C).
  { unfold bs. rewrite length_firstn, length_skipn. unfold len, nat_of in *. lia. }
  assert (Hfinal : forall (s1 : State),
    Data s1 = firstn (nat_of Pos) D1 ++ bs ++ skipn (nat_of (Pos + C)) D1 ->
    exists Pos0 CopySize FromBeg0 : Z,
      1 <= CopySize <= Z.min (MaxToSize - ToSize) FromSize /\ 0 <= Pos0 <= ToSize /\
      0 <= FromBeg0 /\ FromBeg0 + CopySize <= FromSize /\
      ToSize + C = ToSize + CopySize /\
      len (Data s1) = len (Data s) /\
      firstn (nat_of (ToSize + C)) (Data s1) =
        firstn (nat_of Pos0) (Data s) ++
        firstn (nat_of CopySize) (skipn (nat_of FromBeg0) (read_buf From s)) ++
        skipn (nat_of Pos0) (firstn (nat_of ToSize) (Data s)) /\
      skipn (nat_of (ToSize + C)) (Data s1) = skipn (nat_of (ToSize + C)) (Data s)).
  { intros s1 E. exists Pos, C, FromBeg.
    split; [unfold C; lia|]. split; [lia|]. split; [lia|]. split; [unfold C; lia|].
    split; [reflexivity|].
    assert (HlD : (nat_of ToSize + nat_of C <= length (Data s))%nat)
      by (unfold len, nat_of, C in *; lia).
    assert (HPos : (nat_of Pos <= nat_of ToSize)%nat) by (unfold nat_of; lia).
    rewrite E. fold bs. unfold D1, moved.
    replace (nat_of (ToSize + C)) with (nat_of ToSize + nat_of C)%nat
      by (unfold nat_of, C; lia).
    replace (nat_of (Pos + C)) with (nat_of Pos + nat_of C)%nat
      by (unfold nat_of, C; lia).
    replace (nat_of (Pos + C + (ToSize - Pos)))
      with (nat_of Pos + nat_of C + (nat_of ToSize - nat_of Pos))%nat
      by (unfold nat_of, C; lia).
    replace (nat_of (ToSize - Pos)) with (nat_of ToSize - nat_of Pos)%nat
      by (unfold nat_of; lia).
    split; [|split].
    - unfold len. rewrite !length_app, !length_firstn, !length_skipn, Hbs.
      rewrite !length_app, !length_firstn, !length_skipn. lia.
    - apply firstn_inserted; assumption.
    - apply skipn_inserted; assumption. }
  destruct HFrom as [-> | [O ->]]; cbn [BufPtr_eqb]; unfold memcpy.
  - apply returns_bind, returns_bind, returns_modify.
    cbn [MutateInPlaceHere set_Rand].
    set (U := vector_resize (MutateInPlaceHere s) MaxToSize).
    assert (HU : len U = MaxToSize) by (apply len_vector_resize; lia).
    cbn [read_buf] in HF.
    apply returns_bind, returns_memmove;
      cbn [read_buf Data MutateInPlaceHere set_MutateInPlaceHere set_Rand]; try lia.
    cbn [write_buf]. apply returns_modify.
    apply returns_bind, returns_memmove;
      cbn [read_buf Data MutateInPlaceHere set_MutateInPlaceHere set_Rand]; try lia.
    cbn [write_buf]. apply returns_modify.
    apply returns_memmove;
      cbn [read_buf Data MutateInPlaceHere set_Data set_MutateInPlaceHere set_Rand]; try lia.
    { rewrite len_moved; cbn [read_buf]; lia. }
    { fold D1. lia. }
    cbn [write_buf]. apply returns_modify, returns_ret.
    apply Hfinal. cbn [Data set_Data]. fold D1.
    unfold moved at 1. do 2 f_equal.
    unfold bs, moved. cbn [read_buf]. simpl skipn.
    change (nat_of 0) with 0%nat. cbn [firstn app].
    rewrite firstn_app, firstn_firstn, Nat.min_id, length_firstn, length_skipn.
    replace (nat_of C - Nat.min (nat_of C) (length (Data s) - nat_of FromBeg))%nat
      with 0%nat by (unfold len, nat_of, C in *; lia).
    rewrite firstn_O. apply app_nil_r.
  - cbn [read_buf] in *.
    apply returns_bind, returns_bind, returns_memmove;
      cbn [read_buf Data set_Rand]; try lia.
    cbn [write_buf]. apply returns_modify.
    apply returns_memmove; cbn [read_buf Data set_Data set_Rand]; try lia.
    { fold D1. lia. }
    cbn [write_buf]. apply returns_modify, returns_ret.
    apply Hfinal. cbn [Data set_Data]. reflexivity.
Qed.

(** [InsertPartOf] into the caller's buffer from a constant object, a corpus
    unit or a word: it returns 0 and changes nothing when the buffer is
    full ([ToSize >= MaxToSize]); otherwise it returns [ToSize + CopySize],
    having inserted at some [Pos <= ToSize] a slice of [CopySize] bytes of
    the object, [1 <= CopySize <= min(MaxToSize - ToSize, FromSize)]: the
    bytes of the input are around the slice in their order. *)
Theorem InsertPartOf_spec (O : list Z) (ToSize MaxToSize : Z) (s : State) :
  O <> [] -> len O <= PTRDIFF_MAX ->
  0 <= ToSize -> MaxToSize <= len (Data s) -> MaxToSize <= PTRDIFF_MAX ->
  returns (InsertPartOf (Const_ptr O) (len O) Data_ptr ToSize MaxToSize) s (fun n s' =>
    if ToSize >=? MaxToSize then n = 0 /\ s' = s
    else exists Pos CopySize FromBeg : Z,
      1 <= CopySize <= Z.min (MaxToSize - ToSize) (len O) /\ 0 <= Pos <= ToSize /\
      0 <= FromBeg /\ FromBeg + CopySize <= len O /\
      n = ToSize + CopySize /\ n <= MaxToSize /\
      len (Data s') = len (Data s) /\
      firstn (nat_of n) (Data s') =
        firstn (nat_of Pos) (Data s) ++
        firstn (nat_of CopySize) (skipn (nat_of FromBeg) O) ++
        skipn (nat_of Pos) (firstn (nat_of ToSize) (Data s)) /\
      skipn (nat_of n) (Data s') = skipn (nat_of n) (Data s)).
Proof.
  intros HO HOmax HT Hlen Hmax.
  assert (HO' : 0 < len O) by (destruct O; [contradiction | unfold len; simpl; lia]).
  rewrite Z.geb_leb.
  destruct (Z.leb_spec MaxToSize ToSize) as [Hfull|Hroom].
  - unfold InsertPartOf. rewrite Z.geb_leb.
    destruct (Z.leb_spec MaxToSize ToSize); [|lia].
    apply returns_ret. split; reflexivity.
  - eapply returns_weaken.
    + apply returns_InsertPartOf; cbn [read_buf]; try lia. right. exists O. reflexivity.
    + intros n s' (Pos & C & FromBeg & H1 & H2 & H3 & H4 & H5 & H6 & H7 & H8).
      exists Pos, C, FromBeg. cbn [read_buf] in H7. repeat split; try assumption; lia.
Qed.

(** [Mutate_CopyPart] copies a slice of the input over or into the input,
    by the value of one [RandBool] draw. Over: it returns [Size], and the
    [CopySize] bytes at [ToBeg] are those the input held at [FromBeg], also
    when the two ranges overlap. Into: it returns 0 and leaves the buffer as
    it was when the input fills the buffer ([Size = MaxSize]); otherwise it
    returns [Size + CopySize], the bytes of the input around the slice that
    the input held at [FromBeg]. *)
Theorem Mutate_CopyPart_spec (s : State) (Size MaxSize : Z) :
  0 < Size <= MaxSize -> MaxSize <= len (Data s) -> MaxSize <= PTRDIFF_MAX ->
  returns (Mutate_CopyPart Size MaxSize) s (fun NewSize s' =>
    len (Data s') = len (Data s) /\
    if fst (Random_bool (Rand_ s)) then
      NewSize = Size /\
      exists ToBeg CopySize FromBeg : Z,
        1 <= CopySize /\ 0 <= ToBeg /\ ToBeg + CopySize <= Size /\
        0 <= FromBeg /\ FromBeg + CopySize <= Size /\
        Data s' = firstn (nat_of ToBeg) (Data s) ++
                  firstn (nat_of CopySize) (skipn (nat_of FromBeg) (Data s)) ++
                  skipn (nat_of (ToBeg + CopySize)) (Data s)
    else if Size =? MaxSize then NewSize = 0 /\ Data s' = Data s
    else
      exists Pos CopySize FromBeg : Z,
        1 <= CopySize <= Z.min (MaxSize - Size) Size /\ 0 <= Pos <= Size /\
        0 <= FromBeg /\ FromBeg + CopySize <= Size /\
        NewSize = Size + CopySize /\
        firstn (nat_of NewSize) (Data s') =
          firstn (nat_of Pos) (Data s) ++
          firstn (nat_of CopySize) (skipn (nat_of FromBeg) (Data s)) ++
          skipn (nat_of Pos) (firstn (nat_of Size) (Data s)) /\
        skipn (nat_of NewSize) (Data s') = skipn (nat_of NewSize) (Data s)).
Proof.
  intros HS Hlen Hmax. unfold Mutate_CopyPart.
  apply returns_bind, returns_RandBool. intros b R Hb _. rewrite <- Hb.
  destruct b.
  - eapply returns_weaken.
    + apply returns_CopyPartOf; cbn [read_buf Data set_Rand]; try lia.
      intros bs. discriminate.
    + intros n s' (-> & ToBeg & CopySize & FromBeg & R' & H1 & H2 & H3 & H4 & H5 & H6 & Hw).
      cbn [write_buf modify read_buf Data set_Rand] in Hw.
      inversion Hw; subst s'. cbn [Data set_Data].
      split; [apply len_moved; lia|]. split; [reflexivity|].
      exists ToBeg, CopySize, FromBeg. repeat split; lia.
  - destruct (Z.eqb_spec Size MaxSize) as [Hfull|Hroom].
    + unfold InsertPartOf. rewrite Z.geb_leb.
      destruct (Z.leb_spec MaxSize Size); [|lia].
      apply returns_ret. repeat split; reflexivity.
    + eapply returns_weaken.
      * apply returns_InsertPartOf; cbn [read_buf Data set_Rand]; try lia.
        left. reflexivity.
      * intros n s' (Pos & C & FromBeg & H1 & H2 & H3 & H4 & H5 & H6 & H7 & H8).
        cbn [read_buf Data set_Rand] in *.
        split; [exact H6|].
        exists Pos, C, FromBeg. repeat split; try assumption; lia.
Qed.


(** ** Integers in a buffer: Bswap and ChangeBinaryInteger *)

Lemma pow256_pos (n : nat) : 0 < 256 ^ Z.of_nat n.
Proof. apply Z.pow_pos_nonneg; lia. Qed.

Lemma pow256_S (n : nat) : 256 ^ Z.of_nat (S n) = 256 * 256 ^ Z.of_nat n.
Proof. rewrite Nat2Z.inj_succ, Z.pow_succ_r by lia. reflexivity. Qed.

Lemma encode_bytes_bytes (n : nat) (v : Z) :
  Forall (fun b => 0 <= b < 256) (encode_bytes n v).
Proof.
  revert v. induction n as [|n IH]; intros v; simpl; constructor.
  - apply Z.mod_pos_bound. lia.
  - apply IH.
Qed.

Lemma decode_bytes_range (bs : list Z) :
  Forall (fun b => 0 <= b < 256) bs ->
  0 <= decode_bytes bs < 256 ^ Z.of_nat (length bs).
Proof.
  induction 1 as [|b bs Hb _ IH].
  - simpl. lia.
  - cbn [decode_bytes length]. rewrite pow256_S. lia.
Qed.

(** The value of the [n] bytes of [v] is [v] modulo [256 ^ n]. *)
Lemma decode_encode (n : nat) (v : Z) :
  decode_bytes (encode_bytes n v) = v mod 256 ^ Z.of_nat n.
Proof.
  revert v. induction n as [|n IH]; intros v.
  - simpl. symmetry. apply Z.mod_1_r.
  - cbn [encode_bytes decode_bytes]. rewrite IH, pow256_S.
    rewrite Z.rem_mul_r; [reflexivity | lia | apply pow256_pos].
Qed.

(** The bytes of the value of [bs] are [bs]. *)
Lemma encode_decode (bs : list Z) :
  Forall (fun b => 0 <= b < 256) bs ->
  encode_bytes (length bs) (decode_bytes bs) = bs.
Proof.
  induction 1 as [|b bs Hb _ IH].
  - reflexivity.
  - cbn [length decode_bytes encode_bytes].
    replace (b + 256 * decode_bytes bs) with (b + decode_bytes bs * 256) by lia.
    rewrite Z.mod_add, Z.div_add by lia.
    rewrite Z.mod_small, Z.div_small by lia. cbn [Z.add].
    rewrite IH. reflexivity.
Qed.

Lemma Bswap_range (n : nat) (x : Z) : 0 <= Bswap n x < 256 ^ Z.of_nat n.
Proof.
  unfold Bswap.
  pose proof (decode_bytes_range (rev (encode_bytes n x))) as H.
  rewrite length_rev, length_encode_bytes in H. apply H.
  apply Forall_rev, encode_bytes_bytes.
Qed.

(** [Bswap] undoes itself on the values of the type, and the overload for
    [uint8_t] changes nothing: a round trip through the other byte order
    gives the value back. *)
Theorem Bswap_involutive (n : nat) (x : Z) :
  0 <= x < 256 ^ Z.of_nat n ->
  Bswap n (Bswap n x) = x /\ (n = 1%nat -> Bswap n x = x).
Proof.
  intros Hx. split.
  - unfold Bswap.
    pose proof (encode_decode (rev (encode_bytes n x))) as H.
    rewrite length_rev, length_encode_bytes in H.
    rewrite H by (apply Forall_rev, encode_bytes_bytes).
    rewrite rev_involutive, decode_encode. apply Z.mod_small. exact Hx.
  - intros ->. unfold Bswap. cbn [encode_bytes rev app decode_bytes].
    change (256 ^ Z.of_nat 1) with 256 in Hx.
    rewrite Z.mod_small by lia. lia.
Qed.

Lemma uintN_bytes_range (w : nat) (z : Z) :
  0 <= uintN (8 * Z.of_nat w) z < 256 ^ Z.of_nat w.
Proof.
  unfold uintN.
  replace (2 ^ (8 * Z.of_nat w)) with (256 ^ Z.of_nat w)
    by (change 256 with (2 ^ 8); rewrite <- Z.pow_mul_r by lia; reflexivity).
  apply Z.mod_pos_bound, pow256_pos.
Qed.

Lemma uintN_add_uintN (bits a b : Z) :
  0 <= bits -> uintN bits (a + uintN bits b) = uintN bits (a + b).
Proof.
  intros Hb. unfold uintN. apply Zplus_mod_idemp_r.
Qed.

(** [ChangeBinaryInteger<T>] on [Size] bytes of input returns 0, and changes
    nothing, when the input is shorter than a [T]; otherwise it returns
    [Size] with one integer of the input changed as
    [binary_integer_changed] has it. *)
Lemma returns_ChangeBinaryInteger (w : nat) (s : State) (Size : Z) :
  (0 < w)%nat -> 0 <= Size <= len (Data s) -> Size <= PTRDIFF_MAX ->
  Forall (fun b => 0 <= b < 256) (Data s) ->
  returns (ChangeBinaryInteger w Size) s (fun n s' =>
    if Size <? Z.of_nat w then n = 0 /\ s' = s
    else n = Size /\ len (Data s') = len (Data s) /\
         binary_integer_changed w Size (Data s) (Data s')).
Proof.
  intros Hw HS Hmax Hbytes. unfold PTRDIFF_MAX in Hmax. pose proof SIZE_MOD_eq as HM.
  unfold ChangeBinaryInteger.
  destruct (Z.ltb_spec Size (Z.of_nat w)) as [Hshort|Hlong].
  { apply returns_ret. split; reflexivity. }
  rewrite (size_t_small (Size - Z.of_nat w)) by lia.
  rewrite (size_t_small (Size - Z.of_nat w + 1)) by lia.
  apply returns_bind, returns_Rand; [lia|]. intros Off R Ho0 Ho1 _ _ _.
  specialize (Ho1 ltac:(lia)).
  rewrite (size_t_small (Off + Z.of_nat w)) by lia.
  apply returns_bind, returns_assert. { apply Z.leb_le. lia. }
  apply returns_bind, returns_gets. cbn [Data set_Rand].
  eapply returns_bind, returns_lift_option; [apply slice_Some; lia|].
  replace (nat_of (Z.of_nat w)) with w by (unfold nat_of; lia).
  set (old := decode_bytes (firstn w (skipn (nat_of Off) (Data s)))).
  apply returns_bind, returns_Rand; [lia|]. intros r R1 Hr0 Hr1 _ _ _.
  specialize (Hr1 ltac:(lia)).
  apply returns_bind, returns_RandBool. intros swap R2 _ _.
  set (T := uintN (8 * Z.of_nat w)).
  assert (HTr : T r = r).
  { unfold T, uintN. apply Z.mod_small. split; [lia|].
    apply Z.lt_le_trans with (2 ^ 8); [simpl; lia|].
    apply Z.pow_le_mono_r; lia. }
  rewrite HTr.
  assert (HT : forall a b, T (a + T b) = T (a + b))
    by (intros a b; apply uintN_add_uintN; lia).
  rewrite !HT.
  set (v := if swap then Bswap w (T (Bswap w old + (r - 10))) else T (old + (r - 10))).
  apply returns_bind.
  apply returns_weaken with
    (P := fun negate s1 => (r - 10 = 0 -> negate = true) /\
                           Data s1 = Data s).
  { destruct (Z.eqb_spec (T (r - 10)) 0) as [E|E].
    - apply returns_ret. split; reflexivity.
    - apply returns_RandBool. intros b R3 _ _. split; [|reflexivity].
      intros E0. rewrite E0 in E. exfalso. apply E. reflexivity. }
  intros negate s1 [Hneg Hd1]. cbv beta.
  set (new := if negate then T (- v) else v).
  assert (Hnew : 0 <= new < 256 ^ Z.of_nat w).
  { unfold new, v. destruct negate, swap;
      first [apply uintN_bytes_range | apply Bswap_range]. }
  unfold memcpy.
  apply returns_bind, returns_memmove; cbn [read_buf]; rewrite ?Hd1;
    unfold len in *; rewrite ?length_encode_bytes; try lia.
  cbn [write_buf]. apply returns_modify, returns_ret.
  cbn [Data set_Data].
  assert (Ed : moved (Data s) Off (encode_bytes w new) 0 (Z.of_nat w) =
               firstn (nat_of Off) (Data s) ++ encode_bytes w new ++
               skipn (nat_of Off + w) (Data s)).
  { unfold moved. f_equal.
    replace (nat_of (Z.of_nat w)) with w by (unfold nat_of; lia).
    change (nat_of 0) with 0%nat. cbn [skipn].
    rewrite firstn_all2 by (rewrite length_encode_bytes; lia).
    do 2 f_equal. unfold nat_of. lia. }
  rewrite Ed.
  split; [reflexivity|]. split.
  { rewrite !length_app, length_firstn, length_encode_bytes, length_skipn.
    unfold nat_of. lia. }
  exists Off, (r - 10), swap, negate.
  split; [lia|]. split; [lia|]. split; [lia|]. split; [exact Hneg|].
  cbv zeta. fold T. fold old. fold v. fold new.
  split; [reflexivity|].
  rewrite skipn_app, length_firstn.
  rewrite (skipn_all2 (firstn (nat_of Off) (Data s))) by (rewrite length_firstn; lia).
  replace (nat_of Off - Nat.min (nat_of Off) (length (Data s)))%nat with 0%nat
    by (unfold nat_of; lia).
  cbn [app skipn].
  rewrite firstn_app, length_encode_bytes, Nat.sub_diag, firstn_O, app_nil_r.
  rewrite firstn_all2 by (rewrite length_encode_bytes; lia).
  rewrite decode_encode. apply Z.mod_small. exact Hnew.
Qed.

(** [Mutate_ChangeBinaryInteger] picks a width of 1, 2, 4 or 8 bytes by one
    draw. An input shorter than that width is left as it is, and 0 is
    returned; otherwise [Size] is returned and one integer of that width
    within the input is changed as [binary_integer_changed] has it: read
    back from its place, the integer is the new value. An input of 8 bytes
    or more is never refused. *)
Theorem Mutate_ChangeBinaryInteger_spec (s : State) (Size MaxSize : Z) :
  0 < Size <= len (Data s) -> Size <= PTRDIFF_MAX ->
  Forall (fun b => 0 <= b < 256) (Data s) ->
  let k := fst (Random_upto (Rand_ s) 4) in
  let w := Z.to_nat (2 ^ k) in
  returns (Mutate_ChangeBinaryInteger Size MaxSize) s (fun NewSize s' =>
    In w [1; 2; 4; 8]%nat /\
    len (Data s') = len (Data s) /\
    (8 <= Size -> NewSize = Size) /\
    if Size <? Z.of_nat w then NewSize = 0 /\ Data s' = Data s
    else NewSize = Size /\ binary_integer_changed w Size (Data s) (Data s')).
Proof.
  intros HS Hmax Hbytes k w.
  unfold Mutate_ChangeBinaryInteger.
  apply returns_bind, returns_Rand; [lia|]. intros k' R Hk0 Hk1 _ Hk _.
  fold k in Hk. subst k'. specialize (Hk1 ltac:(lia)).
  assert (Hcases : k = 0 \/ k = 1 \/ k = 2 \/ k = 3) by lia.
  assert (Hgo : forall w' : nat, w' = w -> In w' [1; 2; 4; 8]%nat ->
    returns (ChangeBinaryInteger w' Size) (set_Rand R s) (fun NewSize s' =>
      In w [1; 2; 4; 8]%nat /\
      len (Data s') = len (Data s) /\
      (8 <= Size -> NewSize = Size) /\
      if Size <? Z.of_nat w then NewSize = 0 /\ Data s' = Data s
      else NewSize = Size /\ binary_integer_changed w Size (Data s) (Data s'))).
  { intros w' -> Hin.
    eapply returns_weaken.
    - apply returns_ChangeBinaryInteger; cbn [Data set_Rand]; try assumption; try lia.
    - intros n s'. cbn [Data set_Rand].
      assert (Hw8 : Z.of_nat w <= 8) by (simpl in Hin; lia).
      destruct (Z.ltb_spec Size (Z.of_nat w)) as [Hshort|Hlong].
      + intros [-> ->]. cbn [Data set_Rand].
        repeat split; try reflexivity; try assumption; lia.
      + intros (-> & Hl & Hc). repeat split; assumption. }
  destruct Hcases as [E | [E | [E | E]]]; unfold w in *; rewrite E in *;
    cbn [Z.eqb Pos.eqb]; apply Hgo; try reflexivity; simpl; auto.
Qed.


(** ** What the mutators leave alone *)

Create HintDb frame.

Section Frame.

(** A part [f] of the state that does not depend on the random source, the
    caller's buffer or the scratch vector. *)
Context {B : Type} (f : State -> B).
Hypothesis f_set_Rand : forall R s, f (set_Rand R s) = f s.
Hypothesis f_set_Data : forall d s, f (set_Data d s) = f s.
Hypothesis f_set_MutateInPlaceHere : forall v s, f (set_MutateInPlaceHere v s) = f s.

Lemma unchanged_ret {A} (a : A) : unchanged f (ret a).
Proof. intros s. apply ensures_ret. reflexivity. Qed.

Lemma unchanged_abort {A} : unchanged f (@abort A).
Proof. intros s. apply ensures_abort. Qed.

Lemma unchanged_bind {A A'} (m : M A) (k : A -> M A') :
  unchanged f m -> (forall a, unchanged f (k a)) -> unchanged f (bind m k).
Proof.
  intros Hm Hk s. apply ensures_bind.
  eapply ensures_weaken; [apply Hm|]. intros a s1 H1. cbv beta in H1.
  eapply ensures_weaken; [apply Hk|]. intros b s2 H2. cbv beta in H2. congruence.
Qed.

Lemma unchanged_gets {A} (g : State -> A) : unchanged f (gets g).
Proof. intros s. apply ensures_gets. reflexivity. Qed.

Lemma unchanged_assert (b : bool) : unchanged f (assert b).
Proof. intros s. apply ensures_assert. reflexivity. Qed.

Lemma unchanged_modify (g : State -> State) :
  (forall s, f (g s) = f s) -> unchanged f (modify g).
Proof. intros H s. apply ensures_modify. apply H. Qed.

Lemma unchanged_lift_option {A} (o : option A) : unchanged f (lift_option o).
Proof. destruct o; [apply unchanged_ret | apply unchanged_abort]. Qed.

Lemma unchanged_at {A} (v : list A) (i : Z) : unchanged f (at_ v i).
Proof.
  unfold at_. destruct (0 <=? i); [|apply unchanged_abort].
  destruct (nth_error v (nat_of i)); [apply unchanged_ret | apply unchanged_abort].
Qed.

Lemma unchanged_RandRaw : unchanged f RandRaw.
Proof.
  intros s r s' E. unfold RandRaw in E.
  destruct (Random_next (Rand_ s)). inversion E; subst. apply f_set_Rand.
Qed.

Lemma unchanged_Rand (n : Z) : unchanged f (Rand n).
Proof.
  intros s r s' E. unfold Rand in E.
  destruct (Random_upto (Rand_ s) n). inversion E; subst. apply f_set_Rand.
Qed.

Lemma unchanged_RandBool : unchanged f RandBool.
Proof.
  intros s r s' E. unfold RandBool in E.
  destruct (Random_bool (Rand_ s)). inversion E; subst. apply f_set_Rand.
Qed.

Lemma unchanged_write_buf (p : BufPtr) (l : list Z) : unchanged f (write_buf p l).
Proof.
  destruct p; simpl; [apply unchanged_modify | apply unchanged_modify | apply unchanged_abort];
    intros s; [apply f_set_Data | apply f_set_MutateInPlaceHere].
Qed.

#[local] Hint Resolve unchanged_ret unchanged_abort unchanged_gets unchanged_assert
  unchanged_lift_option unchanged_at unchanged_RandRaw unchanged_Rand unchanged_RandBool
  unchanged_write_buf : frame.

(** One step of a proof that a computation leaves [f] as it is. *)
Ltac frame_step :=
  match goal with
  | |- unchanged _ (bind _ _) => apply unchanged_bind; [| intros ?]
  | |- unchanged _ (modify _) =>
      apply unchanged_modify; intros ?; cbv beta;
      first [apply f_set_Rand | apply f_set_Data | apply f_set_MutateInPlaceHere]
  | |- unchanged _ (if ?b then _ else _) => destruct b
  | |- unchanged _ (match ?x with _ => _ end) => destruct x
  | |- unchanged _ _ => solve [auto with frame]
  end.

Lemma unchanged_load (p : BufPtr) (i : Z) : unchanged f (load p i).
Proof. unfold load. repeat frame_step. Qed.

Lemma unchanged_store (p : BufPtr) (i v : Z) : unchanged f (store p i v).
Proof. unfold store. repeat frame_step. Qed.

Lemma unchanged_memmove dst doff src soff n : unchanged f (memmove dst doff src soff n).
Proof. unfold memmove. repeat frame_step. Qed.

Lemma unchanged_memcpy dst doff src soff n : unchanged f (memcpy dst doff src soff n).
Proof. apply unchanged_memmove. Qed.

Lemma unchanged_for_loop {A} (body : Z -> A -> M A) :
  (forall i a, unchanged f (body i a)) ->
  forall n i a, unchanged f (for_loop n i body a).
Proof.
  intros Hb. induction n as [|n IH]; intros i a; simpl.
  - apply unchanged_ret.
  - apply unchanged_bind; [apply Hb | intros a'; apply IH].
Qed.

#[local] Hint Resolve unchanged_load unchanged_store unchanged_memmove unchanged_memcpy : frame.

Lemma unchanged_scan_while (p : Z -> bool) (Size : Z) :
  forall fuel B0, unchanged f (scan_while fuel p Size B0).
Proof.
  induction fuel as [|fuel IH]; intros B0; simpl; repeat frame_step.
Qed.

Lemma unchanged_For {A} (lo hi : Z) (body : Z -> A -> M A) (a : A) :
  (forall i a, unchanged f (body i a)) -> unchanged f (For lo hi body a).
Proof. intros H. unfold For. apply unchanged_for_loop. exact H. Qed.

Lemma unchanged_For_ (lo hi : Z) (body : Z -> M unit) :
  (forall i, unchanged f (body i)) -> unchanged f (For_ lo hi body).
Proof. intros H. unfold For_. apply unchanged_For. intros i _. apply H. Qed.

Lemma unchanged_RandCh : unchanged f RandCh.
Proof. unfold RandCh. repeat frame_step. Qed.

Lemma unchanged_ToASCII (n : Z) : unchanged f (ToASCII n).
Proof. unfold ToASCII. repeat frame_step. Qed.

Lemma unchanged_swap_bytes p i j : unchanged f (swap_bytes p i j).
Proof. unfold swap_bytes. repeat frame_step. Qed.

#[local] Hint Resolve unchanged_scan_while unchanged_RandCh unchanged_ToASCII
  unchanged_swap_bytes : frame.

Lemma unchanged_random_shuffle p first last : unchanged f (random_shuffle p first last).
Proof.
  unfold random_shuffle. apply unchanged_For_. intros i. repeat frame_step.
Qed.

#[local] Hint Resolve unchanged_random_shuffle : frame.

Lemma unchanged_Mutate_Custom Size MaxSize : unchanged f (Mutate_Custom Size MaxSize).
Proof. unfold Mutate_Custom. repeat frame_step. Qed.

Lemma unchanged_Mutate_CustomCrossOver Size MaxSize :
  unchanged f (Mutate_CustomCrossOver Size MaxSize).
Proof. unfold Mutate_CustomCrossOver. repeat frame_step. Qed.

Lemma unchanged_Mutate_ShuffleBytes Size MaxSize :
  unchanged f (Mutate_ShuffleBytes Size MaxSize).
Proof. unfold Mutate_ShuffleBytes. repeat frame_step. Qed.

Lemma unchanged_Mutate_EraseBytes Size MaxSize : unchanged f (Mutate_EraseBytes Size MaxSize).
Proof. unfold Mutate_EraseBytes. repeat frame_step. Qed.

Lemma unchanged_Mutate_InsertByte Size MaxSize : unchanged f (Mutate_InsertByte Size MaxSize).
Proof. unfold Mutate_InsertByte. repeat frame_step. Qed.

Lemma unchanged_Mutate_InsertRepeatedBytes Size MaxSize :
  unchanged f (Mutate_InsertRepeatedBytes Size MaxSize).
Proof.
  unfold Mutate_InsertRepeatedBytes. repeat frame_step.
  all: apply unchanged_For_; intros; auto with frame.
Qed.

Lemma unchanged_Mutate_ChangeByte Size MaxSize : unchanged f (Mutate_ChangeByte Size MaxSize).
Proof. unfold Mutate_ChangeByte. repeat frame_step. Qed.

Lemma unchanged_Mutate_ChangeBit Size MaxSize : unchanged f (Mutate_ChangeBit Size MaxSize).
Proof. unfold Mutate_ChangeBit. repeat frame_step. Qed.

Lemma unchanged_CopyPartOf From FromSize To ToSize :
  unchanged f (CopyPartOf From FromSize To ToSize).
Proof. unfold CopyPartOf. repeat frame_step. Qed.

Lemma unchanged_InsertPartOf From FromSize To ToSize MaxToSize :
  unchanged f (InsertPartOf From FromSize To ToSize MaxToSize).
Proof. unfold InsertPartOf. repeat frame_step. Qed.

#[local] Hint Resolve unchanged_CopyPartOf unchanged_InsertPartOf : frame.

Lemma unchanged_Mutate_CopyPart Size MaxSize : unchanged f (Mutate_CopyPart Size MaxSize).
Proof. unfold Mutate_CopyPart. repeat frame_step. Qed.

Lemma unchanged_Mutate_ChangeASCIIInteger Size MaxSize :
  unchanged f (Mutate_ChangeASCIIInteger Size MaxSize).
Proof.
  unfold Mutate_ChangeASCIIInteger. repeat frame_step.
  all: apply unchanged_For; intros; repeat frame_step.
Qed.

Lemma unchanged_ChangeBinaryInteger sizeof_T Size :
  unchanged f (ChangeBinaryInteger sizeof_T Size).
Proof. unfold ChangeBinaryInteger. repeat frame_step. Qed.

#[local] Hint Resolve unchanged_ChangeBinaryInteger : frame.

Lemma unchanged_Mutate_ChangeBinaryInteger Size MaxSize :
  unchanged f (Mutate_ChangeBinaryInteger Size MaxSize).
Proof. unfold Mutate_ChangeBinaryInteger. repeat frame_step. Qed.

Lemma unchanged_CrossOver_call (Size : Z) (O : list Z) (U_size : Z) :
  unchanged f (fun s =>
    let '(n, U', R') :=
      CrossOver (Data s) Size O (len O) (MutateInPlaceHere s) U_size (Rand_ s) in
    Some (size_t n, set_Rand R' (set_MutateInPlaceHere U' s))).
Proof.
  intros s n s' E.
  destruct (CrossOver (Data s) Size O (len O) (MutateInPlaceHere s) U_size (Rand_ s))
    as [[n0 U'] R'].
  inversion E; subst. rewrite f_set_Rand. apply f_set_MutateInPlaceHere.
Qed.

Lemma unchanged_Mutate_CrossOver Size MaxSize : unchanged f (Mutate_CrossOver Size MaxSize).
Proof.
  unfold Mutate_CrossOver.
  repeat first [ apply unchanged_CrossOver_call | frame_step ].
Qed.

(** A mutator that takes no word from a dictionary leaves [f] as it is. *)
Lemma unchanged_call (g : MutatorFn) Size MaxSize :
  dictionary_of g = None -> unchanged f (call g Size MaxSize).
Proof.
  destruct g; cbn [call dictionary_of]; intros Hg; try discriminate Hg.
  - apply unchanged_Mutate_EraseBytes.
  - apply unchanged_Mutate_InsertByte.
  - apply unchanged_Mutate_InsertRepeatedBytes.
  - apply unchanged_Mutate_ChangeByte.
  - apply unchanged_Mutate_ChangeBit.
  - apply unchanged_Mutate_ShuffleBytes.
  - apply unchanged_Mutate_ChangeASCIIInteger.
  - apply unchanged_Mutate_ChangeBinaryInteger.
  - apply unchanged_Mutate_CopyPart.
  - apply unchanged_Mutate_CrossOver.
  - apply unchanged_Mutate_Custom.
  - apply unchanged_Mutate_CustomCrossOver.
Qed.

End Frame.

(** The mutators that work on the bytes only, and the two custom ones: a
    call changes nothing of the bookkeeping of the dispatcher. Whatever it
    returns, the registry, the three dictionaries with their counters, the
    two recorded sequences and the corpus are as before; the call can change
    the random source, the scratch vector and the caller's buffer only. *)
Theorem byte_mutators_keep_bookkeeping (g : MutatorFn) (Size MaxSize : Z) (s : State) :
  dictionary_of g = None ->
  ensures (call g Size MaxSize) s (fun _ s' => bookkeeping s' = bookkeeping s).
Proof.
  intros Hg. apply (unchanged_call bookkeeping); try exact Hg; reflexivity.
Qed.


(** ** What a call of a mutator records *)

Lemma ensures_bind_unchanged {A A' B} (f : State -> B) (m : M A) (k : A -> M A')
    (s0 s : State) (Q : A' -> State -> Prop) :
  unchanged f m -> f s = f s0 ->
  (forall a s1, f s1 = f s0 -> ensures (k a) s1 Q) ->
  ensures (bind m k) s Q.
Proof.
  intros Hm Hs Hk. apply ensures_bind.
  eapply ensures_weaken; [apply Hm|]. intros a s1 H1. cbv beta in H1.
  apply Hk. congruence.
Qed.

Lemma ensures_update_through (p : DEptr) (g : DictionaryEntry -> DictionaryEntry)
    (s : State) (Q : unit -> State -> Prop) :
  (forall DE, nth_error (get_Dictionary (fst p) s) (snd p) = Some DE ->
     Q tt (set_Dictionary (fst p)
             (list_set (get_Dictionary (fst p) s) (snd p) (g DE)) s)) ->
  ensures (update_through p g) s Q.
Proof.
  intros H u s' E. unfold update_through, deref, bind, gets, modify in E.
  destruct (nth_error (get_Dictionary (fst p) s) (snd p)) as [DE|] eqn:En;
    simpl in E; [|discriminate].
  inversion E; subst. apply H. reflexivity.
Qed.

Lemma bookkeeping_get_Dictionary (D : DictId) (s s' : State) :
  bookkeeping s' = bookkeeping s -> get_Dictionary D s' = get_Dictionary D s.
Proof.
  unfold bookkeeping, dictionaries. intros E. inversion E. destruct D; assumption.
Qed.

Lemma bookkeeping_used (D : DictId) (i : nat) (DE : DictionaryEntry) (s s' : State) :
  bookkeeping s' = bookkeeping s ->
  bookkeeping (used D i DE s') = bookkeeping (used D i DE s).
Proof.
  intros E. pose proof (bookkeeping_get_Dictionary D _ _ E) as HD.
  unfold used. rewrite HD.
  unfold bookkeeping, dictionaries in *. inversion E.
  destruct D; simpl; congruence.
Qed.

Lemma bookkeeping_set_CurrentMutatorSequence (Mu : Mutator) (s s' : State) :
  bookkeeping s' = bookkeeping s ->
  bookkeeping (set_CurrentMutatorSequence (CurrentMutatorSequence s' ++ [Mu]) s') =
  bookkeeping (set_CurrentMutatorSequence (CurrentMutatorSequence s ++ [Mu]) s).
Proof.
  unfold bookkeeping, dictionaries. intros E. inversion E. simpl. congruence.
Qed.

(** [AddWordFromDictionary] records the entry it has used, and nothing
    when it returns 0. *)
Lemma AddWordFromDictionary_recorded (D : DictId) (s : State) (Size MaxSize : Z) :
  valid_call s Size MaxSize ->
  ensures (AddWordFromDictionary D Size MaxSize) s (fun n s' =>
    if n =? 0 then bookkeeping s' = bookkeeping s
    else exists (i : nat) (DE : DictionaryEntry),
           nth_error (get_Dictionary D s) i = Some DE /\
           bookkeeping s' = bookkeeping (used D i DE s)).
Proof.
  intros (HS & Hlen & Hmax & Hwf & _). specialize (Hwf D).
  unfold PTRDIFF_MAX in Hmax. pose proof SIZE_MOD_eq as HM.
  assert (Hb : forall R d v, bookkeeping (set_Rand R s) = bookkeeping s /\
                             bookkeeping (set_Data d s) = bookkeeping s /\
                             bookkeeping (set_MutateInPlaceHere v s) = bookkeeping s)
    by (intros; repeat split).
  unfold AddWordFromDictionary.
  apply ensures_bind, ensures_gets.
  set (Dv := get_Dictionary D s) in *.
  destruct (len Dv =? 0); [apply ensures_ret; reflexivity|].
  apply (ensures_bind_unchanged bookkeeping _ _ s);
    [apply unchanged_Rand; reflexivity | reflexivity |]. intros i s1 H1.
  apply ensures_bind, ensures_at. intros DE Hi0 Hnth.
  pose proof (proj1 (Forall_forall _ _) Hwf DE (nth_error_In _ _ Hnth)) as (HW & _ & _).
  unfold PTRDIFF_MAX in HW. pose proof (len_nonneg (GetW DE)) as HW0.
  assert (Hsucceed : forall s2 n,
    bookkeeping s2 = bookkeeping s -> n <> 0 ->
    ensures (update_through (D, nat_of i) IncUseCount;;
             modify (fun s0 => set_CurrentDictionaryEntrySequence
                                 (CurrentDictionaryEntrySequence s0 ++ [(D, nat_of i)]) s0);;
             ret n) s2
      (fun n s' =>
         if n =? 0 then bookkeeping s' = bookkeeping s
         else exists (i : nat) (DE : DictionaryEntry),
                nth_error (get_Dictionary D s) i = Some DE /\
                bookkeeping s' = bookkeeping (used D i DE s))).
  { intros s2 n H2 Hn.
    apply ensures_bind, ensures_update_through. cbn [fst snd]. intros DE' HDE'.
    apply ensures_bind, ensures_modify, ensures_ret.
    destruct (Z.eqb_spec n 0) as [|_]; [contradiction|].
    exists (nat_of i), DE'. split.
    - rewrite <- (bookkeeping_get_Dictionary D _ _ H2). exact HDE'.
    - rewrite <- (bookkeeping_used D (nat_of i) DE' _ _ H2). reflexivity. }
  apply (ensures_bind_unchanged bookkeeping _ _ s); [| exact H1 |].
  { destruct (PositionHint DE); [|apply unchanged_ret].
    match goal with |- context [if ?b then _ else _] => destruct b end;
      [apply unchanged_RandBool; reflexivity | apply unchanged_ret]. }
  intros UsePositionHint s2 H2.
  apply (ensures_bind_unchanged bookkeeping _ _ s);
    [apply unchanged_RandBool; reflexivity | exact H2 |]. intros b s3 H3.
  destruct b.
  - rewrite (size_t_small (Size + len (GetW DE))) by lia.
    destruct (Size + len (GetW DE) >? MaxSize); [apply ensures_ret; exact H3|].
    apply (ensures_bind_unchanged bookkeeping _ _ s); [| exact H3 |].
    { destruct UsePositionHint; [apply unchanged_ret | apply unchanged_Rand; reflexivity]. }
    intros Idx s4 H4.
    apply (ensures_bind_unchanged bookkeeping _ _ s);
      [apply unchanged_memmove; reflexivity | exact H4 |]. intros [] s5 H5.
    apply (ensures_bind_unchanged bookkeeping _ _ s);
      [apply unchanged_memcpy; reflexivity | exact H5 |]. intros [] s6 H6.
    apply Hsucceed; [exact H6 | lia].
  - destruct (len (GetW DE) >? Size); [apply ensures_ret; exact H3|].
    apply (ensures_bind_unchanged bookkeeping _ _ s); [| exact H3 |].
    { destruct UsePositionHint; [apply unchanged_ret | apply unchanged_Rand; reflexivity]. }
    intros Idx s4 H4.
    apply (ensures_bind_unchanged bookkeeping _ _ s);
      [apply unchanged_memcpy; reflexivity | exact H4 |]. intros [] s5 H5.
    apply Hsucceed; [exact H5 | lia].
Qed.

Lemma returns_and_ensures {A} (m : M A) (s : State) (P Q : A -> State -> Prop) :
  returns m s P -> ensures m s Q -> returns m s (fun a s' => P a s' /\ Q a s').
Proof.
  unfold returns, ensures. intros HP HQ.
  destruct (m s) as [[a s']|]; [|contradiction].
  split; [exact HP | apply HQ; reflexivity].
Qed.

(** A mutator of the default registry, on a valid call: it returns 0 or a
    size within [MaxSize], the buffer keeps its length, and the bookkeeping
    holds what [recorded] says. *)
Lemma DefaultMutators_recorded (Mu : Mutator) (s : State) (Size MaxSize : Z) :
  In Mu DefaultMutators_list ->
  CrossOver_contract -> valid_call s Size MaxSize ->
  returns (call (Fn Mu) Size MaxSize) s (fun n s' =>
    ((n = 0 \/ 1 <= n <= MaxSize) /\ len (Data s') = len (Data s)) /\
    recorded (Fn Mu) n s s').
Proof.
  intros HIn HX Hv. apply returns_and_ensures.
  - apply DefaultMutators_return; assumption.
  - unfold recorded.
    destruct (dictionary_of (Fn Mu)) as [D|] eqn:ED.
    + destruct (Fn Mu); cbn [dictionary_of] in ED; try discriminate ED;
        injection ED as <-; cbn [call];
        apply AddWordFromDictionary_recorded; exact Hv.
    + apply (unchanged_call bookkeeping); try exact ED; reflexivity.
Qed.


(** ** MutateImpl on the default mutators *)

Lemma valid_call_frame (s0 s : State) (Size MaxSize : Z) :
  valid_call s0 Size MaxSize ->
  bookkeeping s = bookkeeping s0 -> len (Data s) = len (Data s0) ->
  valid_call s Size MaxSize.
Proof.
  intros (HS & Hlen & Hmax & Hwf & HC) Hb Hl.
  split; [exact HS|]. split; [lia|]. split; [exact Hmax|]. split.
  - intros D. rewrite (bookkeeping_get_Dictionary D _ _ Hb). apply Hwf.
  - intros units. unfold bookkeeping in Hb. inversion Hb. intros E. apply HC. congruence.
Qed.

Lemma accepted_frame (Ms : list Mutator) (Mu : Mutator) (n : Z) (s0 s1 s2 s3 : State) :
  In Mu Ms -> n <> 0 ->
  bookkeeping s1 = bookkeeping s0 ->
  recorded (Fn Mu) n s1 s2 ->
  bookkeeping s3 =
    bookkeeping (set_CurrentMutatorSequence (CurrentMutatorSequence s2 ++ [Mu]) s2) ->
  accepted Ms n s0 s3.
Proof.
  intros HIn Hn H1 Hrec H3. exists Mu. split; [exact HIn|]. split; [exact Hn|].
  unfold recorded in Hrec.
  destruct (dictionary_of (Fn Mu)) as [D|].
  - destruct (Z.eqb_spec n 0) as [|_]; [contradiction|].
    destruct Hrec as (i & DE & Hnth & H2).
    exists i, DE. split.
    + rewrite <- (bookkeeping_get_Dictionary D _ _ H1). exact Hnth.
    + rewrite H3.
      rewrite (bookkeeping_set_CurrentMutatorSequence Mu _ _ H2).
      exact (bookkeeping_set_CurrentMutatorSequence Mu (used D i DE s0) (used D i DE s1)
               (bookkeeping_used D i DE s0 s1 H1)).
  - rewrite H3.
    rewrite (bookkeeping_set_CurrentMutatorSequence Mu _ _ Hrec).
    apply bookkeeping_set_CurrentMutatorSequence. exact H1.
Qed.

(** The loop of [MutateImpl] over mutators of the default registry, from a
    valid call: it returns a size that is not 0, having accepted the result
    of one mutator, or [Size] when every attempt returned 0. *)
Lemma returns_MutateImpl_loop (Size MaxSize : Z) (Ms : list Mutator) (s0 : State) :
  CrossOver_contract -> Ms <> [] -> incl Ms DefaultMutators_list ->
  valid_call s0 Size MaxSize ->
  forall (Iter : nat) (s : State),
  bookkeeping s = bookkeeping s0 -> len (Data s) = len (Data s0) ->
  returns (MutateImpl_loop Iter Size MaxSize Ms) s (fun n s' =>
    1 <= n <= MaxSize /\ len (Data s') = len (Data s0) /\
    ((n = Size /\ bookkeeping s' = bookkeeping s0) \/ accepted Ms n s0 s')).
Proof.
  intros HX HMs Hincl Hv0.
  assert (HlenMs : 0 < len Ms) by (destruct Ms; [contradiction | unfold len; simpl; lia]).
  induction Iter as [|Iter IH]; intros s Hb Hl; cbn [MutateImpl_loop].
  { apply returns_ret. destruct Hv0 as (HS & _). split; [lia|]. split; [exact Hl|].
    left. split; [reflexivity | exact Hb]. }
  apply returns_bind, returns_Rand; [lia|]. intros i R Hi0 Hi1 _ _ _.
  specialize (Hi1 HlenMs).
  destruct (nth_error_in_range Ms i ltac:(lia)) as [Mu HMu].
  eapply returns_bind, returns_at; [lia | exact HMu |].
  assert (HIn : In Mu Ms) by (eapply nth_error_In; exact HMu).
  assert (Hv1 : valid_call (set_Rand R s) Size MaxSize).
  { apply valid_call_set_Rand. apply (valid_call_frame s0); assumption. }
  apply returns_bind.
  eapply returns_weaken.
  { apply DefaultMutators_recorded; [apply Hincl; exact HIn | exact HX | exact Hv1]. }
  intros n s2 ((Hn & Hl2) & Hrec). cbv beta. cbn [Data set_Rand] in Hl2.
  destruct (Z.eqb_spec n 0) as [->|Hne]; cbn [negb].
  - apply IH; [|lia].
    unfold recorded in Hrec. rewrite Z.eqb_refl in Hrec.
    destruct (dictionary_of (Fn Mu)); rewrite Hrec; exact Hb.
  - assert (Hn' : 1 <= n <= MaxSize) by lia.
    assert (HnD : 0 <= n <= len (Data s2)).
    { destruct Hv0 as (_ & Hlen0 & _). lia. }
    pose proof (accept_returns Mu n s2 HnD) as Hacc. unfold accept in Hacc.
    unfold returns. rewrite Hacc.
    split; [exact Hn'|]. split.
    + destruct OnlyASCII; cbn [Data set_CurrentMutatorSequence set_Data]; [|lia].
      unfold len in *. rewrite length_app, length_map, length_firstn, length_skipn.
      unfold nat_of. lia.
    + right. apply (accepted_frame Ms Mu n s0 (set_Rand R s) s2); try assumption.
      destruct OnlyASCII; reflexivity.
Qed.

(** [MutateImpl] over mutators of the default registry, for sizes
    [0 <= Size <= MaxSize], [0 < MaxSize], a buffer of [MaxSize] bytes and
    entries and units of sizes that objects can have. *)
Lemma returns_MutateImpl (s : State) (Size MaxSize : Z) (Ms : list Mutator) :
  CrossOver_contract -> Ms <> [] -> incl Ms DefaultMutators_list ->
  0 <= Size <= MaxSize -> 0 < MaxSize <= len (Data s) -> MaxSize <= PTRDIFF_MAX ->
  (forall D, Forall DictionaryEntry_wf (get_Dictionary D s)) ->
  (forall units, Corpus s = Some units ->
                 Forall (fun U : Unit => len U <= PTRDIFF_MAX) units) ->
  returns (MutateImpl Size MaxSize Ms) s (fun n s' =>
    1 <= n <= MaxSize /\ len (Data s') = len (Data s) /\
    ((bookkeeping s' = bookkeeping s /\ (n = Size \/ (Size = 0 /\ n = MaxSize))) \/
     (0 < Size /\ accepted Ms n s s'))).
Proof.
  intros HX HMs Hincl HS HM Hmax Hwf HC.
  unfold MutateImpl.
  apply returns_bind, returns_assert. { apply Z.gtb_lt. lia. }
  apply returns_bind, returns_assert. { apply Z.leb_le. lia. }
  destruct (Z.eqb_spec Size 0) as [->|Hne].
  - unfold For_, For. rewrite Z.sub_0_r.
    apply returns_bind.
    eapply returns_weaken.
    { apply (returns_RandCh_loop (nat_of MaxSize) 0 s). unfold len, nat_of in *. lia. }
    intros [] s1 ->. cbv beta.
    set (d1 := firstn 0 (Data s) ++ fst (RandCh_bytes (nat_of MaxSize) (Rand_ s)) ++
               skipn (0 + nat_of MaxSize) (Data s)).
    assert (Hl1 : len d1 = len (Data s)).
    { unfold d1, len. rewrite !length_app, length_firstn, length_skipn.
      rewrite (proj2 (RandCh_bytes_range _ _)). unfold len, nat_of in *. lia. }
    apply returns_bind.
    assert (Hfin : forall s2, bookkeeping s2 = bookkeeping s -> len (Data s2) = len (Data s) ->
              returns (ret MaxSize) s2 (fun n s' =>
                1 <= n <= MaxSize /\ len (Data s') = len (Data s) /\
                ((bookkeeping s' = bookkeeping s /\ (n = 0 \/ (0 = 0 /\ n = MaxSize))) \/
                 (0 < 0 /\ accepted Ms n s s')))).
    { intros s2 H2 Hl2. apply returns_ret. split; [lia|]. split; [exact Hl2|].
      left. split; [exact H2 | right; split; reflexivity]. }
    destruct OnlyASCII.
    + apply returns_ToASCII; cbn [Data set_Data set_Rand]; [lia|].
      apply Hfin; [reflexivity|]. cbn [Data set_Data].
      unfold len in *. rewrite length_app, length_map, length_firstn, length_skipn.
      unfold nat_of. lia.
    + apply returns_ret. apply Hfin; [reflexivity | exact Hl1].
  - apply returns_bind, returns_assert. { apply Z.gtb_lt. lia. }
    assert (Hv : valid_call s Size MaxSize).
    { split; [lia|]. split; [lia|]. split; [exact Hmax|]. split; assumption. }
    eapply returns_weaken.
    { apply (returns_MutateImpl_loop Size MaxSize Ms s HX HMs Hincl Hv 10%nat s);
        reflexivity. }
    intros n s' (Hn & Hl & [[-> Hb] | Hacc]).
    + split; [exact Hn|]. split; [exact Hl|]. left. split; [exact Hb | left; reflexivity].
    + split; [exact Hn|]. split; [exact Hl|]. right. split; [lia | exact Hacc].
Qed.

(** [MutateImpl] never returns 0. Over mutators of the default registry,
    for an input of [Size <= MaxSize] bytes ([Size] 0 or not) in a buffer of
    at least [MaxSize > 0] bytes, it returns, and the size it returns is
    from 1 to [MaxSize]; the buffer keeps its length. So does
    [DefaultMutate], whose registry is the default one. *)
Theorem MutateImpl_returns_size_in_range (s : State) (Size MaxSize : Z) (Ms : list Mutator) :
  CrossOver_contract -> Ms <> [] -> incl Ms DefaultMutators_list ->
  0 <= Size <= MaxSize -> 0 < MaxSize <= len (Data s) -> MaxSize <= PTRDIFF_MAX ->
  (forall D, Forall DictionaryEntry_wf (get_Dictionary D s)) ->
  (forall units, Corpus s = Some units ->
                 Forall (fun U : Unit => len U <= PTRDIFF_MAX) units) ->
  returns (MutateImpl Size MaxSize Ms) s (fun n s' =>
    1 <= n <= MaxSize /\ len (Data s') = len (Data s)) /\
  (DefaultMutators s = DefaultMutators_list ->
   returns (DefaultMutate Size MaxSize) s (fun n s' =>
     1 <= n <= MaxSize /\ len (Data s') = len (Data s))).
Proof.
  intros HX HMs Hincl HS HM Hmax Hwf HC. split.
  - eapply returns_weaken; [apply returns_MutateImpl; eassumption|].
    intros n s' (Hn & Hl & _). split; assumption.
  - intros HD. unfold DefaultMutate.
    apply returns_bind, returns_gets. rewrite HD.
    eapply returns_weaken.
    + apply returns_MutateImpl; try eassumption; [discriminate | apply incl_refl].
    + intros n s' (Hn & Hl & _). split; assumption.
Qed.

(** One attempt over mutators of the default registry, from a valid call:
    it returns, with a mutator of the list, 0 or a size within [MaxSize],
    the buffer of the same length, and in the bookkeeping what [recorded]
    says. *)
Lemma returns_attempt (Size MaxSize : Z) (Ms : list Mutator) (s : State) :
  CrossOver_contract -> Ms <> [] -> incl Ms DefaultMutators_list ->
  valid_call s Size MaxSize ->
  returns (attempt Size MaxSize Ms) s (fun r s2 =>
    In (fst r) Ms /\ (snd r = 0 \/ 1 <= snd r <= MaxSize) /\
    len (Data s2) = len (Data s) /\
    exists s1, bookkeeping s1 = bookkeeping s /\ recorded (Fn (fst r)) (snd r) s1 s2).
Proof.
  intros HX HMs Hincl Hv.
  assert (HlenMs : 0 < len Ms) by (destruct Ms; [contradiction | unfold len; simpl; lia]).
  unfold attempt.
  apply returns_bind, returns_Rand; [lia|]. intros i R Hi0 Hi1 _ _ _.
  specialize (Hi1 HlenMs).
  destruct (nth_error_in_range Ms i ltac:(lia)) as [Mu HMu].
  eapply returns_bind, returns_at; [lia | exact HMu |].
  assert (HIn : In Mu Ms) by (eapply nth_error_In; exact HMu).
  apply returns_bind.
  eapply returns_weaken.
  { apply DefaultMutators_recorded;
      [apply Hincl; exact HIn | exact HX | apply valid_call_set_Rand; exact Hv]. }
  intros n s2 ((Hn & Hl2) & Hrec). apply returns_ret. cbn [fst snd].
  split; [exact HIn|]. split; [exact Hn|]. split; [exact Hl2|].
  exists (set_Rand R s). split; [reflexivity | exact Hrec].
Qed.

(** The loop of [MutateImpl], attempt by attempt: the result is that of the
    first attempt that did not return 0, and the mutator of that attempt is
    the one recorded; or every attempt returned 0, the result is [Size] and
    nothing is recorded. *)
Lemma returns_MutateImpl_loop_attempts (Size MaxSize : Z) (Ms : list Mutator) (s0 : State) :
  CrossOver_contract -> Ms <> [] -> incl Ms DefaultMutators_list ->
  valid_call s0 Size MaxSize ->
  forall (Iter : nat) (s : State),
  bookkeeping s = bookkeeping s0 -> len (Data s) = len (Data s0) ->
  returns (MutateImpl_loop Iter Size MaxSize Ms) s (fun n s' =>
    1 <= n <= MaxSize /\
    ((exists (k : nat) (s1 : State) (Mu : Mutator) (s2 : State),
        (k < Iter)%nat /\ failed_attempts Size MaxSize Ms k s s1 /\
        attempt Size MaxSize Ms s1 = Some ((Mu, n), s2) /\ n <> 0 /\
        In Mu Ms /\ bookkeeping s1 = bookkeeping s0 /\ accepted [Mu] n s0 s') \/
     (n = Size /\ failed_attempts Size MaxSize Ms Iter s s' /\
      bookkeeping s' = bookkeeping s0))).
Proof.
  intros HX HMs Hincl Hv0.
  induction Iter as [|Iter IH]; intros s Hb Hl.
  { apply returns_ret. destruct Hv0 as (HS & _). split; [lia|].
    right. split; [reflexivity|]. split; [constructor | exact Hb]. }
  assert (Hv : valid_call s Size MaxSize) by (apply (valid_call_frame s0); assumption).
  destruct (returns_inv _ _ _ (returns_attempt Size MaxSize Ms s HX HMs Hincl Hv))
    as ([Mu n] & s2 & Ha & HIn & Hn & Hl2 & s1 & Hb1 & Hrec).
  cbn [fst snd] in *.
  unfold returns. rewrite MutateImpl_loop_unfold, Ha.
  destruct (Z.eqb_spec n 0) as [->|Hne].
  - assert (Hb2 : bookkeeping s2 = bookkeeping s0).
    { unfold recorded in Hrec. rewrite Z.eqb_refl in Hrec.
      destruct (dictionary_of (Fn Mu)); rewrite Hrec, Hb1; exact Hb. }
    specialize (IH s2 Hb2 ltac:(lia)). unfold returns in IH.
    destruct (MutateImpl_loop Iter Size MaxSize Ms s2) as [[r s']|]; [|contradiction].
    destruct IH as (Hr & [(k & t1 & Mu' & t2 & Hk & Hf & Ha' & Hr0 & HIn' & Hbt & Hacc) |
                          (-> & Hf & Hb')]).
    + split; [exact Hr|]. left. exists (S k), t1, Mu', t2.
      split; [lia|]. split; [econstructor; eassumption|].
      split; [exact Ha'|]. split; [exact Hr0|]. split; [exact HIn'|].
      split; [exact Hbt | exact Hacc].
    + split; [exact Hr|]. right. split; [reflexivity|].
      split; [econstructor; eassumption | exact Hb'].
  - assert (Hn' : 1 <= n <= MaxSize) by lia.
    assert (HnD : 0 <= n <= len (Data s2)).
    { destruct Hv0 as (_ & Hlen0 & _). lia. }
    rewrite (accept_returns Mu n s2 HnD).
    split; [exact Hn'|]. left. exists 0%nat, s, Mu, s2.
    split; [lia|]. split; [constructor|]. split; [exact Ha|]. split; [exact Hne|].
    split; [exact HIn|]. split; [exact Hb|].
    apply (accepted_frame [Mu] Mu n s0 s1 s2);
      [left; reflexivity | exact Hne | rewrite Hb1; exact Hb | exact Hrec |].
    destruct OnlyASCII; reflexivity.
Qed.

(** [MutateImpl] over mutators of the default registry, attempt by
    attempt. *)
Lemma returns_MutateImpl_attempts (s : State) (Size MaxSize : Z) (Ms : list Mutator) :
  CrossOver_contract -> Ms <> [] -> incl Ms DefaultMutators_list ->
  0 <= Size <= MaxSize -> 0 < MaxSize <= len (Data s) -> MaxSize <= PTRDIFF_MAX ->
  (forall D, Forall DictionaryEntry_wf (get_Dictionary D s)) ->
  (forall units, Corpus s = Some units ->
                 Forall (fun U : Unit => len U <= PTRDIFF_MAX) units) ->
  returns (MutateImpl Size MaxSize Ms) s (fun n s' =>
    1 <= n <= MaxSize /\
    if Size =? 0 then n = MaxSize /\ bookkeeping s' = bookkeeping s
    else
      (exists (k : nat) (s1 : State) (Mu : Mutator) (s2 : State),
         (k < 10)%nat /\ failed_attempts Size MaxSize Ms k s s1 /\
         attempt Size MaxSize Ms s1 = Some ((Mu, n), s2) /\ n <> 0 /\
         In Mu Ms /\ bookkeeping s1 = bookkeeping s /\ accepted [Mu] n s s') \/
      (n = Size /\ failed_attempts Size MaxSize Ms 10 s s' /\
       bookkeeping s' = bookkeeping s)).
Proof.
  intros HX HMs Hincl HS HM Hmax Hwf HC.
  destruct (Z.eqb_spec Size 0) as [E0|Hne].
  - eapply returns_weaken; [apply returns_MutateImpl; eassumption|].
    intros n s' (Hn & _ & [(Hb & Hsz) | (Hpos & _)]); [|lia].
    split; [exact Hn|]. split; [lia | exact Hb].
  - unfold MutateImpl.
    apply returns_bind, returns_assert. { apply Z.gtb_lt. lia. }
    apply returns_bind, returns_assert. { apply Z.leb_le. lia. }
    destruct (Z.eqb_spec Size 0) as [|_]; [contradiction|].
    apply returns_bind, returns_assert. { apply Z.gtb_lt. lia. }
    assert (Hv : valid_call s Size MaxSize).
    { split; [lia|]. split; [lia|]. split; [exact Hmax|]. split; assumption. }
    apply (returns_MutateImpl_loop_attempts Size MaxSize Ms s HX HMs Hincl Hv 10%nat s);
      reflexivity.
Qed.

(** What [MutateImpl] records, attempt by attempt. For an input that is not
    empty: when an attempt returns a size [n] that is not 0, after [k < 10]
    attempts that returned 0, [MutateImpl] returns [n] and the mutator of
    that attempt, one of the registry, is appended to
    [CurrentMutatorSequence], once, also when [n] is [Size]; if it is one of
    the three that take a word from a dictionary, the entry it used has its
    use counter incremented and a pointer to it is appended to
    [CurrentDictionaryEntrySequence], and otherwise no entry is. The
    attempts that returned 0 before it leave no trace. Only when all ten
    attempts returned 0 is [Size] returned with the whole bookkeeping as it
    was. An empty input is filled afresh and nothing is recorded. *)
Theorem MutateImpl_records (s : State) (Size MaxSize : Z) (Ms : list Mutator) :
  CrossOver_contract -> Ms <> [] -> incl Ms DefaultMutators_list ->
  0 <= Size <= MaxSize -> 0 < MaxSize <= len (Data s) -> MaxSize <= PTRDIFF_MAX ->
  (forall D, Forall DictionaryEntry_wf (get_Dictionary D s)) ->
  (forall units, Corpus s = Some units ->
                 Forall (fun U : Unit => len U <= PTRDIFF_MAX) units) ->
  returns (MutateImpl Size MaxSize Ms) s (fun n s' =>
    if Size =? 0 then n = MaxSize /\ bookkeeping s' = bookkeeping s
    else
      (exists (k : nat) (s1 : State) (Mu : Mutator) (s2 : State),
         (k < 10)%nat /\ failed_attempts Size MaxSize Ms k s s1 /\
         attempt Size MaxSize Ms s1 = Some ((Mu, n), s2) /\ n <> 0 /\
         In Mu Ms /\ bookkeeping s1 = bookkeeping s /\ accepted [Mu] n s s') \/
      (n = Size /\ failed_attempts Size MaxSize Ms 10 s s' /\
       bookkeeping s' = bookkeeping s)).
Proof.
  intros HX HMs Hincl HS HM Hmax Hwf HC.
  eapply returns_weaken; [apply returns_MutateImpl_attempts; eassumption|].
  intros n s' (_ & H). exact H.
Qed.


(** ** The registries *)

Section Registry.

(** A part [f] of the state that only [SetCorpus] could change. *)
Context {B : Type} (f : State -> B).
Hypothesis f_set_Rand : forall R s, f (set_Rand R s) = f s.
Hypothesis f_set_Data : forall d s, f (set_Data d s) = f s.
Hypothesis f_set_MutateInPlaceHere : forall v s, f (set_MutateInPlaceHere v s) = f s.
Hypothesis f_set_Dictionary : forall D d s, f (set_Dictionary D d s) = f s.
Hypothesis f_set_CurrentMutatorSequence :
  forall l s, f (set_CurrentMutatorSequence l s) = f s.
Hypothesis f_set_CurrentDictionaryEntrySequence :
  forall l s, f (set_CurrentDictionaryEntrySequence l s) = f s.

#[local] Hint Resolve unchanged_ret unchanged_abort unchanged_gets unchanged_assert
  unchanged_lift_option unchanged_at unchanged_RandRaw unchanged_Rand unchanged_RandBool
  unchanged_write_buf unchanged_load unchanged_store unchanged_memmove unchanged_memcpy
  unchanged_ToASCII unchanged_RandCh : frame.

Ltac registry_step :=
  match goal with
  | |- unchanged _ (bind _ _) => apply unchanged_bind; [| intros ?]
  | |- unchanged _ (modify _) =>
      apply unchanged_modify; intros ?; cbv beta;
      first [apply f_set_Rand | apply f_set_Data | apply f_set_MutateInPlaceHere
            | apply f_set_Dictionary | apply f_set_CurrentMutatorSequence
            | apply f_set_CurrentDictionaryEntrySequence]
  | |- unchanged _ (if ?b then _ else _) => destruct b
  | |- unchanged _ (match ?x with _ => _ end) => destruct x
  | |- unchanged _ _ => solve [auto with frame]
  end.

Lemma unchanged_deref (p : DEptr) : unchanged f (deref p).
Proof. unfold deref. repeat registry_step. Qed.

Lemma unchanged_update_through (p : DEptr) (g : DictionaryEntry -> DictionaryEntry) :
  unchanged f (update_through p g).
Proof.
  unfold update_through. apply unchanged_bind; [apply unchanged_deref|]. intros DE.
  repeat registry_step.
Qed.

Lemma unchanged_AddWordFromDictionary D Size MaxSize :
  unchanged f (AddWordFromDictionary D Size MaxSize).
Proof.
  unfold AddWordFromDictionary.
  repeat first [ apply unchanged_update_through | registry_step ].
Qed.

Lemma unchanged_call_any (g : MutatorFn) Size MaxSize : unchanged f (call g Size MaxSize).
Proof.
  destruct (dictionary_of g) eqn:E.
  - destruct g; cbn [dictionary_of] in E; try discriminate E; cbn [call];
      apply unchanged_AddWordFromDictionary.
  - apply unchanged_call; assumption.
Qed.

Lemma unchanged_MutateImpl_loop Size MaxSize Ms :
  forall Iter, unchanged f (MutateImpl_loop Iter Size MaxSize Ms).
Proof.
  induction Iter as [|Iter IH]; cbn [MutateImpl_loop];
    repeat first [ apply unchanged_call_any | registry_step ].
Qed.

Lemma unchanged_MutateImpl Size MaxSize Ms : unchanged f (MutateImpl Size MaxSize Ms).
Proof.
  unfold MutateImpl.
  repeat first [ apply unchanged_MutateImpl_loop | registry_step ].
  all: apply unchanged_For_; intros; repeat registry_step.
Qed.

Lemma unchanged_for_each {A} (l : list A) (body : A -> M unit) :
  (forall a, unchanged f (body a)) -> unchanged f (for_each l body).
Proof.
  intros Hb. induction l as [|a l IH]; simpl.
  - apply unchanged_ret.
  - apply unchanged_bind; [apply Hb | intros _; apply IH].
Qed.

Lemma unchanged_RecordSuccessfulMutationSequence :
  unchanged f RecordSuccessfulMutationSequence.
Proof.
  unfold RecordSuccessfulMutationSequence.
  apply unchanged_bind; [apply unchanged_gets|]. intros seq.
  apply unchanged_for_each. intros DE. unfold RecordSuccessfulMutationSequence_body.
  repeat first [ apply unchanged_update_through | apply unchanged_deref | registry_step ].
Qed.

Lemma unchanged_PrintMutationSequence : unchanged f PrintMutationSequence.
Proof.
  unfold PrintMutationSequence.
  apply unchanged_bind; [apply unchanged_gets | intros Ms].
  apply unchanged_bind; [apply unchanged_gets | intros seq].
  apply unchanged_bind; [| intros Ws; apply unchanged_ret].
  induction seq as [|p l IH].
  - apply unchanged_ret.
  - apply unchanged_bind; [apply unchanged_deref | intros E].
    apply unchanged_bind; [apply IH | intros Ws; apply unchanged_ret].
Qed.

(** Every operation but [SetCorpus] leaves [f] as it is. *)
Lemma unchanged_run_operation (op : Operation) :
  (forall units s, f (set_Corpus (Some units) s) = f s) ->
  unchanged f (run_operation op).
Proof.
  intros f_set_Corpus.
  destruct op; cbn [run_operation]; unfold discard.
  - unfold Mutate. repeat first [ apply unchanged_MutateImpl | registry_step ].
  - unfold DefaultMutate. repeat first [ apply unchanged_MutateImpl | registry_step ].
  - repeat first [ apply unchanged_call_any | registry_step ].
  - unfold StartMutationSequence. repeat registry_step.
  - apply unchanged_RecordSuccessfulMutationSequence.
  - unfold PrintRecommendedDictionary. repeat registry_step.
  - repeat first [ apply unchanged_PrintMutationSequence | registry_step ].
  - unfold AddWordToManualDictionary. repeat registry_step.
  - unfold AddWordToAutoDictionary. repeat registry_step.
  - unfold ClearAutoDictionary. repeat registry_step.
  - unfold SetCorpus. apply unchanged_modify. intros s. apply f_set_Corpus.
Qed.

End Registry.

Lemma reachable_registry (s : State) :
  reachable s -> forall R : Random, registry s = registry (MutationDispatcher R).
Proof.
  induction 1 as [R0 | op s s' Hr IH Hop]; intros R.
  - reflexivity.
  - rewrite <- (IH R).
    apply (unchanged_run_operation registry) with (op := op) (s := s) (a := tt);
      try reflexivity. exact Hop.
Qed.

(** The registries of a dispatcher are those its constructor made,
    whatever operations it has gone through. [DefaultMutators] holds the 13
    built-in mutators. [Mutators] is never empty, and it holds the custom
    mutator or the custom crossover only when the host supplies the
    callback, so that [Mutate] calls through no null pointer. When the host
    supplies a custom mutator, [Mutators] holds no built-in mutator; when it
    supplies no callback, [Mutators] is the default registry. *)
Theorem registry_invariant (s : State) :
  reachable s ->
  DefaultMutators s = DefaultMutators_list /\
  Mutators s <> [] /\
  (forall Mu, In Mu (Mutators s) -> Fn Mu = Fn_Custom -> LLVMFuzzerCustomMutator <> None) /\
  (forall Mu, In Mu (Mutators s) -> Fn Mu = Fn_CustomCrossOver ->
              LLVMFuzzerCustomCrossOver <> None) /\
  (LLVMFuzzerCustomMutator <> None ->
   forall Mu, In Mu (Mutators s) -> Fn Mu = Fn_Custom \/ Fn Mu = Fn_CustomCrossOver) /\
  (LLVMFuzzerCustomMutator = None -> LLVMFuzzerCustomCrossOver = None ->
   Mutators s = DefaultMutators_list).
Proof.
  intros Hr.
  pose proof (reachable_registry s Hr (Rand_ s)) as E.
  unfold registry, MutationDispatcher in E. cbn [Mutators DefaultMutators] in E.
  injection E as EM ED. rewrite EM, ED. clear EM ED Hr.
  split; [reflexivity|].
  destruct LLVMFuzzerCustomMutator as [cm|], LLVMFuzzerCustomCrossOver as [cc|];
    cbn [app].
  - split; [discriminate|]. split; [discriminate|]. split; [discriminate|].
    split; [|discriminate].
    intros _ Mu [<- | [<- | []]]; [left | right]; reflexivity.
  - split; [discriminate|]. split; [discriminate|]. split.
    { intros Mu [<- | []] HF. discriminate HF. }
    split; [|discriminate].
    intros _ Mu [<- | []]. left. reflexivity.
  - split; [discriminate|]. split.
    { intros Mu HIn HF. apply in_app_or in HIn. destruct HIn as [HIn | [<- | []]].
      - simpl in HIn. repeat (destruct HIn as [<- | HIn]; [discriminate HF|]). contradiction.
      - discriminate HF. }
    split; [discriminate|]. split; [intros H; contradiction H; reflexivity|].
    discriminate.
  - split; [discriminate|]. split.
    { intros Mu HIn HF. simpl in HIn.
      repeat (destruct HIn as [<- | HIn]; [discriminate HF|]). contradiction. }
    split.
    { intros Mu HIn HF. simpl in HIn.
      repeat (destruct HIn as [<- | HIn]; [discriminate HF|]). contradiction. }
    split; [intros H; contradiction H; reflexivity|].
    reflexivity.
Qed.


(** ** The words of the dictionaries over time *)

Lemma keeps_words_run (m : M unit) (s s' : State) :
  keeps_words m -> m s = Some (tt, s') -> words s' = words s.
Proof. intros Hm E. exact (Hm s tt s' E). Qed.

Lemma words_inv (s s' : State) :
  words s' = words s ->
  map GetW (ManualDictionary s') = map GetW (ManualDictionary s) /\
  map GetW (TempAutoDictionary s') = map GetW (TempAutoDictionary s) /\
  map GetW (PersistentAutoDictionary s') = map GetW (PersistentAutoDictionary s).
Proof. unfold words. intros E. inversion E. repeat split; assumption. Qed.

(** No operation takes a word out of the manual dictionary or out of the
    persistent one, or changes one there: after any operation the words of
    each are those it held before, in their order, and maybe more at the
    end. The temporary dictionary is emptied by [ClearAutoDictionary], and
    no other operation takes a word out of it. *)
Theorem dictionaries_only_grow (op : Operation) (s s' : State) :
  run_operation op s = Some (tt, s') ->
  (exists l, map GetW (ManualDictionary s') = map GetW (ManualDictionary s) ++ l) /\
  (exists l, map GetW (PersistentAutoDictionary s') =
             map GetW (PersistentAutoDictionary s) ++ l) /\
  (op <> Op_ClearAutoDictionary ->
   exists l, map GetW (TempAutoDictionary s') = map GetW (TempAutoDictionary s) ++ l) /\
  (op = Op_ClearAutoDictionary -> TempAutoDictionary s' = []).
Proof.
  intros Hop.
  assert (Hkeep : keeps_words (run_operation op) ->
    (exists l, map GetW (ManualDictionary s') = map GetW (ManualDictionary s) ++ l) /\
    (exists l, map GetW (PersistentAutoDictionary s') =
               map GetW (PersistentAutoDictionary s) ++ l) /\
    (exists l, map GetW (TempAutoDictionary s') = map GetW (TempAutoDictionary s) ++ l)).
  { intros Hk. destruct (words_inv _ _ (keeps_words_run _ _ _ Hk Hop)) as (HM & HT & HP).
    repeat split; exists []; rewrite app_nil_r; assumption. }
  assert (Hset : forall buffer, keeps_words (modify (set_Data buffer))).
  { intros buffer. apply keeps_modify. reflexivity. }
  assert (Hdone : forall op0,
    op0 <> Op_ClearAutoDictionary ->
    (exists l, map GetW (ManualDictionary s') = map GetW (ManualDictionary s) ++ l) /\
    (exists l, map GetW (PersistentAutoDictionary s') =
               map GetW (PersistentAutoDictionary s) ++ l) /\
    (exists l, map GetW (TempAutoDictionary s') = map GetW (TempAutoDictionary s) ++ l) ->
    (exists l, map GetW (ManualDictionary s') = map GetW (ManualDictionary s) ++ l) /\
    (exists l, map GetW (PersistentAutoDictionary s') =
               map GetW (PersistentAutoDictionary s) ++ l) /\
    (op0 <> Op_ClearAutoDictionary ->
     exists l, map GetW (TempAutoDictionary s') = map GetW (TempAutoDictionary s) ++ l) /\
    (op0 = Op_ClearAutoDictionary -> TempAutoDictionary s' = [])).
  { intros op0 Hne (HM & HP & HT).
    split; [exact HM|]. split; [exact HP|]. split; [intros _; exact HT|].
    intros E. contradiction. }
  destruct op; cbn [run_operation] in *.
  - apply Hdone; [discriminate|]. apply Hkeep.
    apply keeps_bind; [apply Hset | intros _; apply keeps_discard, keeps_Mutate].
  - apply Hdone; [discriminate|]. apply Hkeep.
    apply keeps_bind; [apply Hset | intros _; apply keeps_discard, keeps_DefaultMutate].
  - apply Hdone; [discriminate|]. apply Hkeep.
    apply keeps_bind; [apply Hset | intros _; apply keeps_discard, keeps_call].
  - apply Hdone; [discriminate|]. apply Hkeep.
    unfold StartMutationSequence. repeat keeps_step.
  - apply Hdone; [discriminate|].
    assert (HI : ensures RecordSuccessfulMutationSequence s (fun _ s1 =>
              map GetW (ManualDictionary s1) = map GetW (ManualDictionary s) /\
              map GetW (TempAutoDictionary s1) = map GetW (TempAutoDictionary s) /\
              exists l, map GetW (PersistentAutoDictionary s1) =
                        map GetW (PersistentAutoDictionary s) ++ l)).
    { unfold RecordSuccessfulMutationSequence.
      apply ensures_bind, ensures_gets.
      apply (ensures_for_each (fun s1 =>
              map GetW (ManualDictionary s1) = map GetW (ManualDictionary s) /\
              map GetW (TempAutoDictionary s1) = map GetW (TempAutoDictionary s) /\
              exists l, map GetW (PersistentAutoDictionary s1) =
                        map GetW (PersistentAutoDictionary s) ++ l)).
      - repeat split. exists []. rewrite app_nil_r. reflexivity.
      - intros p s2 _ (HM2 & HT2 & l & HP2).
        eapply ensures_weaken; [apply RecordSuccessfulMutationSequence_body_words|].
        intros [] s3 (HM3 & HT3 & HP3). cbv beta.
        split; [congruence|]. split; [congruence|].
        destruct HP3 as [E | (W & P1 & _ & HP1 & E)].
        + exists l. congruence.
        + exists (l ++ [W]). rewrite E, map_app, HP1, HP2. simpl.
          rewrite DictionaryEntry_GetW, app_assoc. reflexivity. }
    destruct (HI tt s' Hop) as (HM & HT & HP).
    split; [exists []; rewrite app_nil_r; exact HM|]. split; [exact HP|].
    exists []. rewrite app_nil_r. exact HT.
  - apply Hdone; [discriminate|]. apply Hkeep.
    apply keeps_discard, keeps_PrintRecommendedDictionary.
  - apply Hdone; [discriminate|]. apply Hkeep.
    apply keeps_discard, keeps_PrintMutationSequence.
  - apply Hdone; [discriminate|].
    unfold AddWordToManualDictionary, modify in Hop. inversion Hop; subst s'.
    cbn [ManualDictionary TempAutoDictionary PersistentAutoDictionary set_Dictionary].
    split; [|split; exists []; rewrite app_nil_r; reflexivity].
    exists [W]. unfold Dictionary_push_back. rewrite map_app. simpl.
    rewrite DictionaryEntry_GetW. reflexivity.
  - apply Hdone; [discriminate|].
    unfold AddWordToAutoDictionary, bind, gets in Hop.
    destruct (len (TempAutoDictionary s) >=? kMaxAutoDictSize).
    + inversion Hop; subst s'. repeat split; exists []; rewrite app_nil_r; reflexivity.
    + unfold modify in Hop. inversion Hop; subst s'.
      cbn [ManualDictionary TempAutoDictionary PersistentAutoDictionary set_Dictionary].
      split; [exists []; rewrite app_nil_r; reflexivity|].
      split; [exists []; rewrite app_nil_r; reflexivity|].
      destruct (len (TempAutoDictionary s) <? kMaxDictSize);
        [|exists []; rewrite app_nil_r; reflexivity].
      exists [GetW DE]. rewrite map_app. reflexivity.
  - unfold ClearAutoDictionary, modify in Hop. inversion Hop; subst s'.
    cbn [ManualDictionary TempAutoDictionary PersistentAutoDictionary set_Dictionary].
    split; [exists []; rewrite app_nil_r; reflexivity|].
    split; [exists []; rewrite app_nil_r; reflexivity|].
    split; [intros H; contradiction H; reflexivity | reflexivity].
  - apply Hdone; [discriminate|]. apply Hkeep.
    unfold SetCorpus. repeat keeps_step.
Qed.

Lemma run_operation_ManualDictionary (op : Operation) (s s' : State) :
  run_operation op s = Some (tt, s') ->
  exists l, map GetW (ManualDictionary s') = map GetW (ManualDictionary s) ++ l.
Proof.
  intros Hop.
  assert (Hkeep : keeps_words (run_operation op) ->
    exists l, map GetW (ManualDictionary s') = map GetW (ManualDictionary s) ++ l).
  { intros Hk. destruct (words_inv _ _ (keeps_words_run _ _ _ Hk Hop)) as (HM & _).
    exists []. rewrite app_nil_r. exact HM. }
  assert (Hset : forall buffer, keeps_words (modify (set_Data buffer))).
  { intros buffer. apply keeps_modify. reflexivity. }
  destruct op; cbn [run_operation] in *.
  - apply Hkeep.
    apply keeps_bind; [apply Hset | intros _; apply keeps_discard, keeps_Mutate].
  - apply Hkeep.
    apply keeps_bind; [apply Hset | intros _; apply keeps_discard, keeps_DefaultMutate].
  - apply Hkeep.
    apply keeps_bind; [apply Hset | intros _; apply keeps_discard, keeps_call].
  - apply Hkeep. unfold StartMutationSequence. repeat keeps_step.
  - assert (HI : ensures RecordSuccessfulMutationSequence s (fun _ s1 =>
              map GetW (ManualDictionary s1) = map GetW (ManualDictionary s))).
    { unfold RecordSuccessfulMutationSequence.
      apply ensures_bind, ensures_gets.
      apply (ensures_for_each (fun s1 =>
              map GetW (ManualDictionary s1) = map GetW (ManualDictionary s)));
        [reflexivity|].
      intros p s2 _ HM2.
      eapply ensures_weaken; [apply RecordSuccessfulMutationSequence_body_words|].
      intros [] s3 (HM3 & _). cbv beta. congruence. }
    exists []. rewrite app_nil_r. exact (HI tt s' Hop).
  - apply Hkeep. apply keeps_discard, keeps_PrintRecommendedDictionary.
  - apply Hkeep. apply keeps_discard, keeps_PrintMutationSequence.
  - unfold AddWordToManualDictionary, modify in Hop. inversion Hop; subst s'.
    cbn [ManualDictionary set_Dictionary].
    exists [W]. unfold Dictionary_push_back. rewrite map_app. simpl.
    rewrite DictionaryEntry_GetW. reflexivity.
  - unfold AddWordToAutoDictionary, bind, gets in Hop.
    destruct (len (TempAutoDictionary s) >=? kMaxAutoDictSize).
    + inversion Hop; subst s'. exists []. rewrite app_nil_r. reflexivity.
    + unfold modify in Hop. inversion Hop; subst s'.
      exists []. rewrite app_nil_r. reflexivity.
  - unfold ClearAutoDictionary, modify in Hop. inversion Hop; subst s'.
    exists []. rewrite app_nil_r. reflexivity.
  - apply Hkeep. unfold SetCorpus. repeat keeps_step.
Qed.

Lemma reaches_ManualDictionary (s s' : State) :
  reaches s s' ->
  exists l, map GetW (ManualDictionary s') = map GetW (ManualDictionary s) ++ l.
Proof.
  induction 1 as [|op s1 s' Hr [l IH] Hop].
  - exists []. rewrite app_nil_r. reflexivity.
  - destruct (run_operation_ManualDictionary op s1 s' Hop) as [l' E].
    exists (l ++ l'). rewrite E, IH, app_assoc. reflexivity.
Qed.

Lemma In_ContainsWord (D : Dictionary) (W : Word) :
  In W (map GetW D) -> ContainsWord D W = true.
Proof.
  intros HIn. destruct (ContainsWord D W) eqn:E; [reflexivity|].
  apply ContainsWord_false in E. contradiction.
Qed.

(** A word that the manual dictionary holds stays in it whatever operations
    follow, and [PrintRecommendedDictionary] never lists an entry with that
    word, also when the persistent dictionary has come to hold it. *)
Theorem manual_words_never_recommended (W : Word) (s s' : State) :
  ContainsWord (ManualDictionary s) W = true -> reaches s s' ->
  ContainsWord (ManualDictionary s') W = true /\
  returns PrintRecommendedDictionary s' (fun V s2 =>
    s2 = s' /\ ~ In W (map GetW V)).
Proof.
  intros Hheld Hr.
  assert (HC : ContainsWord (ManualDictionary s') W = true).
  { apply In_ContainsWord.
    destruct (reaches_ManualDictionary s s' Hr) as [l E]. rewrite E.
    apply in_or_app. left.
    apply ContainsWord_true. exact Hheld. }
  split; [exact HC|].
  unfold PrintRecommendedDictionary.
  apply returns_bind, returns_gets, returns_bind, returns_gets, returns_ret.
  split; [reflexivity|].
  intros HIn. apply in_map_iff in HIn. destruct HIn as (DE & <- & HDE).
  apply filter_In in HDE. destruct HDE as [_ Hneg].
  rewrite HC in Hneg. discriminate Hneg.
Qed.


(** ** RandCh *)

(** [RandCh] returns a byte and changes the random source only. When its
    first draw sends it to the table [Special], the index is drawn below
    [sizeof(Special) - 1], and [Special] is a pointer: of the 30 characters
    of the table only the first 7 can come out, [!*'();:], never the
    others, [0xff] and the zero among them. *)
Theorem RandCh_special_characters (s : State) :
  returns RandCh s (fun c s' =>
    0 <= c < 256 /\
    s' = set_Rand (Rand_ s') s /\
    (fst (Random_bool (Rand_ s)) = false ->
     In c (firstn 7 Special) /\ firstn 7 Special = [33; 42; 39; 40; 41; 59; 58])).
Proof.
  unfold returns. rewrite RandCh_eq.
  split; [apply RandCh_of_range|]. split; [reflexivity|].
  intros Hb. split; [|reflexivity].
  unfold RandCh_of.
  destruct (Random_bool (Rand_ s)) as [b R1]. cbn [fst] in Hb. subst b.
  change (size_t (sizeof_Special - 1)) with 7.
  pose proof (Random_upto_range R1 7 ltac:(lia)) as (Hi0 & Hi1 & _).
  specialize (Hi1 ltac:(lia)).
  destruct (Random_upto R1 7) as [i R2]. cbn [fst] in *.
  assert (Hi : i = 0 \/ i = 1 \/ i = 2 \/ i = 3 \/ i = 4 \/ i = 5 \/ i = 6) by lia.
  repeat (destruct Hi as [-> | Hi]; [vm_compute; tauto|]).
  subst i. vm_compute. tauto.
Qed.

(** ** Mutate_CustomCrossOver *)

Lemma ensures_RandRaw (s : State) (Q : Z -> State -> Prop) :
  (forall r R, Q r (set_Rand R s)) -> ensures RandRaw s Q.
Proof.
  intros H r s' E. unfold RandRaw in E.
  destruct (Random_next (Rand_ s)) as [r0 R]. inversion E; subst. apply H.
Qed.

(** [Mutate_CustomCrossOver] returns 0 at once, the state untouched and the
    callback not called, without a corpus, with a corpus of fewer than 2
    units, or for an empty input. Whenever it returns, the size [n] is
    within [MaxSize]: a callback that answers more stops the program at
    the assertion. When [n] is 0 the caller's buffer is as it was; otherwise
    its first [n] bytes are those the callback left in the scratch vector,
    and the bytes after them are as they were. *)
Theorem Mutate_CustomCrossOver_spec (s : State) (Size MaxSize : Z) :
  0 <= MaxSize ->
  ((Corpus s = None \/ (exists units, Corpus s = Some units /\ len units < 2) \/ Size = 0) ->
   Mutate_CustomCrossOver Size MaxSize s = Some (0, s)) /\
  ensures (Mutate_CustomCrossOver Size MaxSize) s (fun n s' =>
    0 <= n <= MaxSize /\
    (n = 0 -> Data s' = Data s) /\
    (n <> 0 ->
     LLVMFuzzerCustomCrossOver <> None /\ Size <> 0 /\
     (exists units, Corpus s = Some units /\ 2 <= len units) /\
     firstn (nat_of n) (Data s') = firstn (nat_of n) (MutateInPlaceHere s') /\
     skipn (nat_of n) (Data s') = skipn (nat_of n) (Data s))).
Proof.
  intros HM. split.
  - intros Hg. unfold Mutate_CustomCrossOver, bind, gets.
    destruct (Corpus s) as [units|] eqn:EC; [|reflexivity].
    destruct Hg as [Hg | [(u & Hu & Hlt) | ->]]; [discriminate Hg | |].
    + injection Hu as <-. destruct (Z.ltb_spec (len units) 2); [reflexivity | lia].
    + rewrite Z.eqb_refl, orb_true_r. reflexivity.
  - unfold Mutate_CustomCrossOver.
    apply ensures_bind, ensures_gets.
    destruct (Corpus s) as [units|] eqn:EC.
    2:{ apply ensures_ret. repeat split; lia. }
    destruct (Z.ltb_spec (len units) 2) as [Hlt|Hge]; cbn [orb].
    { apply ensures_ret. repeat split; lia. }
    destruct (Z.eqb_spec Size 0) as [->|HS].
    { apply ensures_ret. repeat split; lia. }
    apply ensures_bind, ensures_Rand. intros Idx R _ _.
    apply ensures_bind, ensures_at. intros Other _ _.
    destruct (len Other =? 0).
    { apply ensures_ret. repeat split; lia. }
    apply ensures_bind, ensures_modify, ensures_bind, ensures_gets.
    destruct LLVMFuzzerCustomCrossOver as [f|]; [|apply ensures_abort].
    apply ensures_bind, ensures_RandRaw. intros Seed R'.
    apply ensures_bind, ensures_gets.
    match goal with
    | |- context [f ?a ?b ?c ?d ?e ?g ?h] => destruct (f a b c d e g h) as [NewSize U']
    end.
    apply ensures_bind, ensures_modify.
    pose proof (size_t_range NewSize) as Hn.
    destruct (Z.eqb_spec (size_t NewSize) 0) as [E0|Hne].
    { apply ensures_ret. cbn [Data set_Rand set_MutateInPlaceHere]. repeat split; lia. }
    apply ensures_bind, ensures_assert. intros Hle. apply Z.leb_le in Hle.
    apply ensures_bind, ensures_memmove.
    cbn [read_buf Data MutateInPlaceHere set_Rand set_MutateInPlaceHere].
    intros _ _ HlU _ HlD. cbn [write_buf]. apply ensures_modify, ensures_ret.
    split; [lia|]. split; [intros H; contradiction|]. intros _.
    split; [discriminate|]. split; [exact HS|]. split; [exists units; split; [reflexivity | lia]|].
    cbn [Data MutateInPlaceHere set_Data set_Rand set_MutateInPlaceHere].
    unfold moved. change (nat_of 0) with 0%nat. cbn [firstn skipn app].
    rewrite Z.add_0_l in *.
    assert (Hl : length (firstn (nat_of (size_t NewSize)) U') = nat_of (size_t NewSize)).
    { rewrite length_firstn. unfold len, nat_of in *. lia. }
    split.
    + rewrite firstn_app, Hl, Nat.sub_diag, firstn_O, app_nil_r.
      rewrite firstn_firstn, Nat.min_id. reflexivity.
    + rewrite skipn_app, Hl, Nat.sub_diag, skipn_all2 by lia. reflexivity.
Qed.


(** ** The word that AddWordFromDictionary writes *)

Lemma word_at (d A W C : list Z) (i : nat) :
  d = A ++ W ++ C -> length A = i -> firstn (length W) (skipn i d) = W.
Proof.
  intros -> <-.
  rewrite skipn_app, Nat.sub_diag, skipn_all2 by lia. cbn [app skipn].
  rewrite firstn_app, Nat.sub_diag, firstn_O, app_nil_r. apply firstn_all.
Qed.

(** [AddWordFromDictionary] on an empty dictionary returns 0 and changes
    nothing, without a draw. Otherwise it picks the entry at the index it
    draws and, unless it returns 0 with the buffer as it was, the word [W]
    of that entry is in the buffer it leaves, whole, at some [Idx] within the
    new size: inserted, the bytes of the input around it in their order and
    the size [Size + |W|]; or written over [|W|] bytes of the input, the
    others as they were and the size [Size]. *)
Theorem AddWordFromDictionary_writes_word (s : State) (D : DictId) (Size MaxSize : Z) :
  valid_call s Size MaxSize ->
  let Dv := get_Dictionary D s in
  let i := nat_of (fst (Random_upto (Rand_ s) (len Dv))) in
  returns (AddWordFromDictionary D Size MaxSize) s (fun n s' =>
    match nth_error Dv i with
    | None => Dv = [] /\ n = 0 /\ s' = s
    | Some DE =>
        let W := GetW DE in
        (n = 0 /\ Data s' = Data s) \/
        (n <> 0 /\
         exists Idx : Z,
           0 <= Idx /\ Idx + len W <= n /\
           firstn (length W) (skipn (nat_of Idx) (Data s')) = W /\
           ((n = Size + len W /\ Idx <= Size /\
             firstn (nat_of n) (Data s') =
               firstn (nat_of Idx) (Data s) ++ W ++
               skipn (nat_of Idx) (firstn (nat_of Size) (Data s)) /\
             skipn (nat_of n) (Data s') = skipn (nat_of n) (Data s)) \/
            (n = Size /\
             Data s' = firstn (nat_of Idx) (Data s) ++ W ++
                       skipn (nat_of (Idx + len W)) (Data s))))
    end).
Proof.
  intros (HS & Hlen & Hmax & Hwf & _) Dv i. specialize (Hwf D). fold Dv in Hwf.
  unfold PTRDIFF_MAX in Hmax. pose proof SIZE_MOD_eq as HM.
  unfold AddWordFromDictionary.
  apply returns_bind, returns_gets. fold Dv.
  destruct (Z.eqb_spec (len Dv) 0) as [E0|Hne0].
  { apply returns_ret.
    assert (EDv : Dv = []) by (destruct Dv; [reflexivity | unfold len in E0; simpl in E0; lia]).
    subst i. rewrite EDv. simpl. repeat split; reflexivity. }
  pose proof (len_nonneg Dv) as HDv0.
  apply returns_bind, returns_Rand; [lia|]. intros r R Hi0 Hi1 _ Hr _.
  specialize (Hi1 ltac:(lia)).
  assert (Ei : nat_of r = i) by (subst r; reflexivity).
  destruct (nth_error Dv i) as [DE|] eqn:Hnth.
  2:{ apply nth_error_None in Hnth. unfold len, nat_of in *. lia. }
  eapply returns_bind, returns_at; [lia | rewrite Ei; exact Hnth |].
  pose proof (proj1 (Forall_forall _ _) Hwf DE (nth_error_In _ _ Hnth)) as (HW & Hh & HU).
  unfold PTRDIFF_MAX, SIZE_MAX in *.
  cbv zeta.
  set (W := GetW DE) in *. pose proof (len_nonneg W) as HW0.
  assert (HlW : length W = nat_of (len W)) by (unfold len, nat_of; lia).
  apply returns_bind.
  apply returns_weaken with
    (P := fun (u : bool) s1 =>
            (exists R', s1 = set_Rand R' s) /\
            (u = true -> exists h, PositionHint DE = Some h /\ 0 <= h /\ h + len W < Size)).
  { destruct (PositionHint DE) as [h|] eqn:Eh.
    - specialize (Hh h eq_refl). rewrite (size_t_small (h + len W)) by lia.
      destruct (Z.ltb_spec (h + len W) Size) as [Hfit|Hnofit].
      + apply returns_RandBool. intros b R' _ _. split; [eexists; reflexivity|].
        intros _. exists h. repeat split; lia.
      + apply returns_ret. split; [eexists; reflexivity | discriminate].
    - apply returns_ret. split; [eexists; reflexivity | discriminate]. }
  intros UsePositionHint s1 [[R1 ->] Hhint]. cbv beta.
  apply returns_bind, returns_RandBool. intros b R2 _ _. cbv beta.
  assert (Hsucceed : forall s2 n (Q : Z -> State -> Prop),
    get_Dictionary D s2 = Dv -> (forall s3, Data s3 = Data s2 -> Q n s3) ->
    returns (update_through (D, nat_of r) IncUseCount;;
             modify (fun s0 => set_CurrentDictionaryEntrySequence
                                 (CurrentDictionaryEntrySequence s0 ++ [(D, nat_of r)]) s0);;
             ret n) s2 Q).
  { intros s2 n Q HD HQ.
    eapply returns_bind, returns_update_through.
    { cbn [fst snd]. rewrite HD, Ei. exact Hnth. }
    apply returns_bind, returns_modify, returns_ret.
    apply HQ. destruct D; reflexivity. }
  destruct b.
  - rewrite (size_t_small (Size + len W)) by lia.
    rewrite Z.gtb_ltb.
    destruct (Z.ltb_spec MaxSize (Size + len W)) as [Hbig|Hok].
    { apply returns_ret. left. split; reflexivity. }
    apply returns_bind.
    apply returns_weaken with
      (P := fun Idx s1 => 0 <= Idx <= Size /\ exists R', s1 = set_Rand R' s).
    { destruct UsePositionHint.
      - destruct (Hhint eq_refl) as (h & -> & Hh0 & Hh1).
        apply returns_ret. split; [lia|]. eexists. reflexivity.
      - rewrite (size_t_small (Size + 1)) by lia.
        apply returns_Rand; [lia|]. intros Idx R' HI0 HI _ _ _ .
        split; [lia|]. eexists. reflexivity. }
    intros Idx s1 (HIdx & R' & ->). cbv beta.
    rewrite (size_t_small (Size - Idx)) by lia.
    apply returns_bind, returns_memmove; cbn [read_buf Data set_Rand]; try lia.
    cbn [write_buf]. apply returns_modify.
    unfold memcpy.
    apply returns_bind, returns_memmove; cbn [read_buf Data set_Data set_Rand]; try lia.
    { rewrite len_moved; lia. }
    cbn [write_buf]. apply returns_modify.
    apply Hsucceed.
    { rewrite !get_Dictionary_set_Data, get_Dictionary_set_Rand. reflexivity. }
    intros s3 ->. cbn [Data set_Data]. right. split; [lia|].
    assert (HlD : (nat_of Size + nat_of (len W) <= length (Data s))%nat)
      by (unfold len, nat_of in *; lia).
    assert (HPos : (nat_of Idx <= nat_of Size)%nat) by (unfold nat_of; lia).
    assert (Hfirst :
      firstn (nat_of (Size + len W))
        (moved (moved (Data s) (Idx + len W) (Data s) Idx (Size - Idx)) Idx W 0 (len W)) =
      firstn (nat_of Idx) (Data s) ++ W ++ skipn (nat_of Idx) (firstn (nat_of Size) (Data s)) /\
      skipn (nat_of (Size + len W))
        (moved (moved (Data s) (Idx + len W) (Data s) Idx (Size - Idx)) Idx W 0 (len W)) =
      skipn (nat_of (Size + len W)) (Data s)).
    { unfold moved. change (nat_of 0) with 0%nat. cbn [skipn].
      rewrite <- HlW, firstn_all.
      replace (nat_of (Size + len W)) with (nat_of Size + length W)%nat
        by (unfold nat_of, len in *; lia).
      replace (nat_of (Idx + len W)) with (nat_of Idx + length W)%nat
        by (unfold nat_of, len in *; lia).
      replace (nat_of (Idx + len W + (Size - Idx)))
        with (nat_of Idx + length W + (nat_of Size - nat_of Idx))%nat
        by (unfold nat_of, len in *; lia).
      replace (nat_of (Size - Idx)) with (nat_of Size - nat_of Idx)%nat
        by (unfold nat_of; lia).
      split; [apply firstn_inserted | apply skipn_inserted];
        try reflexivity; try assumption; lia. }
    destruct Hfirst as [Hf Hsk].
    exists Idx. split; [lia|]. split; [lia|]. split.
    + eapply word_at with (A := firstn (nat_of Idx) (Data s))
        (C := skipn (nat_of Idx) (firstn (nat_of Size) (Data s)) ++
              skipn (nat_of (Size + len W)) (Data s)).
      * etransitivity; [symmetry; apply (firstn_skipn (nat_of (Size + len W)))|].
        rewrite Hf, Hsk, <- !app_assoc. reflexivity.
      * rewrite length_firstn. unfold len, nat_of in *. lia.
    + left. split; [reflexivity|]. split; [lia|]. split; assumption.
  - rewrite Z.gtb_ltb.
    destruct (Z.ltb_spec Size (len W)) as [Hbig|Hok].
    { apply returns_ret. left. split; reflexivity. }
    apply returns_bind.
    apply returns_weaken with
      (P := fun Idx s1 => 0 <= Idx /\ Idx + len W <= Size /\ exists R', s1 = set_Rand R' s).
    { destruct UsePositionHint.
      - destruct (Hhint eq_refl) as (h & -> & Hh0 & Hh1).
        apply returns_ret. split; [lia|]. split; [lia|]. eexists. reflexivity.
      - rewrite (size_t_small (Size - len W)) by lia.
        apply returns_Rand; [lia|]. intros Idx R' HI0 HI HI' _ _ .
        split; [lia|]. split; [lia|]. eexists. reflexivity. }
    intros Idx s1 (HIdx0 & HIdx & R' & ->). cbv beta.
    unfold memcpy.
    apply returns_bind, returns_memmove; cbn [read_buf Data set_Rand]; try lia.
    cbn [write_buf]. apply returns_modify.
    apply Hsucceed.
    { rewrite !get_Dictionary_set_Data, get_Dictionary_set_Rand. reflexivity. }
    intros s3 ->. cbn [Data set_Data]. right. split; [lia|].
    assert (Em : moved (Data s) Idx W 0 (len W) =
                 firstn (nat_of Idx) (Data s) ++ W ++ skipn (nat_of (Idx + len W)) (Data s)).
    { unfold moved. change (nat_of 0) with 0%nat. cbn [skipn].
      rewrite <- HlW, firstn_all. reflexivity. }
    exists Idx. split; [lia|]. split; [lia|]. split.
    + eapply word_at; [exact Em|].
      rewrite length_firstn. unfold len, nat_of in *. lia.
    + right. split; [reflexivity | exact Em].
Qed.


(** ** Mutate_ChangeASCIIInteger *)

Lemma skipn_nth_error {A} (l : list A) (n : nat) (x : A) :
  nth_error l n = Some x -> skipn n l = x :: skipn (S n) l.
Proof.
  revert l. induction n as [|n IH]; intros [|a l] H; simpl in H; try discriminate.
  - injection H as ->. reflexivity.
  - apply (IH l H).
Qed.

Lemma firstn_snoc_nth_error {A} (l : list A) (n : nat) (x : A) :
  nth_error l n = Some x -> firstn (S n) l = firstn n l ++ [x].
Proof.
  revert l. induction n as [|n IH]; intros [|a l] H; simpl in H; try discriminate.
  - injection H as ->. reflexivity.
  - cbn [firstn app]. f_equal. apply (IH l H).
Qed.

(** [scan_while] with the run it has passed: [p] holds for every byte of
    [[B, E)], and fails at [E] if [E] is within the input. *)
Lemma returns_scan_while_run (p : Z -> bool) (Size : Z) (s : State) :
  Size <= len (Data s) ->
  forall (fuel : nat) (B : Z),
  0 <= B <= Size -> Size - B <= Z.of_nat fuel ->
  returns (scan_while fuel p Size B) s (fun E s' =>
    s' = s /\ B <= E <= Size /\
    Forall (fun x => p x = true) (firstn (nat_of (E - B)) (skipn (nat_of B) (Data s))) /\
    (E < Size -> exists x, nth_error (Data s) (nat_of E) = Some x /\ p x = false)).
Proof.
  intros Hlen. induction fuel as [|fuel IH]; intros B HB Hfuel.
  - assert (B = Size) by lia. subst B.
    cbn [scan_while]. rewrite Z.ltb_irrefl. apply returns_ret.
    rewrite Z.sub_diag. repeat split; try lia. constructor.
  - cbn [scan_while].
    destruct (Z.ltb_spec B Size) as [Hlt|Hge].
    + apply returns_bind, returns_load; cbn [read_buf]; [lia|]. intros x Hx.
      destruct (p x) eqn:Ep.
      * eapply returns_weaken; [apply (IH (B + 1)); lia|].
        intros E s' (-> & HE & Hrun & Hstop).
        split; [reflexivity|]. split; [lia|]. split; [|exact Hstop].
        rewrite (skipn_nth_error _ _ _ Hx).
        replace (nat_of (E - B)) with (S (nat_of (E - (B + 1)))) by (unfold nat_of; lia).
        cbn [firstn]. constructor; [exact Ep|].
        replace (S (nat_of B)) with (nat_of (B + 1)) by (unfold nat_of; lia).
        exact Hrun.
      * apply returns_ret. rewrite Z.sub_diag.
        split; [reflexivity|]. split; [lia|]. split; [constructor|].
        intros _. exists x. split; assumption.
    + apply returns_ret. rewrite Z.sub_diag. repeat split; try lia. constructor.
Qed.

Lemma decimal_snoc (ds : list Z) (c : Z) : decimal (ds ++ [c]) = decimal ds * 10 + c - 48.
Proof. unfold decimal. rewrite fold_left_app. reflexivity. Qed.

Lemma uint64_t_step (a x : Z) :
  uint64_t (uint64_t a * 10 + x - 48) = uint64_t (a * 10 + x - 48).
Proof.
  unfold uint64_t, uintN.
  replace (a mod 2 ^ 64 * 10 + x - 48) with (a mod 2 ^ 64 * 10 + (x - 48)) by lia.
  replace (a * 10 + x - 48) with (a * 10 + (x - 48)) by lia.
  rewrite <- Zplus_mod_idemp_l, Zmult_mod_idemp_l, Zplus_mod_idemp_l. reflexivity.
Qed.

Lemma digits_bytes (n : nat) (v : Z) : Forall (fun c => isdigit c = true) (digits n v).
Proof.
  revert v. induction n as [|n IH]; intros v; cbn [digits]; [constructor|].
  apply Forall_app. split; [apply IH|]. constructor; [|constructor].
  pose proof (Z.mod_pos_bound v 10 ltac:(lia)) as H.
  unfold isdigit. apply andb_true_intro. split; apply Z.leb_le; lia.
Qed.

Lemma length_digits (n : nat) (v : Z) : length (digits n v) = n.
Proof.
  revert v. induction n as [|n IH]; intros v; cbn [digits]; [reflexivity|].
  rewrite length_app, IH. simpl. lia.
Qed.

(** The digit after the [k] low ones, in front of them. *)
Lemma digits_cons (k : nat) (v : Z) :
  digits (S k) v = ((v / 10 ^ Z.of_nat k) mod 10 + 48) :: digits k v.
Proof.
  revert v. induction k as [|k IH]; intros v.
  - cbn [digits app]. rewrite Z.pow_0_r, Z.div_1_r. reflexivity.
  - change (digits (S (S k)) v) with (digits (S k) (v / 10) ++ [v mod 10 + 48]).
    rewrite IH. cbn [digits app]. f_equal.
    rewrite Nat2Z.inj_succ, Z.pow_succ_r by lia.
    rewrite Z.div_div by (try lia; apply Z.pow_pos_nonneg; lia). reflexivity.
Qed.

(** Read back, the [n] digits of [v] are [v] modulo [10 ^ n]. *)
Lemma decimal_digits (n : nat) (v : Z) : decimal (digits n v) = v mod 10 ^ Z.of_nat n.
Proof.
  revert v. induction n as [|n IH]; intros v.
  - simpl. symmetry. apply Z.mod_1_r.
  - cbn [digits]. rewrite decimal_snoc, IH.
    rewrite Nat2Z.inj_succ, Z.pow_succ_r by lia.
    rewrite Z.rem_mul_r by (try lia; apply Z.pow_pos_nonneg; lia). lia.
Qed.

(** [Mutate_ChangeASCIIInteger] looks for the first decimal digit at or
    after a position [B0] it draws. Without one it returns 0 and the buffer
    is as it was. Otherwise it returns [Size]: the digits [[B, E)] from that
    one up to the next byte that is no digit are read as an integer, the
    integer is changed as [ASCII_integer_changed] has it, and its
    [E - B] low decimal digits are written over the run, zeros in front if
    need be. The bytes outside the run are as they were, the run is a run
    of digits as before, and read back it is the new value modulo
    [10 ^ (E - B)]. *)
Theorem Mutate_ChangeASCIIInteger_spec (s : State) (Size MaxSize : Z) :
  0 < Size <= len (Data s) -> Size <= PTRDIFF_MAX ->
  let B0 := fst (Random_upto (Rand_ s) Size) in
  returns (Mutate_ChangeASCIIInteger Size MaxSize) s (fun n s' =>
    (n = 0 /\ Data s' = Data s /\
     Forall (fun c => isdigit c = false)
       (firstn (nat_of (Size - B0)) (skipn (nat_of B0) (Data s)))) \/
    (n = Size /\
     exists B E NewVal : Z,
       B0 <= B < E /\ E <= Size /\
       Forall (fun c => isdigit c = false)
         (firstn (nat_of (B - B0)) (skipn (nat_of B0) (Data s))) /\
       Forall (fun c => isdigit c = true)
         (firstn (nat_of (E - B)) (skipn (nat_of B) (Data s))) /\
       (E < Size -> exists c, nth_error (Data s) (nat_of E) = Some c /\ isdigit c = false) /\
       ASCII_integer_changed
         (uint64_t (decimal (firstn (nat_of (E - B)) (skipn (nat_of B) (Data s))))) NewVal /\
       Data s' = firstn (nat_of B) (Data s) ++ digits (nat_of (E - B)) NewVal ++
                 skipn (nat_of E) (Data s) /\
       Forall (fun c => isdigit c = true) (digits (nat_of (E - B)) NewVal) /\
       decimal (digits (nat_of (E - B)) NewVal) = NewVal mod 10 ^ (E - B))).
Proof.
  clear OnlyASCII DictionaryEntry_make DictionaryEntry_GetW CrossOver
    LLVMFuzzerCustomMutator LLVMFuzzerCustomCrossOver.
  intros HS Hmax B0. unfold PTRDIFF_MAX in Hmax. pose proof SIZE_MOD_eq as HM.
  unfold Mutate_ChangeASCIIInteger.
  apply returns_bind, returns_Rand; [lia|]. intros b0 R Hb0 Hb1 _ Eb0 _.
  fold B0 in Eb0. subst b0. specialize (Hb1 ltac:(lia)).
  set (s1 := set_Rand R s).
  assert (Hlen1 : Size <= len (Data s1)) by (cbn [Data s1 set_Rand]; lia).
  apply returns_bind.
  eapply returns_weaken.
  { apply (returns_scan_while_run (fun x => negb (isdigit x)) Size s1 Hlen1 (nat_of Size) B0);
      unfold nat_of; lia. }
  intros B s' (-> & HB & HrunB & HstopB). cbv beta. cbn [Data s1 set_Rand] in HrunB, HstopB.
  assert (HnonB : Forall (fun c => isdigit c = false)
                    (firstn (nat_of (B - B0)) (skipn (nat_of B0) (Data s)))).
  { eapply Forall_impl; [|exact HrunB]. intros c Hc. apply negb_true_iff. exact Hc. }
  destruct (Z.eqb_spec B Size) as [->|HBne].
  { apply returns_ret. left. split; [reflexivity|]. split; [reflexivity | exact HnonB]. }
  destruct (HstopB ltac:(lia)) as (x & Hx & Hdx).
  apply negb_false_iff in Hdx.
  apply returns_bind.
  eapply returns_weaken.
  { apply (returns_scan_while_run isdigit Size s1 Hlen1 (nat_of Size) B); unfold nat_of; lia. }
  intros E s' (-> & HE & HrunE & HstopE). cbv beta. cbn [Data s1 set_Rand] in HrunE, HstopE.
  set (D := Data s) in *.
  set (run := firstn (nat_of (E - B)) (skipn (nat_of B) D)) in *.
  assert (HBltE : B < E).
  { destruct (Z.eq_dec E B) as [->|]; [|lia].
    destruct (HstopE ltac:(lia)) as (y & Hy & Hdy). rewrite Hx in Hy.
    injection Hy as <-. rewrite Hdx in Hdy. discriminate. }
  apply returns_bind, returns_assert. { apply Z.ltb_lt. exact HBltE. }
  apply returns_bind, returns_load; cbn [read_buf Data s1 set_Rand]; [fold D; lia|].
  intros x0 Hx0. fold D in Hx0. rewrite Hx in Hx0. injection Hx0 as <-.
  (* the parse *)
  apply returns_bind. unfold For.
  eapply returns_weaken.
  { apply (returns_for_loop (fun j (Val : Z) s' =>
             s' = s1 /\
             Val = uint64_t (decimal (firstn (nat_of (j - B)) (skipn (nat_of B) D))))).
    - split; [reflexivity|].
      replace (nat_of (B + 1 - B)) with 1%nat by (unfold nat_of; lia).
      rewrite (skipn_nth_error _ _ _ Hx). cbn [firstn]. unfold decimal.
      cbn [fold_left]. reflexivity.
    - intros j Val s2 Hj [-> HVal].
      assert (Hjl : B + 1 <= j < E) by (unfold nat_of in Hj; lia).
      apply returns_bind, returns_load; cbn [read_buf Data s1 set_Rand]; [fold D; lia|].
      intros y Hy. fold D in Hy.
      apply returns_ret. split; [reflexivity|].
      rewrite HVal, uint64_t_step. f_equal.
      replace (nat_of (j + 1 - B)) with (S (nat_of (j - B))) by (unfold nat_of; lia).
      rewrite (firstn_snoc_nth_error _ _ y), decimal_snoc; [reflexivity|].
      rewrite nth_error_skipn.
      replace (nat_of B + nat_of (j - B))%nat with (nat_of j) by (unfold nat_of; lia).
      exact Hy. }
  intros Val s' [-> HVal]. cbv beta.
  replace (B + 1 + Z.of_nat (nat_of (E - (B + 1)))) with E in HVal by (unfold nat_of; lia).
  fold run in HVal.
  (* the change *)
  apply returns_bind, returns_Rand; [lia|]. intros k R' Hk0 Hk1 _ _ _.
  specialize (Hk1 ltac:(lia)).
  apply returns_bind.
  apply returns_weaken with
    (P := fun (NewVal : Z) s' =>
            (exists R2, s' = set_Rand R2 s) /\ 0 <= NewVal < SIZE_MOD /\
            ASCII_integer_changed Val NewVal).
  { assert (HValr : 0 <= Val < SIZE_MOD) by (rewrite HVal; apply uint64_t_range).
    unfold ASCII_integer_changed.
    destruct (Z.eqb_spec k 0); [apply returns_ret; split; [eexists; reflexivity|];
      split; [apply uint64_t_range | tauto]|].
    destruct (Z.eqb_spec k 1); [apply returns_ret; split; [eexists; reflexivity|];
      split; [apply uint64_t_range | tauto]|].
    destruct (Z.eqb_spec k 2).
    { apply returns_ret. split; [eexists; reflexivity|]. split; [|tauto].
      clear - HValr HM. Z.div_mod_to_equations. lia. }
    destruct (Z.eqb_spec k 3); [apply returns_ret; split; [eexists; reflexivity|];
      split; [apply uint64_t_range | tauto]|].
    destruct (Z.eqb_spec k 4); [|lia].
    pose proof (uint64_t_range (Val * Val)) as Hsq.
    apply returns_Rand; [lia|]. intros r R2 Hr0 Hr1 Hr2 _ _.
    split; [eexists; reflexivity|]. split.
    - destruct (Z.eq_dec (uint64_t (Val * Val)) 0) as [E0|E0]; [rewrite (Hr2 E0); lia|].
      specialize (Hr1 ltac:(lia)). lia.
    - do 4 right.
      destruct (Z.eq_dec (uint64_t (Val * Val)) 0) as [E0|E0].
      + right. split; [exact E0 | exact (Hr2 E0)].
      + left. specialize (Hr1 ltac:(lia)). lia. }
  intros NewVal s2 ([R2 ->] & HNew & Hchanged). cbv beta.
  (* the digits written *)
  apply returns_bind. unfold For.
  assert (HlD : (nat_of E <= length D)%nat) by (unfold D, len, nat_of in *; lia).
  eapply returns_weaken.
  { apply (returns_for_loop (fun j (V : Z) s' =>
             exists k : nat, j = B + Z.of_nat k /\
               V = NewVal / 10 ^ Z.of_nat k /\
               s' = set_Data (firstn (nat_of E - k) D ++ digits k NewVal ++ skipn (nat_of E) D)
                      (set_Rand R2 s))).
    - exists 0%nat. split; [lia|]. split; [rewrite Z.pow_0_r, Z.div_1_r; reflexivity|].
      cbn [digits app]. rewrite Nat.sub_0_r, firstn_skipn. destruct s; reflexivity.
    - intros j V s3 Hj (k0 & -> & -> & ->).
      assert (HkE : B + Z.of_nat k0 < E) by (unfold nat_of in Hj; lia).
      rewrite (size_t_small (E + B - (B + Z.of_nat k0) - 1)) by lia.
      apply returns_bind, returns_assert.
      { apply andb_true_intro. split; [apply Z.geb_le | apply Z.ltb_lt]; lia. }
      assert (Hidx : nat_of (E + B - (B + Z.of_nat k0) - 1) = (nat_of E - k0 - 1)%nat)
        by (unfold nat_of; lia).
      assert (Hlk : (k0 + 1 <= nat_of E)%nat) by (unfold nat_of; lia).
      apply returns_bind, returns_store; cbn [read_buf Data set_Data set_Rand].
      { unfold len. rewrite !length_app, length_firstn, length_digits, length_skipn.
        unfold nat_of in *. lia. }
      cbn [write_buf]. apply returns_modify, returns_ret.
      exists (S k0). split; [lia|]. split.
      { rewrite Nat2Z.inj_succ, Z.pow_succ_r by lia.
        rewrite Z.div_div by (try lia; apply Z.pow_pos_nonneg; lia).
        f_equal. lia. }
      rewrite set_Data_set_Data. f_equal.
      rewrite Hidx.
      pose proof (Z.mod_pos_bound (NewVal / 10 ^ Z.of_nat k0) 10 ltac:(lia)) as Hm.
      unfold uint8_t, uintN. rewrite Z.mod_small by (simpl; lia).
      rewrite digits_cons.
      set (X := firstn (nat_of E - k0) D ++ digits k0 NewVal ++ skipn (nat_of E) D).
      assert (HX1 : firstn (nat_of E - k0 - 1) X = firstn (nat_of E - S k0) D).
      { unfold X. rewrite firstn_app, firstn_firstn, length_firstn.
        replace (Nat.min (nat_of E - k0 - 1) (nat_of E - k0)) with (nat_of E - S k0)%nat by lia.
        replace (nat_of E - k0 - 1 - Nat.min (nat_of E - k0) (length D))%nat with 0%nat by lia.
        rewrite firstn_O. apply app_nil_r. }
      assert (HX2 : skipn (nat_of E - k0 - 1 + 1) X = digits k0 NewVal ++ skipn (nat_of E) D).
      { unfold X. rewrite skipn_app, length_firstn.
        rewrite skipn_all2 by (rewrite length_firstn; lia).
        replace (nat_of E - k0 - 1 + 1 - Nat.min (nat_of E - k0) (length D))%nat
          with 0%nat by lia.
        reflexivity. }
      rewrite HX1, HX2. reflexivity. }
  intros V s3 (k0 & HkB & _ & ->). cbv beta.
  assert (Ek0 : k0 = nat_of (E - B)) by (unfold nat_of in *; lia). subst k0.
  apply returns_ret. right. split; [reflexivity|].
  exists B, E, NewVal.
  split; [lia|]. split; [lia|]. split; [exact HnonB|]. split; [exact HrunE|].
  split; [exact HstopE|]. split; [rewrite HVal in Hchanged; exact Hchanged|].
  split.
  { cbn [Data set_Data]. do 2 f_equal. unfold nat_of. lia. }
  split; [apply digits_bytes|].
  rewrite decimal_digits. f_equal. f_equal. unfold nat_of. lia.
Qed.


(** ** RecordSuccessfulMutationSequence on any chain *)

Lemma iter_IncSuccessCount_GetW (n : nat) (X : DictionaryEntry) :
  GetW (Nat.iter n IncSuccessCount X) = GetW X.
Proof. induction n as [|n IH]; [reflexivity | exact IH]. Qed.

(** The loop of [RecordSuccessfulMutationSequence] over the pointers [l],
    each to an entry that exists. *)
Lemma returns_Record_loop (l : list DEptr) :
  forall s : State,
  (forall p, In p l -> exists E, nth_error (get_Dictionary (fst p) s) (snd p) = Some E) ->
  returns (for_each l RecordSuccessfulMutationSequence_body) s (fun _ s' =>
    (forall q X, nth_error (get_Dictionary (fst q) s) (snd q) = Some X ->
       nth_error (get_Dictionary (fst q) s') (snd q) =
       Some (Nat.iter (uses l q) IncSuccessCount X)) /\
    exists new : list Word,
      map GetW (PersistentAutoDictionary s') =
        map GetW (PersistentAutoDictionary s) ++ new /\
      NoDup new /\
      (forall W, In W new ->
         ~ In W (map GetW (PersistentAutoDictionary s)) /\
         exists p E, In p l /\
                     nth_error (get_Dictionary (fst p) s) (snd p) = Some E /\ GetW E = W) /\
      (forall W p E,
         ~ In W (map GetW (PersistentAutoDictionary s)) ->
         In p l -> nth_error (get_Dictionary (fst p) s) (snd p) = Some E -> GetW E = W ->
         In W new \/ kMaxDictSize <= len (PersistentAutoDictionary s')) /\
      (len (PersistentAutoDictionary s) <= kMaxDictSize ->
       len (PersistentAutoDictionary s') <= kMaxDictSize)).
Proof.
  assert (HL : forall t, len (PersistentAutoDictionary t) =
                         len (map GetW (PersistentAutoDictionary t))).
  { intros t. unfold len. rewrite length_map. reflexivity. }
  induction l as [|p l IH]; intros s Hex; cbn [for_each].
  - apply returns_ret. split; [intros q X HX; exact HX|].
    exists []. split; [rewrite app_nil_r; reflexivity|]. split; [constructor|].
    split; [intros W []|]. split; [intros W q E _ []|]. auto.
  - destruct (Hex p (or_introl eq_refl)) as [Ep HEp].
    apply returns_bind.
    eapply returns_weaken; [apply (RecordSuccessfulMutationSequence_body_spec p Ep s HEp)|].
    intros [] s1 (HA & HB1 & HB2). cbv beta.
    pose proof (round_outcome (GetW Ep) s s1 HB1 HB2) as R. clear HB1 HB2.
    assert (Hsame : forall q X, nth_error (get_Dictionary (fst q) s) (snd q) = Some X ->
              exists X1, nth_error (get_Dictionary (fst q) s1) (snd q) = Some X1 /\
                         GetW X1 = GetW X /\
                         X1 = if DEptr_eq_dec p q then IncSuccessCount X else X).
    { intros q X HX. destruct (HA q X HX) as [Ha Hb].
      destruct (DEptr_eq_dec p q) as [Heq|Hne].
      - exists (IncSuccessCount X). split; [apply Ha; congruence | split; reflexivity].
      - exists X. split; [apply Hb; congruence | split; reflexivity]. }
    assert (Hex1 : forall q, In q l ->
              exists E, nth_error (get_Dictionary (fst q) s1) (snd q) = Some E).
    { intros q Hq. destruct (Hex q (or_intror Hq)) as [E HE].
      destruct (Hsame q E HE) as (X1 & H1 & _). exists X1. exact H1. }
    eapply returns_weaken; [apply (IH s1 Hex1)|].
    intros [] s' (HC & new1 & HW & HND & Hfwd & Hbwd & Hbound). cbv beta.
    split.
    { intros q X HX. destruct (Hsame q X HX) as (X1 & H1 & _ & EX1).
      rewrite (HC q X1 H1). f_equal. subst X1. unfold uses. cbn [count_occ].
      destruct (DEptr_eq_dec p q) as [Heq|Hne]; [|reflexivity].
      symmetry. apply Nat.iter_succ_r. }
    assert (Hback : forall q E1, In q l ->
              nth_error (get_Dictionary (fst q) s1) (snd q) = Some E1 ->
              exists E, nth_error (get_Dictionary (fst q) s) (snd q) = Some E /\
                        GetW E = GetW E1).
    { intros q E1 Hq H1. destruct (Hex q (or_intror Hq)) as [E HE].
      destruct (Hsame q E HE) as (X1 & H1' & HG & _).
      rewrite H1 in H1'. injection H1' as <-. exists E. split; [exact HE | symmetry; exact HG]. }
    rewrite (HL s') in *. rewrite (HL s1) in Hbound. rewrite (HL s).
    set (old := map GetW (PersistentAutoDictionary s)) in *.
    set (old1 := map GetW (PersistentAutoDictionary s1)) in *.
    destruct R as [[E1 Hheld] | (E1 & Hnin & Hroom)]; rewrite E1 in *; clear E1.
    + (* the Word of [p] is held, or the dictionary is full *)
      exists new1. split; [exact HW|]. split; [exact HND|]. split; [|split].
      * intros W HIn. destruct (Hfwd W HIn) as (Hn & q & E1 & Hq & H1 & HG).
        split; [exact Hn|].
        destruct (Hback q E1 Hq H1) as (E & HE & HGE).
        exists q, E. split; [right; exact Hq|]. split; [exact HE | congruence].
      * intros W q E Hn Hq HE HG.
        destruct Hq as [<- | Hq].
        { rewrite HEp in HE. injection HE as <-. subst W.
          destruct Hheld as [Hh | Hfull]; [contradiction|].
          right. rewrite HW. unfold len in *. rewrite length_app. lia. }
        destruct (Hsame q E HE) as (X1 & H1 & HG1 & _).
        apply (Hbwd W q X1 Hn Hq H1). congruence.
      * exact Hbound.
    + (* the Word of [p] is new and there is room *)
      exists (GetW Ep :: new1).
      split; [rewrite HW, <- app_assoc; reflexivity|].
      split.
      { constructor; [|exact HND].
        intros Hin1. apply Hfwd in Hin1. destruct Hin1 as [Hn _].
        apply Hn. apply in_or_app. right. left. reflexivity. }
      split; [|split].
      * intros W [<- | Hin1].
        { split; [exact Hnin|]. exists p, Ep. split; [left; reflexivity|].
          split; [exact HEp | reflexivity]. }
        apply Hfwd in Hin1. destruct Hin1 as (Hn & q & E1 & Hq & H1 & HG).
        split; [intros Ho; apply Hn; apply in_or_app; left; exact Ho|].
        destruct (Hback q E1 Hq H1) as (E & HE & HGE).
        exists q, E. split; [right; exact Hq|]. split; [exact HE | congruence].
      * intros W q E Hn Hq HE HG.
        destruct (list_eq_dec Z.eq_dec (GetW Ep) W) as [HeqW|HneW];
          [left; left; exact HeqW|].
        destruct Hq as [<- | Hq].
        { rewrite HEp in HE. injection HE as <-. contradiction. }
        destruct (Hsame q E HE) as (X1 & H1 & HG1 & _).
        destruct (Hbwd W q X1) as [Hin1 | Hfull]; try assumption; try congruence.
        { intros Ho. apply in_app_or in Ho. destruct Ho as [Ho | [Ho | []]];
            [contradiction | contradiction]. }
        { left. right. exact Hin1. }
        { right. exact Hfull. }
      * intros _. apply Hbound. unfold len in *. rewrite length_app. cbn [length]. lia.
Qed.

(** [RecordSuccessfulMutationSequence] on any chain whose pointers are to
    entries that exist. The success counter of an entry is incremented once
    for every use of the entry in the chain, and nothing else of an entry
    changes. The persistent dictionary keeps its words and gets at its end,
    each once, words of used entries that it did not hold; it gets every
    such word unless it ends full, and a dictionary within its capacity
    stays within it. The chain itself is left as it is: a second call
    counts every use again. *)
Theorem RecordSuccessfulMutationSequence_spec (s : State) :
  (forall p, In p (CurrentDictionaryEntrySequence s) ->
     exists E, nth_error (get_Dictionary (fst p) s) (snd p) = Some E) ->
  returns RecordSuccessfulMutationSequence s (fun _ s' =>
    (forall q X, nth_error (get_Dictionary (fst q) s) (snd q) = Some X ->
       nth_error (get_Dictionary (fst q) s') (snd q) =
       Some (Nat.iter (uses (CurrentDictionaryEntrySequence s) q) IncSuccessCount X)) /\
    CurrentDictionaryEntrySequence s' = CurrentDictionaryEntrySequence s /\
    exists new : list Word,
      map GetW (PersistentAutoDictionary s') =
        map GetW (PersistentAutoDictionary s) ++ new /\
      NoDup new /\
      (forall W, In W new ->
         ~ In W (map GetW (PersistentAutoDictionary s)) /\
         exists p E, In p (CurrentDictionaryEntrySequence s) /\
                     nth_error (get_Dictionary (fst p) s) (snd p) = Some E /\ GetW E = W) /\
      (forall W p E,
         ~ In W (map GetW (PersistentAutoDictionary s)) ->
         In p (CurrentDictionaryEntrySequence s) ->
         nth_error (get_Dictionary (fst p) s) (snd p) = Some E -> GetW E = W ->
         In W new \/ kMaxDictSize <= len (PersistentAutoDictionary s')) /\
      (len (PersistentAutoDictionary s) <= kMaxDictSize ->
       len (PersistentAutoDictionary s') <= kMaxDictSize)).
Proof.
  intros Hex. unfold RecordSuccessfulMutationSequence.
  apply returns_bind, returns_gets.
  pose proof (returns_Record_loop (CurrentDictionaryEntrySequence s) s Hex) as Hr.
  assert (Hk : ensures (for_each (CurrentDictionaryEntrySequence s)
                          RecordSuccessfulMutationSequence_body) s
                 (fun _ s' => CurrentDictionaryEntrySequence s' =
                              CurrentDictionaryEntrySequence s)).
  { apply (unchanged_for_each CurrentDictionaryEntrySequence). intros DE.
    unfold RecordSuccessfulMutationSequence_body.
    apply unchanged_bind.
    { apply unchanged_update_through; intros; destruct D; reflexivity. }
    intros _. apply unchanged_bind; [apply unchanged_deref|]. intros E.
    apply unchanged_bind; [apply unchanged_gets|]. intros P.
    destruct (negb _); [|apply unchanged_ret].
    apply unchanged_modify. intros s0. reflexivity. }
  eapply returns_weaken; [apply (returns_and_ensures _ _ _ _ Hr Hk)|].
  intros [] s' ((HC & Hnew) & Hseq). split; [exact HC|]. split; [exact Hseq | exact Hnew].
Qed.


(** ** A chain of one mutation, printed *)

Lemma bookkeeping_inv (s s' : State) :
  bookkeeping s' = bookkeeping s ->
  dictionaries s' = dictionaries s /\
  CurrentMutatorSequence s' = CurrentMutatorSequence s /\
  CurrentDictionaryEntrySequence s' = CurrentDictionaryEntrySequence s.
Proof.
  intros E. split; [exact (f_equal (fun t => snd (fst (fst (fst t)))) E)|].
  split; [exact (f_equal (fun t => snd (fst (fst t))) E)|].
  exact (f_equal (fun t => snd (fst t)) E).
Qed.


End Dispatcher.

(** * Properties of TypeVisitorCallbackPipeline *)

Section PipelineProperties.

Context {World ErrorInfo CVType CVMemberRecord KnownRecord : Type}.
Context {TypeRecordName MemberRecordName : Type}.

Local Notation "'Callbacks'" :=
  (TypeVisitorCallbacks World ErrorInfo CVType CVMemberRecord KnownRecord
     TypeRecordName MemberRecordName).
Local Notation "'Call'" :=
  (Visit CVType CVMemberRecord KnownRecord TypeRecordName MemberRecordName).

(** Every method of the pipeline is the loop over its visitors. *)
Lemma visited_Pipeline (Pipeline : list Callbacks) (v : Call) (w : World) :
  visited (TypeVisitorCallbackPipeline Pipeline) v w =
  for_each_Visitor Pipeline (fun Visitor => visited Visitor v) w.
Proof. destruct v; reflexivity. Qed.

Lemma for_each_Visitor_app (P1 P2 : list Callbacks)
    (visit : Callbacks -> World -> Error ErrorInfo * World) (w : World) :
  for_each_Visitor (P1 ++ P2) visit w =
  match for_each_Visitor P1 visit w with
  | (Some EC, w') => (Some EC, w')
  | (None, w') => for_each_Visitor P2 visit w'
  end.
Proof.
  revert w. induction P1 as [|V P1 IH]; intros w; cbn [app for_each_Visitor].
  - reflexivity.
  - destruct (visit V w) as [[EC|] w']; [reflexivity | apply IH].
Qed.

Lemma for_each_Visitor_one (V : Callbacks)
    (visit : Callbacks -> World -> Error ErrorInfo * World) (w : World) :
  for_each_Visitor [V] visit w = visit V w.
Proof.
  cbn [for_each_Visitor]. destruct (visit V w) as [[EC|] w']; reflexivity.
Qed.

(** A pipeline run is the run of its first visitors and, when none of
    them failed, the run of the others from the world they left; so a
    callback added by [addCallbackToPipeline] runs last, and only when every
    visitor before it has succeeded. *)
Theorem Pipeline_append (P1 P2 : list Callbacks) (Added : Callbacks) (v : Call) (w : World) :
  visited (TypeVisitorCallbackPipeline (P1 ++ P2)) v w =
    match visited (TypeVisitorCallbackPipeline P1) v w with
    | (Some EC, w') => (Some EC, w')
    | (None, w') => visited (TypeVisitorCallbackPipeline P2) v w'
    end /\
  visited (TypeVisitorCallbackPipeline (addCallbackToPipeline P1 Added)) v w =
    match visited (TypeVisitorCallbackPipeline P1) v w with
    | (Some EC, w') => (Some EC, w')
    | (None, w') => visited Added v w'
    end.
Proof.
  unfold addCallbackToPipeline. rewrite !visited_Pipeline, !for_each_Visitor_app.
  split.
  - destruct (for_each_Visitor P1 _ w) as [[EC|] w']; [reflexivity|].
    rewrite visited_Pipeline. reflexivity.
  - destruct (for_each_Visitor P1 _ w) as [[EC|] w']; [reflexivity|].
    apply for_each_Visitor_one.
Qed.

(** The error of a pipeline is the first error of its visitors. An empty
    pipeline succeeds and leaves the world as it is. A pipeline fails with
    [EC] exactly when one of its visitors fails with [EC] after every
    visitor before it has succeeded; the world is the one this visitor
    leaves: no visitor after it is called. *)
Theorem Pipeline_first_error (Pipeline : list Callbacks) (v : Call) (w w' : World)
    (EC : ErrorInfo) :
  visited (TypeVisitorCallbackPipeline (@nil Callbacks)) v w = (Error_success, w) /\
  (visited (TypeVisitorCallbackPipeline Pipeline) v w = (Some EC, w') <->
   exists (P1 : list Callbacks) (Visitor : Callbacks) (P2 : list Callbacks) (w1 : World),
     Pipeline = P1 ++ Visitor :: P2 /\
     visited (TypeVisitorCallbackPipeline P1) v w = (Error_success, w1) /\
     visited Visitor v w1 = (Some EC, w')).
Proof.
  split; [rewrite visited_Pipeline; reflexivity|].
  split.
  - rewrite visited_Pipeline. revert w.
    induction Pipeline as [|V P IH]; intros w H; cbn [for_each_Visitor] in H.
    + discriminate H.
    + destruct (visited V v w) as [[EC0|] w0] eqn:EV.
      * exists [], V, P, w. split; [reflexivity|].
        split; [rewrite visited_Pipeline; reflexivity|].
        rewrite EV. exact H.
      * destruct (IH w0 H) as (P1 & V' & P2 & w1 & -> & H1 & H2).
        exists (V :: P1), V', P2, w1. split; [reflexivity|]. split; [|exact H2].
        rewrite visited_Pipeline in *. cbn [for_each_Visitor]. rewrite EV. exact H1.
  - intros (P1 & V & P2 & w1 & -> & H1 & H2).
    rewrite visited_Pipeline, for_each_Visitor_app.
    rewrite visited_Pipeline in H1. rewrite H1.
    cbn [for_each_Visitor]. rewrite H2. reflexivity.
Qed.

(** When a pipeline succeeds, every one of its visitors was called, in the
    order of the pipeline, each in the world the one before it left, and
    every one succeeded. *)
Theorem Pipeline_success (P1 : list Callbacks) (Visitor : Callbacks) (P2 : list Callbacks)
    (v : Call) (w w' : World) :
  visited (TypeVisitorCallbackPipeline (P1 ++ Visitor :: P2)) v w = (Error_success, w') ->
  exists w1 w2 : World,
    visited (TypeVisitorCallbackPipeline P1) v w = (Error_success, w1) /\
    visited Visitor v w1 = (Error_success, w2) /\
    visited (TypeVisitorCallbackPipeline P2) v w2 = (Error_success, w').
Proof.
  rewrite !visited_Pipeline, for_each_Visitor_app.
  destruct (for_each_Visitor P1 _ w) as [[EC|] w1]; [discriminate|].
  cbn [for_each_Visitor].
  destruct (visited Visitor v w1) as [[EC|] w2] eqn:EV; [discriminate|].
  intros H. exists w1, w2.
  split; [reflexivity|]. split; [exact EV|]. rewrite visited_Pipeline. exact H.
Qed.

(** A pipeline is a visitor: put into another pipeline it runs as if its
    visitors stood there in its place. *)
Theorem Pipeline_nested (P1 Inner P2 : list Callbacks) (v : Call) (w : World) :
  visited (TypeVisitorCallbackPipeline (P1 ++ TypeVisitorCallbackPipeline Inner :: P2)) v w =
  visited (TypeVisitorCallbackPipeline (P1 ++ Inner ++ P2)) v w.
Proof.
  rewrite !visited_Pipeline, !for_each_Visitor_app.
  destruct (for_each_Visitor P1 _ w) as [[EC|] w1]; [reflexivity|].
  cbn [for_each_Visitor]. rewrite visited_Pipeline, for_each_Visitor_app.
  destruct (for_each_Visitor Inner _ w1) as [[EC|] w2]; reflexivity.
Qed.

End PipelineProperties.

(** * Concrete runs *)

Lemma example_CrossOver_contract : CrossOver_contract example_CrossOver.
Proof.
  intros Data1 Size1 Data2 Size2 Out MaxOutSize R H1 H2 H3 H4.
  unfold example_CrossOver.
  destruct Data1 as [|x Data1], Out as [|y Out]; simpl; split; try lia; reflexivity.
Qed.

(** C1 at work: [Mutate_EraseBytes] on 8 bytes returns 4. *)
Lemma DefaultMutators_size_in_range_witness :
  (exists (n : Z) (s' : State),
     call example_CrossOver None None Fn_EraseBytes 8 8
       (example_state [3; 1; 4; 1; 5] [1; 2; 3; 4; 5; 6; 7; 8]) = Some (n, s') /\
     n <> 0 /\ 1 <= n <= 8) /\
  returns (call example_CrossOver None None Fn_EraseBytes 8 8)
    (example_state [3; 1; 4; 1; 5] [1; 2; 3; 4; 5; 6; 7; 8])
    (fun n _ => n = 0 \/ 1 <= n <= 8).
Proof.
  destruct (DefaultMutators_size_in_range example_CrossOver None None
              (mkMutator Fn_EraseBytes "EraseBytes")
              (example_state [3; 1; 4; 1; 5] [1; 2; 3; 4; 5; 6; 7; 8]) 8 8
              (or_introl eq_refl) ltac:(lia) ltac:(vm_compute; discriminate))
    as [Hsize Hreturns].
  split.
  - exists 4. eexists. split; [vm_compute; reflexivity|]. split; [discriminate|].
    eapply Hsize; [vm_compute; reflexivity | discriminate].
  - eapply returns_weaken.
    + apply Hreturns; [exact example_CrossOver_contract|].
      split; [lia|]. split; [vm_compute; discriminate|]. split; [vm_compute; discriminate|].
      split; [intros [| |]; constructor | discriminate].
    + intros n s' [Hn _]. exact Hn.
Defined.

(** C7 at work: erasing from 8 bytes leaves at least one. *)
Lemma Mutate_EraseBytes_spec_witness :
  returns (Mutate_EraseBytes 8 8)
    (example_state [3; 1; 4; 1; 5] [1; 2; 3; 4; 5; 6; 7; 8])
    (fun NewSize _ => 1 <= NewSize <= 7).
Proof.
  eapply returns_weaken.
  - apply (Mutate_EraseBytes_spec
             (example_state [3; 1; 4; 1; 5] [1; 2; 3; 4; 5; 6; 7; 8]) 8 8).
    + lia.
    + vm_compute. discriminate.
    + vm_compute. discriminate.
  - intros NewSize s' [(H & _) | (_ & N & Idx & HN & _ & _ & -> & H1 & _)]; lia.
Defined.

(** C3 refuted: with exactly 3 bytes of headroom ([Size = 5], [MaxSize = 8])
    [Mutate_InsertRepeatedBytes] returns 0. *)
Lemma Mutate_InsertRepeatedBytes_headroom_3 :
  ~ (8 - 5 < 3) /\
  Mutate_InsertRepeatedBytes 5 8 (example_state [3; 1; 4; 1; 5] [1; 2; 3; 4; 5; 6; 7; 8]) =
  Some (0, example_state [3; 1; 4; 1; 5] [1; 2; 3; 4; 5; 6; 7; 8]).
Proof. split; [lia | reflexivity]. Qed.

(** C3 at work: with 4 bytes of headroom the insertion succeeds. *)
Lemma Mutate_InsertRepeatedBytes_spec_witness :
  returns (Mutate_InsertRepeatedBytes 4 8)
    (example_state [3; 1; 4; 1; 5] [1; 2; 3; 4; 5; 6; 7; 8])
    (fun NewSize _ => 7 <= NewSize <= 8).
Proof.
  eapply returns_weaken.
  - apply (Mutate_InsertRepeatedBytes_spec
             (example_state [3; 1; 4; 1; 5] [1; 2; 3; 4; 5; 6; 7; 8]) 4 8).
    + lia.
    + vm_compute. discriminate.
    + vm_compute. discriminate.
  - intros NewSize s' [(H & _) | (_ & N & Idx & B & HN & _ & _ & -> & _)]; lia.
Defined.

(** C9 at work: a word of 3 bytes and an input of 10 bytes. Inserted with
    [MaxSize = 14], it gives 13 bytes, the word among the bytes of the
    input; written over the input with [MaxSize = 12], it gives 10 bytes.
    Either way the use counter of the entry goes from 0 to 1 and the entry
    is recorded. The insertion with [MaxSize = 12] returns 0 and leaves the
    buffer as it was. *)
Lemma AddWordFromDictionary_spec_witness :
  returns (AddWordFromDictionary Manual 10 14)
    (set_Dictionary Manual [mkDictionaryEntry [65; 66; 67] None 0 0]
       (example_state [0; 1; 5] [1; 2; 3; 4; 5; 6; 7; 8; 9; 10; 0; 0; 0; 0]))
    (fun NewSize s' =>
       NewSize = 13 /\
       ManualDictionary s' = [mkDictionaryEntry [65; 66; 67] None 1 0] /\
       CurrentDictionaryEntrySequence s' = [(Manual, 0%nat)] /\
       exists Idx : Z,
         0 <= Idx <= 10 /\
         firstn 13 (Data s') =
           firstn (nat_of Idx) [1; 2; 3; 4; 5; 6; 7; 8; 9; 10; 0; 0; 0; 0] ++
           [65; 66; 67] ++ skipn (nat_of Idx) [1; 2; 3; 4; 5; 6; 7; 8; 9; 10]) /\
  returns (AddWordFromDictionary Manual 10 12)
    (set_Dictionary Manual [mkDictionaryEntry [65; 66; 67] None 0 0]
       (example_state [0; 0; 5] [1; 2; 3; 4; 5; 6; 7; 8; 9; 10; 0; 0]))
    (fun NewSize s' =>
       NewSize = 10 /\
       ManualDictionary s' = [mkDictionaryEntry [65; 66; 67] None 1 0] /\
       CurrentDictionaryEntrySequence s' = [(Manual, 0%nat)] /\
       exists Idx : Z,
         0 <= Idx /\ Idx + 3 <= 10 /\
         Data s' =
           firstn (nat_of Idx) [1; 2; 3; 4; 5; 6; 7; 8; 9; 10; 0; 0] ++
           [65; 66; 67] ++ skipn (nat_of (Idx + 3)) [1; 2; 3; 4; 5; 6; 7; 8; 9; 10; 0; 0]) /\
  returns (AddWordFromDictionary Manual 10 12)
    (set_Dictionary Manual [mkDictionaryEntry [65; 66; 67] None 0 0]
       (example_state [0; 1; 5] [1; 2; 3; 4; 5; 6; 7; 8; 9; 10; 0; 0]))
    (fun NewSize s' =>
       NewSize = 0 /\ Data s' = [1; 2; 3; 4; 5; 6; 7; 8; 9; 10; 0; 0] /\
       ManualDictionary s' = [mkDictionaryEntry [65; 66; 67] None 0 0]).
Proof.
  split; [|split].
  - destruct (AddWordFromDictionary_spec
                (set_Dictionary Manual [mkDictionaryEntry [65; 66; 67] None 0 0]
                   (example_state [0; 1; 5] [1; 2; 3; 4; 5; 6; 7; 8; 9; 10; 0; 0; 0; 0]))
                Manual 10 14) as (DE & HDE & H).
    + lia.
    + vm_compute. discriminate.
    + vm_compute. discriminate.
    + discriminate.
    + constructor; [|constructor].
      split; [vm_compute; discriminate|].
      split; [intros h Hh; discriminate Hh|].
      split; vm_compute; [discriminate | reflexivity].
    + vm_compute in HDE. injection HDE as <-. cbv zeta in H.
      eapply returns_weaken; [exact H|].
      intros NewSize s' (Hn & _ & _ & _ & Hrest).
      vm_compute in Hn. subst NewSize.
      change (13 =? 0) with false in Hrest. cbv iota in Hrest.
      destruct Hrest as (HD & _ & Hseq & Idx & HI0 & Hc).
      split; [reflexivity|]. split; [exact HD|]. split; [exact Hseq|].
      exists Idx. destruct Hc as (HI1 & Hf & _).
      split; [split; [exact HI0 | exact HI1] | exact Hf].
  - destruct (AddWordFromDictionary_spec
                (set_Dictionary Manual [mkDictionaryEntry [65; 66; 67] None 0 0]
                   (example_state [0; 0; 5] [1; 2; 3; 4; 5; 6; 7; 8; 9; 10; 0; 0]))
                Manual 10 12) as (DE & HDE & H).
    + lia.
    + vm_compute. discriminate.
    + vm_compute. discriminate.
    + discriminate.
    + constructor; [|constructor].
      split; [vm_compute; discriminate|].
      split; [intros h Hh; discriminate Hh|].
      split; vm_compute; [discriminate | reflexivity].
    + vm_compute in HDE. injection HDE as <-. cbv zeta in H.
      eapply returns_weaken; [exact H|].
      intros NewSize s' (Hn & _ & _ & _ & Hrest).
      vm_compute in Hn. subst NewSize.
      change (10 =? 0) with false in Hrest. cbv iota in Hrest.
      destruct Hrest as (HD & _ & Hseq & Idx & HI0 & Hc).
      split; [reflexivity|]. split; [exact HD|]. split; [exact Hseq|].
      exists Idx. destruct Hc as (HI1 & Hf).
      split; [exact HI0|]. split; [exact HI1 | exact Hf].
  - destruct (AddWordFromDictionary_spec
                (set_Dictionary Manual [mkDictionaryEntry [65; 66; 67] None 0 0]
                   (example_state [0; 1; 5] [1; 2; 3; 4; 5; 6; 7; 8; 9; 10; 0; 0]))
                Manual 10 12) as (DE & HDE & H).
    + lia.
    + vm_compute. discriminate.
    + vm_compute. discriminate.
    + discriminate.
    + constructor; [|constructor].
      split; [vm_compute; discriminate|].
      split; [intros h Hh; discriminate Hh|].
      split; vm_compute; [discriminate | reflexivity].
    + vm_compute in HDE. injection HDE as <-. cbv zeta in H.
      eapply returns_weaken; [exact H|].
      intros NewSize s' (Hn & _ & _ & _ & Hrest).
      vm_compute in Hn. subst NewSize.
      change (0 =? 0) with true in Hrest. cbv iota in Hrest.
      destruct Hrest as (HD & _ & HData).
      split; [reflexivity|]. split; [exact HData | exact HD].
Defined.

(** C6 at work: from an empty input and 8 bytes of capacity, with
    [OnlyASCII], [Mutate] returns 8 printable bytes. *)
Lemma Mutate_empty_input_witness :
  returns (Mutate true example_CrossOver None None 0 8)
    (example_state [3; 1; 4; 1; 5; 9; 2; 6; 5; 3; 5; 8; 9; 7; 9; 3]
       [1; 2; 3; 4; 5; 6; 7; 8])
    (fun NewSize s' => NewSize = 8 /\ Forall (fun b => isprint b = true) (Data s')).
Proof.
  eapply returns_weaken.
  - apply (Mutate_empty_input true example_CrossOver None None
             (example_state [3; 1; 4; 1; 5; 9; 2; 6; 5; 3; 5; 8; 9; 7; 9; 3]
                [1; 2; 3; 4; 5; 6; 7; 8]) 8).
    + lia.
    + vm_compute. discriminate.
  - intros NewSize s' (-> & _ & HD & HP). split; [reflexivity|].
    specialize (HP eq_refl). rewrite HD in *. exact HP.
Defined.

(** C8 at work: the first attempt picks [InsertByte], which returns 0 on a
    full buffer; the second picks [EraseBytes], which returns 7, and
    [MutateImpl] accepts it. *)
Lemma MutateImpl_retries_witness :
  exists s' : State,
    MutateImpl false example_CrossOver None None 8 8 DefaultMutators_list
      (example_state [1; 0; 0] [1; 2; 3; 4; 5; 6; 7; 8]) = Some (7, s') /\
    map Name (CurrentMutatorSequence s') = ["EraseBytes"%string].
Proof.
  eexists. split.
  - eapply (proj1 (MutateImpl_retries false example_CrossOver None None
                     (example_state [1; 0; 0] [1; 2; 3; 4; 5; 6; 7; 8]) 8 8
                     DefaultMutators_list ltac:(lia)) 1%nat).
    + lia.
    + econstructor; [vm_compute; reflexivity | constructor].
    + vm_compute. reflexivity.
    + discriminate.
    + vm_compute. split; discriminate.
  - reflexivity.
Defined.

(** C2 refuted: the chain used [A, B, A]; the success counter of [A] was 0
    and is 2 afterwards, that of [B] is 1. *)
Lemma RecordSuccessfulMutationSequence_counts_uses :
  exists s' : State,
    RecordSuccessfulMutationSequence example_make
      (set_CurrentDictionaryEntrySequence [(Manual, 0%nat); (Manual, 1%nat); (Manual, 0%nat)]
         (set_Dictionary Manual
            [mkDictionaryEntry [65] None 2 0; mkDictionaryEntry [66] None 1 0]
            (example_state [] []))) = Some (tt, s') /\
    map GetSuccessCount (ManualDictionary s') = [2; 1] /\
    map GetW (PersistentAutoDictionary s') = [[65]; [66]].
Proof. eexists. split; [vm_compute; reflexivity|]. split; reflexivity. Qed.

(** C2 at work, on the same chain. *)
Lemma RecordSuccessfulMutationSequence_A_B_A_witness :
  returns (RecordSuccessfulMutationSequence example_make)
    (set_CurrentDictionaryEntrySequence [(Manual, 0%nat); (Manual, 1%nat); (Manual, 0%nat)]
       (set_Dictionary Manual
          [mkDictionaryEntry [65] None 2 0; mkDictionaryEntry [66] None 1 0]
          (example_state [] [])))
    (fun _ s' =>
       nth_error (ManualDictionary s') 0 = Some (mkDictionaryEntry [65] None 2 2) /\
       nth_error (ManualDictionary s') 1 = Some (mkDictionaryEntry [66] None 1 1)).
Proof.
  eapply returns_weaken.
  - apply (RecordSuccessfulMutationSequence_A_B_A example_make (fun W n => eq_refl)
             (Manual, 0%nat) (Manual, 1%nat)
             (mkDictionaryEntry [65] None 2 0) (mkDictionaryEntry [66] None 1 0)).
    + reflexivity.
    + discriminate.
    + reflexivity.
    + reflexivity.
  - intros [] s' (HA & HB & _). split; [exact HA | exact HB].
Defined.

(** C5 refuted: a Word of the manual dictionary, used in a chain that is
    then recorded, enters the persistent dictionary. *)
Lemma PersistentAutoDictionary_holds_manual_word :
  exists s : State,
    reachable false example_make example_CrossOver None None s /\
    In [65; 66] (map GetW (PersistentAutoDictionary s)) /\
    In [65; 66] (map GetW (ManualDictionary s)).
Proof.
  eexists. split.
  - eapply reachable_step with (op := Op_RecordSuccessfulMutationSequence).
    + eapply reachable_step
        with (op := Op_Mutator Fn_AddWordFromManualDictionary [1; 2; 3; 4; 5; 6; 7; 8] 4 8).
      * eapply reachable_step with (op := Op_AddWordToManualDictionary [65; 66]).
        -- apply (reachable_new false example_make example_CrossOver None None
                    (Random_of [0; 1; 2])).
        -- vm_compute. reflexivity.
      * vm_compute. reflexivity.
    + vm_compute. reflexivity.
  - split; left; reflexivity.
Qed.

(** C5 at work: a dispatcher is given the word [AB] for its manual
    dictionary and the word [CD] for its temporary one; a chain uses [AB],
    [CD] and [AB] again and is recorded. The persistent dictionary holds
    [AB] and [CD], each once, and the report lists the entry of [CD] and not
    that of [AB]. *)
Lemma PersistentAutoDictionary_deduplicated_witness :
  exists s : State,
    reachable false example_make example_CrossOver None None s /\
    map GetW (ManualDictionary s) = [[65; 66]] /\
    map GetW (PersistentAutoDictionary s) = [[65; 66]; [67; 68]] /\
    NoDup (map GetW (PersistentAutoDictionary s)) /\
    returns PrintRecommendedDictionary s (fun V _ =>
      In (example_make [67; 68] 1) V /\ ~ In (example_make [65; 66] 1) V).
Proof.
  eexists.
  match goal with
  | |- reachable _ _ _ _ _ ?s /\ _ =>
      assert (Hr : reachable false example_make example_CrossOver None None s)
  end.
  { eapply reachable_step with (op := Op_RecordSuccessfulMutationSequence).
      - eapply reachable_step
          with (op := Op_Mutator Fn_AddWordFromManualDictionary [1; 2; 3; 4; 5; 6; 7; 8] 4 8).
        + eapply reachable_step
            with (op := Op_Mutator Fn_AddWordFromTemporaryAutoDictionary
                          [1; 2; 3; 4; 5; 6; 7; 8] 4 8).
          * eapply reachable_step
              with (op := Op_Mutator Fn_AddWordFromManualDictionary
                            [1; 2; 3; 4; 5; 6; 7; 8] 4 8).
            -- eapply reachable_step
                 with (op := Op_AddWordToAutoDictionary (example_make [67; 68] 0)).
               ++ eapply reachable_step with (op := Op_AddWordToManualDictionary [65; 66]).
                  ** apply (reachable_new false example_make example_CrossOver None None
                              (Random_of [0; 1; 2; 0; 0; 1; 0; 1; 0])).
                  ** vm_compute. reflexivity.
               ++ vm_compute. reflexivity.
            -- vm_compute. reflexivity.
          * vm_compute. reflexivity.
        + vm_compute. reflexivity.
      - vm_compute. reflexivity. }
  split; [exact Hr|].
  destruct (PersistentAutoDictionary_deduplicated false example_make (fun W n => eq_refl)
              example_CrossOver None None _ Hr) as [H1 H2].
  split; [reflexivity|]. split; [reflexivity|]. split; [exact H1|].
  eapply returns_weaken; [exact H2|].
  intros V s' [_ HV]. split.
  - apply HV. split; [right; left; reflexivity|].
    intros [Heq | []]. discriminate Heq.
  - intros HIn. apply HV in HIn. destruct HIn as [_ Hn].
    apply Hn. left. reflexivity.
Defined.

(** C10 at work: a fresh dispatcher takes a word into its empty temporary
    dictionary. *)
Lemma TempAutoDictionary_bounded_witness :
  len (TempAutoDictionary (MutationDispatcher None None (Random_of []))) <= 16384 /\
  AddWordToAutoDictionary (mkDictionaryEntry [65] None 0 0)
    (MutationDispatcher None None (Random_of [])) =
  Some (tt, set_Dictionary TempAuto [mkDictionaryEntry [65] None 0 0]
              (MutationDispatcher None None (Random_of []))).
Proof.
  destruct (TempAutoDictionary_bounded false example_make example_CrossOver None None
              (MutationDispatcher None None (Random_of []))
              (reachable_new false example_make example_CrossOver None None (Random_of [])))
    as (H1 & H2 & _).
  split; [exact H1|]. exact (H2 (mkDictionaryEntry [65] None 0 0)).
Defined.

(** The copy strategies at work: the input [1; 2; 3; 4] crossed with the
    corpus entry [7; 7] by strategy (b): the unit returned has 8 bytes. *)
Lemma Mutate_CrossOver_copy_strategies_witness :
  returns (Mutate_CrossOver example_CrossOver 4 8)
    (set_Corpus (Some [[9; 9; 9]; [7; 7]])
       (example_state [1; 1; 2; 0; 1] [1; 2; 3; 4; 5; 6; 7; 8]))
    (fun NewSize _ => NewSize = 8).
Proof.
  eapply returns_weaken.
  - apply (Mutate_CrossOver_copy_strategies example_CrossOver
             (set_Corpus (Some [[9; 9; 9]; [7; 7]])
                (example_state [1; 1; 2; 0; 1] [1; 2; 3; 4; 5; 6; 7; 8]))
             [[9; 9; 9]; [7; 7]] [7; 7] 4 8).
    + reflexivity.
    + vm_compute. discriminate.
    + lia.
    + vm_compute. discriminate.
    + vm_compute. discriminate.
    + reflexivity.
    + discriminate.
    + vm_compute. discriminate.
    + vm_compute. discriminate.
  - intros NewSize s' (-> & _). reflexivity.
Defined.

(** C4, the failing run: crossed with the corpus entry [7; 7] by strategy
    (b), the input [1; 2; 3; 4] gives the unit [0; 0; 7; 0; 0; 0; 0; 0],
    the scratch vector with one byte of the entry, and so does the input
    [50; 60; 70; 80]: no byte of the current input is in the unit
    returned. *)
Lemma Mutate_CrossOver_drops_input :
  (exists s' : State,
     Mutate_CrossOver example_CrossOver 4 8
       (set_Corpus (Some [[9; 9; 9]; [7; 7]])
          (example_state [1; 1; 2; 0; 1] [1; 2; 3; 4; 5; 6; 7; 8])) = Some (8, s') /\
     Data s' = [0; 0; 7; 0; 0; 0; 0; 0]) /\
  (exists s' : State,
     Mutate_CrossOver example_CrossOver 4 8
       (set_Corpus (Some [[9; 9; 9]; [7; 7]])
          (example_state [1; 1; 2; 0; 1] [50; 60; 70; 80; 0; 0; 0; 0])) = Some (8, s') /\
     Data s' = [0; 0; 7; 0; 0; 0; 0; 0]).
Proof.
  split; eexists; (split; [vm_compute; reflexivity | reflexivity]).
Qed.

(** ** Further runs *)

(** [Mutate_InsertByte] at work: the byte 65 inserted at offset 2 of
    [1; 2; 3; 4]. *)
Lemma Mutate_InsertByte_spec_witness :
  returns (Mutate_InsertByte 4 8) (example_state [2; 1; 65] [1; 2; 3; 4; 0; 0; 0; 0])
    (fun NewSize s' => NewSize = 5 /\ Data s' = [1; 2; 65; 3; 4; 0; 0; 0]).
Proof.
  eapply returns_weaken.
  - apply (Mutate_InsertByte_spec (example_state [2; 1; 65] [1; 2; 3; 4; 0; 0; 0; 0]) 4 8).
    + lia.
    + vm_compute. discriminate.
    + vm_compute. discriminate.
  - intros NewSize s' H. cbv zeta in H. change (4 =? 8) with false in H. cbv iota in H.
    destruct H as (-> & _ & _ & ->). split; reflexivity.
Defined.

(** [Mutate_ChangeByte] at work: the byte at offset 2 becomes 65. *)
Lemma Mutate_ChangeByte_spec_witness :
  returns (Mutate_ChangeByte 4 8) (example_state [2; 1; 65] [1; 2; 3; 4; 0; 0; 0; 0])
    (fun NewSize s' => NewSize = 4 /\ Data s' = [1; 2; 65; 4; 0; 0; 0; 0]).
Proof.
  destruct (Mutate_ChangeByte_spec (example_state [2; 1; 65] [1; 2; 3; 4; 0; 0; 0; 0]) 4 8)
    as (x & _ & H).
  - split; [lia | vm_compute; discriminate].
  - eapply returns_weaken; [exact H|].
    intros NewSize s' (-> & _ & _ & -> & _). split; reflexivity.
Defined.

(** [Mutate_ChangeBit] at work: bit 5 of the byte 3 at offset 2 is
    inverted, which gives 35. *)
Lemma Mutate_ChangeBit_flips_one_bit_witness :
  returns (Mutate_ChangeBit 4 8) (example_state [2; 5] [1; 2; 3; 4; 0; 0; 0; 0])
    (fun NewSize s' => NewSize = 4 /\ Data s' = [1; 2; 35; 4; 0; 0; 0; 0] /\
                       Data s' <> [1; 2; 3; 4; 0; 0; 0; 0]).
Proof.
  destruct (Mutate_ChangeBit_flips_one_bit
              (example_state [2; 5] [1; 2; 3; 4; 0; 0; 0; 0]) 4 8) as (x & Hx & H).
  - split; [lia | vm_compute; discriminate].
  - repeat (constructor; [lia|]). constructor.
  - vm_compute in Hx. injection Hx as <-.
    eapply returns_weaken; [exact H|].
    intros NewSize s' (-> & _ & _ & -> & _ & _ & Hne).
    split; [reflexivity|]. split; [reflexivity | exact Hne].
Defined.

(** [Mutate_ShuffleBytes] at work on 4 bytes: the buffer keeps its bytes
    after the fourth. *)
Lemma Mutate_ShuffleBytes_permutes_witness :
  returns (Mutate_ShuffleBytes 4 8) (example_state [2; 0; 0; 1; 0] [1; 2; 3; 4; 0; 0; 0; 0])
    (fun NewSize s' => NewSize = 4 /\ len (Data s') = 8).
Proof.
  eapply returns_weaken.
  - apply (Mutate_ShuffleBytes_permutes
             (example_state [2; 0; 0; 1; 0] [1; 2; 3; 4; 0; 0; 0; 0]) 4 8).
    + split; [lia | vm_compute; discriminate].
    + vm_compute. discriminate.
    + repeat (constructor; [lia|]). constructor.
  - intros NewSize s' (-> & Start & Amount & w & HA & HS & Hin & -> & HP).
    split; [reflexivity|].
    apply Permutation_length in HP.
    unfold len. rewrite !length_app, HP, !length_firstn, !length_skipn.
    cbn [Data example_state length]. unfold nat_of. lia.
Defined.

(** [InsertPartOf] at work: a slice of the unit [7; 8; 9] put into 4 bytes
    of input gives more than 4 bytes, and no more than the 8 of the
    buffer. *)
Lemma InsertPartOf_spec_witness :
  returns (InsertPartOf (Const_ptr [7; 8; 9]) (len [7; 8; 9]) Data_ptr 4 8)
    (example_state [1; 1; 2] [1; 2; 3; 4; 0; 0; 0; 0])
    (fun n _ => 4 < n <= 8).
Proof.
  eapply returns_weaken.
  - apply (InsertPartOf_spec [7; 8; 9] 4 8 (example_state [1; 1; 2] [1; 2; 3; 4; 0; 0; 0; 0])).
    + discriminate.
    + vm_compute. discriminate.
    + lia.
    + vm_compute. discriminate.
    + vm_compute. discriminate.
  - intros n s' H. change (4 >=? 8) with false in H. cbv iota in H.
    destruct H as (Pos & C & FromBeg & HC & _ & _ & _ & -> & Hn & _). lia.
Defined.

(** [Mutate_CopyPart] at work: the buffer keeps its length. *)
Lemma Mutate_CopyPart_spec_witness :
  returns (Mutate_CopyPart 4 8) (example_state [0; 1; 1; 2] [1; 2; 3; 4; 0; 0; 0; 0])
    (fun _ s' => len (Data s') = 8).
Proof.
  eapply returns_weaken.
  - apply (Mutate_CopyPart_spec (example_state [0; 1; 1; 2] [1; 2; 3; 4; 0; 0; 0; 0]) 4 8).
    + lia.
    + vm_compute. discriminate.
    + vm_compute. discriminate.
  - intros NewSize s' (Hl & _). rewrite Hl. reflexivity.
Defined.

(** [Bswap] at work on [uint16_t]: 258, [0x0102], swapped twice. *)
Lemma Bswap_involutive_witness : Bswap 2 (Bswap 2 258) = 258.
Proof.
  apply (proj1 (Bswap_involutive 2 258 ltac:(split; [lia | vm_compute; reflexivity]))).
Defined.

(** [Mutate_ChangeBinaryInteger] at work on 4 bytes of input: the width is
    one of the four, and the buffer keeps its length. *)
Lemma Mutate_ChangeBinaryInteger_spec_witness :
  returns (Mutate_ChangeBinaryInteger 4 8)
    (example_state [1; 1; 13; 0; 0] [1; 2; 3; 4; 0; 0; 0; 0])
    (fun _ s' => len (Data s') = 8).
Proof.
  eapply returns_weaken.
  - apply (Mutate_ChangeBinaryInteger_spec
             (example_state [1; 1; 13; 0; 0] [1; 2; 3; 4; 0; 0; 0; 0]) 4 8).
    + split; [lia | vm_compute; discriminate].
    + vm_compute. discriminate.
    + repeat (constructor; [lia|]). constructor.
  - intros NewSize s' (_ & Hl & _). rewrite Hl. reflexivity.
Defined.

(** [Mutate_ChangeASCIIInteger] at work: in [a199bc] the integer 199 becomes
    200. *)
Lemma Mutate_ChangeASCIIInteger_spec_witness :
  returns (Mutate_ChangeASCIIInteger 6 8)
    (example_state [0; 0] [97; 49; 57; 57; 98; 99; 0; 0])
    (fun n s' => n = 0 \/ n = 6).
Proof.
  eapply returns_weaken.
  - apply (Mutate_ChangeASCIIInteger_spec
             (example_state [0; 0] [97; 49; 57; 57; 98; 99; 0; 0]) 6 8).
    + split; [lia | vm_compute; discriminate].
    + vm_compute. discriminate.
  - intros n s' [(-> & _) | (-> & _)]; [left | right]; reflexivity.
Defined.

(** The frame at work: [Mutate_EraseBytes] returns, and the bookkeeping is
    as before. *)
Lemma byte_mutators_keep_bookkeeping_witness :
  exists (n : Z) (s' : State),
    call example_CrossOver None None Fn_EraseBytes 8 8
      (example_state [3; 1; 4; 1; 5] [1; 2; 3; 4; 5; 6; 7; 8]) = Some (n, s') /\
    bookkeeping s' = bookkeeping (example_state [3; 1; 4; 1; 5] [1; 2; 3; 4; 5; 6; 7; 8]).
Proof.
  eexists. eexists. split; [vm_compute; reflexivity|].
  eapply (byte_mutators_keep_bookkeeping example_CrossOver None None Fn_EraseBytes 8 8
            (example_state [3; 1; 4; 1; 5] [1; 2; 3; 4; 5; 6; 7; 8]) eq_refl).
  vm_compute. reflexivity.
Defined.

(** [MutateImpl] at work on the default registry: it returns a size from 1
    to 8. *)
Lemma MutateImpl_returns_size_in_range_witness :
  returns (MutateImpl false example_CrossOver None None 8 8 DefaultMutators_list)
    (example_state [1; 0; 0] [1; 2; 3; 4; 5; 6; 7; 8])
    (fun n _ => 1 <= n <= 8).
Proof.
  eapply returns_weaken.
  - apply (proj1 (MutateImpl_returns_size_in_range false example_CrossOver None None
                    (example_state [1; 0; 0] [1; 2; 3; 4; 5; 6; 7; 8]) 8 8
                    DefaultMutators_list example_CrossOver_contract
                    ltac:(discriminate) (incl_refl _) ltac:(lia)
                    ltac:(split; [lia | vm_compute; discriminate])
                    ltac:(vm_compute; discriminate)
                    ltac:(intros [| |]; constructor) ltac:(discriminate))).
  - intros n s' [Hn _]. exact Hn.
Defined.

(** What [MutateImpl] records, at work on the default registry: the first
    attempt returns 0, the second returns 7 and is accepted; one mutator of
    the registry is recorded. *)
Lemma MutateImpl_records_witness :
  returns (MutateImpl false example_CrossOver None None 8 8 DefaultMutators_list)
    (example_state [1; 0; 0] [1; 2; 3; 4; 5; 6; 7; 8])
    (fun n s' =>
       n = 7 /\
       exists Mu : Mutator,
         In Mu DefaultMutators_list /\ CurrentMutatorSequence s' = [Mu] /\
         CurrentDictionaryEntrySequence s' = []).
Proof.
  pose proof (MutateImpl_records false example_CrossOver None None
                (example_state [1; 0; 0] [1; 2; 3; 4; 5; 6; 7; 8]) 8 8
                DefaultMutators_list example_CrossOver_contract
                ltac:(discriminate) (incl_refl _) ltac:(lia)
                ltac:(split; [lia | vm_compute; discriminate])
                ltac:(vm_compute; discriminate)
                ltac:(intros [| |]; constructor) ltac:(discriminate)) as H.
  unfold returns in *.
  destruct (MutateImpl false example_CrossOver None None 8 8 DefaultMutators_list
              (example_state [1; 0; 0] [1; 2; 3; 4; 5; 6; 7; 8]))
    as [[n s']|] eqn:E; [|contradiction].
  vm_compute in E. injection E as Hn Hs. subst n.
  change (8 =? 0) with false in H. cbv iota in H.
  destruct H as [(k & s1 & Mu & s2 & _ & _ & _ & _ & HIn & _ & Hacc) | (H8 & _)];
    [|discriminate H8].
  split; [reflexivity|]. exists Mu. split; [exact HIn|].
  destruct Hacc as (Mu' & [<- | []] & _ & Hb).
  destruct (dictionary_of (Fn Mu)) as [D|].
  - destruct Hb as (i & DE & Hnth & _).
    destruct D, i; discriminate Hnth.
  - apply bookkeeping_inv in Hb. destruct Hb as (_ & HM & HD).
    split; [exact HM | exact HD].
Defined.

(** The registries of a new dispatcher without callbacks. *)
Lemma registry_invariant_witness :
  DefaultMutators (MutationDispatcher None None (Random_of [])) = DefaultMutators_list /\
  Mutators (MutationDispatcher None None (Random_of [])) <> [].
Proof.
  destruct (registry_invariant false example_make example_CrossOver None None
              (MutationDispatcher None None (Random_of []))
              (reachable_new false example_make example_CrossOver None None (Random_of [])))
    as (HD & HM & _).
  split; [exact HD | exact HM].
Defined.

(** [AddWordToManualDictionary] at work: the manual dictionary gets the
    word at its end. *)
Lemma dictionaries_only_grow_witness :
  exists l : list Word,
    map GetW (ManualDictionary
                (set_Dictionary Manual [example_make [65; 66] SIZE_MAX]
                   (MutationDispatcher None None (Random_of [])))) =
    map GetW (ManualDictionary (MutationDispatcher None None (Random_of []))) ++ l.
Proof.
  apply (dictionaries_only_grow false example_make (fun _ _ => eq_refl) example_CrossOver
           None None (Op_AddWordToManualDictionary [65; 66])
           (MutationDispatcher None None (Random_of []))
           (set_Dictionary Manual [example_make [65; 66] SIZE_MAX]
              (MutationDispatcher None None (Random_of []))) eq_refl).
Defined.

(** A word of the manual dictionary that the persistent dictionary holds as
    well is not recommended. *)
Lemma manual_words_never_recommended_witness :
  returns PrintRecommendedDictionary
    (set_Dictionary PersistentAuto [example_make [65; 66] 1]
       (set_Dictionary Manual [example_make [65; 66] SIZE_MAX]
          (MutationDispatcher None None (Random_of []))))
    (fun V _ => ~ In [65; 66] (map GetW V)).
Proof.
  eapply returns_weaken.
  - apply (manual_words_never_recommended false example_make (fun _ _ => eq_refl)
             example_CrossOver None None [65; 66]
             (set_Dictionary PersistentAuto [example_make [65; 66] 1]
                (set_Dictionary Manual [example_make [65; 66] SIZE_MAX]
                   (MutationDispatcher None None (Random_of []))))
             (set_Dictionary PersistentAuto [example_make [65; 66] 1]
                (set_Dictionary Manual [example_make [65; 66] SIZE_MAX]
                   (MutationDispatcher None None (Random_of []))))).
    + vm_compute. reflexivity.
    + apply reaches_refl.
  - intros V s' [_ H]. exact H.
Defined.

(** [Mutate_CustomCrossOver] without a corpus: 0, and nothing changes. *)
Lemma Mutate_CustomCrossOver_spec_witness :
  Mutate_CustomCrossOver None 4 8 (example_state [] [1; 2; 3; 4; 0; 0; 0; 0]) =
  Some (0, example_state [] [1; 2; 3; 4; 0; 0; 0; 0]).
Proof.
  apply (proj1 (Mutate_CustomCrossOver_spec None
                  (example_state [] [1; 2; 3; 4; 0; 0; 0; 0]) 4 8 ltac:(lia))).
  left. reflexivity.
Defined.

(** [AddWordFromDictionary] at work: a word of 3 bytes written over an
    input of 10 bytes; the word is in the buffer afterwards. *)
Lemma AddWordFromDictionary_writes_word_witness :
  returns (AddWordFromDictionary Manual 10 12)
    (set_Dictionary Manual [mkDictionaryEntry [65; 66; 67] None 0 0]
       (example_state [0; 0; 5] [1; 2; 3; 4; 5; 6; 7; 8; 9; 10; 0; 0]))
    (fun n s' =>
       n = 10 /\
       exists Idx : Z,
         0 <= Idx /\ Idx + 3 <= 10 /\
         firstn 3 (skipn (nat_of Idx) (Data s')) = [65; 66; 67]).
Proof.
  pose proof (AddWordFromDictionary_writes_word
                (set_Dictionary Manual [mkDictionaryEntry [65; 66; 67] None 0 0]
                   (example_state [0; 0; 5] [1; 2; 3; 4; 5; 6; 7; 8; 9; 10; 0; 0]))
                Manual 10 12) as H.
  cbv zeta in H.
  change (nth_error
            (get_Dictionary Manual
               (set_Dictionary Manual [mkDictionaryEntry [65; 66; 67] None 0 0]
                  (example_state [0; 0; 5] [1; 2; 3; 4; 5; 6; 7; 8; 9; 10; 0; 0])))
            (nat_of (fst (Random_upto
               (Rand_ (set_Dictionary Manual [mkDictionaryEntry [65; 66; 67] None 0 0]
                  (example_state [0; 0; 5] [1; 2; 3; 4; 5; 6; 7; 8; 9; 10; 0; 0])))
               (len (get_Dictionary Manual
                  (set_Dictionary Manual [mkDictionaryEntry [65; 66; 67] None 0 0]
                     (example_state [0; 0; 5] [1; 2; 3; 4; 5; 6; 7; 8; 9; 10; 0; 0]))))))))
    with (Some (mkDictionaryEntry [65; 66; 67] None 0 0)) in H.
  cbv iota in H.
  assert (Hv : valid_call
                 (set_Dictionary Manual [mkDictionaryEntry [65; 66; 67] None 0 0]
                    (example_state [0; 0; 5] [1; 2; 3; 4; 5; 6; 7; 8; 9; 10; 0; 0])) 10 12).
  { split; [lia|]. split; [vm_compute; discriminate|]. split; [vm_compute; discriminate|].
    split; [|discriminate].
    intros [| |]; [|constructor|constructor].
    constructor; [|constructor].
    split; [vm_compute; discriminate|].
    split; [intros h Hh; discriminate Hh|].
    split; vm_compute; [discriminate | reflexivity]. }
  specialize (H Hv). unfold returns in *.
  destruct (AddWordFromDictionary Manual 10 12
              (set_Dictionary Manual [mkDictionaryEntry [65; 66; 67] None 0 0]
                 (example_state [0; 0; 5] [1; 2; 3; 4; 5; 6; 7; 8; 9; 10; 0; 0])))
    as [[n s']|] eqn:E; [|contradiction].
  vm_compute in E. injection E as Hn Hs. subst n.
  destruct H as [(H0 & _) | (_ & Idx & HI0 & HI1 & HW & _)]; [discriminate H0|].
  split; [reflexivity|]. exists Idx.
  split; [exact HI0|]. split; [exact HI1 | exact HW].
Defined.

(** [RecordSuccessfulMutationSequence] at work on the chain [A; B; A]: the
    chain is left as it is. *)
Lemma RecordSuccessfulMutationSequence_spec_witness :
  returns (RecordSuccessfulMutationSequence example_make)
    (set_CurrentDictionaryEntrySequence [(Manual, 0%nat); (Manual, 1%nat); (Manual, 0%nat)]
       (set_Dictionary Manual
          [mkDictionaryEntry [65] None 2 0; mkDictionaryEntry [66] None 1 0]
          (example_state [] [])))
    (fun _ s' =>
       nth_error (ManualDictionary s') 0 = Some (mkDictionaryEntry [65] None 2 2) /\
       CurrentDictionaryEntrySequence s' =
       [(Manual, 0%nat); (Manual, 1%nat); (Manual, 0%nat)]).
Proof.
  eapply returns_weaken.
  - apply (RecordSuccessfulMutationSequence_spec example_make (fun _ _ => eq_refl)
             (set_CurrentDictionaryEntrySequence
                [(Manual, 0%nat); (Manual, 1%nat); (Manual, 0%nat)]
                (set_Dictionary Manual
                   [mkDictionaryEntry [65] None 2 0; mkDictionaryEntry [66] None 1 0]
                   (example_state [] [])))).
    intros p [<- | [<- | [<- | []]]]; eexists; reflexivity.
  - intros [] s' (HC & Hseq & _). split; [|exact Hseq].
    exact (HC (Manual, 0%nat) (mkDictionaryEntry [65] None 2 0) eq_refl).
Defined.

(** A pipeline of two visitors that succeed, each counting its call in a
    world that is a number. *)
Lemma Pipeline_success_witness :
  exists w1 w2 : nat,
    visited (TypeVisitorCallbackPipeline (@nil (TypeVisitorCallbacks nat nat unit unit unit unit unit)))
      (TypeBegin unit unit unit unit unit tt) 0%nat = (Error_success, w1) /\
    visited (mkTypeVisitorCallbacks nat nat unit unit unit unit unit
               (fun _ w => (None, S w)) (fun _ w => (None, S w)) (fun _ w => (None, S w))
               (fun _ w => (None, S w)) (fun _ w => (None, S w)) (fun _ w => (None, S w))
               (fun _ _ _ w => (None, S w)) (fun _ _ _ w => (None, S w)))
      (TypeBegin unit unit unit unit unit tt) w1 = (Error_success, w2) /\
    visited (TypeVisitorCallbackPipeline
               [mkTypeVisitorCallbacks nat nat unit unit unit unit unit
                  (fun _ w => (None, S w)) (fun _ w => (None, S w)) (fun _ w => (None, S w))
                  (fun _ w => (None, S w)) (fun _ w => (None, S w)) (fun _ w => (None, S w))
                  (fun _ _ _ w => (None, S w)) (fun _ _ _ w => (None, S w))])
      (TypeBegin unit unit unit unit unit tt) w2 = (Error_success, 2%nat).
Proof.
  apply (Pipeline_success []
           (mkTypeVisitorCallbacks nat nat unit unit unit unit unit
              (fun _ w => (None, S w)) (fun _ w => (None, S w)) (fun _ w => (None, S w))
              (fun _ w => (None, S w)) (fun _ w => (None, S w)) (fun _ w => (None, S w))
              (fun _ _ _ w => (None, S w)) (fun _ _ _ w => (None, S w)))
           [mkTypeVisitorCallbacks nat nat unit unit unit unit unit
              (fun _ w => (None, S w)) (fun _ w => (None, S w)) (fun _ w => (None, S w))
              (fun _ w => (None, S w)) (fun _ w => (None, S w)) (fun _ w => (None, S w))
              (fun _ _ _ w => (None, S w)) (fun _ _ _ w => (None, S w))]
           (TypeBegin unit unit unit unit unit tt) 0%nat 2%nat eq_refl).
Defined.

